(** * gtn: differentiable weighted finite-state transducers

    A shallow embedding of [gtn/functions.cpp]: the item algebra
    ([negate], [add], [subtract]), [clone] with [projectInput] and
    [projectOutput], [closure], [sum], [remove], [compose] with its
    reachability pass [findReachable], [logadd], [forward] and
    [forwardGrad], together with the properties of these functions.

    Arithmetic.  The C++ code computes on [float].  Every function below is
    written once, over an interface [FloatOps] of the operations the code
    uses ([+], [-], [*], [exp], [log1p], [==], [<], ...), so that whatever is
    proved without assumptions on the interface holds for every arithmetic,
    IEEE included.  Two instances are given.  [binary32_ops] is IEEE single
    precision, with the arithmetic of the standard library's [SpecFloat] and
    with [std::exp] and [std::log1p], which are library code, as parameters;
    the laws of [logadd] are proved for it.  [xreal] is the reals extended
    with NaN and the two infinities, in which the operations are exact and
    rounding is absent; statements that speak of exact values (a
    log-sum-exp, a derivative) are proved for it.

    Indices.  Node and arc indices are [nat]; an [int] array holding the
    sentinel [-1] is a list of [option nat]; an [int] counter that the code
    decrements and compares with zero is a [Z]. *)

From Stdlib Require Import ZArith List Bool Lia Reals Lra.
From Stdlib Require Floats.SpecFloat.
From stdpp Require Import base list gmap.

Module gtn.

(** ** Errors *)

Inductive error : Set :=
  | InvalidOperation
  | ShapeMismatch
  | CycleDetected
  | IndexOutOfRange.

Inductive result (A : Type) : Type :=
  | Ok (a : A)
  | Err (e : error).
Arguments Ok {A} a.
Arguments Err {A} e.

Definition rbind {A B : Type} (m : result A) (k : A → result B) : result B :=
  match m with
  | Ok a => k a
  | Err e => Err e
  end.

Notation "'do' x <- m ; k" := (rbind m (λ x, k))
  (at level 10, x name, m at level 100, k at level 200,
   format "'[v' 'do'  x  <-  m ;  '/' k ']'").

(** ** The operations on [float] used by functions.cpp *)

Class FloatOps (W : Type) : Type := {
  fzero : W;                (* the literal 0.0 *)
  fneginf : W;              (* -std::numeric_limits<float>::infinity() *)
  fadd : W → W → W;         (* a + b *)
  fsub : W → W → W;         (* a - b *)
  fmul : W → W → W;         (* a * b *)
  fneg : W → W;             (* -a *)
  fabs : W → W;             (* std::abs *)
  fexp : W → W;             (* std::exp *)
  flog1p : W → W;           (* std::log1p *)
  feqb : W → W → bool;      (* a == b *)
  fltb : W → W → bool       (* a < b *)
}.

(** [std::max(a, b)] is [(a < b) ? b : a]. *)
Definition fmax `{FloatOps W} (a b : W) : W := if fltb a b then b else a.

Definition epsilon : Z := 0.

Section Algebra.
Context {W : Type} `{FloatOps W}.

#[local] Instance W_inhabited : Inhabited W := populate fzero.

(** ** Graphs *)

Record Node : Type := mkNode { node_start : bool; node_accept : bool }.

Record Arc : Type := mkArc {
  arc_up : nat;
  arc_down : nat;
  arc_ilabel : Z;
  arc_olabel : Z;
  arc_weight : W
}.

(** Modelled from the spec: the class [Graph] (graph.h, graph.cpp) is not
    part of functions.cpp.  A graph is its nodes and arcs in insertion
    order, together with the ordered lists of start and of accept nodes;
    [in_] and [out] are the arc indices entering and leaving a node, in
    arc-insertion order. *)
Record Graph : Type := mkGraph {
  nodes_ : list Node;
  arcs_ : list Arc;
  start_ : list nat;
  accept_ : list nat
}.

Definition emptyGraph : Graph := mkGraph [] [] [] [].

Definition numNodes (g : Graph) : nat := length (nodes_ g).
Definition numArcs (g : Graph) : nat := length (arcs_ g).

Definition start (g : Graph) (n : nat) : bool :=
  default false (node_start <$> nodes_ g !! n).
Definition accept (g : Graph) (n : nat) : bool :=
  default false (node_accept <$> nodes_ g !! n).

Definition upNode (g : Graph) (a : nat) : nat := default 0 (arc_up <$> arcs_ g !! a).
Definition downNode (g : Graph) (a : nat) : nat := default 0 (arc_down <$> arcs_ g !! a).
Definition ilabel (g : Graph) (a : nat) : Z := default 0%Z (arc_ilabel <$> arcs_ g !! a).
Definition olabel (g : Graph) (a : nat) : Z := default 0%Z (arc_olabel <$> arcs_ g !! a).
Definition weight (g : Graph) (a : nat) : W := default fzero (arc_weight <$> arcs_ g !! a).

Definition out (g : Graph) (n : nat) : list nat :=
  filter (λ a, upNode g a = n) (seq 0 (numArcs g)).
Definition in_ (g : Graph) (n : nat) : list nat :=
  filter (λ a, downNode g a = n) (seq 0 (numArcs g)).
Definition numOut (g : Graph) (n : nat) : nat := length (out g n).
Definition numIn (g : Graph) (n : nat) : nat := length (in_ g n).

(** [addNode] returns the index [numNodes g] of the node it appends. *)
Definition addNode (s a : bool) (g : Graph) : Graph :=
  mkGraph (nodes_ g ++ [mkNode s a]) (arcs_ g)
    (if s then start_ g ++ [numNodes g] else start_ g)
    (if a then accept_ g ++ [numNodes g] else accept_ g).

Definition makeAccept (n : nat) (g : Graph) : Graph :=
  if accept g n then g
  else mkGraph (alter (λ nd, mkNode (node_start nd) true) n (nodes_ g))
         (arcs_ g) (start_ g) (accept_ g ++ [n]).

(** [addArc] returns the index [numArcs g] of the arc it appends. *)
Definition addArc (up down : nat) (il ol : Z) (w : W) (g : Graph) : Graph :=
  mkGraph (nodes_ g) (arcs_ g ++ [mkArc up down il ol w]) (start_ g) (accept_ g).

(** The overload [addArc(up, down, label)]: both labels, weight zero. *)
Definition addArcLabel (up down : nat) (l : Z) (g : Graph) : Graph :=
  addArc up down l l fzero g.

(** An item graph: two nodes, start 0 and accept 1, one arc 0 -> 1 with
    labels 0/0. *)
Definition itemGraph (w : W) : Graph :=
  addArc 0 1 0 0 w (addNode false true (addNode true false emptyGraph)).

Definition is_item (g : Graph) : bool :=
  match nodes_ g, arcs_ g, start_ g, accept_ g with
  | [mkNode true false; mkNode false true], [mkArc 0 1 il ol _], [0], [1] =>
      (il =? 0)%Z && (ol =? 0)%Z
  | _, _, _, _ => false
  end.

Definition item (g : Graph) : result W :=
  if is_item g then Ok (weight g 0) else Err InvalidOperation.

(** A graph is well formed when its arcs join existing nodes and its two
    node lists agree with the node flags. *)
Record wf (g : Graph) : Prop := mkWf {
  wf_up : ∀ a, a < numArcs g → upNode g a < numNodes g;
  wf_down : ∀ a, a < numArcs g → downNode g a < numNodes g;
  wf_start : start_ g = filter (λ n, start g n = true) (seq 0 (numNodes g));
  wf_accept_nodup : NoDup (accept_ g);
  wf_accept : ∀ n, n ∈ accept_ g ↔ accept g n = true
}.

(** [wf] as a check that computes. *)
Definition wfb (g : Graph) : bool :=
  forallb (λ a, (upNode g a <? numNodes g) && (downNode g a <? numNodes g))
    (seq 0 (numArcs g))
  && bool_decide (start_ g = filter (λ n, start g n = true) (seq 0 (numNodes g)))
  && bool_decide (NoDup (accept_ g))
  && forallb (λ n, (n <? numNodes g) && accept g n) (accept_ g)
  && forallb (λ n, implb (accept g n) (bool_decide (n ∈ accept_ g)))
       (seq 0 (numNodes g)).

(** ** The shared graph states and their gradient accumulators *)

(** Modelled from the spec: a [Graph] handle names a shared state that
    carries the graph, the flag [calcGrad] and the gradient accumulator
    (the weights of the gradient graph, absent until the first
    [addGrad]). *)
Definition handle : Set := nat.

Record State : Type := mkState {
  st_graph : Graph;
  st_calcGrad : bool;
  st_grad : option (list W)
}.

Definition store : Type := gmap handle State.

Definition weights (g : Graph) : list W := arc_weight <$> arcs_ g.

(** Modelled from the spec: [Graph::addGrad(std::vector<float>)].  Nothing
    is written unless [calcGrad] is set; the first call installs the
    vector, later calls add to it element by element; a vector of the
    wrong size is a ShapeMismatch. *)
Definition addGrad (h : handle) (other : list W) (σ : store) : result store :=
  match σ !! h with
  | None => Err IndexOutOfRange
  | Some st =>
      if st_calcGrad st then
        if decide (length other = numArcs (st_graph st)) then
          let acc := match st_grad st with
                     | None => other
                     | Some old => zip_with fadd old other
                     end in
          Ok (<[h := mkState (st_graph st) true (Some acc)]> σ)
        else Err ShapeMismatch
      else Ok σ
  end.

(** [Graph::addGrad(const Graph&)] adds the arc weights of its argument. *)
Definition addGradGraph (h : handle) (other : Graph) (σ : store) : result store :=
  addGrad h (weights other) σ.

Definition grad (σ : store) (h : handle) : option (list W) :=
  σ !! h ≫= st_grad.

(** A graph produced by an operation, with its autograd record: the input
    handles and the backward closure. *)
Record Taped : Type := mkTaped {
  t_graph : Graph;
  t_inputs : list handle;
  t_gradFunc : list handle → Graph → store → result store
}.

Definition deref (σ : store) (h : handle) : result Graph :=
  match σ !! h with
  | Some st => Ok (st_graph st)
  | None => Err IndexOutOfRange
  end.

(** ** negate, add, subtract *)

Definition negate_graph (other : Graph) : result Graph :=
  do w <- item other; Ok (itemGraph (fneg w)).

Definition negate_gradFunc (inputs : list handle) (deltas : Graph) (σ : store)
  : result store :=
  do nd <- negate_graph deltas;
  addGradGraph (inputs !!! 0) nd σ.

Definition negate (σ : store) (other : handle) : result Taped :=
  do g <- deref σ other;
  do r <- negate_graph g;
  Ok (mkTaped r [other] negate_gradFunc).

Definition add_gradFunc (inputs : list handle) (deltas : Graph) (σ : store)
  : result store :=
  do σ1 <- addGradGraph (inputs !!! 0) deltas σ;
  addGradGraph (inputs !!! 1) deltas σ1.

Definition add (σ : store) (lhs rhs : handle) : result Taped :=
  do gl <- deref σ lhs;
  do gr <- deref σ rhs;
  do wl <- item gl;
  do wr <- item gr;
  Ok (mkTaped (itemGraph (fadd wl wr)) [lhs; rhs] add_gradFunc).

Definition subtract_gradFunc (inputs : list handle) (deltas : Graph) (σ : store)
  : result store :=
  do σ1 <- addGradGraph (inputs !!! 0) deltas σ;
  do nd <- negate_graph deltas;
  addGradGraph (inputs !!! 1) nd σ1.

Definition subtract (σ : store) (lhs rhs : handle) : result Taped :=
  do gl <- deref σ lhs;
  do gr <- deref σ rhs;
  do wl <- item gl;
  do wr <- item gr;
  Ok (mkTaped (itemGraph (fsub wl wr)) [lhs; rhs] subtract_gradFunc).

(** ** closure *)

Definition closure_graph (graph : Graph) : Graph :=
  let closed := addNode true true emptyGraph in
  let closed :=
    fold_left (λ c n, addNode false (accept graph n) c)
      (seq 0 (numNodes graph)) closed in
  let closed :=
    fold_left (λ c a,
        addArc (upNode graph a + 1) (downNode graph a + 1)
          (ilabel graph a) (olabel graph a) (weight graph a) c)
      (seq 0 (numArcs graph)) closed in
  fold_left (λ c s,
      fold_left (λ c a, addArcLabel (a + 1) (s + 1) epsilon c)
        (accept_ graph) (addArcLabel 0 (s + 1) epsilon c))
    (start_ graph) closed.

(** The arcs of [closure_graph] in closed form: the shifted arcs of the
    input, then the epsilon arcs. *)
Definition closure_arc (g : Graph) (a : nat) : Arc :=
  mkArc (upNode g a + 1) (downNode g a + 1) (ilabel g a) (olabel g a) (weight g a).

Definition closure_epsilons (g : Graph) : list Arc :=
  s ← start_ g;
  mkArc 0 (s + 1) epsilon epsilon fzero
    :: ((λ a, mkArc (a + 1) (s + 1) epsilon epsilon fzero) <$> accept_ g).

Definition closure_gradFunc (inputs : list handle) (deltas : Graph) (σ : store)
  : result store :=
  match σ !! (inputs !!! 0) with
  | None => Err IndexOutOfRange
  | Some st =>
      if st_calcGrad st then
        let grad := (λ i, weight deltas i) <$> seq 0 (numArcs (st_graph st)) in
        addGrad (inputs !!! 0) grad σ
      else Ok σ
  end.

Definition closure (σ : store) (graph : handle) : result Taped :=
  do g <- deref σ graph;
  Ok (mkTaped (closure_graph g) [graph] closure_gradFunc).

(** ** remove *)

Definition label_match (other : Graph) (il ol : Z) (a : nat) : bool :=
  (ilabel other a =? il)%Z && (olabel other a =? ol)%Z.

(** The first loop of [remove]: the node map ([-1] is [None]) and the new
    graph with one node per kept node. *)
Definition remove_nodes (other : Graph) (il ol : Z) : list (option nat) * Graph :=
  fold_left (λ '(nodes, graph) n,
      if start other n || negb (forallb (label_match other il ol) (in_ other n))
      then (<[n := Some (numNodes graph)]> nodes, addNode (start other n) false graph)
      else (nodes, graph))
    (seq 0 (numNodes other))
    (replicate (numNodes other) None, emptyGraph).

(** The body of [for (auto a : other.out(next))].  The arc is added from
    [n], the loop variable of the enclosing [for], as the source has it.
    A non-matching arc enters a kept node, so [nodes[dn]] is never [-1]. *)
Definition remove_arc (other : Graph) (il ol : Z) (nodes : list (option nat))
    (n : nat) (st : Graph * list nat * gset nat) (a : nat)
  : Graph * list nat * gset nat :=
  let '(graph, toExplore, reachable) := st in
  let dn := downNode other a in
  if label_match other il ol a then
    if decide (dn ∈ reachable) then st
    else (graph, toExplore ++ [dn], {[dn]} ∪ reachable)
  else
    match nodes !! dn with
    | Some (Some d) =>
        (addArc n d (ilabel other a) (olabel other a) fzero graph, toExplore, reachable)
    | _ => st
    end.

(** The [while (!toExplore.empty())] loop; [None] when the fuel runs out. *)
Fixpoint remove_walk (fuel : nat) (other : Graph) (il ol : Z)
    (nodes : list (option nat)) (n curr : nat)
    (st : Graph * list nat * gset nat) : option (Graph * list nat * gset nat) :=
  match st with
  | (graph, [], reachable) => Some st
  | (graph, next :: toExplore, reachable) =>
      match fuel with
      | 0 => None
      | S fuel =>
          let graph := if accept other next then makeAccept curr graph else graph in
          remove_walk fuel other il ol nodes n curr
            (fold_left (remove_arc other il ol nodes n) (out other next)
               (graph, toExplore, reachable))
      end
  end.

(** [toExplore] is empty whenever an iteration of the outer [for] begins, so
    the walk runs only from the kept nodes. *)
Definition remove (other : Graph) (il ol : Z) : option Graph :=
  let '(nodes, graph) := remove_nodes other il ol in
  fold_left (λ acc n,
      graph ← acc;
      match nodes !! n with
      | Some (Some curr) =>
          '(graph, _, _) ← remove_walk (numArcs other + 2) other il ol nodes n curr
                             (graph, [n], {[n]});
          Some graph
      | _ => Some graph
      end)
    (seq 0 (numNodes other)) (Some graph).

Definition remove_label (other : Graph) (label : Z) : option Graph :=
  remove other label label.

(** ** compose *)

Definition toIndex (n1 n2 : nat) (g : Graph) : nat := n1 + numNodes g * n2.

Definition getb (l : list bool) (i : nat) : bool := default false (l !! i).

(** Mark a state and enqueue it when it was not marked. *)
Definition reach_mark (first : Graph) (un1 un2 : nat)
    (st : list bool * list (nat * nat)) : list bool * list (nat * nat) :=
  let '(reachable, toExplore) := st in
  let idx := toIndex un1 un2 first in
  (<[idx := true]> reachable,
   if getb reachable idx then toExplore else toExplore ++ [(un1, un2)]).

Definition findReachable_step (first second : Graph) (curr : nat * nat)
    (st : list bool * list (nat * nat)) : list bool * list (nat * nat) :=
  let '(st, epsilon_matched) :=
    fold_left (λ acc i,
        fold_left (λ '(st, em) j,
            if decide (olabel first i ≠ ilabel second j) then (st, em)
            else (reach_mark first (upNode first i) (upNode second j) st,
                  em || (olabel first i =? epsilon)%Z))
          (in_ second curr.2) acc)
      (in_ first curr.1) (st, false) in
  let st :=
    if negb epsilon_matched then
      fold_left (λ st i,
          if decide (olabel first i ≠ epsilon) then st
          else reach_mark first (upNode first i) curr.2 st)
        (in_ first curr.1) st
    else st in
  if negb epsilon_matched then
    fold_left (λ st j,
        if decide (ilabel second j ≠ epsilon) then st
        else reach_mark first curr.1 (upNode second j) st)
      (in_ second curr.2) st
  else st.

Fixpoint findReachable_loop (fuel : nat) (first second : Graph)
    (st : list bool * list (nat * nat)) : option (list bool) :=
  match st with
  | (reachable, []) => Some reachable
  | (reachable, curr :: toExplore) =>
      match fuel with
      | 0 => None
      | S fuel =>
          findReachable_loop fuel first second
            (findReachable_step first second curr (reachable, toExplore))
      end
  end.

Definition findReachable (first second : Graph) : option (list bool) :=
  let init :=
    fold_left (λ st f,
        fold_left (λ '(reachable, toExplore) s,
            (<[toIndex f s first := true]> reachable, toExplore ++ [(f, s)]))
          (accept_ second) st)
      (accept_ first)
      (replicate (numNodes first * numNodes second) false, []) in
  findReachable_loop
    (length (accept_ first) * length (accept_ second)
     + numNodes first * numNodes second + 1)
    first second init.

Record compose_state : Type := mkCompose {
  c_ngraph : Graph;
  c_newNodes : list (option nat);
  c_toExplore : list (nat * nat);
  c_gradInfo : list (Z * Z)
}.

(** What the three inner loops of [compose] share: skip an unreachable
    destination, build its node when it has none, add the arc and record
    where it came from. *)
Definition compose_arc (first second : Graph) (reachable : list bool)
    (currNode : option nat) (dn1 dn2 : nat) (il ol : Z) (w : W) (info : Z * Z)
    (st : compose_state) : compose_state :=
  let idx := toIndex dn1 dn2 first in
  if negb (getb reachable idx) then st
  else
    let st :=
      match default None (c_newNodes st !! idx) with
      | Some _ => st
      | None =>
          mkCompose
            (addNode (start first dn1 && start second dn2)
               (accept first dn1 && accept second dn2) (c_ngraph st))
            (<[idx := Some (numNodes (c_ngraph st))]> (c_newNodes st))
            (c_toExplore st ++ [(dn1, dn2)])
            (c_gradInfo st)
      end in
    match currNode, default None (c_newNodes st !! idx) with
    | Some cn, Some d =>
        mkCompose (addArc cn d il ol w (c_ngraph st)) (c_newNodes st)
          (c_toExplore st) (c_gradInfo st ++ [info])
    | _, _ => st
    end.

Definition compose_step (first second : Graph) (reachable : list bool)
    (curr : nat * nat) (st : compose_state) : compose_state :=
  let currNode := default None (c_newNodes st !! toIndex curr.1 curr.2 first) in
  let st :=
    fold_left (λ st i,
        fold_left (λ st j,
            if decide (olabel first i ≠ ilabel second j) then st
            else compose_arc first second reachable currNode
                   (downNode first i) (downNode second j)
                   (ilabel first i) (olabel second j)
                   (fadd (weight first i) (weight second j))
                   (Z.of_nat i, Z.of_nat j) st)
          (out second curr.2) st)
      (out first curr.1) st in
  let st :=
    fold_left (λ st i,
        if decide (olabel first i ≠ epsilon) then st
        else compose_arc first second reachable currNode
               (downNode first i) curr.2
               (ilabel first i) epsilon (weight first i)
               (Z.of_nat i, (-1)%Z) st)
      (out first curr.1) st in
  fold_left (λ st j,
      if decide (ilabel second j ≠ epsilon) then st
      else compose_arc first second reachable currNode
             curr.1 (downNode second j)
             epsilon (olabel second j) (weight second j)
             ((-1)%Z, Z.of_nat j) st)
    (out second curr.2) st.

Fixpoint compose_loop (fuel : nat) (first second : Graph) (reachable : list bool)
    (st : compose_state) : option compose_state :=
  match c_toExplore st with
  | [] => Some st
  | curr :: toExplore =>
      match fuel with
      | 0 => None
      | S fuel =>
          compose_loop fuel first second reachable
            (compose_step first second reachable curr
               (mkCompose (c_ngraph st) (c_newNodes st) toExplore (c_gradInfo st)))
      end
  end.

(** The composed graph with the provenance [gradInfo] of its arcs. *)
Definition compose (first second : Graph) : option (Graph * list (Z * Z)) :=
  reachable ← findReachable first second;
  let init :=
    fold_left (λ st s1,
        fold_left (λ st s2,
            let idx := toIndex s1 s2 first in
            if getb reachable idx then
              mkCompose
                (addNode true (accept first s1 && accept second s2) (c_ngraph st))
                (<[idx := Some (numNodes (c_ngraph st))]> (c_newNodes st))
                (c_toExplore st ++ [(s1, s2)])
                (c_gradInfo st)
            else st)
          (start_ second) st)
      (start_ first)
      (mkCompose emptyGraph (replicate (numNodes first * numNodes second) None) [] []) in
  st ← compose_loop
         (length (start_ first) * length (start_ second)
          + numNodes first * numNodes second + 1)
         first second reachable init;
  Some (c_ngraph st, c_gradInfo st).

(** ** forward *)

Definition neginf : W := fneginf.

Definition logadd (a b : W) : W :=
  if feqb a neginf then b
  else if feqb b neginf then a
  else fadd (fmax a b) (flog1p (fexp (fneg (fabs (fsub a b))))).

Definition getZ (l : list Z) (i : nat) : Z := default 0%Z (l !! i).
Definition getW (l : list W) (i : nat) : W := default fzero (l !! i).

Record fwd_state : Type := mkFwd {
  f_scores : list W;
  f_degrees : list Z;
  f_computed : list nat
}.

(** The body of [for (auto a : graph.out(n))]. *)
Definition forward_arc (graph : Graph) (score : W) (st : fwd_state) (a : nat)
  : fwd_state :=
  let dn := downNode graph a in
  let d := (getZ (f_degrees st) dn - 1)%Z in
  mkFwd
    (<[dn := logadd (fadd score (weight graph a)) (getW (f_scores st) dn)]>
       (f_scores st))
    (<[dn := d]> (f_degrees st))
    (if (d =? 0)%Z then f_computed st ++ [dn] else f_computed st).

Definition forward_step (graph : Graph) (n : nat) (st : fwd_state) : fwd_state :=
  fold_left (forward_arc graph (getW (f_scores st) n)) (out graph n) st.

Fixpoint forward_loop (fuel : nat) (graph : Graph) (st : fwd_state)
  : option fwd_state :=
  match f_computed st with
  | [] => Some st
  | n :: computed =>
      match fuel with
      | 0 => None
      | S fuel =>
          forward_loop fuel graph
            (forward_step graph n (mkFwd (f_scores st) (f_degrees st) computed))
      end
  end.

Definition forward_init (graph : Graph) : fwd_state :=
  fold_left (λ st n,
      mkFwd (<[n := fzero]> (f_scores st)) (f_degrees st)
        (if numIn graph n =? 0 then f_computed st ++ [n] else f_computed st))
    (start_ graph)
    (mkFwd (replicate (numNodes graph) neginf)
       ((λ n, Z.of_nat (numIn graph n)) <$> seq 0 (numNodes graph)) []).

(** The loop over the accept nodes: it throws at the first accept node that
    kept a positive degree. *)
Definition forward_accumulate (st : fwd_state) (accepts : list nat) : result W :=
  fold_left (λ acc a,
      do score <- acc;
      if (0 <? getZ (f_degrees st) a)%Z then Err CycleDetected
      else Ok (logadd score (getW (f_scores st) a)))
    accepts (Ok neginf).

Definition forward_fuel (graph : Graph) : nat :=
  length (start_ graph) + numArcs graph + 1.

(** The scores of the nodes and the scalar output; [None] only if the
    [while] loop were not to finish within [forward_fuel]. *)
Definition forward_scores (graph : Graph) : option (result (list W * W)) :=
  st ← forward_loop (forward_fuel graph) graph (forward_init graph);
  Some (do score <- forward_accumulate st (accept_ graph);
        Ok (f_scores st, score)).

(** ** forwardGrad *)

Record grad_state : Type := mkGrad {
  g_nodeGrads : list W;
  g_arcGrads : list W;
  g_degrees : list Z;
  g_computed : list nat
}.

(** The body of [for (auto a : input.in(n))]. *)
Definition forwardGrad_arc (input : Graph) (scores : list W) (score gradn : W)
    (st : grad_state) (a : nat) : grad_state :=
  let un := upNode input a in
  let arcGrad :=
    fmul gradn (fexp (fsub (fadd (weight input a) (getW scores un)) score)) in
  let d := (getZ (g_degrees st) un - 1)%Z in
  mkGrad
    (<[un := fadd (getW (g_nodeGrads st) un) arcGrad]> (g_nodeGrads st))
    (<[a := arcGrad]> (g_arcGrads st))
    (<[un := d]> (g_degrees st))
    (if (d =? 0)%Z then g_computed st ++ [un] else g_computed st).

Definition forwardGrad_step (input : Graph) (scores : list W) (n : nat)
    (st : grad_state) : grad_state :=
  fold_left
    (forwardGrad_arc input scores (getW scores n) (getW (g_nodeGrads st) n))
    (in_ input n) st.

Fixpoint forwardGrad_loop (fuel : nat) (input : Graph) (scores : list W)
    (st : grad_state) : option grad_state :=
  match g_computed st with
  | [] => Some st
  | n :: computed =>
      match fuel with
      | 0 => None
      | S fuel =>
          forwardGrad_loop fuel input scores
            (forwardGrad_step input scores n
               (mkGrad (g_nodeGrads st) (g_arcGrads st) (g_degrees st) computed))
      end
  end.

(** The loop over the accept nodes; [deltas.item()] is evaluated in its
    body. *)
Definition forwardGrad_init (input : Graph) (output : W) (deltas : Graph)
    (scores : list W) : result grad_state :=
  fold_left (λ acc n,
      do st <- acc;
      do d <- item deltas;
      Ok (mkGrad
            (<[n := fmul d (fexp (fsub (getW scores n) output))]> (g_nodeGrads st))
            (g_arcGrads st) (g_degrees st)
            (if numOut input n =? 0 then g_computed st ++ [n] else g_computed st)))
    (accept_ input)
    (Ok (mkGrad (replicate (numNodes input) fzero)
           (replicate (numArcs input) fzero)
           ((λ n, Z.of_nat (numOut input n)) <$> seq 0 (numNodes input)) [])).

Definition forwardGrad_fuel (input : Graph) : nat :=
  length (accept_ input) + numArcs input + 1.

(** The state of [forwardGrad] when its [while] loop ends. *)
Definition forwardGrad_walk (input : Graph) (output : W) (deltas : Graph)
    (scores : list W) : option (result grad_state) :=
  match forwardGrad_init input output deltas scores with
  | Err e => Some (Err e)
  | Ok st => Ok <$> forwardGrad_loop (forwardGrad_fuel input) input scores st
  end.

Definition forwardGrad (input : handle) (output : W) (deltas : Graph)
    (scores : list W) (σ : store) : option (result store) :=
  match deref σ input with
  | Err e => Some (Err e)
  | Ok g =>
      r ← forwardGrad_walk g output deltas scores;
      Some (do st <- r; addGrad input (g_arcGrads st) σ)
  end.

(** The closure that [forward] stores: it owns the scores and the output. *)
Definition forward_gradFunc (scores : list W) (output : W)
    (inputs : list handle) (deltas : Graph) (σ : store) : result store :=
  match forwardGrad (inputs !!! 0) output deltas scores σ with
  | Some r => r
  | None => Ok σ
  end.

Definition forward (σ : store) (graph : handle) : option (result Taped) :=
  match deref σ graph with
  | Err e => Some (Err e)
  | Ok g =>
      r ← forward_scores g;
      Some (do saved <- r;
            Ok (mkTaped (itemGraph saved.2) [graph]
                  (forward_gradFunc saved.1 saved.2)))
  end.

End Algebra.

Arguments Graph W : clear implicits.
Arguments Arc W : clear implicits.
Arguments State W : clear implicits.
Arguments store W : clear implicits.
Arguments Taped W : clear implicits.
Arguments fwd_state W : clear implicits.
Arguments grad_state W : clear implicits.
Arguments compose_state W : clear implicits.

(** ** Exact arithmetic: the reals with NaN and the two infinities *)

Inductive xreal : Type :=
  | NaN
  | NegInf
  | Fin (r : R)
  | PosInf.

Definition xadd (a b : xreal) : xreal :=
  match a, b with
  | NaN, _ | _, NaN => NaN
  | NegInf, PosInf | PosInf, NegInf => NaN
  | NegInf, _ | _, NegInf => NegInf
  | PosInf, _ | _, PosInf => PosInf
  | Fin x, Fin y => Fin (x + y)
  end.

Definition xneg (a : xreal) : xreal :=
  match a with
  | NaN => NaN
  | NegInf => PosInf
  | PosInf => NegInf
  | Fin x => Fin (- x)
  end.

Definition xsub (a b : xreal) : xreal := xadd a (xneg b).

(** The product of an infinity by [Fin x]: its sign is that of [x], and
    [0 * inf] is NaN. *)
Definition xscale (x : R) (pos : bool) : xreal :=
  if Rlt_dec 0 x then (if pos then PosInf else NegInf)
  else if Rlt_dec x 0 then (if pos then NegInf else PosInf)
  else NaN.

Definition xmul (a b : xreal) : xreal :=
  match a, b with
  | NaN, _ | _, NaN => NaN
  | Fin x, Fin y => Fin (x * y)
  | Fin x, PosInf | PosInf, Fin x => xscale x true
  | Fin x, NegInf | NegInf, Fin x => xscale x false
  | PosInf, PosInf | NegInf, NegInf => PosInf
  | PosInf, NegInf | NegInf, PosInf => NegInf
  end.

Definition xabs (a : xreal) : xreal :=
  match a with
  | NaN => NaN
  | NegInf | PosInf => PosInf
  | Fin x => Fin (Rabs x)
  end.

Definition xexp (a : xreal) : xreal :=
  match a with
  | NaN => NaN
  | NegInf => Fin 0
  | PosInf => PosInf
  | Fin x => Fin (exp x)
  end.

Definition xlog1p (a : xreal) : xreal :=
  match a with
  | NaN | NegInf => NaN
  | PosInf => PosInf
  | Fin x =>
      if Rlt_dec (-1) x then Fin (ln (1 + x))
      else if Req_dec_T x (-1) then NegInf
      else NaN
  end.

Definition xeqb (a b : xreal) : bool :=
  match a, b with
  | NegInf, NegInf | PosInf, PosInf => true
  | Fin x, Fin y => if Req_dec_T x y then true else false
  | _, _ => false
  end.

Definition xltb (a b : xreal) : bool :=
  match a, b with
  | NaN, _ | _, NaN => false
  | _, NegInf => false
  | NegInf, _ => true
  | PosInf, _ => false
  | Fin _, PosInf => true
  | Fin x, Fin y => if Rlt_dec x y then true else false
  end.

#[export] Instance xreal_ops : FloatOps xreal := {|
  fzero := Fin 0;
  fneginf := NegInf;
  fadd := xadd;
  fsub := xsub;
  fmul := xmul;
  fneg := xneg;
  fabs := xabs;
  fexp := xexp;
  flog1p := xlog1p;
  feqb := xeqb;
  fltb := xltb
|}.

(** ** IEEE single precision *)

Abbreviation spec_float := SpecFloat.spec_float.
Abbreviation S754_zero := SpecFloat.S754_zero.
Abbreviation S754_infinity := SpecFloat.S754_infinity.
Abbreviation S754_nan := SpecFloat.S754_nan.
Abbreviation S754_finite := SpecFloat.S754_finite.

(** [float] has 24 bits of precision and exponents below 128. *)
Definition b32_add : spec_float → spec_float → spec_float := SpecFloat.SFadd 24 128.
Definition b32_sub : spec_float → spec_float → spec_float := SpecFloat.SFsub 24 128.
Definition b32_mul : spec_float → spec_float → spec_float := SpecFloat.SFmul 24 128.

(** The [float] nearest to an integer. *)
Definition b32_of_Z (z : Z) : spec_float := SpecFloat.binary_normalize 24 128 z 0 false.

(** [std::exp] and [std::log1p] belong to the C library, not to
    functions.cpp: they are parameters of the instance. *)
Definition binary32_ops (libm_exp libm_log1p : spec_float → spec_float)
  : FloatOps spec_float := {|
  fzero := S754_zero false;
  fneginf := S754_infinity true;
  fadd := b32_add;
  fsub := b32_sub;
  fmul := b32_mul;
  fneg := SpecFloat.SFopp;
  fabs := SpecFloat.SFabs;
  fexp := libm_exp;
  flog1p := libm_log1p;
  feqb := SpecFloat.SFeqb;
  fltb := SpecFloat.SFltb
|}.

(** A coarse pair of library functions: [exp] is exact at the infinities
    and at NaN and returns 1 elsewhere, [log1p] is exact at zero, at
    [+inf] and at NaN and returns its argument elsewhere.  They serve to run
    [binary32_ops] on concrete inputs. *)
Definition coarse_exp (z : spec_float) : spec_float :=
  match z with
  | SpecFloat.S754_nan => S754_nan
  | SpecFloat.S754_infinity true => S754_zero false
  | SpecFloat.S754_infinity false => S754_infinity false
  | _ => b32_of_Z 1
  end.

Definition coarse_log1p (z : spec_float) : spec_float := z.

(** ** Walks, cycles and paths *)

Section Walks.
Context {W : Type} `{FloatOps W}.

(** [walk g u p v]: the arcs [p], in order, lead from node [u] to node [v]. *)
Inductive walk (g : Graph W) (u : nat) : list nat → nat → Prop :=
  | walk_nil : walk g u [] u
  | walk_snoc p w a :
      walk g u p w → a < numArcs g → upNode g a = w →
      walk g u (p ++ [a]) (downNode g a).

Fixpoint walkb (g : Graph W) (u : nat) (p : list nat) (v : nat) : bool :=
  match p with
  | [] => u =? v
  | a :: p => (a <? numArcs g) && (upNode g a =? u) && walkb g (downNode g a) p v
  end.

(** The labels along a walk, and a label sequence without its epsilons. *)
Definition ilabels (g : Graph W) (p : list nat) : list Z := ilabel g <$> p.
Definition olabels (g : Graph W) (p : list nat) : list Z := olabel g <$> p.
Definition elide (l : list Z) : list Z := filter (λ x, x ≠ epsilon) l.

(** A directed cycle is a closed walk with at least one arc (a self-loop
    is one). *)
Definition has_cycle (g : Graph W) : Prop := ∃ c p, p ≠ [] ∧ walk g c p c.
Definition acyclic (g : Graph W) : Prop := ∀ c p, walk g c p c → p = [].

(** [v] can reach an accept node along at least one arc. *)
Definition feeds_accept (g : Graph W) (v : nat) : Prop :=
  ∃ p a, p ≠ [] ∧ a ∈ accept_ g ∧ walk g v p a.

(** The paths of at most [k] arcs from a start node to [v], as lists of
    arc indices. *)
Fixpoint paths_to (g : Graph W) (k : nat) (v : nat) : list (list nat) :=
  (if start g v then [[]] else [])
  ++ match k with
     | 0 => []
     | S k => a ← in_ g v; (λ p, p ++ [a]) <$> paths_to g k (upNode g a)
     end.

(** All the paths from a start node to an accept node, each with the accept
    node it ends in. *)
Definition accepting_paths (g : Graph W) : list (nat * list nat) :=
  a ← accept_ g; (λ p, (a, p)) <$> paths_to g (numNodes g) a.

End Walks.

(** The log-sum-exp of the path scores, in exact arithmetic. *)
Definition toR (x : xreal) : R :=
  match x with
  | Fin r => r
  | _ => 0
  end.

Definition path_score (g : Graph xreal) (p : list nat) : R :=
  foldr (λ a acc, (toR (weight g a) + acc)%R) 0%R p.

Definition sumR (l : list R) : R := foldr Rplus 0%R l.

Definition logsumexp (l : list R) : xreal :=
  match l with
  | [] => NegInf
  | _ => Fin (ln (sumR (exp <$> l)))
  end.

Definition finite_weights (g : Graph xreal) : Prop :=
  ∀ a, a < numArcs g → ∃ r, weight g a = Fin r.

(** The value of a score on the probability scale. *)
Definition expx (x : xreal) : R :=
  match x with
  | Fin r => exp r
  | _ => 0
  end.

Definition good (x : xreal) : Prop := x = NegInf ∨ ∃ r, x = Fin r.

(** The sum over the paths of at most [k] arcs into [v]. *)
Definition path_sum (g : Graph xreal) (k v : nat) : R :=
  sumR ((λ p, exp (path_score g p)) <$> paths_to g k v).

(** ** The Kahn walk that forward and forwardGrad share

    Both functions keep an array of degrees and a queue.  Seen from the
    walk, an arc leaves [src a] and enters [dst a]: for [forward] these are
    [upNode] and [downNode], for [forwardGrad] the other way round. *)

Section Kahn.
Variables (M : nat) (src dst : nat → nat).

Definition karc (st : list Z * list nat) (a : nat) : list Z * list nat :=
  let d := (getZ st.1 (dst a) - 1)%Z in
  (<[dst a := d]> st.1, if (d =? 0)%Z then st.2 ++ [dst a] else st.2).

Definition adj (n : nat) : list nat := filter (λ a, src a = n) (seq 0 M).
Definition coadj (v : nat) : list nat := filter (λ a, dst a = v) (seq 0 M).

(** The arcs into [v] whose source the walk has not left yet. *)
Definition pending (popped : list nat) (v : nat) : list nat :=
  filter (λ a, src a ∉ popped) (coadj v).

Record KInv (N : nat) (seeds popped : list nat) (deg : list Z) (queue : list nat)
  : Prop := mkKInv {
  k_len : length deg = N;
  k_deg : ∀ v, v < N → getZ deg v = Z.of_nat (length (pending popped v));
  k_mem : ∀ v, v ∈ popped ++ queue
               ↔ v < N ∧ getZ deg v = 0%Z ∧ (coadj v = [] → v ∈ seeds);
  k_nodup : NoDup (popped ++ queue);
  k_topo : ∀ i v a, popped !! i = Some v → a < M → dst a = v →
                    ∃ j, j < i ∧ popped !! j = Some (src a)
}.

(** How many arcs of [l] enter [v]. *)
Definition cnt (l : list nat) (v : nat) : Z :=
  Z.of_nat (length (filter (λ a, dst a = v) l)).

(** The potential that bounds the number of iterations left. *)
Definition potential (st : list Z * list nat) : nat :=
  length st.2 + sum_list (Z.to_nat <$> st.1).

End Kahn.

(** ** Example graphs *)

(** Two item graphs, of 2.0 and of 3.0, behind the handles 0 and 1. *)
Definition item_store : store xreal :=
  <[1 := mkState (itemGraph (Fin 3)) true None]>
    (<[0 := mkState (itemGraph (Fin 2)) true None]> ∅).

(** The same two item graphs with [float] weights. *)
Definition item_store32 : store spec_float :=
  <[1 := mkState (itemGraph (b32_of_Z 3)) true None]>
    (<[0 := mkState (itemGraph (b32_of_Z 2)) true None]> ∅).

(** One arc 0 -> 1 with labels 1/1 from the start node to the accept
    node. *)
Definition single_arc : Graph xreal :=
  addArc 0 1 1 1 (Fin 1) (addNode false true (addNode true false emptyGraph)).

(** Node 0 has no arc and is not a start node, node 1 is the start node,
    node 2 the accept node; one arc 1 -> 2 with labels 1/1. *)
Definition shifted_arc : Graph xreal :=
  addArc 1 2 1 1 (Fin 1)
    (addNode false true (addNode true false (addNode false false emptyGraph))).

(** A: 0 -> 1 with labels 1/epsilon, 1 -> 2 with labels 2/3; start 0,
    accept 2.  B: 0 -> 1 with labels 3/4 and back 1 -> 0 with labels
    epsilon/9; start 0, accept 1. *)
Definition lost_A : Graph xreal :=
  addArc 1 2 2 3 (Fin 2) (addArc 0 1 1 0 (Fin 1)
    (addNode false true (addNode false false (addNode true false emptyGraph)))).
Definition lost_B : Graph xreal :=
  addArc 1 0 0 9 (Fin 0) (addArc 0 1 3 4 (Fin 3)
    (addNode false true (addNode true false emptyGraph))).

(** A: 0 -> 1 with labels 1/epsilon; start 0, accept 1.  B: 0 -> 1 with
    labels epsilon/2; start 0, accept 0 and 1. *)
Definition twice_A : Graph xreal :=
  addArc 0 1 1 0 (Fin 1) (addNode false true (addNode true false emptyGraph)).
Definition twice_B : Graph xreal :=
  addArc 0 1 0 2 (Fin 2) (addNode false true (addNode true true emptyGraph)).

(** Arcs 0 -> 2 and 1 -> 2; node 0 is the start node, node 2 the accept
    node, node 1 is neither. *)
Definition fork_graph : Graph xreal :=
  addArc 1 2 0 0 (Fin 0) (addArc 0 2 0 0 (Fin 0)
    (addNode false true (addNode false false (addNode true false emptyGraph)))).

(** Node 0 is start and accept; node 1 has a self-loop. *)
Definition loop_graph : Graph xreal :=
  addArc 1 1 0 0 (Fin 0) (addNode false false (addNode true true emptyGraph)).

(** Arcs 0 -> 1 and 1 -> 1; start 0, accept 1. *)
Definition loop_accept_graph : Graph xreal :=
  addArc 1 1 0 0 (Fin 0) (addArc 0 1 0 0 (Fin 0)
    (addNode false true (addNode true false emptyGraph))).

(** Arcs 0 -> 1 and 1 -> 2; start 0, accept 1; node 2 is a dead end. *)
Definition tail_graph : Graph xreal :=
  addArc 1 2 0 0 (Fin 0) (addArc 0 1 0 0 (Fin 0)
    (addNode false false (addNode false true (addNode true false emptyGraph)))).

(** The same graph with the weights [w0] and [w1] on its two arcs. *)
Definition tail_weights (w0 w1 : R) : Graph xreal :=
  addArc 1 2 0 0 (Fin w1) (addArc 0 1 0 0 (Fin w0)
    (addNode false false (addNode false true (addNode true false emptyGraph)))).

(** The diamond 0 -> 1 -> 3, 0 -> 2 -> 3 with weights 0, 0, 0 and ln 3;
    start 0, accept 3. *)
Definition diamond : Graph xreal :=
  addArc 2 3 0 0 (Fin (ln 3)) (addArc 1 3 0 0 (Fin 0)
    (addArc 0 2 0 0 (Fin 0) (addArc 0 1 0 0 (Fin 0)
      (addNode false true (addNode false false (addNode false false
        (addNode true false emptyGraph))))))).

(** The chain 0 -> 1 -> 2 with weights ln 2 and ln 3; start 0, accept 2. *)
Definition chain : Graph xreal :=
  addArc 1 2 0 0 (Fin (ln 3)) (addArc 0 1 0 0 (Fin (ln 2))
    (addNode false true (addNode false false (addNode true false emptyGraph)))).

(** Single-arc transducers: 0 -> 1 with labels 1/2 and weight 1/2, and
    0 -> 1 with labels 2/3 and weight 1/4. *)
Definition half_arc : Graph xreal :=
  addArc 0 1 1 2 (Fin (1 / 2)) (addNode false true (addNode true false emptyGraph)).
Definition quarter_arc : Graph xreal :=
  addArc 0 1 2 3 (Fin (1 / 4)) (addNode false true (addNode true false emptyGraph)).

(** One arc 0 -> 1 with labels 3/4 and weight 5; start 0, accept 1. *)
Definition eps_second : Graph xreal :=
  addArc 0 1 3 4 (Fin 5) (addNode false true (addNode true false emptyGraph)).

(** The store that holds one graph, behind the handle 0. *)
Definition store_of (g : Graph xreal) : store xreal :=
  <[0 := mkState g true None]> ∅.

(** One arc 0 -> 1 from the start node; no accept node. *)
Definition no_accept_graph : Graph xreal :=
  addArc 0 1 0 0 (Fin 1) (addNode false false (addNode true false emptyGraph)).

(** ** The invariant of the loop of forward *)

Section ForwardInvariant.
Context {W : Type} `{FloatOps W}.
Implicit Types g : Graph W.

(** The score of [v] before any arc is seen, and after the arcs [done]:
    the code folds [logadd] over the arcs into [v] in the order it meets
    them. *)
Definition score_init g (v : nat) : W := if start g v then fzero else neginf.

Definition score_rec g (scores : list W) (done : list nat) (v : nat) : W :=
  fold_left (λ acc a, logadd (fadd (getW scores (upNode g a)) (weight g a)) acc)
    (filter (λ a, downNode g a = v) done) (score_init g v).

Record FInv g (popped : list nat) (st : fwd_state W) : Prop := mkFInv {
  fi_kahn : KInv (numArcs g) (upNode g) (downNode g) (numNodes g) (start_ g)
              popped (f_degrees st) (f_computed st);
  fi_len : length (f_scores st) = numNodes g;
  fi_scores : ∀ v, v < numNodes g →
      getW (f_scores st) v = score_rec g (f_scores st) (popped ≫= out g) v
}.

End ForwardInvariant.

(** ** The invariant of the loop of forwardGrad *)

Section GradInvariant.
Context {W : Type} `{FloatOps W}.
Implicit Types g : Graph W.

(** The gradient that the walk writes for arc [a] when it leaves the
    destination of [a] with node gradient [gradn]. *)
Definition arc_grad g (scores : list W) (gradn : W) (a : nat) : W :=
  fmul gradn
    (fexp (fsub (fadd (weight g a) (getW scores (upNode g a)))
             (getW scores (downNode g a)))).

Definition grad_seed g (d output : W) (scores : list W) (u : nat) : W :=
  if decide (u ∈ accept_ g) then fmul d (fexp (fsub (getW scores u) output))
  else fzero.

(** A node drains when the reverse walk gets to leave it: an accept node
    without outgoing arcs does, and so does a node with outgoing arcs that
    all lead to nodes that drain. *)
Inductive drains g : nat → Prop :=
  | drains_accept n : n ∈ accept_ g → out g n = [] → drains g n
  | drains_out n :
      out g n ≠ [] → (∀ a, a ∈ out g n → drains g (downNode g a)) → drains g n.

Record GInv g (d output : W) (scores : list W) (popped : list nat)
    (st : grad_state W) : Prop := mkGInv {
  gi_kahn : KInv (numArcs g) (downNode g) (upNode g) (numNodes g) (accept_ g)
              popped (g_degrees st) (g_computed st);
  gi_len_nodes : length (g_nodeGrads st) = numNodes g;
  gi_len_arcs : length (g_arcGrads st) = numArcs g;
  gi_arc : ∀ a, a ∈ popped ≫= in_ g →
      getW (g_arcGrads st) a
      = arc_grad g scores (getW (g_nodeGrads st) (downNode g a)) a;
  gi_arc_zero : ∀ a, a < numArcs g → a ∉ popped ≫= in_ g →
      getW (g_arcGrads st) a = fzero;
  gi_node : ∀ u, u < numNodes g →
      getW (g_nodeGrads st) u
      = fold_left (λ acc a, fadd acc (getW (g_arcGrads st) a))
          (filter (λ a, upNode g a = u) (popped ≫= in_ g))
          (grad_seed g d output scores u)
}.
End GradInvariant.


(** ** clone, projectInput, projectOutput *)

Inductive Projection : Set := NONE | INPUT | OUTPUT.

Section MoreOperations.
Context {W : Type} `{FloatOps W}.

Definition clone_graph (other : Graph W) (projection : Projection) : Graph W :=
  let out :=
    fold_left (λ c n, addNode (start other n) (accept other n) c)
      (seq 0 (numNodes other)) emptyGraph in
  fold_left (λ c a,
      addArc (upNode other a) (downNode other a)
        (match projection with OUTPUT => olabel other a | _ => ilabel other a end)
        (match projection with INPUT => ilabel other a | _ => olabel other a end)
        (weight other a) c)
    (seq 0 (numArcs other)) out.

Definition clone_gradFunc (inputs : list handle) (deltas : Graph W) (σ : store W)
  : result (store W) :=
  addGradGraph (inputs !!! 0) deltas σ.

Definition clone (σ : store W) (other : handle) (projection : Projection)
  : result (Taped W) :=
  do g <- deref σ other;
  Ok (mkTaped (clone_graph g projection) [other] clone_gradFunc).

Definition projectInput (σ : store W) (other : handle) : result (Taped W) :=
  clone σ other INPUT.

Definition projectOutput (σ : store W) (other : handle) : result (Taped W) :=
  clone σ other OUTPUT.

(** ** sum *)

(** The body of [for (auto& graph : inputs)] in the backward closure of
    [sum]: the state is the store and [arcOffset]. *)
Definition sum_grad_step (deltas : Graph W) (acc : result (store W * nat))
    (h : handle) : result (store W * nat) :=
  do st <- acc;
  match st.1 !! h with
  | None => Err IndexOutOfRange
  | Some s =>
      do σ <- (if st_calcGrad s then
                 addGrad h ((λ a, weight deltas (a + st.2))
                              <$> seq 0 (numArcs (st_graph s))) st.1
               else Ok st.1);
      Ok (σ, st.2 + numArcs (st_graph s))
  end.

Definition sum_gradFunc (inputs : list handle) (deltas : Graph W) (σ : store W)
  : result (store W) :=
  do st <- fold_left (sum_grad_step deltas) inputs (Ok (σ, 0));
  Ok st.1.

(** The body of [for (auto& graph : graphs)]: the state is [summed] and
    [nodeOffset]. *)
Definition sum_step (st : Graph W * nat) (graph : Graph W) : Graph W * nat :=
  let summed :=
    fold_left (λ c n, addNode (start graph n) (accept graph n) c)
      (seq 0 (numNodes graph)) st.1 in
  let summed :=
    fold_left (λ c a,
        addArc (st.2 + upNode graph a) (st.2 + downNode graph a)
          (ilabel graph a) (olabel graph a) (weight graph a) c)
      (seq 0 (numArcs graph)) summed in
  (summed, st.2 + numNodes graph).

Definition sum_graph (graphs : list (Graph W)) : Graph W :=
  (fold_left sum_step graphs (emptyGraph, 0)).1.

Fixpoint deref_all (σ : store W) (hs : list handle) : result (list (Graph W)) :=
  match hs with
  | [] => Ok []
  | h :: hs => do g <- deref σ h; do gs <- deref_all σ hs; Ok (g :: gs)
  end.

Definition sum (σ : store W) (graphs : list handle) : result (Taped W) :=
  do gs <- deref_all σ graphs;
  Ok (mkTaped (sum_graph gs) graphs sum_gradFunc).

(** ** The backward closure of compose *)




End MoreOperations.

Section CloneForms.
Context {W : Type} `{FloatOps W}.

(** An arc as [clone] copies it. *)
Definition project_arc (projection : Projection) (a : Arc W) : Arc W :=
  mkArc (arc_up a) (arc_down a)
    (match projection with OUTPUT => arc_olabel a | _ => arc_ilabel a end)
    (match projection with INPUT => arc_ilabel a | _ => arc_olabel a end)
    (arc_weight a).

(** The projection that two successive clones amount to. *)
Definition project_then (p q : Projection) : Projection :=
  match p with NONE => q | _ => p end.

End CloneForms.

Section Defs2.
Context {W : Type} `{FloatOps W}.

(** The node lists of a graph built by [addNode] and [addArc] alone are in
    index order. *)
Definition ordered (g : Graph W) : Prop :=
  start_ g = filter (λ n, start g n = true) (seq 0 (numNodes g))
  ∧ accept_ g = filter (λ n, accept g n = true) (seq 0 (numNodes g)).

(** An arc as [sum] copies it, and the arcs of a sum in closed form. *)
Definition shift_arc (off : nat) (a : Arc W) : Arc W :=
  mkArc (off + arc_up a) (off + arc_down a) (arc_ilabel a) (arc_olabel a)
    (arc_weight a).

Fixpoint sum_arcs (off : nat) (gs : list (Graph W)) : list (Arc W) :=
  match gs with
  | [] => []
  | g :: gs => (shift_arc off <$> arcs_ g) ++ sum_arcs (off + numNodes g) gs
  end.

(** Where the nodes and the arcs of the [i]-th graph begin in the sum. *)
Definition nodeOffset (gs : list (Graph W)) (i : nat) : nat :=
  sum_list (numNodes <$> take i gs).
Definition arcOffset (gs : list (Graph W)) (i : nat) : nat :=
  sum_list (numArcs <$> take i gs).

End Defs2.

Section Defs3.
Context {W : Type} `{FloatOps W}.

(** What [addGrad] leaves in the accumulator. *)
Definition accumulate (old : option (list W)) (other : list W) : list W :=
  match old with
  | None => other
  | Some o => zip_with fadd o other
  end.

(** The state of a graph after [addGrad(other)]. *)
Definition with_grad (st : State W) (other : list W) : State W :=
  if st_calcGrad st
  then mkState (st_graph st) true (Some (accumulate (st_grad st) other))
  else st.

End Defs3.

Section Defs4.
Context {W : Type} `{FloatOps W}.

(** A node settles when the walk of [forward] gets to leave it: a start
    node without incoming arcs does, and so does a node with incoming arcs
    that all come from nodes that settle. *)
Inductive settles (g : Graph W) : nat → Prop :=
  | settles_start n : n ∈ start_ g → in_ g n = [] → settles g n
  | settles_in n :
      in_ g n ≠ [] → (∀ a, a ∈ in_ g n → settles g (upNode g a)) → settles g n.

End Defs4.

(** ** The states of a composition *)

Section ComposeGhost.
Context {W : Type} `{FloatOps W}.
Variables first second : Graph W.

(** From the state [(x, y)] an accept state can be reached: there are
    paths from [x] in the first graph and from [y] in the second graph to
    accept nodes, and the output labels of the one are the input labels of
    the other once the epsilons are left out. *)
Definition coreach (x y : nat) : Prop :=
  ∃ p q f s,
    walk first x p f ∧ walk second y q s
    ∧ f ∈ accept_ first ∧ s ∈ accept_ second
    ∧ elide (olabels first p) = elide (ilabels second q).

(** How many entries of [reachable] are still false, and how many entries
    of [newNodes] are still [-1]: with the length of the queue they bound the
    iterations left. *)
Definition unmarked (l : list bool) : nat := length (filter (λ b, b = false) l).
Definition unbuilt (l : list (option nat)) : nat := length (filter (λ o, o = None) l).

(** Where an arc of the composed graph comes from, given the state of
    every composed node: a pair of arcs with matching labels, an arc of the
    first graph with an epsilon output, or an arc of the second graph with an
    epsilon input. *)
Definition provenance (states : list (nat * nat)) (arc : Arc W) (info : Z * Z) : Prop :=
  (∃ i j, info = (Z.of_nat i, Z.of_nat j)
     ∧ i < numArcs first ∧ j < numArcs second
     ∧ olabel first i = ilabel second j
     ∧ states !! arc_up arc = Some (upNode first i, upNode second j)
     ∧ states !! arc_down arc = Some (downNode first i, downNode second j)
     ∧ arc_ilabel arc = ilabel first i ∧ arc_olabel arc = olabel second j
     ∧ arc_weight arc = fadd (weight first i) (weight second j))
  ∨ (∃ i y, info = (Z.of_nat i, (-1)%Z)
       ∧ i < numArcs first ∧ olabel first i = epsilon
       ∧ states !! arc_up arc = Some (upNode first i, y)
       ∧ states !! arc_down arc = Some (downNode first i, y)
       ∧ arc_ilabel arc = ilabel first i ∧ arc_olabel arc = epsilon
       ∧ arc_weight arc = weight first i)
  ∨ (∃ x j, info = ((-1)%Z, Z.of_nat j)
       ∧ j < numArcs second ∧ ilabel second j = epsilon
       ∧ states !! arc_up arc = Some (x, upNode second j)
       ∧ states !! arc_down arc = Some (x, downNode second j)
       ∧ arc_ilabel arc = epsilon ∧ arc_olabel arc = olabel second j
       ∧ arc_weight arc = weight second j).

(** The invariant of the loop of [findReachable]. *)
Record RInv (marked0 : list bool) (st : list bool * list (nat * nat)) : Prop := mkRInv {
  r_len : length st.1 = numNodes first * numNodes second;
  r_queue : ∀ x, x ∈ st.2 →
      x.1 < numNodes first ∧ x.2 < numNodes second ∧ coreach x.1 x.2;
  r_sound : ∀ x y, x < numNodes first → y < numNodes second →
      getb st.1 (toIndex x y first) = true → coreach x y;
  r_mono : ∀ i, getb marked0 i = true → getb st.1 i = true
}.

(** The state in which the loop of [findReachable] begins: all pairs of
    accept nodes. *)
Definition findReachable_seed (f : nat)
  : list bool * list (nat * nat) → nat → list bool * list (nat * nat) :=
  λ '(reachable, toExplore) s,
    (<[toIndex f s first := true]> reachable, toExplore ++ [(f, s)]).

Definition findReachable_init : list bool * list (nat * nat) :=
  fold_left (λ st f, fold_left (findReachable_seed f) (accept_ second) st)
    (accept_ first)
    (replicate (numNodes first * numNodes second) false, []).

(** The invariant of the loop of [compose]; [states] lists, for every
    node of the new graph, the state it stands for. *)
Record CInv (reachable : list bool) (states : list (nat * nat))
    (st : compose_state W) : Prop := mkCInv {
  c_len : length (c_newNodes st) = numNodes first * numNodes second;
  c_nodes : nodes_ (c_ngraph st)
            = (λ x, mkNode (start first x.1 && start second x.2)
                      (accept first x.1 && accept second x.2)) <$> states;
  c_ordered : ordered (c_ngraph st);
  c_map : ∀ x y k, x < numNodes first → y < numNodes second →
      c_newNodes st !! toIndex x y first = Some (Some k) ↔ states !! k = Some (x, y);
  c_range : ∀ k x, states !! k = Some x →
      x.1 < numNodes first ∧ x.2 < numNodes second
      ∧ getb reachable (toIndex x.1 x.2 first) = true;
  c_queue : ∀ x, x ∈ c_toExplore st → ∃ k, states !! k = Some x;
  c_info : length (c_gradInfo st) = numArcs (c_ngraph st);
  c_arcs : ∀ k arc info,
      arcs_ (c_ngraph st) !! k = Some arc → c_gradInfo st !! k = Some info →
      provenance states arc info
}.

End ComposeGhost.

Section ComposeMeasure.
Context {W : Type} `{FloatOps W}.

(** The bound on the iterations that the loop of [compose] has left. *)
Definition compose_measure (st : compose_state W) : nat :=
  length (c_toExplore st) + unbuilt (c_newNodes st).

(** The body of the two loops over the start nodes in [compose]. *)
Definition compose_seed (first second : Graph W) (reachable : list bool)
    (st : compose_state W) (x : nat * nat) : compose_state W :=
  let idx := toIndex x.1 x.2 first in
  if getb reachable idx then
    mkCompose
      (addNode true (accept first x.1 && accept second x.2) (c_ngraph st))
      (<[idx := Some (numNodes (c_ngraph st))]> (c_newNodes st))
      (c_toExplore st ++ [x])
      (c_gradInfo st)
  else st.

(** The arcs of the two graphs that a path of the composed graph runs
    through, read off [gradInfo]. *)
Definition compose_proj1 (gradInfo : list (Z * Z)) (P : list nat) : list nat :=
  k ← P;
  match gradInfo !! k with
  | Some (zi, _) => if (0 <=? zi)%Z then [Z.to_nat zi] else []
  | None => []
  end.

Definition compose_proj2 (gradInfo : list (Z * Z)) (P : list nat) : list nat :=
  k ← P;
  match gradInfo !! k with
  | Some (_, zj) => if (0 <=? zj)%Z then [Z.to_nat zj] else []
  | None => []
  end.

End ComposeMeasure.

Section ComposeGrad.
Context {W : Type} `{FloatOps W}.



End ComposeGrad.

(** ** What remove keeps and what it follows *)

Section RemoveGhost.
Context {W : Type} `{FloatOps W}.
Variables (other : Graph W) (il ol : Z).

(** The nodes that get a node in the result: the start nodes and the nodes
    that some arc without the removed labels enters. *)
Definition kept (n : nat) : bool :=
  start other n || negb (forallb (label_match other il ol) (in_ other n)).

(** The index of the node of [n] in the result: the kept nodes before it. *)
Definition rank (n : nat) : nat :=
  length (filter (λ m, kept m = true) (seq 0 n)).

(** The body of the first loop of [remove]. *)
Definition remove_nodes_step
  : list (option nat) * Graph W → nat → list (option nat) * Graph W :=
  λ '(nodes, graph) n,
    if start other n || negb (forallb (label_match other il ol) (in_ other n))
    then (<[n := Some (numNodes graph)]> nodes, addNode (start other n) false graph)
    else (nodes, graph).

(** [v] is reached from [n] along arcs that carry the removed labels. *)
Inductive lreach (n : nat) : nat → Prop :=
  | lreach_refl : lreach n n
  | lreach_step u a :
      lreach n u → a < numArcs other → upNode other a = u →
      label_match other il ol a = true → lreach n (downNode other a).

Definition add_arcs (l : list (Arc W)) (g : Graph W) : Graph W :=
  mkGraph (nodes_ g) (arcs_ g ++ l) (start_ g) (accept_ g).

(** The arc that the walk from [n] adds when it meets the arc [a]. *)
Definition remove_new_arc (nodes : list (option nat)) (n a : nat) : list (Arc W) :=
  if label_match other il ol a then []
  else match nodes !! downNode other a with
       | Some (Some d) => [mkArc n d (ilabel other a) (olabel other a) fzero]
       | _ => []
       end.

(** The nodes that the walk enqueues when it goes through the arcs [l]. *)
Fixpoint remove_pushed (l : list nat) (reachable : gset nat) : list nat :=
  match l with
  | [] => []
  | a :: l =>
      let dn := downNode other a in
      if label_match other il ol a && negb (bool_decide (dn ∈ reachable))
      then dn :: remove_pushed l ({[dn]} ∪ reachable)
      else remove_pushed l reachable
  end.

(** The graph that the walk from [n] has built when it has left the nodes
    [popped]. *)
Definition remove_walked (nodes : list (option nat)) (n curr : nat)
    (g0 : Graph W) (popped : list nat) : Graph W :=
  add_arcs (popped ≫= (λ u, out other u ≫= remove_new_arc nodes n))
    (if existsb (accept other) popped then makeAccept curr g0 else g0).

(** The body of the second loop of [remove], over the nodes [n]. *)
Definition remove_outer_step (nodes : list (option nat)) (acc : option (Graph W))
    (n : nat) : option (Graph W) :=
  graph ← acc;
  match nodes !! n with
  | Some (Some curr) =>
      '(graph, _, _) ← remove_walk (numArcs other + 2) other il ol nodes n curr
                         (graph, [n], {[n]});
      Some graph
  | _ => Some graph
  end.

(** The invariant of the walk from [n]. *)
Record WInv (n : nat) (popped queue : list nat) (reachable : gset nat) : Prop := mkWInv {
  w_root : n ∈ popped ++ queue;
  w_nodup : NoDup (popped ++ queue);
  w_reach : ∀ v, v ∈ reachable ↔ v ∈ popped ++ queue;
  w_sound : ∀ v, v ∈ popped ++ queue → lreach n v;
  w_closed : ∀ u a, u ∈ popped → a < numArcs other → upNode other a = u →
                    label_match other il ol a = true → downNode other a ∈ reachable
}.

End RemoveGhost.

(** ** More example stores *)

(** The items 2.0 and 3.0 with [float] weights, and the item -3.0 behind
    the handle 2. *)
Definition item_store32n : store spec_float :=
  <[2 := mkState (itemGraph (b32_of_Z (-3))) true None]> item_store32.

(** The store that holds two graphs, behind the handles 0 and 1. *)
Definition pair_store (g1 g2 : Graph xreal) : store xreal :=
  <[1 := mkState g2 true None]> (<[0 := mkState g1 true None]> ∅).

(** ** The steps of a composition *)

Section ComposeSteps.
Context {W : Type} `{FloatOps W}.
Variables first second : Graph W.

(** [(x', y')] is one step before [(x, y)]: the three kinds of steps that
    the loop of [findReachable] walks backwards. *)
Definition reach_pred (x y x' y' : nat) : Prop :=
  (∃ i j, i ∈ in_ first x ∧ j ∈ in_ second y
     ∧ olabel first i = ilabel second j
     ∧ x' = upNode first i ∧ y' = upNode second j)
  ∨ (∃ i, i ∈ in_ first x ∧ olabel first i = epsilon
       ∧ x' = upNode first i ∧ y' = y)
  ∨ (∃ j, j ∈ in_ second y ∧ ilabel second j = epsilon
       ∧ x' = x ∧ y' = upNode second j).

(** From one state of the loop of [findReachable] to a later one: marks
    stay, the queue keeps its elements, and a state that is newly marked is
    in the queue. *)
Definition reach_grows (a a' : list bool * list (nat * nat)) : Prop :=
  (∀ i, getb a.1 i = true → getb a'.1 i = true)
  ∧ (∀ z, z ∈ a.2 → z ∈ a'.2)
  ∧ (∀ x y, x < numNodes first → y < numNodes second →
       getb a'.1 (toIndex x y first) = true →
       getb a.1 (toIndex x y first) = true ∨ (x, y) ∈ a'.2).

(** Every marked state that has left the queue has its predecessors
    marked. *)
Definition reach_closed (st : list bool * list (nat * nat)) : Prop :=
  ∀ x y x' y', x < numNodes first → y < numNodes second →
    getb st.1 (toIndex x y first) = true → (x, y) ∉ st.2 →
    reach_pred x y x' y' →
    getb st.1 (toIndex x' y' first) = true.

(** [(x', y')] is one step after [(x, y)], and [info] is what [gradInfo]
    records for that step: the three kinds of steps that the loop of
    [compose] walks. *)
Definition compose_succ (x y x' y' : nat) (info : Z * Z) : Prop :=
  (∃ i j, i ∈ out first x ∧ j ∈ out second y
     ∧ olabel first i = ilabel second j
     ∧ x' = downNode first i ∧ y' = downNode second j
     ∧ info = (Z.of_nat i, Z.of_nat j))
  ∨ (∃ i, i ∈ out first x ∧ olabel first i = epsilon
       ∧ x' = downNode first i ∧ y' = y ∧ info = (Z.of_nat i, (-1)%Z))
  ∨ (∃ j, j ∈ out second y ∧ ilabel second j = epsilon
       ∧ x' = x ∧ y' = downNode second j ∧ info = ((-1)%Z, Z.of_nat j)).

(** The state [(x', y')] has a node, and the new graph has an arc from
    the node [k] to it that [gradInfo] traces back to [info]. *)
Definition compose_linked (st : compose_state W) (k x' y' : nat) (info : Z * Z) : Prop :=
  ∃ d a arc,
    c_newNodes st !! toIndex x' y' first = Some (Some d)
    ∧ arcs_ (c_ngraph st) !! a = Some arc
    ∧ arc_up arc = k ∧ arc_down arc = d
    ∧ c_gradInfo st !! a = Some info.

(** From one state of the loop of [compose] to a later one: nodes, arcs
    and [gradInfo] are only added, the queue keeps its elements, and a state
    that newly has a node is in the queue. *)
Definition compose_grows (a a' : compose_state W) : Prop :=
  (∀ idx d, c_newNodes a !! idx = Some (Some d) → c_newNodes a' !! idx = Some (Some d))
  ∧ arcs_ (c_ngraph a) `prefix_of` arcs_ (c_ngraph a')
  ∧ c_gradInfo a `prefix_of` c_gradInfo a'
  ∧ (∀ z, z ∈ c_toExplore a → z ∈ c_toExplore a')
  ∧ (∀ x y d, x < numNodes first → y < numNodes second →
       c_newNodes a' !! toIndex x y first = Some (Some d) →
       c_newNodes a !! toIndex x y first = Some (Some d) ∨ (x, y) ∈ c_toExplore a').

(** Every state with a node that has left the queue is linked to every
    state one step after it that is marked reachable. *)
Definition compose_closed (reachable : list bool) (st : compose_state W) : Prop :=
  ∀ x y k x' y' info, x < numNodes first → y < numNodes second →
    c_newNodes st !! toIndex x y first = Some (Some k) →
    (x, y) ∉ c_toExplore st →
    compose_succ x y x' y' info →
    getb reachable (toIndex x' y' first) = true →
    compose_linked st k x' y' info.

End ComposeSteps.

(** ** remove, with the range check of addArc *)

Section RemoveChecked.
Context {W : Type} `{FloatOps W}.

(** Modelled from the spec: [Graph::addArc] (graph.cpp) is not part of
    functions.cpp.  It appends the arc and appends its index to [out(up)]
    and to [in(down)]; an end node that does not exist is an invalid node
    index, IndexOutOfRange. *)
Definition addArc_checked (up down : nat) (il ol : Z) (w : W) (g : Graph W)
  : result (Graph W) :=
  if decide (up < numNodes g ∧ down < numNodes g)
  then Ok (addArc up down il ol w g)
  else Err IndexOutOfRange.

(** The body of [for (auto a : other.out(next))], as in [remove_arc], with
    the arc added by [addArc_checked]; [nodes[dn]] equal to [-1] is no node
    index either. *)
Definition remove_arc_checked (other : Graph W) (il ol : Z) (nodes : list (option nat))
    (n : nat) (acc : result (Graph W * list nat * gset nat)) (a : nat)
  : result (Graph W * list nat * gset nat) :=
  do st <- acc;
  let '(graph, toExplore, reachable) := st in
  let dn := downNode other a in
  if label_match other il ol a then
    if decide (dn ∈ reachable) then Ok st
    else Ok (graph, toExplore ++ [dn], {[dn]} ∪ reachable)
  else
    match nodes !! dn with
    | Some (Some d) =>
        do graph <- addArc_checked n d (ilabel other a) (olabel other a) fzero graph;
        Ok (graph, toExplore, reachable)
    | _ => Err IndexOutOfRange
    end.

(** The [while (!toExplore.empty())] loop; an exception ends it. *)
Fixpoint remove_walk_checked (fuel : nat) (other : Graph W) (il ol : Z)
    (nodes : list (option nat)) (n curr : nat)
    (st : Graph W * list nat * gset nat)
  : option (result (Graph W * list nat * gset nat)) :=
  match st with
  | (graph, [], reachable) => Some (Ok st)
  | (graph, next :: toExplore, reachable) =>
      match fuel with
      | 0 => None
      | S fuel =>
          let graph := if accept other next then makeAccept curr graph else graph in
          match fold_left (remove_arc_checked other il ol nodes n) (out other next)
                  (Ok (graph, toExplore, reachable)) with
          | Ok st => remove_walk_checked fuel other il ol nodes n curr st
          | Err e => Some (Err e)
          end
      end
  end.

(** The body of the second loop of [remove], over the nodes [n]. *)
Definition remove_outer_step_checked (other : Graph W) (il ol : Z)
    (nodes : list (option nat)) (acc : option (result (Graph W))) (n : nat)
  : option (result (Graph W)) :=
  r ← acc;
  match r, nodes !! n with
  | Ok graph, Some (Some curr) =>
      w ← remove_walk_checked (numArcs other + 2) other il ol nodes n curr
            (graph, [n], {[n]});
      Some (do st <- w; Ok st.1.1)
  | _, _ => Some r
  end.

(** [remove] as the program runs it: the exception of an [addArc] whose
    end node does not exist leaves the function.  [None] only if a walk
    were not to finish within its fuel. *)
Definition remove_checked (other : Graph W) (il ol : Z) : option (result (Graph W)) :=
  let '(nodes, graph) := remove_nodes other il ol in
  fold_left (remove_outer_step_checked other il ol nodes)
    (seq 0 (numNodes other)) (Some (Ok graph)).

End RemoveChecked.

(** Nodes 0 (start), 1 and 2; arcs 0 -> 1 with labels epsilon/epsilon,
    0 -> 2 and 2 -> 0 with labels 1/1.  Without the epsilon arcs, node 1
    has no node of its own. *)
Definition late_source : Graph xreal :=
  addArc 2 0 1 1 (Fin 0) (addArc 0 2 1 1 (Fin 0) (addArc 0 1 0 0 (Fin 0)
    (addNode false false (addNode false false (addNode true false emptyGraph))))).

(** ** The order in which forward meets the arcs *)

Section ForwardOrder.
Context {W : Type} `{FloatOps W}.




End ForwardOrder.

(** The chain 0 -> 1 -> 2 on [float], both weights the float nearest to
    3e38; start 0, accept 2. *)
Definition big_chain : Graph spec_float :=
  mkGraph [mkNode true false; mkNode false false; mkNode false true]
    [mkArc 0 1 0 0 (b32_of_Z (3 * 10 ^ 38)); mkArc 1 2 0 0 (b32_of_Z (3 * 10 ^ 38))]
    [0] [2].

(** [tail_graph] on [float]: arcs 0 -> 1 and 1 -> 2 with weight 0.0; start
    0, accept 1; node 2 is a dead end. *)
Definition tail_graph32 : Graph spec_float :=
  mkGraph [mkNode true false; mkNode false true; mkNode false false]
    [mkArc 0 1 0 0 (b32_of_Z 0); mkArc 1 2 0 0 (b32_of_Z 0)]
    [0] [1].


(** * Properties *)

(** ** Facts about graphs under construction *)

Section GraphFacts.
Context {W : Type} `{FloatOps W}.
Implicit Types g : Graph W.

Lemma numNodes_addNode s a g : numNodes (addNode s a g) = S (numNodes g).
Proof. unfold numNodes, addNode; simpl. rewrite length_app; simpl; lia. Qed.

Lemma numArcs_addArc u d il ol w g :
  numArcs (addArc u d il ol w g) = S (numArcs g).
Proof. unfold numArcs, addArc; simpl. rewrite length_app; simpl; lia. Qed.

Lemma map_lookup_seq {A B : Type} (F : option A → B) (l : list A) :
  (λ i, F (l !! i)) <$> seq 0 (length l) = (λ x, F (Some x)) <$> l.
Proof.
  induction l as [|x l IH] using rev_ind; [done|].
  rewrite length_app, Nat.add_1_r, seq_S, !fmap_app; simpl.
  f_equal.
  - rewrite <- IH. apply list_fmap_ext. intros i k Hk.
    apply lookup_seq in Hk as [-> Hk]; simpl.
    by rewrite lookup_app_l.
  - by rewrite list_lookup_middle.
Qed.

(** The nodes and arcs that two kinds of loops append. *)
Lemma fold_addNode {A : Type} (fs fa : A → bool) (l : list A) g :
  nodes_ (fold_left (λ c n, addNode (fs n) (fa n) c) l g)
  = nodes_ g ++ ((λ n, mkNode (fs n) (fa n)) <$> l)
  ∧ arcs_ (fold_left (λ c n, addNode (fs n) (fa n) c) l g) = arcs_ g.
Proof.
  revert g; induction l as [|x l IH]; intros g; simpl.
  - by rewrite app_nil_r.
  - destruct (IH (addNode (fs x) (fa x) g)) as [-> ->]; simpl.
    by rewrite <- app_assoc.
Qed.

Lemma fold_addArc {A : Type} (mk : A → Arc W) (l : list A) g :
  let step := λ c a, addArc (arc_up (mk a)) (arc_down (mk a)) (arc_ilabel (mk a))
                       (arc_olabel (mk a)) (arc_weight (mk a)) c in
  arcs_ (fold_left step l g) = arcs_ g ++ (mk <$> l)
  ∧ nodes_ (fold_left step l g) = nodes_ g
  ∧ start_ (fold_left step l g) = start_ g
  ∧ accept_ (fold_left step l g) = accept_ g.
Proof.
  simpl; revert g; induction l as [|x l IH]; intros g; simpl.
  - by rewrite app_nil_r.
  - destruct (IH (addArc (arc_up (mk x)) (arc_down (mk x)) (arc_ilabel (mk x))
                    (arc_olabel (mk x)) (arc_weight (mk x)) g))
      as (-> & -> & -> & ->); simpl.
    rewrite <- app_assoc. by destruct (mk x).
Qed.

Lemma is_item_itemGraph (w : W) : is_item (itemGraph w) = true.
Proof. reflexivity. Qed.

Lemma item_itemGraph (w : W) : item (itemGraph w) = Ok w.
Proof. reflexivity. Qed.

(** An item graph is [itemGraph] of its scalar. *)
Lemma item_inv g w : item g = Ok w → g = itemGraph w.
Proof.
  unfold item, is_item, weight. destruct g as [ns ars ss acs]; simpl.
  destruct ns as [|[[] []] [|[[] []] [|? ?]]]; try discriminate.
  destruct ars as [|[[|?] [|[|?]] il ol w'] [|? ?]]; try discriminate.
  destruct ss as [|[|?] [|? ?]]; try discriminate.
  destruct acs as [|[|[|?]] [|? ?]]; try discriminate.
  destruct (Z.eqb_spec il 0), (Z.eqb_spec ol 0); simpl; try discriminate.
  intros [= ->]. by subst.
Qed.

Lemma wfb_wf g : wfb g = true → wf g.
Proof.
  unfold wfb. rewrite !andb_true_iff, !forallb_forall.
  intros ((((Harcs & Hs) & Hnd) & Hacc1) & Hacc2).
  apply bool_decide_eq_true in Hs, Hnd.
  split; try done.
  - intros a Ha. specialize (Harcs a). rewrite in_seq in Harcs.
    specialize (Harcs ltac:(lia)). apply andb_true_iff in Harcs as [? _].
    by apply Nat.ltb_lt.
  - intros a Ha. specialize (Harcs a). rewrite in_seq in Harcs.
    specialize (Harcs ltac:(lia)). apply andb_true_iff in Harcs as [_ ?].
    by apply Nat.ltb_lt.
  - intros n. split.
    + intros Hn. apply list_elem_of_In in Hn. apply Hacc1 in Hn.
      by apply andb_true_iff in Hn as [_ ?].
    + intros Hn. assert (n < numNodes g) as Hlt.
      { unfold accept in Hn. destruct (nodes_ g !! n) eqn:E; [|done].
        by apply lookup_lt_Some in E. }
      specialize (Hacc2 n). rewrite in_seq in Hacc2. specialize (Hacc2 ltac:(lia)).
      rewrite Hn in Hacc2. simpl in Hacc2. by apply bool_decide_eq_true in Hacc2.
Qed.

(** Walks can be extended at the front and glued. *)
Lemma walk_cons g a p v :
  a < numArcs g → walk g (downNode g a) p v → walk g (upNode g a) (a :: p) v.
Proof.
  intros Ha. induction 1 as [|p w b Hw IH Hb Hu].
  - by apply (walk_snoc g (upNode g a) [] (upNode g a) a); [constructor|..].
  - by apply (walk_snoc g (upNode g a) (a :: p) w b).
Qed.

Lemma walk_app g u p w q v : walk g u p w → walk g w q v → walk g u (p ++ q) v.
Proof.
  intros Hp. induction 1 as [|q x b Hw IH Hb Hu].
  - by rewrite app_nil_r.
  - rewrite app_assoc. by apply (walk_snoc g u (p ++ q) x b).
Qed.

Lemma walkb_walk g p : ∀ u v, walkb g u p v = true → walk g u p v.
Proof.
  induction p as [|a p IH]; intros u v; simpl.
  - intros ->%Nat.eqb_eq. constructor.
  - rewrite !andb_true_iff. intros [[Ha Hu] Hp].
    apply Nat.ltb_lt in Ha. apply Nat.eqb_eq in Hu as <-.
    apply walk_cons; [done|]. by apply IH.
Qed.

Lemma walk_nil_inv g u v : walk g u [] v → u = v.
Proof.
  inversion 1 as [|p w a Hw Ha Hu Hp]; [done|].
  by destruct p.
Qed.

(** A graph whose arcs all climb some ranking of the nodes has no cycle. *)
Lemma ranked_acyclic g (rank : nat → nat) :
  (∀ a, a < numArcs g → rank (upNode g a) < rank (downNode g a)) → acyclic g.
Proof.
  intros Hr.
  assert (Hw : ∀ u p v, walk g u p v → rank u + length p ≤ rank v).
  { induction 1 as [|p w a Hw IH Ha Hu]; simpl; [lia|].
    rewrite length_app; simpl. specialize (Hr a Ha). rewrite Hu in Hr. lia. }
  intros c p Hc. specialize (Hw c p c Hc). destruct p; [done|simpl in Hw; lia].
Qed.

End GraphFacts.

(** ** The item algebra *)

Section ItemFacts.
Context {W : Type} `{FloatOps W}.

Lemma weights_itemGraph (w : W) : weights (itemGraph w) = [w].
Proof. reflexivity. Qed.

(** C8. For item graphs [a] and [b] of scalars [wa] and [wb],
    [subtract(a, b)] is the item graph of [wa - wb] with inputs [a] and
    [b], and its backward closure, called with an item graph of scalar [d],
    accumulates [[d]] into [a] and then [[-d]] into [b]. *)
Theorem subtract_item_backward (σ : store W) (a b : handle) (ga gb : Graph W)
    (wa wb : W) :
  deref σ a = Ok ga → deref σ b = Ok gb →
  item ga = Ok wa → item gb = Ok wb →
  ∃ t, subtract σ a b = Ok t
       ∧ t_graph t = itemGraph (fsub wa wb)
       ∧ is_item (t_graph t) = true
       ∧ item (t_graph t) = Ok (fsub wa wb)
       ∧ t_inputs t = [a; b]
       ∧ ∀ (deltas : Graph W) (d : W) (σ' : store W),
           item deltas = Ok d →
           t_gradFunc t (t_inputs t) deltas σ'
           = do σ1 <- addGrad a [d] σ'; addGrad b [fneg d] σ1.
Proof.
  intros Ha Hb Hwa Hwb. eexists. split.
  { unfold subtract. rewrite Ha, Hb; simpl. rewrite Hwa, Hwb; simpl. reflexivity. }
  simpl. repeat split.
  intros deltas d σ' Hd. apply item_inv in Hd as ->.
  reflexivity.
Qed.

End ItemFacts.

Lemma subtract_item_backward_witness :
  ∃ t σ', subtract item_store 0 1 = Ok t
    ∧ item (t_graph t) = Ok (Fin (-1))
    ∧ t_gradFunc t (t_inputs t) (itemGraph (Fin 1)) item_store = Ok σ'
    ∧ grad σ' 0 = Some [Fin 1]
    ∧ grad σ' 1 = Some [Fin (-1)].
Proof.
  destruct (subtract_item_backward item_store 0 1
              (itemGraph (Fin 2)) (itemGraph (Fin 3)) (Fin 2) (Fin 3)
              eq_refl eq_refl eq_refl eq_refl)
    as (t & Ht & Hg & Hi & Hit & Hin & Hb).
  exists t. eexists. split; [exact Ht|]. split.
  { rewrite Hit. simpl. do 2 f_equal. lra. }
  split.
  { rewrite (Hb (itemGraph (Fin 1)) (Fin 1) item_store eq_refl). reflexivity. }
  split; reflexivity.
Defined.

(** ** closure *)

Section ClosureFacts.
Context {W : Type} `{FloatOps W}.
Implicit Types g : Graph W.

Lemma closure_epsilon_fold g (l : list nat) (c : Graph W) :
  let r := fold_left (λ c s,
               fold_left (λ c a, addArcLabel (a + 1) (s + 1) epsilon c)
                 (accept_ g) (addArcLabel 0 (s + 1) epsilon c)) l c in
  arcs_ r = arcs_ c
            ++ (s ← l; mkArc 0 (s + 1) epsilon epsilon fzero
                  :: ((λ a, mkArc (a + 1) (s + 1) epsilon epsilon fzero) <$> accept_ g))
  ∧ nodes_ r = nodes_ c.
Proof.
  simpl; revert c; induction l as [|s l IH]; intros c; simpl.
  - by rewrite app_nil_r.
  - destruct (IH (fold_left (λ c a, addArcLabel (a + 1) (s + 1) epsilon c)
                    (accept_ g) (addArcLabel 0 (s + 1) epsilon c))) as [-> ->].
    destruct (fold_addArc (λ a, mkArc (a + 1) (s + 1) epsilon epsilon fzero)
                (accept_ g) (addArcLabel 0 (s + 1) epsilon c)) as (Ha & Hn & _).
    simpl in Ha, Hn. unfold addArcLabel at 1 3. rewrite Ha, Hn; simpl.
    split; [|done]. by rewrite <- !app_assoc.
Qed.

Lemma closure_nodes g :
  nodes_ (closure_graph g)
  = mkNode true true :: ((λ n, mkNode false (accept g n)) <$> seq 0 (numNodes g)).
Proof.
  unfold closure_graph.
  destruct (closure_epsilon_fold g (start_ g)
    (fold_left (λ c a, addArc (upNode g a + 1) (downNode g a + 1) (ilabel g a)
                         (olabel g a) (weight g a) c) (seq 0 (numArcs g))
       (fold_left (λ c n, addNode false (accept g n) c) (seq 0 (numNodes g))
          (addNode true true emptyGraph)))) as [_ ->].
  destruct (fold_addArc (closure_arc g) (seq 0 (numArcs g))
    (fold_left (λ c n, addNode false (accept g n) c) (seq 0 (numNodes g))
       (addNode true true emptyGraph))) as (_ & Hn & _).
  simpl in Hn; rewrite Hn.
  by destruct (fold_addNode (W:=W) (λ _, false) (accept g) (seq 0 (numNodes g))
                 (addNode true true emptyGraph)) as [-> _].
Qed.

Lemma closure_arcs g :
  arcs_ (closure_graph g)
  = (closure_arc g <$> seq 0 (numArcs g)) ++ closure_epsilons g.
Proof.
  unfold closure_graph.
  destruct (closure_epsilon_fold g (start_ g)
    (fold_left (λ c a, addArc (upNode g a + 1) (downNode g a + 1) (ilabel g a)
                         (olabel g a) (weight g a) c) (seq 0 (numArcs g))
       (fold_left (λ c n, addNode false (accept g n) c) (seq 0 (numNodes g))
          (addNode true true emptyGraph)))) as [-> _].
  destruct (fold_addArc (closure_arc g) (seq 0 (numArcs g))
    (fold_left (λ c n, addNode false (accept g n) c) (seq 0 (numNodes g))
       (addNode true true emptyGraph))) as (Ha & _).
  simpl in Ha; rewrite Ha.
  by destruct (fold_addNode (W:=W) (λ _, false) (accept g) (seq 0 (numNodes g))
                 (addNode true true emptyGraph)) as [_ ->].
Qed.

Lemma weight_take_seq (deltas : Graph W) (k : nat) :
  k ≤ numArcs deltas →
  (λ i, weight deltas i) <$> seq 0 k = take k (weights deltas).
Proof.
  intros Hk. apply list_eq; intros i.
  rewrite list_lookup_fmap. unfold weights, weight.
  destruct (decide (i < k)) as [Hi|Hi].
  - rewrite lookup_seq_lt by done; simpl.
    rewrite lookup_take_lt by done. rewrite list_lookup_fmap.
    destruct (lookup_lt_is_Some_2 (arcs_ deltas) i) as [x ->]; [|done].
    unfold numArcs in Hk; lia.
  - rewrite lookup_seq_ge by lia. by rewrite lookup_take_ge by lia.
Qed.

(** C7. The structure of [closure(g)]: node 0 is start and accept; node
    [k + 1] is not start and is accept exactly when node [k] of [g] is;
    arcs [0 .. numArcs g - 1] are the arcs of [g] in order, both ends
    shifted by one; after them come an epsilon arc [0 -> s + 1] for every
    start node [s] and an epsilon arc [t + 1 -> s + 1] for every accept node
    [t] and start node [s]; the backward closure accumulates into [g] the
    weights of the first [numArcs g] arcs of [deltas]. *)
Theorem closure_structure g :
  let c := closure_graph g in
  (start c 0 = true ∧ accept c 0 = true)
  ∧ (∀ k, k < numNodes g → start c (k + 1) = false ∧ accept c (k + 1) = accept g k)
  ∧ (∀ a, a < numArcs g →
       arcs_ c !! a = Some (mkArc (upNode g a + 1) (downNode g a + 1)
                              (ilabel g a) (olabel g a) (weight g a)))
  ∧ (∀ s, s ∈ start_ g →
       mkArc 0 (s + 1) epsilon epsilon fzero ∈ drop (numArcs g) (arcs_ c))
  ∧ (∀ t s, t ∈ accept_ g → s ∈ start_ g →
       mkArc (t + 1) (s + 1) epsilon epsilon fzero ∈ drop (numArcs g) (arcs_ c))
  ∧ (∀ (σ : store W) (h : handle) (st : State W) (deltas : Graph W),
       σ !! h = Some st → st_graph st = g → numArcs c = numArcs deltas →
       closure_gradFunc [h] deltas σ
       = addGrad h (take (numArcs g) (weights deltas)) σ).
Proof.
  intros c.
  assert (Hdrop : drop (numArcs g) (arcs_ c) = closure_epsilons g).
  { unfold c. rewrite closure_arcs. rewrite drop_app_length'; [done|].
    by rewrite length_fmap, length_seq. }
  split; [|split; [|split; [|split; [|split]]]].
  - unfold start, accept, c. by rewrite closure_nodes.
  - intros k Hk. unfold start, accept at 1, c. rewrite closure_nodes.
    rewrite Nat.add_1_r; simpl.
    by rewrite list_lookup_fmap, lookup_seq_lt.
  - intros a Ha. unfold c. rewrite closure_arcs.
    rewrite lookup_app_l by (by rewrite length_fmap, length_seq).
    by rewrite list_lookup_fmap, lookup_seq_lt.
  - intros s Hs. rewrite Hdrop. unfold closure_epsilons.
    apply list_elem_of_bind. exists s. split; [|done]. apply list_elem_of_here.
  - intros t s Ht Hs. rewrite Hdrop. unfold closure_epsilons.
    apply list_elem_of_bind. exists s. split; [|done].
    apply list_elem_of_further. apply list_elem_of_fmap. by exists t.
  - intros σ h st deltas Hh Hg Hn. unfold closure_gradFunc; simpl.
    rewrite Hh, Hg. rewrite weight_take_seq.
    + destruct (st_calcGrad st) eqn:E; [done|].
      unfold addGrad. by rewrite Hh, E.
    + rewrite <- Hn. unfold c, numArcs. rewrite closure_arcs.
      rewrite length_app, length_fmap, length_seq. unfold numArcs. lia.
Qed.

End ClosureFacts.

Lemma closure_structure_witness :
  let c := closure_graph single_arc in
  start c 0 = true ∧ accept c 0 = true
  ∧ start c 2 = false ∧ accept c 2 = true
  ∧ arcs_ c !! 0 = Some (mkArc 1 2 1 1 (Fin 1))
  ∧ mkArc 0 1 epsilon epsilon (Fin 0) ∈ drop 1 (arcs_ c)
  ∧ mkArc 2 1 epsilon epsilon (Fin 0) ∈ drop 1 (arcs_ c)
  ∧ closure_gradFunc [0] (closure_graph single_arc) (store_of single_arc)
    = addGrad 0 [Fin 1] (store_of single_arc).
Proof.
  destruct (closure_structure single_arc) as ([H1 H2] & H3 & H4 & H5 & H6 & H7).
  split; [exact H1|]. split; [exact H2|].
  destruct (H3 1 ltac:(cbv; lia)) as [H3a H3b].
  split; [exact H3a|]. split; [exact H3b|].
  split; [exact (H4 0 ltac:(cbv; lia))|].
  split; [apply (H5 0); left|].
  split; [apply (H6 1 0); left|].
  exact (H7 (store_of single_arc) 0 (mkState single_arc true None)
           (closure_graph single_arc) eq_refl eq_refl eq_refl).
Defined.

(** ** logadd in exact arithmetic *)

Lemma xsub_abs_sym (x y : xreal) : xabs (xsub x y) = xabs (xsub y x).
Proof.
  destruct x as [| |x|], y as [| |y|]; simpl; try reflexivity.
  f_equal. replace (y + - x)%R with (- (x + - y))%R by lra. by rewrite Rabs_Ropp.
Qed.

Lemma fmax_xreal_comm (x y : xreal) :
  x ≠ NaN → y ≠ NaN → fmax x y = fmax y x.
Proof.
  unfold fmax; simpl.
  destruct x as [| |x|], y as [| |y|]; simpl; try done.
  intros _ _. destruct (Rlt_dec x y), (Rlt_dec y x); try done; try lra.
  f_equal; lra.
Qed.

(** In exact arithmetic negative infinity is a two-sided identity of
    [logadd], and [logadd] is commutative. *)
Lemma logadd_exact_identity_comm :
  (∀ x : xreal, logadd neginf x = x ∧ logadd x neginf = x)
  ∧ (∀ x y : xreal, logadd x y = logadd y x).
Proof.
  split.
  - intros x; split; [reflexivity|]. by destruct x.
  - intros x y. destruct x as [| |x|], y as [| |y|]; try reflexivity.
    change (fadd (fmax (Fin x) (Fin y))
              (xlog1p (xexp (xneg (xabs (xsub (Fin x) (Fin y))))))
            = fadd (fmax (Fin y) (Fin x))
                (xlog1p (xexp (xneg (xabs (xsub (Fin y) (Fin x))))))).
    by rewrite (xsub_abs_sym (Fin x)), (fmax_xreal_comm (Fin x)).
Qed.

(** ** logadd in IEEE single precision *)

Lemma round_aux_abs prec emax s s' m e l :
  SpecFloat.SFabs (SpecFloat.binary_round_aux prec emax s m e l)
  = SpecFloat.SFabs (SpecFloat.binary_round_aux prec emax s' m e l).
Proof.
  unfold SpecFloat.binary_round_aux.
  destruct (SpecFloat.shr_fexp prec emax m e l) as [mrs' e'].
  destruct (SpecFloat.shr_fexp prec emax _ e' SpecFloat.loc_Exact) as [mrs'' e''].
  destruct (SpecFloat.shr_m mrs'') as [|p|p]; try reflexivity.
  by destruct (Z.leb e'' (emax - prec)).
Qed.

Lemma normalize_abs_opp prec emax m e :
  SpecFloat.SFabs (SpecFloat.binary_normalize prec emax (- m) e false)
  = SpecFloat.SFabs (SpecFloat.binary_normalize prec emax m e false).
Proof.
  destruct m as [|p|p]; simpl; [done|..]; unfold SpecFloat.binary_round;
    destruct (SpecFloat.shl_align _ _ _) as [mz ez]; apply round_aux_abs.
Qed.

(** [|x - y|] and [|y - x|] are the same float: rounding to nearest even is
    symmetric about zero. *)
Lemma b32_sub_abs_sym x y :
  SpecFloat.SFabs (b32_sub x y) = SpecFloat.SFabs (b32_sub y x).
Proof.
  unfold b32_sub.
  destruct x as [sx|sx| |sx mx ex], y as [sy|sy| |sy my ey]; simpl;
    try reflexivity; try (by destruct sx, sy).
  rewrite (Z.min_comm ey ex), <- normalize_abs_opp. f_equal. f_equal. lia.
Qed.

Lemma SFeqb_neginf x :
  SpecFloat.SFeqb x (S754_infinity true) = true → x = S754_infinity true.
Proof. by destruct x as [[]|[]| |[] ? ?]. Qed.

(** Floats that compare equal are the same float, or two zeros. *)
Lemma SFcompare_eq x y :
  SpecFloat.SFcompare x y = Some Eq →
  x = y ∨ ∃ s1 s2, x = S754_zero s1 ∧ y = S754_zero s2.
Proof.
  destruct x as [sx|sx| |sx mx ex], y as [sy|sy| |sy my ey]; simpl; try done.
  - intros _. right. by exists sx, sy.
  - by destruct sy.
  - by destruct sy.
  - by destruct sx.
  - destruct sx, sy; try done; intros _; by left.
  - by destruct sx.
  - by destruct sx.
  - by destruct sy.
  - destruct sx, sy; try done.
    + destruct (Z.compare_spec ex ey) as [->| |]; try done.
      intros [= Hc]. left. f_equal.
      destruct (Pos.compare_cont Eq mx my) eqn:E; try done.
      by apply Pos.compare_eq in E.
    + destruct (Z.compare_spec ex ey) as [->| |]; try done.
      intros [= Hc]. left. f_equal. by apply Pos.compare_eq in Hc.
Qed.

Lemma SFcompare_antisym x y :
  SpecFloat.SFcompare y x = option_map CompOpp (SpecFloat.SFcompare x y).
Proof.
  destruct x as [sx|sx| |sx mx ex], y as [sy|sy| |sy my ey]; simpl;
    try done; try (by destruct sx); try (by destruct sy); try (by destruct sx, sy).
  f_equal.
  destruct sx, sy; try done;
    rewrite (Z.compare_antisym ex ey); destruct (Z.compare ex ey); simpl; try done;
    rewrite (Pos.compare_cont_antisym mx my Eq); simpl;
    by destruct (Pos.compare_cont Eq mx my).
Qed.

(** The sign of a zero is lost when anything but [-0] is added to it. *)
Lemma b32_add_zero_sign s1 s2 t :
  t ≠ S754_zero true → b32_add (S754_zero s1) t = b32_add (S754_zero s2) t.
Proof.
  intros Ht. destruct t as [st|st| |st mt et]; try reflexivity.
  destruct st; [done|]. by destruct s1, s2.
Qed.

Section Binary32.
Variables libm_exp libm_log1p : spec_float → spec_float.

Let ops := binary32_ops libm_exp libm_log1p.

Lemma b32_logadd_neginf_l x : @logadd _ ops (@neginf _ ops) x = x.
Proof. reflexivity. Qed.

Lemma b32_logadd_neginf_r x : @logadd _ ops x (@neginf _ ops) = x.
Proof.
  unfold logadd, neginf. simpl.
  destruct (SpecFloat.SFeqb x _) eqn:E; [|done].
  symmetry. by apply SFeqb_neginf.
Qed.

Lemma b32_logadd_comm x y :
  libm_log1p (libm_exp S754_nan) = S754_nan →
  (∀ z, libm_log1p (libm_exp z) ≠ S754_zero true) →
  @logadd _ ops x y = @logadd _ ops y x.
Proof.
  intros Hnan Hzero.
  unfold logadd, neginf. simpl.
  destruct (SpecFloat.SFeqb x _) eqn:Ex, (SpecFloat.SFeqb y _) eqn:Ey; try done.
  { apply SFeqb_neginf in Ex, Ey. congruence. }
  rewrite (b32_sub_abs_sym y x).
  set (t := libm_log1p _).
  unfold fmax; simpl. unfold SpecFloat.SFltb.
  rewrite (SFcompare_antisym x y).
  destruct (SpecFloat.SFcompare x y) as [[]|] eqn:Ec; simpl; try done.
  - apply SFcompare_eq in Ec as [->|(s1 & s2 & -> & ->)]; [done|].
    apply b32_add_zero_sign. apply Hzero.
  - assert (t = S754_nan) as ->.
    { subst t. destruct x as [sx|sx| |sx mx ex], y as [sy|sy| |sy my ey];
        simpl in Ec; try done; simpl; by rewrite Hnan. }
    by destruct x, y.
Qed.

End Binary32.

(** Without the second hypothesis of [b32_logadd_comm] the two orders can
    differ in the sign of a zero. *)
Example b32_logadd_signed_zero :
  let ops := binary32_ops (λ _, S754_zero true) (λ z, z) in
  @logadd _ ops (S754_zero false) (S754_zero true) = S754_zero false
  ∧ @logadd _ ops (S754_zero true) (S754_zero false) = S754_zero true.
Proof. split; reflexivity. Qed.

(** C9. On [float], negative infinity is a two-sided identity of [logadd]:
    [logadd(-inf, x)] and [logadd(x, -inf)] are the float [x] itself, NaN
    included.  [logadd] is commutative for every C library in which
    [log1p(exp(NaN))] is NaN and [log1p(exp(z))] is never the negative
    zero. *)
Theorem logadd_neginf_identity_comm (libm_exp libm_log1p : spec_float → spec_float) :
  let ops := binary32_ops libm_exp libm_log1p in
  (∀ x, @logadd _ ops (@neginf _ ops) x = x ∧ @logadd _ ops x (@neginf _ ops) = x)
  ∧ (libm_log1p (libm_exp S754_nan) = S754_nan →
     (∀ z, libm_log1p (libm_exp z) ≠ S754_zero true) →
     ∀ x y, @logadd _ ops x y = @logadd _ ops y x).
Proof.
  split.
  - intros x. split; [apply b32_logadd_neginf_l | apply b32_logadd_neginf_r].
  - intros Hnan Hzero x y. by apply b32_logadd_comm.
Qed.

Lemma logadd_neginf_identity_comm_witness :
  let ops := binary32_ops coarse_exp coarse_log1p in
  coarse_log1p (coarse_exp S754_nan) = S754_nan
  ∧ (∀ z, coarse_log1p (coarse_exp z) ≠ S754_zero true)
  ∧ @logadd _ ops (b32_of_Z 2) (b32_of_Z 3) = b32_of_Z 4
  ∧ @logadd _ ops (b32_of_Z 3) (b32_of_Z 2) = b32_of_Z 4.
Proof.
  assert (H0 : ∀ z, coarse_log1p (coarse_exp z) ≠ S754_zero true).
  { intros [s|[]| |s m e]; discriminate. }
  split; [reflexivity|]. split; [exact H0|]. split; [reflexivity|].
  rewrite <- (proj2 (logadd_neginf_identity_comm coarse_exp coarse_log1p)
                eq_refl H0 (b32_of_Z 2) (b32_of_Z 3)).
  reflexivity.
Defined.

(** ** The Kahn walk *)

Section KahnFacts.
Variables (M : nat) (src dst : nat → nat).

Lemma getZ_insert (l : list Z) (i j : nat) (x : Z) :
  getZ (<[i := x]> l) j = if decide (i = j ∧ i < length l) then x else getZ l j.
Proof.
  unfold getZ. case_decide as Hd.
  - destruct Hd as [-> Hl]. by rewrite list_lookup_insert_eq.
  - destruct (decide (i = j)) as [->|Hne].
    + rewrite list_insert_ge; [done|lia].
    + by rewrite list_lookup_insert_ne.
Qed.

Lemma sum_list_insert (l : list Z) (i : nat) (x : Z) :
  i < length l →
  sum_list (Z.to_nat <$> <[i := x]> l) + Z.to_nat (getZ l i)
  = sum_list (Z.to_nat <$> l) + Z.to_nat x.
Proof.
  unfold getZ.
  revert i; induction l as [|y l IH]; intros [|i] Hi; simpl in *; try lia.
  specialize (IH i ltac:(lia)). unfold fmap in *. lia.
Qed.

Lemma potential_karc st a : potential (karc dst st a) ≤ potential st.
Proof.
  destruct st as [deg q]. unfold potential, karc; simpl.
  destruct (decide (dst a < length deg)) as [Hl|Hl].
  - pose proof (sum_list_insert deg (dst a) (getZ deg (dst a) - 1) Hl) as Hs.
    destruct (Z.eqb_spec (getZ deg (dst a) - 1) 0) as [E|E].
    + rewrite length_app; simpl. lia.
    + lia.
  - rewrite list_insert_ge by lia.
    assert (getZ deg (dst a) = 0%Z) as ->.
    { unfold getZ. by rewrite lookup_ge_None_2 by lia. }
    simpl. lia.
Qed.

Lemma potential_fold l st : potential (fold_left (karc dst) l st) ≤ potential st.
Proof.
  revert st; induction l as [|a l IH]; intros st; simpl; [done|].
  etrans; [apply IH|apply potential_karc].
Qed.

Lemma cnt_cons a l v :
  cnt dst (a :: l) v = ((if decide (dst a = v) then 1 else 0) + cnt dst l v)%Z.
Proof.
  unfold cnt. rewrite filter_cons. case_decide; simpl; lia.
Qed.

Lemma cnt_nonneg l v : (0 ≤ cnt dst l v)%Z.
Proof. unfold cnt; lia. Qed.

Lemma karc_fold_spec l : ∀ deg q,
  (∀ a, a ∈ l → dst a < length deg) →
  (∀ v, (cnt dst l v ≤ getZ deg v)%Z) →
  ∃ pushed,
    (fold_left (karc dst) l (deg, q)).2 = q ++ pushed
    ∧ length (fold_left (karc dst) l (deg, q)).1 = length deg
    ∧ (∀ v, getZ (fold_left (karc dst) l (deg, q)).1 v = (getZ deg v - cnt dst l v)%Z)
    ∧ NoDup pushed
    ∧ (∀ v, v ∈ pushed ↔ (0 < cnt dst l v)%Z ∧ getZ deg v = cnt dst l v).
Proof.
  induction l as [|a l IH]; intros deg q Hr Hc; simpl.
  - exists []. rewrite app_nil_r.
    split; [done|]. split; [done|]. split; [|split].
    + intros v. unfold cnt; simpl. lia.
    + constructor.
    + intros v. rewrite elem_of_nil. unfold cnt; simpl. lia.
  - remember (dst a) as v0 eqn:Ev0.
    remember (getZ deg v0 - 1)%Z as d eqn:Ed.
    assert (Hv0 : v0 < length deg) by (subst v0; apply Hr; left).
    assert (Hg : ∀ v, getZ (<[v0 := d]> deg) v = if decide (v0 = v) then d else getZ deg v).
    { intros v. rewrite getZ_insert.
      destruct (decide (v0 = v)) as [->|Hne].
      - by rewrite decide_True.
      - rewrite decide_False; [done|]. by intros [? _]. }
    assert (Hcc : ∀ v, cnt dst (a :: l) v = ((if decide (v0 = v) then 1 else 0) + cnt dst l v)%Z).
    { intros v. rewrite cnt_cons. by subst v0. }
    assert (Hk : karc dst (deg, q) a
                 = (<[v0 := d]> deg, if (d =? 0)%Z then q ++ [v0] else q)).
    { unfold karc; simpl. by rewrite <- Ev0, <- Ed. }
    rewrite Hk.
    destruct (IH (<[v0 := d]> deg) (if (d =? 0)%Z then q ++ [v0] else q))
      as (pushed & Hq & Hl & Hd & Hnd & Hm).
    { intros b Hb. rewrite length_insert. apply Hr. by right. }
    { intros v. rewrite Hg. specialize (Hc v). rewrite Hcc in Hc.
      destruct (decide (v0 = v)); subst; lia. }
    exists ((if (d =? 0)%Z then [v0] else []) ++ pushed).
    split; [|split; [|split; [|split]]].
    + rewrite Hq. destruct (d =? 0)%Z; simpl; by rewrite <- ?app_assoc.
    + by rewrite Hl, length_insert.
    + intros v. rewrite Hd, Hg, Hcc. destruct (decide (v0 = v)); subst; lia.
    + destruct (Z.eqb_spec d 0) as [E|E]; simpl; [|done].
      constructor; [|done]. rewrite Hm, Hg. rewrite decide_True by done. lia.
    + intros v. rewrite elem_of_app, Hm, Hg, Hcc.
      pose proof (cnt_nonneg l v). specialize (Hc v). rewrite Hcc in Hc.
      destruct (Z.eqb_spec d 0) as [E|E].
      * rewrite list_elem_of_singleton.
        destruct (decide (v0 = v)); subst; [|lia]. split; [lia|]. intros _. by left.
      * rewrite elem_of_nil. destruct (decide (v0 = v)); subst; lia.
Qed.

Lemma length_filter_split {A : Type} (P : A → Prop) `{∀ x, Decision (P x)} (l : list A) :
  length l = length (filter P l) + length (filter (λ x, ¬ P x) l).
Proof.
  rewrite <- length_app. apply Permutation_length. symmetry. apply filter_app_complement.
Qed.

Lemma elem_of_adj n a : a ∈ adj M src n ↔ a < M ∧ src a = n.
Proof.
  unfold adj. rewrite list_elem_of_filter, elem_of_seq.
  split; intros [? ?]; (split; [done || lia|done || lia]).
Qed.

Lemma elem_of_coadj v a : a ∈ coadj M dst v ↔ a < M ∧ dst a = v.
Proof.
  unfold coadj. rewrite list_elem_of_filter, elem_of_seq.
  split; intros [? ?]; (split; [done || lia|done || lia]).
Qed.

Lemma cnt_adj n v :
  cnt dst (adj M src n) v = Z.of_nat (length (filter (λ a, src a = n) (coadj M dst v))).
Proof.
  unfold cnt, adj, coadj. f_equal. f_equal.
  rewrite !list_filter_filter. apply list_filter_iff. intros a.
  split; intros [? ?]; done.
Qed.

Lemma pending_snoc popped n v :
  n ∉ popped →
  length (pending M src dst popped v)
  = length (pending M src dst (popped ++ [n]) v)
    + length (filter (λ a, src a = n) (coadj M dst v)).
Proof.
  intros Hn. unfold pending.
  rewrite (length_filter_split (λ a, src a = n) (filter _ (coadj M dst v))).
  rewrite !list_filter_filter. rewrite Nat.add_comm. f_equal.
  - f_equal. apply list_filter_iff. intros a. rewrite elem_of_app, list_elem_of_singleton.
    split; [intros [? ?] [?|?]; done|].
    intros Hx; split; intros ?; apply Hx; auto.
  - f_equal. apply list_filter_iff. intros a. split; [|intros ?; split; [done|]].
    + intros [-> ?]. done.
    + by intros ?; subst.
Qed.

Lemma filter_all {A : Type} (P : A → Prop) `{∀ x, Decision (P x)} (l : list A) :
  (∀ x, x ∈ l → P x) → filter P l = l.
Proof.
  induction l as [|x l IH]; intros Hl; [done|].
  rewrite filter_cons_True by (apply Hl; left).
  f_equal. apply IH. intros y Hy. apply Hl. by right.
Qed.

Lemma filter_none {A : Type} (P : A → Prop) `{∀ x, Decision (P x)} (l : list A) :
  (∀ x, x ∈ l → ¬ P x) → filter P l = [].
Proof.
  induction l as [|x l IH]; intros Hl; [done|].
  rewrite filter_cons_False by (apply Hl; left).
  apply IH. intros y Hy. apply Hl. by right.
Qed.

Lemma filter_nil_inv {A : Type} (P : A → Prop) `{∀ x, Decision (P x)} (l : list A) x :
  filter P l = [] → x ∈ l → ¬ P x.
Proof. intros Hf Hx HP. by apply (filter_nil_not_elem_of P l x). Qed.

Section Step.
Variables (N : nat) (seeds : list nat).
Hypothesis Hdst : ∀ a, a < M → dst a < N.

Lemma cnt_out_of_range l v : (∀ a, a ∈ l → a < M) → N ≤ v → cnt dst l v = 0%Z.
Proof.
  intros Hl Hv. unfold cnt.
  rewrite filter_none; [done|].
  intros a Ha Hd. specialize (Hdst a (Hl a Ha)). lia.
Qed.

Lemma kinv_init :
  NoDup seeds → (∀ s, s ∈ seeds → s < N) →
  KInv M src dst N seeds [] ((λ n, Z.of_nat (length (coadj M dst n))) <$> seq 0 N)
    (filter (λ n, length (coadj M dst n) = 0) seeds).
Proof.
  intros Hnd Hs.
  assert (Hg : ∀ v, v < N →
            getZ ((λ n, Z.of_nat (length (coadj M dst n))) <$> seq 0 N) v
            = Z.of_nat (length (coadj M dst v))).
  { intros v Hv. unfold getZ. by rewrite list_lookup_fmap, lookup_seq_lt. }
  split.
  - by rewrite length_fmap, length_seq.
  - intros v Hv. rewrite Hg by done. f_equal. f_equal. unfold pending.
    symmetry. apply filter_all. intros a _. apply not_elem_of_nil.
  - intros v. simpl. rewrite list_elem_of_filter. split.
    + intros [Hc Hv]. split; [by apply Hs|].
      rewrite Hg by (by apply Hs). split; [lia|done].
    + intros (Hv & Hd & Hc). rewrite Hg in Hd by done.
      assert (coadj M dst v = []) as E by (apply nil_length_inv; lia).
      split; [by rewrite E|by apply Hc].
  - simpl. by apply NoDup_filter.
  - intros i v a Hi. by rewrite lookup_nil in Hi.
Qed.

Lemma kinv_step popped deg n rest :
  KInv M src dst N seeds popped deg (n :: rest) →
  KInv M src dst N seeds (popped ++ [n])
    (fold_left (karc dst) (adj M src n) (deg, rest)).1
    (fold_left (karc dst) (adj M src n) (deg, rest)).2.
Proof.
  intros [Hlen Hdeg Hmem Hnd Htopo].
  assert (Hn : n ∉ popped).
  { apply NoDup_app in Hnd as (_ & Hd & _). intros Hin. apply (Hd n Hin). left. }
  assert (Hn0 : n < N ∧ getZ deg n = 0%Z).
  { destruct (proj1 (Hmem n)) as (? & ? & _); [|done].
    apply elem_of_app. right. left. }
  assert (Hcount : ∀ v, v < N →
     getZ deg v = (Z.of_nat (length (pending M src dst (popped ++ [n]) v))
                   + cnt dst (adj M src n) v)%Z).
  { intros v Hv. rewrite Hdeg, cnt_adj by done.
    rewrite (pending_snoc popped n v Hn). lia. }
  assert (Hadj : ∀ a, a ∈ adj M src n → a < M).
  { intros a Ha. by apply elem_of_adj in Ha as [? _]. }
  destruct (karc_fold_spec (adj M src n) deg rest) as (pushed & Hq & Hl & Hd & Hpnd & Hpm).
  { intros a Ha. rewrite Hlen. apply Hdst. by apply Hadj. }
  { intros v. destruct (decide (v < N)) as [Hv|Hv].
    - rewrite (Hcount v Hv). lia.
    - rewrite cnt_out_of_range by (done || lia).
      unfold getZ. rewrite lookup_ge_None_2 by lia. done. }
  assert (Hpushed : ∀ v, v ∈ pushed → v < N ∧ (0 < getZ deg v)%Z ∧ coadj M dst v ≠ []).
  { intros v Hv. apply Hpm in Hv as [Hpos Heq].
    assert (∃ a, a ∈ filter (λ a, dst a = v) (adj M src n)) as [a Ha].
    { unfold cnt in Hpos. destruct (filter _ (adj M src n)) as [|a l]; simpl in *; [lia|].
      exists a. left. }
    apply list_elem_of_filter in Ha as [Hav Ha]. apply Hadj in Ha.
    split; [subst v; by apply Hdst|]. split; [lia|].
    intros E. assert (a ∈ coadj M dst v) as Hin by (by apply elem_of_coadj).
    rewrite E in Hin. by apply elem_of_nil in Hin. }
  split.
  - by rewrite Hl.
  - intros v Hv. rewrite Hd, (Hcount v Hv). lia.
  - intros v. rewrite Hq, Hd.
    replace ((popped ++ [n]) ++ rest ++ pushed) with ((popped ++ n :: rest) ++ pushed)
      by (by rewrite <- !app_assoc).
    rewrite elem_of_app, Hmem. split.
    + intros [(Hv & H0 & Hs)|Hp].
      * split; [done|]. split; [|done].
        pose proof (Hcount v Hv). pose proof (cnt_nonneg (adj M src n) v). lia.
      * destruct (Hpushed v Hp) as (Hv & Hpos & Hne).
        apply Hpm in Hp as [? ?]. split; [done|]. split; [lia|done].
    + intros (Hv & H0 & Hs).
      destruct (decide (cnt dst (adj M src n) v = 0%Z)) as [E|E].
      * left. split; [done|]. split; [lia|done].
      * right. apply Hpm. pose proof (cnt_nonneg (adj M src n) v). lia.
  - rewrite Hq.
    replace ((popped ++ [n]) ++ rest ++ pushed) with ((popped ++ n :: rest) ++ pushed)
      by (by rewrite <- !app_assoc).
    apply NoDup_app. split; [done|]. split; [|done].
    intros v Hv Hp. apply Hmem in Hv as (_ & H0 & _).
    destruct (Hpushed v Hp) as (_ & Hpos & _). lia.
  - intros i v a Hi Ha Hv. apply lookup_snoc_Some in Hi as [[Hi Hlk]|[Hi <-]].
    + destruct (Htopo i v a Hlk Ha Hv) as (j & Hj & Hjl).
      exists j. split; [done|]. by apply lookup_app_l_Some.
    + destruct Hn0 as [Hn1 Hn2]. rewrite Hdeg in Hn2 by done.
      assert (pending M src dst popped n = []) as E by (apply nil_length_inv; lia).
      assert (Hin : src a ∈ popped).
      { destruct (decide (src a ∈ popped)) as [|Hno]; [done|]. exfalso.
        eapply (filter_nil_inv _ _ a E); [|exact Hno]. by apply elem_of_coadj. }
      apply list_elem_of_lookup in Hin as [j Hj].
      exists j. split; [|by apply lookup_app_l_Some].
      apply lookup_lt_Some in Hj. lia.
Qed.

End Step.

End KahnFacts.

(** ** forward: the loop and its invariant *)

Section ForwardFacts.
Context {W : Type} `{FloatOps W}.
Implicit Types g : Graph W.

Lemma getW_insert (l : list W) (i j : nat) (x : W) :
  getW (<[i := x]> l) j = if decide (i = j ∧ i < length l) then x else getW l j.
Proof.
  unfold getW. case_decide as Hd.
  - destruct Hd as [-> Hl]. by rewrite list_lookup_insert_eq.
  - destruct (decide (i = j)) as [->|Hne].
    + rewrite list_insert_ge; [done|lia].
    + by rewrite list_lookup_insert_ne.
Qed.

(** The degrees and the queue of [forward] follow the Kahn walk along the
    arcs, from [upNode] to [downNode]. *)
Lemma forward_fold_proj g score l st :
  (f_degrees (fold_left (forward_arc g score) l st),
   f_computed (fold_left (forward_arc g score) l st))
  = fold_left (karc (downNode g)) l (f_degrees st, f_computed st).
Proof.
  revert st; induction l as [|a l IH]; intros st; simpl; [done|].
  by rewrite IH.
Qed.

Lemma forward_fold_scores g score l : ∀ st,
  (∀ a, a ∈ l → downNode g a < length (f_scores st)) →
  length (f_scores (fold_left (forward_arc g score) l st)) = length (f_scores st)
  ∧ ∀ v, getW (f_scores (fold_left (forward_arc g score) l st)) v
         = fold_left (λ acc a, logadd (fadd score (weight g a)) acc)
             (filter (λ a, downNode g a = v) l) (getW (f_scores st) v).
Proof.
  induction l as [|a l IH]; intros st Hl; simpl; [done|].
  destruct (IH (forward_arc g score st a)) as [IH1 IH2].
  { intros b Hb. simpl. rewrite length_insert. apply Hl. by right. }
  split.
  - rewrite IH1. simpl. by rewrite length_insert.
  - intros v. rewrite IH2. simpl. rewrite getW_insert.
    rewrite filter_cons. destruct (decide (downNode g a = v)) as [E|E].
    + rewrite decide_True; [by subst|]. split; [done|]. apply Hl. left.
    + rewrite decide_False; [done|]. by intros [? _].
Qed.

Lemma forward_init_spec g :
  f_degrees (forward_init g) = (λ n, Z.of_nat (numIn g n)) <$> seq 0 (numNodes g)
  ∧ f_computed (forward_init g) = filter (λ n, numIn g n = 0) (start_ g)
  ∧ length (f_scores (forward_init g)) = numNodes g
  ∧ ∀ v, getW (f_scores (forward_init g)) v
         = if decide (v ∈ start_ g ∧ v < numNodes g) then fzero
           else if decide (v < numNodes g) then neginf else fzero.
Proof.
  unfold forward_init.
  set (st0 := mkFwd (replicate (numNodes g) neginf)
                ((λ n, Z.of_nat (numIn g n)) <$> seq 0 (numNodes g)) []).
  assert (Hgen : ∀ l st,
    let r := fold_left (λ st n,
      mkFwd (<[n := fzero]> (f_scores st)) (f_degrees st)
        (if numIn g n =? 0 then f_computed st ++ [n] else f_computed st)) l st in
    f_degrees r = f_degrees st
    ∧ f_computed r = f_computed st ++ filter (λ n, numIn g n = 0) l
    ∧ length (f_scores r) = length (f_scores st)
    ∧ ∀ v, getW (f_scores r) v
           = if decide (v ∈ l ∧ v < length (f_scores st)) then fzero
             else getW (f_scores st) v).
  { induction l as [|n l IH]; intros st; cbn [fold_left].
    - rewrite app_nil_r. split; [done|]. split; [done|]. split; [done|]. intros v.
      rewrite decide_False; [done|]. intros [Hv _]. by apply elem_of_nil in Hv.
    - destruct (IH (mkFwd (<[n := fzero]> (f_scores st)) (f_degrees st)
                      (if numIn g n =? 0 then f_computed st ++ [n] else f_computed st)))
        as (-> & -> & -> & Hs); cbn [f_scores f_degrees f_computed].
      split; [done|]. split.
      { rewrite filter_cons. destruct (Nat.eqb_spec (numIn g n) 0) as [E|E].
        - rewrite decide_True by done. by rewrite <- app_assoc.
        - by rewrite decide_False by done. }
      split; [by rewrite length_insert|].
      intros v. rewrite Hs. cbn [f_scores]. rewrite length_insert, getW_insert.
      destruct (decide (v ∈ l ∧ v < length (f_scores st))) as [[Hv Hl]|Hn].
      + rewrite decide_True; [done|]. split; [by right|done].
      + destruct (decide (n = v ∧ n < length (f_scores st))) as [[-> Hl]|Hn'].
        * rewrite decide_True; [done|]. split; [left|done].
        * rewrite decide_False; [done|]. intros [Hv Hl].
          apply elem_of_cons in Hv as [->|Hv]; [by apply Hn'|by apply Hn]. }
  destruct (Hgen (start_ g) st0) as (Hd & Hc & Hl & Hs).
  simpl in Hd, Hc, Hl. rewrite length_replicate in Hl.
  split; [done|]. split; [done|]. split; [done|].
  intros v. rewrite Hs. cbn [f_scores st0]. unfold st0; cbn [f_scores]. rewrite length_replicate.
  destruct (decide (v ∈ start_ g ∧ v < numNodes g)); [done|].
  unfold getW. destruct (decide (v < numNodes g)).
  - by rewrite lookup_replicate_2.
  - rewrite lookup_ge_None_2; [done|]. rewrite length_replicate. lia.
Qed.

Lemma wf_start_elem g v : wf g → v ∈ start_ g ↔ v < numNodes g ∧ start g v = true.
Proof.
  intros Hwf. rewrite (wf_start g Hwf), list_elem_of_filter, elem_of_seq.
  split; [intros [? ?]|intros [? ?]]; (split; [done || lia|done || lia]).
Qed.

Lemma wf_start_nodup g : wf g → NoDup (start_ g).
Proof. intros Hwf. rewrite (wf_start g Hwf). apply NoDup_filter, NoDup_seq. Qed.

Lemma fold_left_ext_in {A B : Type} (f1 f2 : A → B → A) (l : list B) (x : A) :
  (∀ b acc, b ∈ l → f1 acc b = f2 acc b) → fold_left f1 l x = fold_left f2 l x.
Proof.
  revert x; induction l as [|b l IH]; intros x Hf; simpl; [done|].
  rewrite Hf by left. apply IH. intros b' acc Hb. apply Hf. by right.
Qed.

Lemma finv_init g : wf g → FInv g [] (forward_init g).
Proof.
  intros Hwf. destruct (forward_init_spec g) as (Hd & Hc & Hl & Hs).
  split.
  - rewrite Hd, Hc.
    apply (kinv_init (numArcs g) (upNode g) (downNode g) (numNodes g) (start_ g)).
    + by apply wf_start_nodup.
    + intros s Hs'. by apply wf_start_elem in Hs' as [? _].
  - done.
  - intros v Hv. rewrite Hs. unfold score_rec, score_init; simpl.
    rewrite (decide_True (P := v < numNodes g)) by done.
    destruct (start g v) eqn:E.
    + rewrite decide_True; [done|]. split; [|done]. by apply wf_start_elem.
    + rewrite decide_False; [done|]. intros [Hin _].
      apply wf_start_elem in Hin as [_ Hin]; [congruence|done].
Qed.

Lemma finv_step g popped s d n rest :
  wf g →
  FInv g popped (mkFwd s d (n :: rest)) →
  FInv g (popped ++ [n]) (forward_step g n (mkFwd s d rest)).
Proof.
  intros Hwf [Hk Hlen Hsc]; simpl in *.
  pose proof (kinv_step (numArcs g) (upNode g) (downNode g) (numNodes g) (start_ g)
                (wf_down g Hwf) popped d n rest Hk) as Hk'.
  unfold forward_step; simpl.
  pose proof (forward_fold_proj g (getW s n) (out g n) (mkFwd s d rest)) as Hproj.
  simpl in Hproj.
  destruct (forward_fold_scores g (getW s n) (out g n) (mkFwd s d rest)) as [Hl' Hs'].
  { intros a Ha. simpl. rewrite Hlen. apply (wf_down g Hwf).
    by apply elem_of_adj in Ha as [? _]. }
  simpl in Hl', Hs'.
  set (st' := fold_left (forward_arc g (getW s n)) (out g n) (mkFwd s d rest)) in *.
  assert (Hst : ∀ u, u ∈ popped ++ [n] → getW (f_scores st') u = getW s u).
  { intros u Hu. rewrite Hs'. rewrite filter_none; [done|].
    intros a Ha Hda. apply elem_of_adj in Ha as [Ha Hua].
    assert (Hu' : u ∈ popped ++ n :: rest).
    { apply elem_of_app in Hu as [Hu|Hu]; apply elem_of_app; [by left|right].
      apply list_elem_of_singleton in Hu as ->. left. }
    destruct (proj1 (k_mem _ _ _ _ _ _ _ _ Hk u) Hu') as (HuN & Hu0 & _).
    rewrite (k_deg _ _ _ _ _ _ _ _ Hk u HuN) in Hu0.
    assert (pending (numArcs g) (upNode g) (downNode g) popped u = []) as E
      by (apply nil_length_inv; lia).
    eapply (filter_nil_inv _ _ a E); [by apply elem_of_coadj|].
    rewrite Hua. pose proof (k_nodup _ _ _ _ _ _ _ _ Hk) as Hnd.
    apply NoDup_app in Hnd as (_ & Hnd & _). intros Hin. apply (Hnd n Hin). left. }
  split.
  - change (adj (numArcs g) (upNode g) n) with (out g n) in Hk'.
    by rewrite <- Hproj in Hk'.
  - by rewrite Hl'.
  - intros v Hv. rewrite Hs'. unfold score_rec.
    rewrite bind_app, filter_app, fold_left_app. simpl. rewrite app_nil_r.
    rewrite (Hsc v Hv). unfold score_rec.
    rewrite (fold_left_ext_in
               (λ acc a, logadd (fadd (getW (f_scores st') (upNode g a)) (weight g a)) acc)
               (λ acc a, logadd (fadd (getW s (upNode g a)) (weight g a)) acc)
               (filter (λ a, downNode g a = v) (popped ≫= out g))).
    2:{ intros a acc Ha. apply list_elem_of_filter in Ha as [_ Ha].
        apply list_elem_of_bind in Ha as (u & Ha & Hu).
        apply elem_of_adj in Ha as [_ <-].
        rewrite Hst; [done|]. apply elem_of_app. by left. }
    apply fold_left_ext_in. intros a acc Ha.
    apply list_elem_of_filter in Ha as [_ Ha]. apply elem_of_adj in Ha as [_ ->].
    rewrite Hst; [done|]. apply elem_of_app. right. left.
Qed.

Lemma forward_loop_inv g fuel : ∀ st popped st',
  wf g → FInv g popped st → forward_loop fuel g st = Some st' →
  ∃ popped', FInv g popped' st' ∧ f_computed st' = [].
Proof.
  induction fuel as [|fuel IH]; intros [s d q] popped st' Hwf Hinv; simpl.
  - destruct q; [|done]. intros [= <-]. by exists popped.
  - destruct q as [|n rest]; [intros [= <-]; by exists popped|].
    intros Hloop. eapply IH; [done| |exact Hloop].
    by apply finv_step.
Qed.

Lemma forward_loop_terminates g fuel : ∀ st,
  potential (f_degrees st, f_computed st) < fuel →
  is_Some (forward_loop fuel g st).
Proof.
  induction fuel as [|fuel IH]; intros [s d q] Hp; simpl in *; [lia|].
  destruct q as [|n rest]; [by eexists|].
  apply IH. unfold forward_step.
  rewrite forward_fold_proj. simpl.
  pose proof (potential_fold (downNode g) (out g n) (d, rest)) as Hle.
  unfold potential in *; simpl in *. lia.
Qed.

End ForwardFacts.

(** ** forward: termination, the accept loop, cycles *)

Lemma length_filter_lt_S (dst : nat → nat) (l : list nat) (N : nat) :
  length (filter (λ a, dst a < S N) l)
  = length (filter (λ a, dst a < N) l) + length (filter (λ a, dst a = N) l).
Proof.
  induction l as [|a l IH]; [done|].
  rewrite !filter_cons.
  destruct (decide (dst a < S N)), (decide (dst a < N)), (decide (dst a = N));
    simpl; lia.
Qed.

Lemma sum_indegrees (dst : nat → nat) (l : list nat) (N : nat) :
  sum_list ((λ n, length (filter (λ a, dst a = n) l)) <$> seq 0 N)
  = length (filter (λ a, dst a < N) l).
Proof.
  induction N as [|N IH].
  - simpl. rewrite filter_none; [done|]. intros; lia.
  - rewrite seq_S, fmap_app, sum_list_with_app, IH, length_filter_lt_S.
    simpl. lia.
Qed.

Section ForwardFacts2.
Context {W : Type} `{FloatOps W}.
Implicit Types g : Graph W.

Lemma forward_init_potential g :
  potential (f_degrees (forward_init g), f_computed (forward_init g)) < forward_fuel g.
Proof.
  destruct (forward_init_spec g) as (-> & -> & _).
  unfold potential, forward_fuel; simpl.
  pose proof (length_filter (λ n, numIn g n = 0) (start_ g)).
  rewrite <- list_fmap_compose.
  assert (E : (Z.to_nat ∘ (λ n, Z.of_nat (numIn g n))) <$> seq 0 (numNodes g)
              = (λ n, length (filter (λ a, downNode g a = n) (seq 0 (numArcs g))))
                  <$> seq 0 (numNodes g)).
  { apply list_fmap_ext. intros i x _. simpl. unfold numIn, in_. lia. }
  rewrite E, sum_indegrees.
  pose proof (length_filter (λ a, downNode g a < numNodes g) (seq 0 (numArcs g))) as Hf.
  rewrite length_seq in Hf. lia.
Qed.

Lemma forward_terminates g :
  is_Some (forward_loop (forward_fuel g) g (forward_init g)).
Proof. apply forward_loop_terminates, forward_init_potential. Qed.

Lemma forward_final g :
  wf g →
  ∃ st popped, forward_loop (forward_fuel g) g (forward_init g) = Some st
               ∧ FInv g popped st ∧ f_computed st = [].
Proof.
  intros Hwf. destruct (forward_terminates g) as [st Hst].
  destruct (forward_loop_inv g _ _ [] st Hwf (finv_init g Hwf) Hst) as (popped & ? & ?).
  by exists st, popped.
Qed.

Lemma accumulate_err (st : fwd_state W) (accepts : list nat) (e : error) :
  fold_left (λ acc a,
      do score <- acc;
      if (0 <? getZ (f_degrees st) a)%Z then Err CycleDetected
      else Ok (logadd score (getW (f_scores st) a)))
    accepts (Err e) = Err e.
Proof. induction accepts as [|a l IH]; simpl; [done|]. apply IH. Qed.

Lemma forward_accumulate_cycle (st : fwd_state W) (accepts : list nat) (a : nat) :
  a ∈ accepts → (0 < getZ (f_degrees st) a)%Z →
  forward_accumulate st accepts = Err CycleDetected.
Proof.
  unfold forward_accumulate. generalize (neginf (W:=W)).
  induction accepts as [|b l IH]; intros w Ha Hd.
  - by apply elem_of_nil in Ha.
  - simpl. destruct (Z.ltb_spec 0 (getZ (f_degrees st) b)) as [Hb|Hb].
    + apply accumulate_err.
    + apply IH; [|done]. apply elem_of_cons in Ha as [->|Ha]; [lia|done].
Qed.

Lemma forward_accumulate_ok (st : fwd_state W) (accepts : list nat) :
  (∀ a, a ∈ accepts → (getZ (f_degrees st) a ≤ 0)%Z) →
  forward_accumulate st accepts
  = Ok (fold_left (λ score a, logadd score (getW (f_scores st) a)) accepts neginf).
Proof.
  unfold forward_accumulate. generalize (neginf (W:=W)).
  induction accepts as [|b l IH]; intros w Hd; [done|].
  simpl. destruct (Z.ltb_spec 0 (getZ (f_degrees st) b)) as [Hb|Hb].
  - specialize (Hd b ltac:(left)). lia.
  - apply IH. intros a Ha. apply Hd. by right.
Qed.

Lemma forward_scores_no_accept g :
  accept_ g = [] →
  ∃ scores, forward_scores g = Some (Ok (scores, neginf)).
Proof.
  intros Ha. unfold forward_scores.
  destruct (forward_terminates g) as [st ->]; simpl.
  rewrite Ha; simpl. by eexists.
Qed.

(** [forward] wraps the output of the scoring in an item graph. *)
Lemma forward_of_scores (σ : store W) (h : handle) g scores score :
  deref σ h = Ok g → forward_scores g = Some (Ok (scores, score)) →
  forward σ h
  = Some (Ok (mkTaped (itemGraph score) [h] (forward_gradFunc scores score))).
Proof. intros Hd Hs. unfold forward. by rewrite Hd, Hs. Qed.

Lemma forward_of_error (σ : store W) (h : handle) g e :
  deref σ h = Ok g → forward_scores g = Some (Err e) → forward σ h = Some (Err e).
Proof. intros Hd Hs. unfold forward. by rewrite Hd, Hs. Qed.

(** C10. On a graph without accept nodes, acyclic or not, [forward] raises
    no error and returns the item graph of negative infinity: the loop over
    the accept nodes, the only place that throws, has nothing to visit, and
    the [while] loop before it always ends. *)
Theorem forward_no_accept g (σ : store W) (h : handle) :
  deref σ h = Ok g → accept_ g = [] →
  ∃ t, forward σ h = Some (Ok t)
       ∧ t_graph t = itemGraph neginf
       ∧ is_item (t_graph t) = true
       ∧ item (t_graph t) = Ok neginf.
Proof.
  intros Hd Ha. destruct (forward_scores_no_accept g Ha) as [scores Hs].
  eexists. split; [by apply (forward_of_scores σ h g scores neginf)|]. done.
Qed.

Section Final.
Variables (g : Graph W) (popped : list nat) (deg : list Z) (queue : list nat).
Hypothesis Hwf : wf g.
Hypothesis Hk : KInv (numArcs g) (upNode g) (downNode g) (numNodes g) (start_ g)
                  popped deg queue.

Lemma topo_walk u p v :
  walk g u p v → p ≠ [] → ∀ i, popped !! i = Some v →
  ∃ j, j < i ∧ popped !! j = Some u.
Proof.
  induction 1 as [|p w a Hw IH Ha Hu]; [done|].
  intros _ i Hi.
  destruct (k_topo _ _ _ _ _ _ _ _ Hk i _ a Hi Ha eq_refl) as (j & Hj & Hjl).
  rewrite Hu in Hjl.
  destruct p as [|b p].
  - apply walk_nil_inv in Hw as ->. by exists j.
  - destruct (IH ltac:(done) j Hjl) as (j' & Hj' & Hjl').
    exists j'. split; [lia|done].
Qed.

Lemma cycle_not_popped c p : walk g c p c → p ≠ [] → c ∉ popped.
Proof.
  intros Hw Hp Hin. apply list_elem_of_lookup in Hin as [i Hi].
  destruct (topo_walk c p c Hw Hp i Hi) as (j & Hj & Hjl).
  pose proof (k_nodup _ _ _ _ _ _ _ _ Hk) as Hnd.
  apply NoDup_app in Hnd as (Hnd & _).
  pose proof (NoDup_lookup _ _ _ _ Hnd Hi Hjl). lia.
Qed.

Lemma unpopped_arc a :
  a < numArcs g → upNode g a ∉ popped →
  (0 < getZ deg (downNode g a))%Z ∧ downNode g a ∉ popped ++ queue.
Proof.
  intros Ha Hu.
  assert (Hd : (0 < getZ deg (downNode g a))%Z).
  { rewrite (k_deg _ _ _ _ _ _ _ _ Hk) by (by apply (wf_down g Hwf)).
    assert (a ∈ pending (numArcs g) (upNode g) (downNode g) popped (downNode g a)) as Hin.
    { unfold pending. apply list_elem_of_filter. split; [done|]. by apply elem_of_coadj. }
    destruct (pending _ _ _ _ _); [by apply elem_of_nil in Hin|simpl; lia]. }
  split; [done|]. intros Hin.
  apply (k_mem _ _ _ _ _ _ _ _ Hk) in Hin as (_ & H0 & _). lia.
Qed.

Lemma unpopped_walk u p v :
  walk g u p v → p ≠ [] → u ∉ popped →
  (0 < getZ deg v)%Z ∧ v ∉ popped ++ queue.
Proof.
  induction 1 as [|p w a Hw IH Ha Hu]; [done|].
  intros _ Hun. apply unpopped_arc; [done|]. rewrite Hu.
  destruct p as [|b p].
  - by apply walk_nil_inv in Hw as <-.
  - destruct (IH ltac:(done) Hun) as [_ Hn]. intros Hin. apply Hn.
    apply elem_of_app. by left.
Qed.

End Final.

Lemma forward_scores_cycle g c p q a :
  wf g → p ≠ [] → walk g c p c → walk g c q a → a ∈ accept_ g →
  forward_scores g = Some (Err CycleDetected).
Proof.
  intros Hwf Hp Hcyc Hq Ha. unfold forward_scores.
  destruct (forward_final g Hwf) as (st & popped & -> & [Hk _ _] & _); simpl.
  assert (Hc : c ∉ popped) by (by eapply cycle_not_popped).
  assert (Hd : (0 < getZ (f_degrees st) a)%Z).
  { destruct q as [|b q].
    - apply walk_nil_inv in Hq as <-.
      by destruct (unpopped_walk g popped _ _ Hwf Hk c p c Hcyc Hp Hc).
    - by destruct (unpopped_walk g popped _ _ Hwf Hk c (b :: q) a Hq ltac:(done) Hc). }
  by rewrite (forward_accumulate_cycle st (accept_ g) a Ha Hd).
Qed.

(** C5, amended. When a well-formed graph has a directed cycle (a closed
    walk [p] through [c]) from which an accept node [a] can be reached
    (along [q], possibly empty), [forward] fails with CycleDetected. *)
Theorem forward_cycle_detected g c p q a (σ : store W) (h : handle) :
  deref σ h = Ok g → wf g →
  p ≠ [] → walk g c p c → walk g c q a → a ∈ accept_ g →
  forward σ h = Some (Err CycleDetected).
Proof.
  intros Hd Hwf Hp Hcyc Hq Ha.
  apply (forward_of_error σ h g); [done|]. by apply (forward_scores_cycle g c p q a).
Qed.

End ForwardFacts2.

Lemma forward_no_accept_witness :
  accept_ no_accept_graph = []
  ∧ ∃ t, forward (store_of no_accept_graph) 0 = Some (Ok t)
         ∧ t_graph t = itemGraph NegInf.
Proof.
  split; [reflexivity|].
  destruct (forward_no_accept no_accept_graph (store_of no_accept_graph) 0
              eq_refl eq_refl) as (t & Ht & Hg & _).
  by exists t.
Defined.

Lemma forward_cycle_detected_witness :
  wf loop_accept_graph
  ∧ walk loop_accept_graph 1 [1] 1
  ∧ 1 ∈ accept_ loop_accept_graph
  ∧ forward (store_of loop_accept_graph) 0 = Some (Err CycleDetected).
Proof.
  assert (Hwf : wf loop_accept_graph) by (apply wfb_wf; reflexivity).
  assert (Hw : walk loop_accept_graph 1 [1] 1) by (apply walkb_walk; reflexivity).
  split; [exact Hwf|]. split; [exact Hw|]. split; [left|].
  apply (forward_cycle_detected loop_accept_graph 1 [1] [] 1
           (store_of loop_accept_graph) 0 eq_refl Hwf); try done.
  - constructor.
  - left.
Defined.

(** The counterexample to C5 as stated: [loop_graph] has a cycle, the
    self-loop at node 1, and [forward] returns the item graph of 0.0, the
    score of its accept node 0, without an error. *)
Lemma forward_accepts_cyclic_graph :
  has_cycle loop_graph
  ∧ ∃ t, forward (store_of loop_graph) 0 = Some (Ok t)
         ∧ t_graph t = itemGraph (Fin 0).
Proof.
  split.
  - exists 1, [0]. split; [done|]. apply walkb_walk. reflexivity.
  - eexists. split; reflexivity.
Qed.


(** ** compose and remove at the inputs where they go wrong *)

(** C1 (the code loses a pair of matching paths).  In [lost_A] the path of
    arcs 0, 1 leads from the start node to the accept node with output
    labels epsilon, 3; in [lost_B] arc 0 leads from the start node to the
    accept node with input label 3.  The intermediate labels match, yet
    [compose] returns the empty graph: [findReachable] does not mark the
    start state (0, 0). *)
Theorem compose_loses_matching_paths :
  (start lost_A 0 = true ∧ accept lost_A 2 = true ∧ walk lost_A 0 [0; 1] 2)
  ∧ (start lost_B 0 = true ∧ accept lost_B 1 = true ∧ walk lost_B 0 [0] 1)
  ∧ elide (olabels lost_A [0; 1]) = elide (ilabels lost_B [0])
  ∧ (∃ reachable, findReachable lost_A lost_B = Some reachable
                  ∧ getb reachable (toIndex 0 0 lost_A) = false)
  ∧ compose lost_A lost_B = Some (emptyGraph, []).
Proof.
  split; [|split; [|split; [|split]]]; try reflexivity.
  - split; [reflexivity|]. split; [reflexivity|]. apply walkb_walk. reflexivity.
  - split; [reflexivity|]. split; [reflexivity|]. apply walkb_walk. reflexivity.
  - eexists. split; reflexivity.
Qed.

(** C2 (the code counts a paired epsilon match twice).  In [twice_A] and
    [twice_B] the output epsilon of arc 0 of A matches the input epsilon of
    arc 0 of B.  The composed graph has the paired arc 0 -> 1 (provenance
    (0, 0)) and also the two single-sided arcs 0 -> 2 (provenance (0, -1))
    and 2 -> 1 (provenance (-1, 0)): two paths from the start node to the
    accept node 1 for the one pair of paths of A and B. *)
Theorem compose_counts_epsilon_twice :
  ∃ c, compose twice_A twice_B = Some (c, [(0, 0); (0, -1); (-1, 0)]%Z)
       ∧ arcs_ c = [mkArc 0 1 1 2 (Fin (1 + 2)); mkArc 0 2 1 0 (Fin 1);
                    mkArc 2 1 0 2 (Fin 2)]
       ∧ start c 0 = true ∧ accept c 1 = true
       ∧ walk c 0 [0] 1 ∧ walk c 0 [1; 2] 1
       ∧ elide (ilabels c [0]) = elide (ilabels c [1; 2])
       ∧ elide (olabels c [0]) = elide (olabels c [1; 2]).
Proof.
  eexists. split; [reflexivity|].
  split; [reflexivity|]. split; [reflexivity|]. split; [reflexivity|].
  split; [apply walkb_walk; reflexivity|].
  split; [apply walkb_walk; reflexivity|].
  split; reflexivity.
Qed.

(** C6 (the code adds the arc from the wrong node).  In [shifted_arc] node
    0 is dropped, so the kept node 1 is mapped to node 0 of the result and
    node 2 to node 1.  The walk from node 1 meets the arc 1 -> 2, which
    keeps its labels; [remove] adds it from node 1 of the result, the
    index of the walk's origin in the input, and not from node 0. *)
Theorem remove_adds_arc_from_unmapped_node :
  (remove_nodes shifted_arc epsilon epsilon).1 = [None; Some 0; Some 1]
  ∧ ∃ r, remove shifted_arc epsilon epsilon = Some r
         ∧ arcs_ r = [mkArc 1 1 1 1 (Fin 0)].
Proof.
  split; [reflexivity|]. eexists. split; reflexivity.
Qed.

(** ** forward in exact arithmetic *)

Lemma logadd_fin (x y : R) :
  logadd (Fin x) (Fin y) = Fin (ln (exp x + exp y)).
Proof.
  unfold logadd; simpl. unfold fmax; simpl.
  destruct (Rlt_dec (-1) (exp (- Rabs (x + - y)))) as [_|Hn].
  2:{ pose proof (exp_pos (- Rabs (x + - y))). lra. }
  assert (Hpos : (0 < 1 + exp (- Rabs (x + - y)))%R).
  { pose proof (exp_pos (- Rabs (x + - y))). lra. }
  pose proof (exp_pos x) as Hx. pose proof (exp_pos y) as Hy.
  destruct (Rlt_dec x y) as [Hlt|Hge]; simpl; f_equal; apply exp_inv;
    rewrite exp_plus, !exp_ln by lra; rewrite Rmult_plus_distr_l, <- exp_plus.
  - rewrite Rabs_left by lra. rewrite Rmult_1_r, Rplus_comm. f_equal. f_equal. lra.
  - rewrite Rabs_right by lra. rewrite Rmult_1_r. f_equal. f_equal. lra.
Qed.

Lemma logadd_good (a b : xreal) :
  good a → good b → good (logadd a b) ∧ expx (logadd a b) = (expx a + expx b)%R.
Proof.
  intros [->|[x ->]] [->|[y ->]].
  - split; [by left|]. simpl. lra.
  - split; [right; by eexists|]. simpl. lra.
  - split; [right; by eexists|]. simpl. lra.
  - rewrite logadd_fin. split; [right; by eexists|]. simpl.
    rewrite exp_ln; [done|]. pose proof (exp_pos x). pose proof (exp_pos y). lra.
Qed.

Lemma xadd_good (a : xreal) (w : R) :
  good a → good (fadd a (Fin w)) ∧ expx (fadd a (Fin w)) = (expx a * exp w)%R.
Proof.
  intros [->|[x ->]]; simpl.
  - split; [by left|]. lra.
  - split; [right; by eexists|]. by rewrite exp_plus.
Qed.

(** Sums of reals over lists. *)
Lemma sumR_cons x l : sumR (x :: l) = (x + sumR l)%R.
Proof. reflexivity. Qed.

Lemma sumR_app l k : sumR (l ++ k) = (sumR l + sumR k)%R.
Proof. induction l as [|x l IH]; csimpl; [lra|]. rewrite IH. lra. Qed.

Lemma sumR_perm l k : l ≡ₚ k → sumR l = sumR k.
Proof. induction 1; csimpl; lra. Qed.

Lemma sumR_fmap_ext {A : Type} (f h : A → R) (l : list A) :
  (∀ x, x ∈ l → f x = h x) → sumR (f <$> l) = sumR (h <$> l).
Proof.
  induction l as [|x l IH]; intros Hf; csimpl; [done|].
  rewrite (Hf x) by left. rewrite IH; [done|]. intros y Hy. apply Hf. by right.
Qed.

Lemma sumR_fmap_mul {A : Type} (f : A → R) (c : R) (l : list A) :
  sumR ((λ x, f x * c)%R <$> l) = (sumR (f <$> l) * c)%R.
Proof. induction l as [|x l IH]; csimpl; [lra|]. rewrite IH. lra. Qed.

Lemma sumR_bind {A B : Type} (f : B → R) (h : A → list B) (l : list A) :
  sumR (f <$> (l ≫= h)) = sumR ((λ a, sumR (f <$> h a)) <$> l).
Proof.
  induction l as [|x l IH]; csimpl; [done|].
  by rewrite fmap_app, sumR_app, IH.
Qed.

Lemma sumR_nonneg l : (∀ x, x ∈ l → (0 < x)%R) → (0 <= sumR l)%R.
Proof.
  induction l as [|x l IH]; intros Hl; csimpl; [lra|].
  pose proof (Hl x ltac:(left)). specialize (IH ltac:(intros y Hy; apply Hl; by right)). lra.
Qed.

Lemma sumR_pos l : l ≠ [] → (∀ x, x ∈ l → (0 < x)%R) → (0 < sumR l)%R.
Proof.
  destruct l as [|x l]; [done|]. intros _ Hl. csimpl.
  pose proof (Hl x ltac:(left)).
  pose proof (sumR_nonneg l ltac:(intros y Hy; apply Hl; by right)). lra.
Qed.

Lemma path_score_snoc (g : Graph xreal) p a :
  path_score g (p ++ [a]) = (path_score g p + toR (weight g a))%R.
Proof.
  unfold path_score. induction p as [|b p IH]; csimpl; [lra|]. rewrite IH. lra.
Qed.

Lemma expx_score_init (g : Graph xreal) v :
  good (score_init g v)
  ∧ expx (score_init g v)
    = sumR ((λ p, exp (path_score g p)) <$> (if start g v then [[]] else [])).
Proof.
  unfold score_init. destruct (start g v); csimpl.
  - split; [right; by eexists|]. lra.
  - split; [by left|done].
Qed.

Lemma path_sum_0 (g : Graph xreal) v : path_sum g 0 v = expx (score_init g v).
Proof.
  unfold path_sum; csimpl. rewrite app_nil_r.
  by destruct (expx_score_init g v) as [_ ->].
Qed.

Lemma path_sum_S (g : Graph xreal) k v :
  path_sum g (S k) v
  = (expx (score_init g v)
     + sumR ((λ a, path_sum g k (upNode g a) * exp (toR (weight g a))) <$> in_ g v))%R.
Proof.
  unfold path_sum; csimpl. rewrite fmap_app, sumR_app.
  destruct (expx_score_init g v) as [_ ->]. f_equal.
  rewrite sumR_bind. apply sumR_fmap_ext. intros a _.
  rewrite <- list_fmap_compose, <- sumR_fmap_mul.
  apply sumR_fmap_ext. intros p _. csimpl.
  by rewrite path_score_snoc, exp_plus.
Qed.

Lemma fold_logadd_expx (sc : nat → xreal) (w : nat → xreal) (l : list nat) :
  ∀ init,
  good init → (∀ a, a ∈ l → good (sc a) ∧ ∃ r, w a = Fin r) →
  good (fold_left (λ acc a, logadd (fadd (sc a) (w a)) acc) l init)
  ∧ expx (fold_left (λ acc a, logadd (fadd (sc a) (w a)) acc) l init)
    = (expx init + sumR ((λ a, expx (sc a) * exp (toR (w a))) <$> l))%R.
Proof.
  induction l as [|a l IH]; intros init Hi Hl; cbn [fold_left].
  - split; [done|]. rewrite fmap_nil. unfold sumR; simpl. lra.
  - destruct (Hl a ltac:(left)) as [Hg [r Hr]].
    destruct (xadd_good (sc a) r Hg) as [Hg1 He1]. rewrite <- Hr in Hg1, He1.
    destruct (logadd_good _ _ Hg1 Hi) as [Hg2 He2].
    destruct (IH _ Hg2 ltac:(intros b Hb; apply Hl; by right)) as [Hg3 He3].
    split; [done|]. rewrite He3, He2, He1, fmap_cons, sumR_cons, Hr. simpl. lra.
Qed.

Lemma fold_accept_expx (sc : nat → xreal) (l : list nat) :
  ∀ init, good init → (∀ a, a ∈ l → good (sc a)) →
  good (fold_left (λ score a, logadd score (sc a)) l init)
  ∧ expx (fold_left (λ score a, logadd score (sc a)) l init)
    = (expx init + sumR ((λ a, expx (sc a)) <$> l))%R.
Proof.
  induction l as [|a l IH]; intros init Hi Hl; cbn [fold_left].
  - split; [done|]. rewrite fmap_nil. unfold sumR; simpl. lra.
  - destruct (logadd_good _ _ Hi (Hl a ltac:(left))) as [Hg2 He2].
    destruct (IH _ Hg2 ltac:(intros b Hb; apply Hl; by right)) as [Hg3 He3].
    split; [done|]. rewrite He3, He2, fmap_cons, sumR_cons. lra.
Qed.

Lemma good_logsumexp (x : xreal) (l : list R) :
  good x → expx x = sumR (exp <$> l) → x = logsumexp l.
Proof.
  intros Hg He. unfold logsumexp. destruct l as [|y l].
  - rewrite fmap_nil in He. unfold sumR in He; simpl in He.
    destruct Hg as [->|[r ->]]; [done|].
    simpl in He. pose proof (exp_pos r). lra.
  - assert (0 < sumR (exp <$> y :: l))%R as Hpos.
    { apply sumR_pos; [done|]. intros z Hz.
      apply list_elem_of_fmap in Hz as (t & -> & _). apply exp_pos. }
    rewrite <- He in *.
    destruct Hg as [->|[r ->]]; simpl in *; [lra|].
    f_equal. by rewrite ln_exp.
Qed.

Lemma paths_to_no_source' (g : Graph xreal) k v :
  start g v = false → in_ g v = [] → path_sum g k v = 0%R.
Proof.
  intros Hs Hi. unfold path_sum. destruct k; simpl; rewrite Hs; [done|]. by rewrite Hi.
Qed.

Lemma paths_to_no_source (g : Graph xreal) k v :
  start g v = false → in_ g v = [] → paths_to g k v = [].
Proof. intros Hs Hi. destruct k; simpl; rewrite Hs; [done|]. by rewrite Hi. Qed.

Section FinalScores.
Variables (g : Graph xreal) (popped : list nat) (st : fwd_state xreal).
Hypothesis Hwf : wf g.
Hypothesis Hfin : finite_weights g.
Hypothesis Hinv : FInv g popped st.
Hypothesis Hq : f_computed st = [].

Let Hk := fi_kahn g popped st Hinv.

Lemma popped_nodup : NoDup popped.
Proof.
  pose proof (k_nodup _ _ _ _ _ _ _ _ Hk) as Hnd. by apply NoDup_app in Hnd as [? _].
Qed.

Lemma done_nodup : NoDup (popped ≫= out g).
Proof.
  apply NoDup_bind; [| |apply popped_nodup].
  - intros u1 u2 a _ _ H1 H2. apply elem_of_adj in H1 as [_ <-].
    by apply elem_of_adj in H2 as [_ <-].
  - intros u _. apply NoDup_filter, NoDup_seq.
Qed.

Lemma done_into_popped v a :
  v ∈ popped →
  a ∈ filter (λ a, downNode g a = v) (popped ≫= out g) ↔ a ∈ in_ g v.
Proof.
  intros Hv. rewrite list_elem_of_filter, list_elem_of_bind.
  unfold in_. rewrite (elem_of_coadj (numArcs g) (downNode g) v a). split.
  - intros [Hd (u & Ha & _)]. apply elem_of_adj in Ha as [Ha _]. done.
  - intros [Ha Hd]. split; [done|].
    apply list_elem_of_lookup in Hv as [i Hi].
    destruct (k_topo _ _ _ _ _ _ _ _ Hk i v a Hi Ha Hd) as (j & _ & Hj).
    exists (upNode g a). split; [by apply elem_of_adj|].
    by apply list_elem_of_lookup_2 in Hj.
Qed.

Lemma done_filter_perm v :
  v ∈ popped → filter (λ a, downNode g a = v) (popped ≫= out g) ≡ₚ in_ g v.
Proof.
  intros Hv. apply NoDup_Permutation.
  - apply NoDup_filter, done_nodup.
  - apply NoDup_filter, NoDup_seq.
  - intros a. by apply done_into_popped.
Qed.

Lemma popped_scores i : ∀ v, popped !! i = Some v → ∀ k, i ≤ k →
  good (getW (f_scores st) v) ∧ expx (getW (f_scores st) v) = path_sum g k v.
Proof.
  induction i as [i IH] using lt_wf_ind. intros v Hi k Hik.
  assert (Hv : v ∈ popped) by (by apply list_elem_of_lookup_2 in Hi).
  assert (HvN : v < numNodes g).
  { apply (k_mem _ _ _ _ _ _ _ _ Hk v). apply elem_of_app. by left. }
  assert (Harc : ∀ a, a ∈ in_ g v →
            a < numArcs g ∧ ∃ j, j < i ∧ popped !! j = Some (upNode g a)).
  { intros a Ha. apply elem_of_coadj in Ha as [Ha Hd]. split; [done|].
    by apply (k_topo _ _ _ _ _ _ _ _ Hk i v a). }
  rewrite (fi_scores g popped st Hinv v HvN). unfold score_rec.
  destruct (expx_score_init g v) as [Hgi _].
  destruct (fold_logadd_expx (λ a, getW (f_scores st) (upNode g a)) (weight g)
              (filter (λ a, downNode g a = v) (popped ≫= out g))
              (score_init g v) Hgi) as [Hg He].
  { intros a Ha. apply (done_into_popped v a Hv) in Ha.
    destruct (Harc a Ha) as (HaM & j & Hj & Hjl). split; [|by apply Hfin].
    by destruct (IH j Hj _ Hjl j). }
  split; [done|]. rewrite He.
  rewrite (sumR_perm _ _ (fmap_Permutation _ _ _ (done_filter_perm v Hv))).
  destruct k as [|k].
  - rewrite path_sum_0.
    assert (in_ g v = []) as ->.
    { destruct (in_ g v) as [|a l] eqn:E; [done|].
      destruct (Harc a) as (_ & j & Hj & _); [left|lia]. }
    rewrite fmap_nil. unfold sumR; simpl. lra.
  - rewrite path_sum_S. f_equal. apply sumR_fmap_ext. intros a Ha.
    destruct (Harc a Ha) as (_ & j & Hj & Hjl).
    destruct (IH j Hj _ Hjl k ltac:(lia)) as [_ ->]. done.
Qed.

Lemma popped_length : length popped ≤ numNodes g.
Proof.
  assert (length popped ≤ length (seq 0 (numNodes g))) as Hl;
    [|by rewrite length_seq in Hl].
  apply submseteq_length.
  apply NoDup_submseteq; [apply popped_nodup|].
  intros x Hx. apply elem_of_seq.
  assert (x < numNodes g); [|lia].
  apply (k_mem _ _ _ _ _ _ _ _ Hk x). apply elem_of_app. by left.
Qed.

(** A node whose degree has reached zero holds the sum over all the paths
    that enter it. *)
Lemma settled_scores v :
  v < numNodes g → getZ (f_degrees st) v = 0%Z →
  good (getW (f_scores st) v)
  ∧ expx (getW (f_scores st) v) = path_sum g (numNodes g) v.
Proof.
  intros HvN Hd.
  destruct (decide (v ∈ popped)) as [Hv|Hv].
  - apply list_elem_of_lookup in Hv as [i Hi].
    apply (popped_scores i v Hi). pose proof popped_length.
    apply lookup_lt_Some in Hi. lia.
  - assert (Hnot : ¬ (coadj (numArcs g) (downNode g) v = [] → v ∈ start_ g)).
    { intros Himp. apply Hv.
      pose proof (proj2 (k_mem _ _ _ _ _ _ _ _ Hk v) (conj HvN (conj Hd Himp))) as Hin.
      rewrite Hq, app_nil_r in Hin. done. }
    assert (Hin : in_ g v = []).
    { destruct (in_ g v) as [|a l] eqn:E; [done|]. exfalso. apply Hnot.
      unfold in_ in E. unfold coadj. by rewrite E. }
    assert (Hs : start g v = false).
    { destruct (start g v) eqn:E; [|done]. exfalso. apply Hnot. intros _.
      by apply wf_start_elem. }
    rewrite (fi_scores g popped st Hinv v HvN). unfold score_rec.
    rewrite filter_none.
    2:{ intros a Hain Ha.
        assert (a ∈ in_ g v) as Hx; [|rewrite Hin in Hx; by apply elem_of_nil in Hx].
        apply list_elem_of_bind in Hain as (u & Hau & _).
        apply elem_of_adj in Hau as [HaM _]. by apply elem_of_coadj. }
    simpl. rewrite paths_to_no_source' by done.
    unfold score_init. rewrite Hs. split; [by left|done].
Qed.

End FinalScores.

(** ** Walks in acyclic graphs and the enumeration of paths *)

Section WalkFacts.
Context {W : Type} `{FloatOps W}.
Implicit Types g : Graph W.

(** A walk that visits [x] splits there. *)
Lemma walk_split g u p w x :
  walk g u p w → x ∈ u :: (downNode g <$> p) →
  ∃ p1 p2, p = p1 ++ p2 ∧ walk g u p1 x ∧ walk g x p2 w.
Proof.
  induction 1 as [|p w a Hw IH Ha Hu]; intros Hx.
  - apply list_elem_of_singleton in Hx as ->. exists [], []. repeat split; constructor.
  - rewrite fmap_app, app_comm_cons, elem_of_app in Hx. destruct Hx as [Hx|Hx].
    + destruct (IH Hx) as (p1 & p2 & -> & H1 & H2).
      exists p1, (p2 ++ [a]). split; [by rewrite app_assoc|]. split; [done|].
      by apply (walk_snoc g x p2 w a).
    + apply list_elem_of_singleton in Hx as ->.
      exists (p ++ [a]), []. split; [by rewrite app_nil_r|]. split; [|constructor].
      by apply (walk_snoc g u p w a).
Qed.

Lemma acyclic_walk_nodup g u p v :
  acyclic g → walk g u p v → NoDup (u :: (downNode g <$> p)).
Proof.
  intros Hac. induction 1 as [|p w a Hw IH Ha Hu].
  - apply NoDup_singleton.
  - rewrite fmap_app, app_comm_cons. apply NoDup_app. split; [done|]. split.
    + intros x Hx Hx'. apply list_elem_of_singleton in Hx' as ->.
      destruct (walk_split g u p w (downNode g a) Hw Hx) as (p1 & p2 & -> & H1 & H2).
      assert (walk g (downNode g a) (p2 ++ [a]) (downNode g a)) as Hc
        by (by apply (walk_snoc g _ p2 w a)).
      apply Hac in Hc. by destruct p2.
    + apply NoDup_singleton.
Qed.

Lemma walk_nodes_lt g u p v :
  wf g → walk g u p v → p ≠ [] → ∀ x, x ∈ u :: (downNode g <$> p) → x < numNodes g.
Proof.
  intros Hwf. induction 1 as [|p w a Hw IH Ha Hu]; [done|]. intros _ x Hx.
  rewrite fmap_app, app_comm_cons, elem_of_app in Hx. destruct Hx as [Hx|Hx].
  - destruct p as [|b p].
    + apply walk_nil_inv in Hw as ->. apply list_elem_of_singleton in Hx as ->.
      rewrite <- Hu. by apply (wf_up g Hwf).
    + by apply IH.
  - apply list_elem_of_singleton in Hx as ->. by apply (wf_down g Hwf).
Qed.

(** In an acyclic graph a walk is shorter than the number of nodes. *)
Lemma acyclic_walk_length g u p v :
  wf g → acyclic g → walk g u p v → p ≠ [] → length p < numNodes g.
Proof.
  intros Hwf Hac Hw Hp.
  pose proof (acyclic_walk_nodup g u p v Hac Hw) as Hnd.
  assert (length (u :: (downNode g <$> p)) ≤ length (seq 0 (numNodes g))) as Hl.
  { apply submseteq_length, NoDup_submseteq; [done|].
    intros x Hx. apply elem_of_seq.
    pose proof (walk_nodes_lt g u p v Hwf Hw Hp x Hx). lia. }
  rewrite length_seq in Hl. simpl in Hl. rewrite length_fmap in Hl. lia.
Qed.

Lemma paths_to_sound g k : ∀ v p,
  p ∈ paths_to g k v → ∃ s, start g s = true ∧ walk g s p v.
Proof.
  induction k as [|k IH]; intros v p; simpl; rewrite elem_of_app.
  - intros [Hp|Hp]; [|by apply elem_of_nil in Hp].
    destruct (start g v) eqn:E; [|by apply elem_of_nil in Hp].
    apply list_elem_of_singleton in Hp as ->. exists v. split; [done|constructor].
  - intros [Hp|Hp].
    + destruct (start g v) eqn:E; [|by apply elem_of_nil in Hp].
      apply list_elem_of_singleton in Hp as ->. exists v. split; [done|constructor].
    + apply list_elem_of_bind in Hp as (a & Hp & Ha).
      apply list_elem_of_fmap in Hp as (q & -> & Hq).
      destruct (IH _ _ Hq) as (s & Hs & Hw). exists s. split; [done|].
      apply elem_of_coadj in Ha as [Ha <-].
      by apply (walk_snoc g s q (upNode g a) a).
Qed.

Lemma paths_to_complete g s p v :
  walk g s p v → start g s = true → ∀ k, length p ≤ k → p ∈ paths_to g k v.
Proof.
  induction 1 as [|p w a Hw IH Ha Hu]; intros Hs k Hk.
  - destruct k; simpl; rewrite Hs; apply elem_of_app; left; left.
  - rewrite length_app in Hk; simpl in Hk. destruct k as [|k]; [lia|].
    simpl. apply elem_of_app. right. apply list_elem_of_bind.
    exists a. split; [|by apply elem_of_coadj].
    apply list_elem_of_fmap. exists p. split; [done|].
    rewrite Hu. apply IH; [done|lia].
Qed.

Lemma paths_to_nodup g k : ∀ v, NoDup (paths_to g k v).
Proof.
  induction k as [|k IH]; intros v; simpl.
  - rewrite app_nil_r. destruct (start g v); [apply NoDup_singleton|constructor].
  - apply NoDup_app. split; [destruct (start g v); [apply NoDup_singleton|constructor]|].
    split.
    + intros p Hp Hp'. destruct (start g v); [|by apply elem_of_nil in Hp].
      apply list_elem_of_singleton in Hp as ->.
      apply list_elem_of_bind in Hp' as (a & Hp' & _).
      apply list_elem_of_fmap in Hp' as (q & Hq & _). by destruct q.
    + apply NoDup_bind.
      * intros a1 a2 p _ _ H1 H2.
        apply list_elem_of_fmap in H1 as (q1 & -> & _).
        apply list_elem_of_fmap in H2 as (q2 & E & _).
        by apply app_inj_tail in E as [_ ?].
      * intros a _. apply NoDup_fmap; [|apply IH].
        intros q1 q2 E. by apply app_inj_tail in E as [? _].
      * apply NoDup_filter, NoDup_seq.
Qed.

Lemma accepting_paths_spec g :
  wf g → acyclic g →
  NoDup (accepting_paths g)
  ∧ ∀ a p, (a, p) ∈ accepting_paths g
           ↔ a ∈ accept_ g ∧ ∃ s, s ∈ start_ g ∧ walk g s p a.
Proof.
  intros Hwf Hac. split.
  - apply NoDup_bind.
    + intros a1 a2 [a p] _ _ H1 H2.
      apply list_elem_of_fmap in H1 as (q1 & [= -> ->] & _).
      by apply list_elem_of_fmap in H2 as (q2 & [= -> _] & _).
    + intros a _. apply NoDup_fmap; [|apply paths_to_nodup].
      by intros q1 q2 [= ->].
    + apply (wf_accept_nodup g Hwf).
  - intros a p. unfold accepting_paths. rewrite list_elem_of_bind. split.
    + intros (a' & Hp & Ha). apply list_elem_of_fmap in Hp as (q & [= -> ->] & Hq).
      split; [done|]. destruct (paths_to_sound g _ _ _ Hq) as (s & Hs & Hw).
      exists s. split; [|done]. apply wf_start_elem; [done|]. split; [|done].
      unfold start in Hs. destruct (nodes_ g !! s) eqn:E; [|done].
      by apply lookup_lt_Some in E.
    + intros (Ha & s & Hs & Hw). exists a. split; [|done].
      apply list_elem_of_fmap. exists p. split; [done|].
      apply wf_start_elem in Hs as [_ Hs]; [|done].
      apply (paths_to_complete g s p a Hw Hs).
      destruct p as [|b p]; [simpl; lia|].
      pose proof (acyclic_walk_length g s (b :: p) a Hwf Hac Hw ltac:(done)). lia.
Qed.

End WalkFacts.

(** ** forward on acyclic graphs *)

Section Drained.
Context {W : Type} `{FloatOps W}.
Variables (g : Graph W) (popped : list nat) (deg : list Z).
Hypothesis Hwf : wf g.
Hypothesis Hk : KInv (numArcs g) (upNode g) (downNode g) (numNodes g) (start_ g)
                  popped deg [].
Hypothesis Hsrc : ∀ v, feeds_accept g v → in_ g v = [] → start g v = true.

Lemma deg_pos_arc u :
  u < numNodes g → (0 < getZ deg u)%Z →
  ∃ a, a < numArcs g ∧ downNode g a = u ∧ upNode g a ∉ popped.
Proof.
  intros Hu Hd. rewrite (k_deg _ _ _ _ _ _ _ _ Hk u Hu) in Hd.
  destruct (pending (numArcs g) (upNode g) (downNode g) popped u) as [|a l] eqn:E;
    [simpl in Hd; lia|].
  assert (a ∈ pending (numArcs g) (upNode g) (downNode g) popped u) as Ha
    by (rewrite E; left).
  unfold pending in Ha. apply list_elem_of_filter in Ha as [Hn Ha].
  apply elem_of_coadj in Ha as [Ha Hda]. by exists a.
Qed.

Lemma unpopped_deg_pos u :
  u < numNodes g → u ∉ popped → feeds_accept g u → (0 < getZ deg u)%Z.
Proof.
  intros Hu Hn Hf.
  destruct (decide (getZ deg u = 0%Z)) as [E|E].
  - exfalso. apply Hn.
    pose proof (proj2 (k_mem _ _ _ _ _ _ _ _ Hk u)) as Hm. rewrite app_nil_r in Hm.
    apply Hm. split; [done|]. split; [done|]. intros Hc.
    apply wf_start_elem; [done|]. split; [done|]. by apply Hsrc.
  - rewrite (k_deg _ _ _ _ _ _ _ _ Hk u Hu) in *. lia.
Qed.

Lemma stuck_chain a k :
  a ∈ accept_ g → a < numNodes g → (0 < getZ deg a)%Z →
  ∃ u p, length p = k ∧ walk g u p a ∧ (0 < getZ deg u)%Z ∧ u < numNodes g.
Proof.
  intros Ha HaN Hd. induction k as [|k (u & p & Hl & Hw & Hdu & Hu)].
  - exists a, []. repeat split; try done. constructor.
  - destruct (deg_pos_arc u Hu Hdu) as (b & Hb & Hbd & Hbu).
    exists (upNode g b), (b :: p).
    assert (Hw' : walk g (upNode g b) (b :: p) a).
    { apply walk_cons; [done|]. by rewrite Hbd. }
    split; [simpl; lia|]. split; [done|].
    pose proof (wf_up g Hwf b Hb). split; [|done].
    apply unpopped_deg_pos; [done|done|].
    exists (b :: p), a. done.
Qed.

Lemma acyclic_drains a :
  acyclic g → a ∈ accept_ g → getZ deg a = 0%Z.
Proof.
  intros Hac Ha.
  assert (HaN : a < numNodes g).
  { apply (wf_accept g Hwf) in Ha. unfold accept in Ha.
    destruct (nodes_ g !! a) eqn:E; [|done]. by apply lookup_lt_Some in E. }
  destruct (decide (getZ deg a = 0%Z)) as [|Hne]; [done|]. exfalso.
  assert (0 < getZ deg a)%Z as Hd by (rewrite (k_deg _ _ _ _ _ _ _ _ Hk a HaN) in *; lia).
  destruct (stuck_chain a (numNodes g) Ha HaN Hd) as (u & p & Hl & Hw & _).
  assert (p ≠ []) as Hp by (intros ->; simpl in Hl; lia).
  pose proof (acyclic_walk_length g u p a Hwf Hac Hw Hp). lia.
Qed.

End Drained.

Lemma feeds_accept_lt {W : Type} `{FloatOps W} (g : Graph W) v :
  wf g → feeds_accept g v → v < numNodes g.
Proof.
  intros Hwf (p & a & Hp & _ & Hw).
  apply (walk_nodes_lt g v p a Hwf Hw Hp). left.
Qed.

Lemma forward_scores_logsumexp (g : Graph xreal) :
  wf g → acyclic g → finite_weights g →
  (∀ v, feeds_accept g v → in_ g v = [] → start g v = true) →
  ∃ scores,
    forward_scores g
    = Some (Ok (scores, logsumexp (path_score g ∘ snd <$> accepting_paths g))).
Proof.
  intros Hwf Hac Hfin Hsrc.
  unfold forward_scores.
  destruct (forward_final g Hwf) as (st & popped & -> & Hinv & Hq); simpl.
  exists (f_scores st).
  pose proof (fi_kahn g popped st Hinv) as Hk. rewrite Hq in Hk.
  assert (Hdeg : ∀ a, a ∈ accept_ g → getZ (f_degrees st) a = 0%Z).
  { intros a Ha. by apply (acyclic_drains g popped (f_degrees st) Hwf Hk Hsrc a Hac). }
  rewrite forward_accumulate_ok by (intros a Ha; rewrite (Hdeg a Ha); lia).
  simpl. do 3 f_equal.
  assert (HaN : ∀ a, a ∈ accept_ g → a < numNodes g).
  { intros a Ha. apply (wf_accept g Hwf) in Ha. unfold accept in Ha.
    destruct (nodes_ g !! a) eqn:E; [|done]. by apply lookup_lt_Some in E. }
  destruct (fold_accept_expx (getW (f_scores st)) (accept_ g) NegInf) as [Hg He].
  { by left. }
  { intros a Ha.
    by destruct (settled_scores g popped st Hwf Hfin Hinv Hq a (HaN a Ha) (Hdeg a Ha)). }
  apply good_logsumexp; [done|]. rewrite He. simpl. rewrite Rplus_0_l.
  rewrite <- list_fmap_compose. unfold accepting_paths. rewrite sumR_bind.
  apply sumR_fmap_ext. intros a Ha.
  destruct (settled_scores g popped st Hwf Hfin Hinv Hq a (HaN a Ha) (Hdeg a Ha))
    as [_ ->].
  unfold path_sum. by rewrite <- list_fmap_compose.
Qed.

(** The recurrence of [forward] solved in exact arithmetic: for every
    well-formed acyclic graph with finite arc weights in which every node
    that leads to an accept node and has no incoming arc is a start node,
    [forward] returns the item graph of the log-sum-exp, over all the paths
    from a start node to an accept node, of the sum of the arc weights
    along the path (negative infinity when there is no such path).
    [accepting_paths] lists these paths, each exactly once. *)
Theorem forward_logsumexp (g : Graph xreal) (σ : store xreal) (h : handle) :
  deref σ h = Ok g →
  wf g → acyclic g → finite_weights g →
  (∀ v, feeds_accept g v → in_ g v = [] → start g v = true) →
  (∃ t, forward σ h = Some (Ok t)
        ∧ t_graph t
          = itemGraph (logsumexp (path_score g ∘ snd <$> accepting_paths g)))
  ∧ NoDup (accepting_paths g)
  ∧ ∀ a p, (a, p) ∈ accepting_paths g
           ↔ a ∈ accept_ g ∧ ∃ s, s ∈ start_ g ∧ walk g s p a.
Proof.
  intros Hd Hwf Hac Hfin Hsrc. split; [|by apply accepting_paths_spec].
  destruct (forward_scores_logsumexp g Hwf Hac Hfin Hsrc) as [scores Hs].
  eexists. split; [by apply (forward_of_scores σ h g scores _ Hd Hs)|]. done.
Qed.

Lemma forward_logsumexp_witness :
  wf diamond ∧ acyclic diamond ∧ finite_weights diamond
  ∧ (∀ v, feeds_accept diamond v → in_ diamond v = [] → start diamond v = true)
  ∧ accepting_paths diamond = [(3, [0; 2]); (3, [1; 3])]
  ∧ ∃ t, forward (store_of diamond) 0 = Some (Ok t)
         ∧ t_graph t = itemGraph (Fin (ln 4)).
Proof.
  assert (Hwf : wf diamond) by (apply wfb_wf; reflexivity).
  assert (Hac : acyclic diamond).
  { apply (ranked_acyclic diamond (λ n, n)).
    intros [|[|[|[|a]]]] Ha; [cbv; lia..|exfalso; cbv in Ha; lia]. }
  assert (Hfin : finite_weights diamond).
  { intros [|[|[|[|a]]]] Ha; [by eexists..|exfalso; cbv in Ha; lia]. }
  assert (Hsrc : ∀ v, feeds_accept diamond v → in_ diamond v = [] →
                      start diamond v = true).
  { intros v Hf Hin. pose proof (feeds_accept_lt diamond v Hwf Hf) as Hv.
    destruct v as [|[|[|[|v]]]]; [reflexivity|discriminate Hin..|cbv in Hv; lia]. }
  split; [exact Hwf|]. split; [exact Hac|]. split; [exact Hfin|]. split; [exact Hsrc|].
  split; [reflexivity|].
  destruct (forward_logsumexp diamond (store_of diamond) 0 eq_refl Hwf Hac Hfin Hsrc)
    as [(t & Ht & Hg) _].
  exists t. split; [exact Ht|]. rewrite Hg. f_equal.
  change (Fin (ln (exp (0 + (0 + 0)) + (exp (0 + (ln 3 + 0)) + 0))) = Fin (ln 4)).
  do 2 f_equal.
  replace (0 + (0 + 0))%R with 0%R by lra.
  replace (0 + (ln 3 + 0))%R with (ln 3) by lra.
  rewrite exp_0, exp_ln by lra. lra.
Defined.

(** ** forwardGrad: the walk and its invariant *)

Section GradFacts.
Context {W : Type} `{FloatOps W}.
Implicit Types g : Graph W.

Lemma forwardGrad_fold_proj g scores score gradn l st :
  (g_degrees (fold_left (forwardGrad_arc g scores score gradn) l st),
   g_computed (fold_left (forwardGrad_arc g scores score gradn) l st))
  = fold_left (karc (upNode g)) l (g_degrees st, g_computed st).
Proof.
  revert st; induction l as [|a l IH]; intros st; simpl; [done|].
  by rewrite IH.
Qed.

(** What one pass over the arcs [l] into the node being left does to the
    two gradient arrays. *)
Lemma forwardGrad_fold_grads g scores score gradn l : ∀ st,
  (∀ a, a ∈ l → a < length (g_arcGrads st) ∧ upNode g a < length (g_nodeGrads st)) →
  let AG := λ a, fmul gradn (fexp (fsub (fadd (weight g a) (getW scores (upNode g a))) score)) in
  let st' := fold_left (forwardGrad_arc g scores score gradn) l st in
  length (g_nodeGrads st') = length (g_nodeGrads st)
  ∧ length (g_arcGrads st') = length (g_arcGrads st)
  ∧ (∀ a, getW (g_arcGrads st') a = if decide (a ∈ l) then AG a else getW (g_arcGrads st) a)
  ∧ (∀ u, getW (g_nodeGrads st') u
          = fold_left (λ acc a, fadd acc (AG a)) (filter (λ a, upNode g a = u) l)
              (getW (g_nodeGrads st) u)).
Proof.
  induction l as [|a l IH]; intros st Hl AG; cbn [fold_left].
  - split; [done|]. split; [done|]. split; [|done].
    intros a. rewrite decide_False; [done|]. apply not_elem_of_nil.
  - destruct (Hl a ltac:(left)) as [Ha Hu].
    destruct (IH (forwardGrad_arc g scores score gradn st a)) as (H1 & H2 & H3 & H4).
    { intros b Hb. simpl. rewrite !length_insert. apply Hl. by right. }
    simpl in H1, H2. rewrite length_insert in H1, H2.
    split; [done|]. split; [done|]. split.
    + intros b. rewrite H3. simpl. rewrite getW_insert.
      destruct (decide (b ∈ l)) as [Hb|Hb].
      * rewrite decide_True; [done|]. by right.
      * destruct (decide (a = b)) as [->|Hne].
        -- rewrite decide_True by done. rewrite decide_True; [done|]. left.
        -- rewrite decide_False by (by intros [? _]).
           rewrite decide_False; [done|]. intros Hin.
           apply elem_of_cons in Hin as [->|?]; done.
    + intros u. rewrite H4. simpl. rewrite getW_insert, filter_cons.
      destruct (decide (upNode g a = u)) as [E|E].
      * rewrite decide_True; [by subst|]. split; [done|]. by rewrite E in *.
      * rewrite decide_False; [done|]. by intros [? _].
Qed.

Lemma forwardGrad_init_spec g output deltas d scores :
  item deltas = Ok d →
  ∃ st, forwardGrad_init g output deltas scores = Ok st
    ∧ g_degrees st = (λ n, Z.of_nat (numOut g n)) <$> seq 0 (numNodes g)
    ∧ g_computed st = filter (λ n, numOut g n = 0) (accept_ g)
    ∧ g_arcGrads st = replicate (numArcs g) fzero
    ∧ length (g_nodeGrads st) = numNodes g
    ∧ ∀ u, u < numNodes g → getW (g_nodeGrads st) u = grad_seed g d output scores u.
Proof.
  intros Hd. unfold forwardGrad_init. rewrite Hd.
  set (F := λ (acc : result (grad_state W)) (n : nat),
         do st <- acc;
         do d <- Ok d;
         Ok (mkGrad
               (<[n := fmul d (fexp (fsub (getW scores n) output))]> (g_nodeGrads st))
               (g_arcGrads st) (g_degrees st)
               (if numOut g n =? 0 then g_computed st ++ [n] else g_computed st))).
  assert (Hgen : ∀ l st, ∃ st',
    fold_left F l (Ok st) = Ok st'
    ∧ g_degrees st' = g_degrees st
    ∧ g_computed st' = g_computed st ++ filter (λ n, numOut g n = 0) l
    ∧ g_arcGrads st' = g_arcGrads st
    ∧ length (g_nodeGrads st') = length (g_nodeGrads st)
    ∧ ∀ u, u < length (g_nodeGrads st) →
        getW (g_nodeGrads st') u
        = if decide (u ∈ l) then fmul d (fexp (fsub (getW scores u) output))
          else getW (g_nodeGrads st) u).
  { induction l as [|n l IH]; intros st; cbn [fold_left].
    - exists st. rewrite app_nil_r. repeat (split; [done|]). intros u _.
      rewrite decide_False; [done|]. apply not_elem_of_nil.
    - unfold F at 2; simpl.
      destruct (IH (mkGrad
               (<[n := fmul d (fexp (fsub (getW scores n) output))]> (g_nodeGrads st))
               (g_arcGrads st) (g_degrees st)
               (if numOut g n =? 0 then g_computed st ++ [n] else g_computed st)))
        as (st' & Hst & Hdg & Hc & Ha & Hl & Hs); simpl in *.
      exists st'. split; [done|]. split; [done|]. split.
      { rewrite Hc, filter_cons. destruct (Nat.eqb_spec (numOut g n) 0) as [E|E].
        - rewrite decide_True by done. by rewrite <- app_assoc.
        - by rewrite decide_False by done. }
      split; [done|]. rewrite length_insert in Hl, Hs. split; [done|].
      intros u Hu. rewrite (Hs u Hu), getW_insert.
      destruct (decide (u ∈ l)) as [Hin|Hin].
      + rewrite decide_True; [done|]. by right.
      + destruct (decide (n = u)) as [->|Hne].
        * rewrite decide_True by done. rewrite decide_True; [done|]. left.
        * rewrite decide_False by (by intros [? _]).
          rewrite decide_False; [done|]. intros Hx.
          apply elem_of_cons in Hx as [->|?]; done. }
  destruct (Hgen (accept_ g)
              (mkGrad (replicate (numNodes g) fzero) (replicate (numArcs g) fzero)
                 ((λ n, Z.of_nat (numOut g n)) <$> seq 0 (numNodes g)) []))
    as (st' & Hst & Hdg & Hc & Ha & Hl & Hs); simpl in *.
  exists st'. split; [exact Hst|]. split; [done|]. split; [done|]. split; [done|].
  rewrite length_replicate in Hl, Hs. split; [done|].
  intros u Hu. rewrite (Hs u Hu). unfold grad_seed.
  destruct (decide (u ∈ accept_ g)); [done|].
  unfold getW. by rewrite lookup_replicate_2.
Qed.

Lemma wf_accept_lt g a : wf g → a ∈ accept_ g → a < numNodes g.
Proof.
  intros Hwf Ha. apply (wf_accept g Hwf) in Ha. unfold accept in Ha.
  destruct (nodes_ g !! a) eqn:E; [|done]. by apply lookup_lt_Some in E.
Qed.

Lemma ginv_init g d output scores st :
  wf g →
  g_degrees st = (λ n, Z.of_nat (numOut g n)) <$> seq 0 (numNodes g) →
  g_computed st = filter (λ n, numOut g n = 0) (accept_ g) →
  g_arcGrads st = replicate (numArcs g) fzero →
  length (g_nodeGrads st) = numNodes g →
  (∀ u, u < numNodes g → getW (g_nodeGrads st) u = grad_seed g d output scores u) →
  GInv g d output scores [] st.
Proof.
  intros Hwf Hd Hc Ha Hl Hs. split.
  - rewrite Hd, Hc.
    apply (kinv_init (numArcs g) (downNode g) (upNode g) (numNodes g) (accept_ g)).
    + apply (wf_accept_nodup g Hwf).
    + intros a. by apply wf_accept_lt.
  - done.
  - by rewrite Ha, length_replicate.
  - intros a Hin. by apply elem_of_nil in Hin.
  - intros a HaM _. rewrite Ha. unfold getW. by rewrite lookup_replicate_2.
  - intros u Hu. by rewrite (Hs u Hu).
Qed.

Lemma ginv_step g d output scores popped ng ag dg n rest :
  wf g →
  GInv g d output scores popped (mkGrad ng ag dg (n :: rest)) →
  GInv g d output scores (popped ++ [n])
    (forwardGrad_step g scores n (mkGrad ng ag dg rest)).
Proof.
  intros Hwf [Hk Hln Hla Harc Hzero Hnode]; simpl in *.
  pose proof (kinv_step (numArcs g) (downNode g) (upNode g) (numNodes g) (accept_ g)
                (wf_up g Hwf) popped dg n rest Hk) as Hk'.
  change (adj (numArcs g) (downNode g) n) with (in_ g n) in Hk'.
  unfold forwardGrad_step; simpl.
  pose proof (forwardGrad_fold_proj g scores (getW scores n) (getW ng n) (in_ g n)
                (mkGrad ng ag dg rest)) as Hproj.
  simpl in Hproj.
  destruct (forwardGrad_fold_grads g scores (getW scores n) (getW ng n) (in_ g n)
              (mkGrad ng ag dg rest)) as (Hl1 & Hl2 & Hag & Hng).
  { intros a Ha. simpl. apply elem_of_coadj in Ha as [Ha _].
    rewrite Hln, Hla. split; [done|]. by apply (wf_up g Hwf). }
  simpl in Hl1, Hl2, Hag, Hng.
  set (st' := fold_left (forwardGrad_arc g scores (getW scores n) (getW ng n)) (in_ g n)
                (mkGrad ng ag dg rest)) in *.
  assert (Hn : n ∉ popped).
  { pose proof (k_nodup _ _ _ _ _ _ _ _ Hk) as Hnd.
    apply NoDup_app in Hnd as (_ & Hnd & _). intros Hin. apply (Hnd n Hin). left. }
  assert (Hst : ∀ u, u ∈ popped ++ [n] → getW (g_nodeGrads st') u = getW ng u).
  { intros u Hu. rewrite Hng. rewrite filter_none; [done|].
    intros a Ha Hua. apply elem_of_coadj in Ha as [Ha Hda].
    assert (Hu' : u ∈ popped ++ n :: rest).
    { apply elem_of_app in Hu as [Hu|Hu]; apply elem_of_app; [by left|right].
      apply list_elem_of_singleton in Hu as ->. left. }
    destruct (proj1 (k_mem _ _ _ _ _ _ _ _ Hk u) Hu') as (HuN & Hu0 & _).
    rewrite (k_deg _ _ _ _ _ _ _ _ Hk u HuN) in Hu0.
    assert (pending (numArcs g) (downNode g) (upNode g) popped u = []) as E
      by (apply nil_length_inv; lia).
    eapply (filter_nil_inv _ _ a E); [by apply elem_of_coadj|].
    by rewrite Hda. }
  assert (Hdone : ∀ a, a ∈ popped ≫= in_ g → downNode g a ∈ popped ∧ a ∉ in_ g n).
  { intros a Ha. apply list_elem_of_bind in Ha as (u & Ha & Hu).
    apply elem_of_coadj in Ha as [_ Hda]. split; [by rewrite Hda|].
    intros Hx. apply elem_of_coadj in Hx as [_ Hx]. congruence. }
  assert (Hbind : (popped ++ [n]) ≫= in_ g = (popped ≫= in_ g) ++ in_ g n).
  { rewrite bind_app. simpl. by rewrite app_nil_r. }
  assert (Hag' : ∀ a, a ∈ (popped ≫= in_ g) ++ in_ g n →
            getW (g_arcGrads st') a
            = if decide (a ∈ in_ g n) then arc_grad g scores (getW ng n) a
              else getW ag a).
  { intros a _. rewrite Hag. destruct (decide (a ∈ in_ g n)) as [Hin|]; [|done].
    apply elem_of_coadj in Hin as [_ Hin]. unfold arc_grad. by rewrite Hin. }
  split.
  - by rewrite <- Hproj in Hk'.
  - by rewrite Hl1.
  - by rewrite Hl2.
  - intros a Ha. rewrite Hbind in Ha. rewrite (Hag' a Ha).
    destruct (decide (a ∈ in_ g n)) as [Hin|Hin].
    + apply elem_of_coadj in Hin as [_ Hin]. rewrite Hin.
      rewrite Hst; [done|]. apply elem_of_app. right. left.
    + apply elem_of_app in Ha as [Ha|Ha]; [|done].
      destruct (Hdone a Ha) as [Hd _].
      rewrite Hst by (apply elem_of_app; by left). by apply Harc.
  - intros a HaM Ha. rewrite Hbind in Ha. rewrite Hag.
    rewrite decide_False by (intros ?; apply Ha, elem_of_app; by right).
    apply Hzero; [done|]. intros ?. apply Ha, elem_of_app. by left.
  - intros u Hu. rewrite Hbind, filter_app, fold_left_app. rewrite Hng.
    rewrite (fold_left_ext_in
               (λ acc a, fadd acc (getW (g_arcGrads st') a))
               (λ acc a, fadd acc (getW ag a))
               (filter (λ a, upNode g a = u) (popped ≫= in_ g))).
    2:{ intros a acc Ha. apply list_elem_of_filter in Ha as [_ Ha].
        rewrite Hag. destruct (Hdone a Ha) as [_ Hx]. by rewrite decide_False. }
    rewrite <- (Hnode u Hu).
    apply fold_left_ext_in. intros a acc Ha. apply list_elem_of_filter in Ha as [_ Ha].
    rewrite Hag. by rewrite decide_True.
Qed.

Lemma forwardGrad_loop_inv g d output scores fuel : ∀ st popped st',
  wf g → GInv g d output scores popped st →
  forwardGrad_loop fuel g scores st = Some st' →
  ∃ popped', GInv g d output scores popped' st' ∧ g_computed st' = [].
Proof.
  induction fuel as [|fuel IH]; intros [ng ag dg q] popped st' Hwf Hinv; simpl.
  - destruct q; [|done]. intros [= <-]. by exists popped.
  - destruct q as [|n rest]; [intros [= <-]; by exists popped|].
    intros Hloop. eapply IH; [done| |exact Hloop].
    by apply ginv_step.
Qed.

Lemma forwardGrad_loop_terminates g scores fuel : ∀ st,
  potential (g_degrees st, g_computed st) < fuel →
  is_Some (forwardGrad_loop fuel g scores st).
Proof.
  induction fuel as [|fuel IH]; intros [ng ag dg q] Hp; simpl in *; [lia|].
  destruct q as [|n rest]; [by eexists|].
  apply IH. unfold forwardGrad_step.
  rewrite forwardGrad_fold_proj. simpl.
  pose proof (potential_fold (upNode g) (in_ g n) (dg, rest)) as Hle.
  unfold potential in *; simpl in *. lia.
Qed.

End GradFacts.

Section GradFinal.
Context {W : Type} `{FloatOps W}.
Implicit Types g : Graph W.

Lemma forwardGrad_init_potential g (st : grad_state W) :
  g_degrees st = (λ n, Z.of_nat (numOut g n)) <$> seq 0 (numNodes g) →
  g_computed st = filter (λ n, numOut g n = 0) (accept_ g) →
  potential (g_degrees st, g_computed st) < forwardGrad_fuel g.
Proof.
  intros -> ->. unfold potential, forwardGrad_fuel; simpl.
  pose proof (length_filter (λ n, numOut g n = 0) (accept_ g)).
  rewrite <- list_fmap_compose.
  assert (E : (Z.to_nat ∘ (λ n, Z.of_nat (numOut g n))) <$> seq 0 (numNodes g)
              = (λ n, length (filter (λ a, upNode g a = n) (seq 0 (numArcs g))))
                  <$> seq 0 (numNodes g)).
  { apply list_fmap_ext. intros i x _. simpl. unfold numOut, out. lia. }
  rewrite E, sum_indegrees.
  pose proof (length_filter (λ a, upNode g a < numNodes g) (seq 0 (numArcs g))) as Hf.
  rewrite length_seq in Hf. lia.
Qed.

Section GradDrain.
Variables (g : Graph W) (popped : list nat) (deg : list Z).
Hypothesis Hwf : wf g.
Hypothesis Hk : KInv (numArcs g) (downNode g) (upNode g) (numNodes g) (accept_ g)
                  popped deg [].

Lemma popped_drains i : ∀ n, popped !! i = Some n → drains g n.
Proof.
  induction i as [i IH] using lt_wf_ind. intros n Hi.
  destruct (out g n) as [|b l] eqn:E.
  - apply drains_accept; [|done].
    assert (n ∈ popped ++ []) as Hin
      by (rewrite app_nil_r; by apply list_elem_of_lookup_2 in Hi).
    apply (k_mem _ _ _ _ _ _ _ _ Hk) in Hin as (_ & _ & Hs). by apply Hs.
  - apply drains_out; [by rewrite E|].
    intros a Ha. apply elem_of_adj in Ha as [Ha Hu].
    destruct (k_topo _ _ _ _ _ _ _ _ Hk i n a Hi Ha Hu) as (j & Hj & Hjl).
    by apply (IH j Hj).
Qed.

Lemma drains_popped n : drains g n → n ∈ popped.
Proof.
  induction 1 as [n Ha Ho|n Ho Hall IH].
  - pose proof (wf_accept_lt g n Hwf Ha) as HnN.
    rewrite <- (app_nil_r popped). apply (k_mem _ _ _ _ _ _ _ _ Hk).
    split; [done|]. split; [|done].
    rewrite (k_deg _ _ _ _ _ _ _ _ Hk n HnN). unfold pending.
    change (coadj (numArcs g) (upNode g) n) with (out g n). by rewrite Ho.
  - assert (HnN : n < numNodes g).
    { destruct (out g n) as [|a l] eqn:E; [done|].
      assert (a ∈ out g n) as Ha by (rewrite E; left).
      apply elem_of_adj in Ha as [Ha <-]. by apply (wf_up g Hwf). }
    rewrite <- (app_nil_r popped). apply (k_mem _ _ _ _ _ _ _ _ Hk).
    split; [done|]. split; [|done].
    rewrite (k_deg _ _ _ _ _ _ _ _ Hk n HnN). unfold pending.
    rewrite filter_none; [done|]. intros a Ha Hn. apply Hn. by apply IH.
Qed.

End GradDrain.

(** What [forwardGrad] installs.  Let it run on a well-formed graph with an
    item graph of scalar [d] as [deltas].  Its walk ends, and it installs
    [arcGrads] with [addGrad], where, with [done] the arcs the walk went
    through (the arcs whose destination drains: an accept node without
    outgoing arcs, or a node whose outgoing arcs all lead to nodes that
    drain), every arc [a] of [done] from [u] to [n] has
    [arcGrads[a] = nodeGrads[n] * exp (weight a + scores[u] - scores[n])],
    every other arc has [arcGrads[a] = 0.0], and [nodeGrads[u]] is the seed
    of [u] ([d * exp (scores[u] - output)] at an accept node, [0.0]
    elsewhere) to which the [arcGrads] of the arcs of [done] that leave [u]
    were added in the order of the walk. *)
Theorem forwardGrad_gradients g (output d : W) (deltas : Graph W) (scores : list W) :
  wf g → item deltas = Ok d →
  ∃ st done,
    forwardGrad_walk g output deltas scores = Some (Ok st)
    ∧ length (g_arcGrads st) = numArcs g
    ∧ NoDup done
    ∧ (∀ a, a ∈ done ↔ a < numArcs g ∧ drains g (downNode g a))
    ∧ (∀ a, a ∈ done →
         getW (g_arcGrads st) a
         = fmul (getW (g_nodeGrads st) (downNode g a))
             (fexp (fsub (fadd (weight g a) (getW scores (upNode g a)))
                      (getW scores (downNode g a)))))
    ∧ (∀ a, a < numArcs g → a ∉ done → getW (g_arcGrads st) a = fzero)
    ∧ (∀ u, u < numNodes g →
         getW (g_nodeGrads st) u
         = fold_left (λ acc a, fadd acc (getW (g_arcGrads st) a))
             (filter (λ a, upNode g a = u) done)
             (if decide (u ∈ accept_ g)
              then fmul d (fexp (fsub (getW scores u) output)) else fzero))
    ∧ (∀ (σ : store W) (h : handle) (s : State W),
         σ !! h = Some s → st_graph s = g →
         forwardGrad h output deltas scores σ = Some (addGrad h (g_arcGrads st) σ)).
Proof.
  intros Hwf Hd.
  destruct (forwardGrad_init_spec g output deltas d scores Hd)
    as (st0 & Hinit & Hdg & Hc & Ha & Hl & Hs).
  pose proof (ginv_init g d output scores st0 Hwf Hdg Hc Ha Hl Hs) as Hinv0.
  destruct (forwardGrad_loop_terminates g scores (forwardGrad_fuel g) st0
              (forwardGrad_init_potential g st0 Hdg Hc)) as [st Hst].
  destruct (forwardGrad_loop_inv g d output scores _ st0 [] st Hwf Hinv0 Hst)
    as (popped & [Hk Hln Hla Harc Hzero Hnode] & Hq).
  rewrite Hq in Hk.
  assert (Hwalk : forwardGrad_walk g output deltas scores = Some (Ok st)).
  { unfold forwardGrad_walk. by rewrite Hinit, Hst. }
  exists st, (popped ≫= in_ g).
  split; [done|]. split; [done|]. split.
  { apply NoDup_bind.
    - intros u1 u2 a _ _ H1 H2. apply elem_of_coadj in H1 as [_ <-].
      by apply elem_of_coadj in H2 as [_ <-].
    - intros u _. apply NoDup_filter, NoDup_seq.
    - pose proof (k_nodup _ _ _ _ _ _ _ _ Hk) as Hnd. by rewrite app_nil_r in Hnd. }
  split.
  { intros a. rewrite list_elem_of_bind. split.
    - intros (u & Hau & Hu). apply elem_of_coadj in Hau as [HaM <-]. split; [done|].
      apply list_elem_of_lookup in Hu as [i Hi].
      by apply (popped_drains g popped (g_degrees st) Hk i).
    - intros [HaM Hdr]. exists (downNode g a). split; [by apply elem_of_coadj|].
      by apply (drains_popped g popped (g_degrees st) Hwf Hk). }
  split; [exact Harc|]. split; [exact Hzero|]. split; [exact Hnode|].
  intros σ h s Hh Hg. unfold forwardGrad, deref. rewrite Hh, Hg, Hwalk. done.
Qed.

End GradFinal.

(** C4, the defect.  [forwardGrad] seeds [nodeGrads] at every accept node
    but puts in its queue only the accept nodes without outgoing arcs.  In
    [tail_graph] the accept node 1 has an arc to the dead end 2: node 1 is
    never dequeued, and the gradient installed is [0.0; 0.0].  The value the
    claim gives arc 0, from 0 to 1, is
    [nodeGrads[1] * exp (weight 0 + scores[0] - scores[1]) = 1.0], and 1.0 is
    the derivative of the output of [forward] in the weight of arc 0: with
    the weights [w0] and [w1] on the two arcs, [forward] returns [w0]. *)
Lemma forwardGrad_skips_accept_with_tail :
  wf tail_graph
  ∧ (∀ w0 w1, tail_weights 0 0 = tail_graph
       ∧ ∃ scores x, forward_scores (tail_weights w0 w1) = Some (Ok (scores, Fin x))
                     ∧ x = w0)
  ∧ ∃ scores output st σ',
    forward_scores tail_graph = Some (Ok (scores, output))
    ∧ forwardGrad_walk tail_graph output (itemGraph (Fin 1)) scores = Some (Ok st)
    ∧ forwardGrad 0 output (itemGraph (Fin 1)) scores (store_of tail_graph)
      = Some (Ok σ')
    ∧ grad σ' 0 = Some [Fin 0; Fin 0]
    ∧ g_arcGrads st = [Fin 0; Fin 0]
    ∧ (∃ x, getW (g_nodeGrads st) 1 = Fin x ∧ x = 1%R)
    ∧ (∃ x, fmul (getW (g_nodeGrads st) (downNode tail_graph 0))
              (fexp (fsub (fadd (weight tail_graph 0) (getW scores (upNode tail_graph 0)))
                       (getW scores (downNode tail_graph 0)))) = Fin x ∧ x = 1%R)
    ∧ fmul (getW (g_nodeGrads st) (downNode tail_graph 0))
        (fexp (fsub (fadd (weight tail_graph 0) (getW scores (upNode tail_graph 0)))
                 (getW scores (downNode tail_graph 0))))
      ≠ getW (g_arcGrads st) 0.
Proof.
  split; [apply wfb_wf; reflexivity|]. split.
  { intros w0 w1. split; [reflexivity|].
    eexists _, _. split; [reflexivity|]. lra. }
  eexists _, _, _, _. split; [reflexivity|]. split; [reflexivity|].
  split; [reflexivity|]. split; [reflexivity|]. split; [reflexivity|].
  split.
  { eexists. split; [reflexivity|].
    replace (0 + 0 + - (0 + 0))%R with 0%R by lra. rewrite exp_0. lra. }
  split.
  { eexists. split; [reflexivity|].
    replace (0 + 0 + - (0 + 0))%R with 0%R by lra. rewrite exp_0. lra. }
  simpl. intros [= Heq].
  pose proof (exp_pos (0 + 0 + - (0 + 0))). nra.
Qed.

Lemma forwardGrad_gradients_witness :
  wf single_arc ∧ item (itemGraph (Fin 1)) = Ok (Fin 1)
  ∧ ∃ st, forwardGrad_walk single_arc (Fin 1) (itemGraph (Fin 1)) [Fin 0; Fin 1]
          = Some (Ok st)
      ∧ drains single_arc 1
      ∧ getW (g_arcGrads st) 0
        = fmul (getW (g_nodeGrads st) 1) (fexp (fsub (fadd (Fin 1) (Fin 0)) (Fin 1)))
      ∧ getW (g_nodeGrads st) 1 = fmul (Fin 1) (fexp (fsub (Fin 1) (Fin 1)))
      ∧ forwardGrad 0 (Fin 1) (itemGraph (Fin 1)) [Fin 0; Fin 1] (store_of single_arc)
        = Some (addGrad 0 (g_arcGrads st) (store_of single_arc)).
Proof.
  assert (Hwf : wf single_arc) by (apply wfb_wf; reflexivity).
  split; [exact Hwf|]. split; [reflexivity|].
  destruct (forwardGrad_gradients single_arc (Fin 1) (Fin 1) (itemGraph (Fin 1))
              [Fin 0; Fin 1] Hwf eq_refl)
    as (st & done & Hwalk & Hlen & Hnd & Hdone & Harc & Hzero & Hnode & Hinst).
  exists st. split; [exact Hwalk|].
  assert (Hdr : drains single_arc 1) by (apply drains_accept; [left|reflexivity]).
  split; [exact Hdr|].
  assert (H0 : 0 ∈ done) by (apply Hdone; split; [cbv; lia|exact Hdr]).
  split; [exact (Harc 0 H0)|].
  split.
  - rewrite (Hnode 1 ltac:(cbv; lia)).
    rewrite filter_none; [reflexivity|].
    intros a Ha. apply Hdone in Ha as [Ha _].
    destruct a as [|a]; [cbv; lia|exfalso; cbv in Ha; lia].
  - exact (Hinst (store_of single_arc) 0 (mkState single_arc true None)
             eq_refl eq_refl).
Defined.

(** ** The scenarios of the specification, run on the model *)

(** Subtraction of the items 2.0 and 3.0 in single precision: the result
    is -1.0 and the seed 1.0 leaves the gradients [1.0] and [-1.0]. *)
Example subtract_binary32 (libm_exp libm_log1p : spec_float → spec_float) :
  let ops := binary32_ops libm_exp libm_log1p in
  ∃ t σ', @subtract _ ops item_store32 0 1 = Ok t
    ∧ item (t_graph t) = Ok (b32_of_Z (-1))
    ∧ t_gradFunc t (t_inputs t) (itemGraph (b32_of_Z 1)) item_store32 = Ok σ'
    ∧ grad σ' 0 = Some [b32_of_Z 1]
    ∧ grad σ' 1 = Some [b32_of_Z (-1)].
Proof.
  simpl. do 2 eexists. split; [reflexivity|]. simpl.
  split; [reflexivity|]. split; [reflexivity|]. split; reflexivity.
Qed.

(** Forward on a three-node chain: the output is ln 6. *)
Example forward_chain :
  ∃ scores, forward_scores chain = Some (Ok (scores, Fin (ln 6))).
Proof.
  assert (E : forward_scores chain
              = Some (Ok ([Fin 0; Fin (0 + ln 2); Fin (0 + ln 2 + ln 3)],
                          Fin (0 + ln 2 + ln 3)))) by reflexivity.
  eexists. rewrite E. do 4 f_equal.
  rewrite Rplus_0_l, <- ln_mult by lra. f_equal; lra.
Qed.

(** Its backward with seed 1.0: both arcs get the gradient 1.0. *)
Example forwardGrad_chain :
  ∃ st, forwardGrad_walk chain (Fin (0 + ln 2 + ln 3)) (itemGraph (Fin 1))
          [Fin 0; Fin (0 + ln 2); Fin (0 + ln 2 + ln 3)] = Some (Ok st)
        ∧ g_arcGrads st = [Fin 1; Fin 1].
Proof.
  eexists. split; [reflexivity|]. simpl.
  assert (E : ∀ x, x = 0%R → exp x = 1%R) by (intros x ->; apply exp_0).
  repeat f_equal.
  - rewrite (E (0 + ln 2 + ln 3 + - (0 + ln 2 + ln 3))%R) by lra.
    rewrite (E (ln 3 + (0 + ln 2) + - (0 + ln 2 + ln 3))%R) by lra.
    rewrite (E (ln 2 + 0 + - (0 + ln 2))%R) by lra. lra.
  - rewrite (E (0 + ln 2 + ln 3 + - (0 + ln 2 + ln 3))%R) by lra.
    rewrite (E (ln 3 + (0 + ln 2) + - (0 + ln 2 + ln 3))%R) by lra. lra.
Qed.

(** Composition of two single-arc transducers: one arc 0 -> 1 with labels
    1/3 and weight 3/4, made of arc 0 of each. *)
Example compose_single_arcs :
  ∃ c, compose half_arc quarter_arc = Some (c, [(0, 0)%Z])
       ∧ arcs_ c = [mkArc 0 1 1 3 (Fin (3 / 4))]
       ∧ start_ c = [0] ∧ accept_ c = [1].
Proof.
  eexists. split; [reflexivity|]. split; [|done].
  change (arcs_ _) with [mkArc 0 1 1 3 (Fin (1 / 2 + 1 / 4))].
  do 3 f_equal. lra.
Qed.

(** Epsilon composition: the output epsilon of the first graph is followed
    alone, then the labels 3 are paired. *)
Example compose_epsilon :
  ∃ c, compose lost_A eps_second = Some (c, [(0, -1); (1, 0)]%Z)
       ∧ arcs_ c = [mkArc 0 1 1 0 (Fin 1); mkArc 1 2 2 4 (Fin (2 + 5))]
       ∧ start_ c = [0] ∧ accept_ c = [2].
Proof. eexists. split; [reflexivity|]. done. Qed.

Section NodeLists.
Context {W : Type} `{FloatOps W}.
Implicit Types g : Graph W.

Lemma node_eta (nd : Node) : mkNode (node_start nd) (node_accept nd) = nd.
Proof. by destruct nd. Qed.

Lemma nodes_by_flags g :
  (λ n, mkNode (start g n) (accept g n)) <$> seq 0 (numNodes g) = nodes_ g.
Proof.
  unfold start, accept, numNodes.
  rewrite (map_lookup_seq
             (λ o, mkNode (default false (node_start <$> o))
                     (default false (node_accept <$> o))) (nodes_ g)).
  simpl. rewrite <- (list_fmap_id (nodes_ g)) at 2.
  apply list_fmap_ext. intros i nd _. apply node_eta.
Qed.

Lemma arcs_by_fields g (F : Arc W → Arc W) :
  (λ a, F (mkArc (upNode g a) (downNode g a) (ilabel g a) (olabel g a) (weight g a)))
    <$> seq 0 (numArcs g)
  = F <$> arcs_ g.
Proof.
  unfold upNode, downNode, ilabel, olabel, weight, numArcs.
  rewrite (map_lookup_seq
             (λ o, F (mkArc (default 0 (arc_up <$> o)) (default 0 (arc_down <$> o))
                        (default 0%Z (arc_ilabel <$> o)) (default 0%Z (arc_olabel <$> o))
                        (default fzero (arc_weight <$> o)))) (arcs_ g)).
  simpl. apply list_fmap_ext. intros i [] _. reflexivity.
Qed.

(** The start and accept lists that a loop of [addNode] builds. *)
Lemma fold_addNode_lists (fs fa : nat → bool) (N : nat) g :
  let r := fold_left (λ c n, addNode (fs n) (fa n) c) (seq 0 N) g in
  start_ r = start_ g ++ ((λ n, numNodes g + n) <$> filter (λ n, fs n = true) (seq 0 N))
  ∧ accept_ r
    = accept_ g ++ ((λ n, numNodes g + n) <$> filter (λ n, fa n = true) (seq 0 N))
  ∧ numNodes r = numNodes g + N.
Proof.
  simpl. induction N as [|N IH].
  - simpl. rewrite !app_nil_r. split; [done|]. split; [done|lia].
  - rewrite seq_S, fold_left_app; simpl.
    destruct IH as (Hs & Ha & Hn).
    remember (fold_left (λ c n, addNode (fs n) (fa n) c) (seq 0 N) g) as r eqn:Er.
    rewrite !filter_app, !fmap_app, !filter_cons, !filter_nil.
    split; [|split].
    + unfold addNode; simpl. rewrite Hs, Hn.
      destruct (fs N); simpl; [by rewrite <- app_assoc|by rewrite app_nil_r].
    + unfold addNode; simpl. rewrite Ha, Hn.
      destruct (fa N); simpl; [by rewrite <- app_assoc|by rewrite app_nil_r].
    + rewrite numNodes_addNode, Hn. lia.
Qed.

End NodeLists.

Section CloneFacts.
Context {W : Type} `{FloatOps W}.
Implicit Types g : Graph W.

(** [clone] in closed form. *)
Lemma clone_graph_eq g p :
  clone_graph g p
  = mkGraph (nodes_ g) (project_arc p <$> arcs_ g)
      (filter (λ n, start g n = true) (seq 0 (numNodes g)))
      (filter (λ n, accept g n = true) (seq 0 (numNodes g))).
Proof.
  unfold clone_graph.
  destruct (fold_addArc
    (λ a, project_arc p (mkArc (upNode g a) (downNode g a) (ilabel g a)
                           (olabel g a) (weight g a)))
    (seq 0 (numArcs g))
    (fold_left (λ c n, addNode (start g n) (accept g n) c)
       (seq 0 (numNodes g)) emptyGraph)) as (Ha & Hn & Hs & Hc).
  destruct (fold_addNode (W:=W) (start g) (accept g) (seq 0 (numNodes g)) emptyGraph)
    as [Hn' Ha'].
  destruct (fold_addNode_lists (W:=W) (start g) (accept g) (numNodes g) emptyGraph)
    as (Hs' & Hc' & _).
  rewrite Hn' in Hn. rewrite Ha' in Ha. rewrite Hs' in Hs. rewrite Hc' in Hc.
  simpl in Ha, Hn, Hs, Hc.
  rewrite nodes_by_flags in Hn. rewrite list_fmap_id in Hs, Hc.
  rewrite (arcs_by_fields g (project_arc p)) in Ha.
  rewrite <- Ha, <- Hn, <- Hs, <- Hc.
  by destruct p; match goal with |- ?l = _ => destruct l end.
Qed.

Lemma clone_flags g p n :
  start (clone_graph g p) n = start g n ∧ accept (clone_graph g p) n = accept g n.
Proof. by rewrite clone_graph_eq. Qed.

Lemma project_arc_then p q (a : Arc W) :
  project_arc q (project_arc p a) = project_arc (project_then p q) a.
Proof. by destruct p, q, a. Qed.

Lemma project_arc_none (a : Arc W) : project_arc NONE a = a.
Proof. by destruct a. Qed.

Lemma clone_arc_fields g p a :
  upNode (clone_graph g p) a = upNode g a
  ∧ downNode (clone_graph g p) a = downNode g a
  ∧ weight (clone_graph g p) a = weight g a
  ∧ ilabel (clone_graph g p) a
    = match p with OUTPUT => olabel g a | _ => ilabel g a end
  ∧ olabel (clone_graph g p) a
    = match p with INPUT => ilabel g a | _ => olabel g a end
  ∧ numArcs (clone_graph g p) = numArcs g.
Proof.
  rewrite clone_graph_eq.
  unfold upNode, downNode, weight, ilabel, olabel, numArcs; simpl.
  rewrite length_fmap, list_lookup_fmap.
  destruct (arcs_ g !! a) as [[]|]; simpl; by destruct p.
Qed.

End CloneFacts.

Section CloneTheorems.
Context {W : Type} `{FloatOps W}.
Implicit Types g : Graph W.

Lemma accept_lt g n : accept g n = true → n < numNodes g.
Proof.
  unfold accept, numNodes. destruct (nodes_ g !! n) eqn:E; [|done].
  intros _. by apply lookup_lt_Some in E.
Qed.

Lemma start_lt g n : start g n = true → n < numNodes g.
Proof.
  unfold start, numNodes. destruct (nodes_ g !! n) eqn:E; [|done].
  intros _. by apply lookup_lt_Some in E.
Qed.

Lemma elem_of_filter_seq (P : nat → Prop) `{∀ n, Decision (P n)} (N n : nat) :
  n ∈ filter P (seq 0 N) ↔ P n ∧ n < N.
Proof.
  rewrite list_elem_of_filter, elem_of_seq. split; intros [? ?]; split; try done; lia.
Qed.

Lemma NoDup_filter_seq (P : nat → Prop) `{∀ n, Decision (P n)} (N : nat) :
  NoDup (filter P (seq 0 N)).
Proof. apply NoDup_filter, NoDup_seq. Qed.

(** A graph whose node lists are in index order and whose arcs join
    existing nodes is well formed. *)
Lemma wf_of_lists g :
  (∀ a, a < numArcs g → upNode g a < numNodes g ∧ downNode g a < numNodes g) →
  start_ g = filter (λ n, start g n = true) (seq 0 (numNodes g)) →
  accept_ g = filter (λ n, accept g n = true) (seq 0 (numNodes g)) →
  wf g.
Proof.
  intros Ha Hs Hc. split.
  - intros a Hlt. by apply Ha.
  - intros a Hlt. by apply Ha.
  - done.
  - rewrite Hc. apply NoDup_filter_seq.
  - intros n. rewrite Hc, elem_of_filter_seq. split; [by intros [? _]|].
    intros Hn. split; [done|]. by apply accept_lt.
Qed.

(** X1. [clone] copies the nodes and the arcs, the labels as the projection
    says, and lists the start and the accept nodes in index order.  On a
    well-formed graph the start list is that of the input, the accept list
    holds the same nodes, and the copy is well formed. *)
Theorem clone_copies g p :
  wf g →
  let c := clone_graph g p in
  nodes_ c = nodes_ g
  ∧ arcs_ c = project_arc p <$> arcs_ g
  ∧ start_ c = start_ g
  ∧ accept_ c ≡ₚ accept_ g
  ∧ accept_ c = filter (λ n, accept g n = true) (seq 0 (numNodes g))
  ∧ wf c.
Proof.
  intros Hwf c. unfold c. rewrite clone_graph_eq; simpl.
  split; [done|]. split; [done|]. split; [by rewrite (wf_start g Hwf)|].
  split; [|split; [done|]].
  - apply NoDup_Permutation.
    + apply NoDup_filter_seq.
    + apply (wf_accept_nodup g Hwf).
    + intros n. rewrite elem_of_filter_seq, (wf_accept g Hwf).
      split; [by intros [? _]|]. intros Hn. split; [done|]. by apply accept_lt.
  - rewrite <- clone_graph_eq. apply wf_of_lists.
    + intros a Ha.
      destruct (clone_arc_fields g p a) as (-> & -> & _ & _ & _ & Hn).
      rewrite Hn in Ha. rewrite clone_graph_eq; unfold numNodes at 2 3; simpl.
      split; [by apply (wf_up g Hwf)|by apply (wf_down g Hwf)].
    + rewrite clone_graph_eq. reflexivity.
    + rewrite clone_graph_eq. reflexivity.
Qed.

(** X2. Two clones in a row are one clone: after a projection the two labels
    of every arc are equal, so a second projection changes nothing, and a
    clone without projection in front of a projection is invisible. *)
Theorem clone_clone g p q :
  clone_graph (clone_graph g p) q = clone_graph g (project_then p q).
Proof.
  rewrite (clone_graph_eq (clone_graph g p) q).
  rewrite (clone_graph_eq g (project_then p q)).
  assert (numNodes (clone_graph g p) = numNodes g) as ->
    by (by rewrite clone_graph_eq).
  f_equal.
  - by rewrite clone_graph_eq.
  - rewrite clone_graph_eq; simpl. rewrite <- list_fmap_compose.
    apply list_fmap_ext. intros i a _. apply project_arc_then.
  - apply list_filter_iff. intros n.
    by destruct (clone_flags g p n) as [-> _].
  - apply list_filter_iff. intros n.
    by destruct (clone_flags g p n) as [_ ->].
Qed.

(** X3. A clone has the walks of the graph it copies, with the same
    weights; under [projectInput] both label sequences along a walk are the
    input labels of the original, under [projectOutput] its output
    labels. *)
Theorem clone_walks g p u path v :
  let c := clone_graph g p in
  (walk c u path v ↔ walk g u path v)
  ∧ (weight c <$> path) = (weight g <$> path)
  ∧ ilabels c path
    = match p with OUTPUT => olabels g path | _ => ilabels g path end
  ∧ olabels c path
    = match p with INPUT => ilabels g path | _ => olabels g path end.
Proof.
  intros c. subst c. split; [|split; [|split]].
  - split.
    + induction 1 as [|q w a Hw IH Ha Hu].
      * constructor.
      * destruct (clone_arc_fields g p a) as (Eu & Ed & _ & _ & _ & En).
        rewrite Ed.
        apply (walk_snoc g u q w a); [done|by rewrite <- En|by rewrite <- Eu].
    + induction 1 as [|q w a Hw IH Ha Hu].
      * constructor.
      * destruct (clone_arc_fields g p a) as (Eu & Ed & _ & _ & _ & En).
        rewrite <- Ed.
        apply (walk_snoc (clone_graph g p) u q w a);
          [done|by rewrite En|by rewrite Eu].
  - apply list_fmap_ext. intros i a _.
    by destruct (clone_arc_fields g p a) as (_ & _ & -> & _).
  - unfold ilabels, olabels.
    transitivity ((λ a, match p with OUTPUT => olabel g a | _ => ilabel g a end) <$> path);
      [|by destruct p].
    apply list_fmap_ext; intros i a _.
    by destruct (clone_arc_fields g p a) as (_ & _ & _ & -> & _).
  - unfold ilabels, olabels.
    transitivity ((λ a, match p with INPUT => ilabel g a | _ => olabel g a end) <$> path);
      [|by destruct p].
    apply list_fmap_ext; intros i a _.
    by destruct (clone_arc_fields g p a) as (_ & _ & _ & _ & -> & _).
Qed.

(** The backward closure of a clone hands [deltas] on: its arc weights are
    added to the gradient of the input. *)
Lemma clone_backward (σ σ' : store W) (h : handle) g p (deltas : Graph W) :
  deref σ h = Ok g →
  ∃ t, clone σ h p = Ok t
       ∧ t_graph t = clone_graph g p
       ∧ t_inputs t = [h]
       ∧ t_gradFunc t (t_inputs t) deltas σ' = addGrad h (weights deltas) σ'.
Proof.
  intros Hg. eexists. split.
  { unfold clone. rewrite Hg. simpl. reflexivity. }
  done.
Qed.

End CloneTheorems.

Section Ordered.
Context {W : Type} `{FloatOps W}.
Implicit Types g : Graph W.

Lemma start_addNode s a g n :
  start (addNode s a g) n
  = if decide (n = numNodes g) then s else start g n.
Proof.
  unfold start, addNode, numNodes; simpl.
  destruct (decide (n = length (nodes_ g))) as [->|Hn].
  - by rewrite list_lookup_middle.
  - destruct (decide (n < length (nodes_ g))).
    + by rewrite lookup_app_l.
    + rewrite !lookup_ge_None_2; [done|lia|rewrite length_app; simpl; lia].
Qed.

Lemma accept_addNode s a g n :
  accept (addNode s a g) n
  = if decide (n = numNodes g) then a else accept g n.
Proof.
  unfold accept, addNode, numNodes; simpl.
  destruct (decide (n = length (nodes_ g))) as [->|Hn].
  - by rewrite list_lookup_middle.
  - destruct (decide (n < length (nodes_ g))).
    + by rewrite lookup_app_l.
    + rewrite !lookup_ge_None_2; [done|lia|rewrite length_app; simpl; lia].
Qed.

Lemma ordered_empty : ordered (emptyGraph (W:=W)).
Proof. by split. Qed.

Lemma filter_ext_in {A : Type} (P Q : A → Prop) `{∀ x, Decision (P x)}
    `{∀ x, Decision (Q x)} (l : list A) :
  (∀ x, x ∈ l → (P x ↔ Q x)) → filter P l = filter Q l.
Proof.
  induction l as [|x l IH]; intros HPQ; [done|].
  rewrite !filter_cons. rewrite IH by (intros y Hy; apply HPQ; by right).
  destruct (decide (P x)) as [HP|HP], (decide (Q x)) as [HQ|HQ]; try done.
  - exfalso. apply HQ. apply HPQ; [left|done].
  - exfalso. apply HP. apply HPQ; [left|done].
Qed.

Lemma filter_seq_S (P Q : nat → Prop) `{∀ n, Decision (P n)} `{∀ n, Decision (Q n)}
    (N : nat) :
  (∀ n, n < N → (P n ↔ Q n)) →
  filter P (seq 0 (S N)) = filter Q (seq 0 N) ++ (if decide (P N) then [N] else []).
Proof.
  intros HPQ. rewrite seq_S, filter_app; simpl.
  rewrite (filter_ext_in P Q (seq 0 N)).
  - done.
  - intros n Hn. apply elem_of_seq in Hn. apply HPQ. lia.
Qed.

Lemma ordered_addNode s a g : ordered g → ordered (addNode s a g).
Proof.
  intros [Hs Ha]. split; rewrite numNodes_addNode.
  - rewrite (filter_seq_S _ (λ n, start g n = true)).
    + rewrite start_addNode.
      destruct (decide (numNodes g = numNodes g)); [|done].
      unfold addNode; simpl. rewrite <- Hs.
      destruct s; simpl; [done|by rewrite app_nil_r].
    + intros n Hn. rewrite start_addNode.
      by destruct (decide (n = numNodes g)); [lia|].
  - rewrite (filter_seq_S _ (λ n, accept g n = true)).
    + rewrite accept_addNode.
      destruct (decide (numNodes g = numNodes g)); [|done].
      unfold addNode; simpl. rewrite <- Ha.
      destruct a; simpl; [done|by rewrite app_nil_r].
    + intros n Hn. rewrite accept_addNode.
      by destruct (decide (n = numNodes g)); [lia|].
Qed.

Lemma ordered_addArc u d il ol w g : ordered g → ordered (addArc u d il ol w g).
Proof. done. Qed.

Lemma ordered_fold_addNode {A : Type} (fs fa : A → bool) (l : list A) g :
  ordered g → ordered (fold_left (λ c n, addNode (fs n) (fa n) c) l g).
Proof.
  revert g. induction l as [|x l IH]; intros g Hg; simpl; [done|].
  apply IH. by apply ordered_addNode.
Qed.

Lemma ordered_fold_addArc {A : Type} (fu fd : A → nat) (fi fo : A → Z) (fw : A → W)
    (l : list A) g :
  ordered g →
  ordered (fold_left (λ c a, addArc (fu a) (fd a) (fi a) (fo a) (fw a) c) l g).
Proof.
  revert g. induction l as [|x l IH]; intros g Hg; simpl; [done|].
  apply IH. by apply ordered_addArc.
Qed.

End Ordered.

Section SumFacts.
Context {W : Type} `{FloatOps W}.
Implicit Types g : Graph W.
Implicit Types gs : list (Graph W).

Lemma sum_step_fields (s0 : Graph W) g :
  let r := sum_step (s0, numNodes s0) g in
  nodes_ r.1 = nodes_ s0 ++ nodes_ g
  ∧ arcs_ r.1 = arcs_ s0 ++ (shift_arc (numNodes s0) <$> arcs_ g)
  ∧ r.2 = numNodes r.1
  ∧ (ordered s0 → ordered r.1).
Proof.
  unfold sum_step; simpl.
  destruct (fold_addArc
    (λ a, shift_arc (numNodes s0)
            (mkArc (upNode g a) (downNode g a) (ilabel g a) (olabel g a) (weight g a)))
    (seq 0 (numArcs g))
    (fold_left (λ c n, addNode (start g n) (accept g n) c) (seq 0 (numNodes g)) s0))
    as (Ha & Hn & _).
  simpl in Ha, Hn.
  destruct (fold_addNode (W:=W) (start g) (accept g) (seq 0 (numNodes g)) s0)
    as [Hn' Ha'].
  rewrite Hn' in Hn. rewrite Ha' in Ha.
  rewrite nodes_by_flags in Hn.
  rewrite (arcs_by_fields g (shift_arc (numNodes s0))) in Ha.
  split; [done|]. split; [done|]. split.
  - unfold numNodes at 3. rewrite Hn, length_app. done.
  - intros Ho.
    apply (ordered_fold_addArc (λ a, numNodes s0 + upNode g a)
             (λ a, numNodes s0 + downNode g a) (ilabel g) (olabel g) (weight g)).
    by apply ordered_fold_addNode.
Qed.

Lemma sum_fold gs : ∀ (s0 : Graph W),
  let r := fold_left sum_step gs (s0, numNodes s0) in
  nodes_ r.1 = nodes_ s0 ++ (gs ≫= nodes_)
  ∧ arcs_ r.1 = arcs_ s0 ++ sum_arcs (numNodes s0) gs
  ∧ (ordered s0 → ordered r.1).
Proof.
  induction gs as [|g gs IH]; intros s0; simpl.
  - by rewrite !app_nil_r.
  - destruct (sum_step_fields s0 g) as (Hn & Ha & Ho & Hord).
    destruct (sum_step (s0, numNodes s0) g) as [s1 off] eqn:E. simpl in *.
    subst off. specialize (IH s1). simpl in IH. destruct IH as (IHn & IHa & IHo).
    assert (numNodes s1 = numNodes s0 + numNodes g) as En.
    { unfold numNodes. by rewrite Hn, length_app. }
    split; [|split].
    + by rewrite IHn, Hn, <- app_assoc.
    + by rewrite IHa, Ha, En, <- app_assoc.
    + intros Hs0. apply IHo, Hord, Hs0.
Qed.

(** [sum] in closed form. *)
Lemma sum_graph_fields gs :
  nodes_ (sum_graph gs) = gs ≫= nodes_
  ∧ arcs_ (sum_graph gs) = sum_arcs 0 gs
  ∧ ordered (sum_graph gs).
Proof.
  destruct (sum_fold gs emptyGraph) as (Hn & Ha & Ho).
  split; [done|]. split; [done|]. apply Ho, ordered_empty.
Qed.

Lemma length_bind_nodes gs : length (gs ≫= nodes_) = sum_list (numNodes <$> gs).
Proof.
  induction gs as [|g gs IH]; [done|]. csimpl. rewrite length_app, IH. done.
Qed.

Lemma length_sum_arcs gs : ∀ off, length (sum_arcs off gs) = sum_list (numArcs <$> gs).
Proof.
  induction gs as [|g gs IH]; intros off; [done|].
  csimpl. rewrite length_app, length_fmap, IH. done.
Qed.

Lemma nodeOffset_S gs g i :
  nodeOffset (g :: gs) (S i) = numNodes g + nodeOffset gs i.
Proof. done. Qed.

Lemma arcOffset_S gs g i :
  arcOffset (g :: gs) (S i) = numArcs g + arcOffset gs i.
Proof. done. Qed.

Lemma sum_nodes_lookup gs : ∀ i g n,
  gs !! i = Some g → n < numNodes g →
  (gs ≫= nodes_) !! (nodeOffset gs i + n) = nodes_ g !! n.
Proof.
  induction gs as [|g0 gs IH]; intros i g n Hi Hn; [done|].
  destruct i as [|i]; simpl in Hi.
  - injection Hi as ->. csimpl. by rewrite lookup_app_l.
  - rewrite nodeOffset_S. csimpl.
    rewrite lookup_app_r by (unfold numNodes; lia).
    rewrite <- (IH i g n Hi Hn). f_equal. unfold numNodes. lia.
Qed.

Lemma sum_arcs_lookup gs : ∀ off i g a,
  gs !! i = Some g → a < numArcs g →
  sum_arcs off gs !! (arcOffset gs i + a)
  = shift_arc (off + nodeOffset gs i) <$> arcs_ g !! a.
Proof.
  induction gs as [|g0 gs IH]; intros off i g a Hi Ha; [done|].
  destruct i as [|i]; simpl in Hi.
  - injection Hi as ->. simpl.
    rewrite lookup_app_l by (by rewrite length_fmap).
    rewrite list_lookup_fmap. unfold nodeOffset; simpl. by rewrite Nat.add_0_r.
  - rewrite arcOffset_S, nodeOffset_S. simpl.
    rewrite lookup_app_r by (rewrite length_fmap; unfold numArcs; lia).
    rewrite length_fmap.
    replace (numArcs g0 + arcOffset gs i + a - length (arcs_ g0))
      with (arcOffset gs i + a) by (unfold numArcs; lia).
    rewrite (IH (off + numNodes g0) i g a Hi Ha). by rewrite Nat.add_assoc.
Qed.

(** Every arc of a sum comes from one of the graphs. *)
Lemma sum_arcs_inv gs : ∀ off k,
  k < length (sum_arcs off gs) →
  ∃ i g a, gs !! i = Some g ∧ a < numArcs g ∧ k = arcOffset gs i + a.
Proof.
  induction gs as [|g0 gs IH]; intros off k Hk; [simpl in Hk; lia|].
  simpl in Hk. rewrite length_app, length_fmap in Hk.
  destruct (decide (k < numArcs g0)) as [Hlt|Hge].
  - exists 0, g0, k. split; [done|]. split; [done|]. done.
  - destruct (IH (off + numNodes g0) (k - numArcs g0)) as (i & g & a & Hi & Ha & Hk').
    { unfold numArcs in *. lia. }
    exists (S i), g, a. split; [done|]. split; [done|].
    rewrite arcOffset_S. lia.
Qed.

Lemma nodeOffset_bound gs i g :
  gs !! i = Some g → nodeOffset gs i + numNodes g ≤ sum_list (numNodes <$> gs).
Proof.
  revert i. induction gs as [|g0 gs IH]; intros i Hi; [done|].
  destruct i as [|i]; simpl in Hi.
  - injection Hi as ->. unfold nodeOffset; csimpl. lia.
  - rewrite nodeOffset_S. csimpl. specialize (IH i Hi). lia.
Qed.

Lemma nodeOffset_mono gs i j g :
  gs !! i = Some g → i < j → nodeOffset gs i + numNodes g ≤ nodeOffset gs j.
Proof.
  revert i j. induction gs as [|g0 gs IH]; intros i j Hi Hij; [done|].
  destruct j as [|j]; [lia|]. rewrite nodeOffset_S.
  destruct i as [|i]; simpl in Hi.
  - injection Hi as ->. unfold nodeOffset at 1; simpl. lia.
  - rewrite nodeOffset_S. specialize (IH i j Hi ltac:(lia)). lia.
Qed.

(** The node ranges of two graphs of a sum do not overlap. *)
Lemma nodeOffset_inj gs i j gi gj x y :
  gs !! i = Some gi → gs !! j = Some gj →
  x < numNodes gi → y < numNodes gj →
  nodeOffset gs i + x = nodeOffset gs j + y → i = j ∧ x = y.
Proof.
  intros Hi Hj Hx Hy Heq.
  destruct (Nat.lt_trichotomy i j) as [Hlt|[->|Hgt]].
  - pose proof (nodeOffset_mono gs i j gi Hi Hlt). lia.
  - split; [done|lia].
  - pose proof (nodeOffset_mono gs j i gj Hj Hgt). lia.
Qed.

End SumFacts.

Section SumTheorems.
Context {W : Type} `{FloatOps W}.
Implicit Types g : Graph W.
Implicit Types gs : list (Graph W).

Lemma sum_numNodes gs : numNodes (sum_graph gs) = sum_list (numNodes <$> gs).
Proof.
  unfold numNodes at 1. destruct (sum_graph_fields gs) as (-> & _).
  apply length_bind_nodes.
Qed.

Lemma sum_numArcs gs : numArcs (sum_graph gs) = sum_list (numArcs <$> gs).
Proof.
  unfold numArcs at 1. destruct (sum_graph_fields gs) as (_ & -> & _).
  apply length_sum_arcs.
Qed.

Lemma sum_arc_fields gs i g a :
  gs !! i = Some g → a < numArcs g →
  upNode (sum_graph gs) (arcOffset gs i + a) = nodeOffset gs i + upNode g a
  ∧ downNode (sum_graph gs) (arcOffset gs i + a) = nodeOffset gs i + downNode g a
  ∧ ilabel (sum_graph gs) (arcOffset gs i + a) = ilabel g a
  ∧ olabel (sum_graph gs) (arcOffset gs i + a) = olabel g a
  ∧ weight (sum_graph gs) (arcOffset gs i + a) = weight g a.
Proof.
  intros Hi Ha.
  unfold upNode, downNode, ilabel, olabel, weight.
  destruct (sum_graph_fields gs) as (_ & -> & _).
  rewrite (sum_arcs_lookup gs 0 i g a Hi Ha).
  destruct (lookup_lt_is_Some_2 (arcs_ g) a Ha) as [x ->]. done.
Qed.

Lemma arcOffset_bound gs i g :
  gs !! i = Some g → arcOffset gs i + numArcs g ≤ sum_list (numArcs <$> gs).
Proof.
  revert i. induction gs as [|g0 gs IH]; intros i Hi; [done|].
  destruct i as [|i]; simpl in Hi.
  - injection Hi as ->. unfold arcOffset; csimpl. lia.
  - rewrite arcOffset_S. csimpl. specialize (IH i Hi). lia.
Qed.

(** X4. The structure of [sum(graphs)]: the nodes and the arcs of the
    inputs, in order.  The [i]-th input occupies the nodes from
    [nodeOffset i] and the arcs from [arcOffset i]; its nodes keep their
    flags, its arcs their labels and weights, and the ends of its arcs are
    shifted by [nodeOffset i].  The start and accept lists of the sum are in
    index order. *)
Theorem sum_structure gs i g :
  gs !! i = Some g →
  let s := sum_graph gs in
  numNodes s = sum_list (numNodes <$> gs)
  ∧ numArcs s = sum_list (numArcs <$> gs)
  ∧ nodeOffset gs i + numNodes g ≤ numNodes s
  ∧ arcOffset gs i + numArcs g ≤ numArcs s
  ∧ (∀ n, n < numNodes g →
       start s (nodeOffset gs i + n) = start g n
       ∧ accept s (nodeOffset gs i + n) = accept g n)
  ∧ (∀ a, a < numArcs g →
       arcs_ s !! (arcOffset gs i + a)
       = Some (mkArc (nodeOffset gs i + upNode g a) (nodeOffset gs i + downNode g a)
                 (ilabel g a) (olabel g a) (weight g a)))
  ∧ ordered s.
Proof.
  intros Hi s. subst s.
  split; [apply sum_numNodes|]. split; [apply sum_numArcs|].
  split; [rewrite sum_numNodes; by apply nodeOffset_bound|].
  split; [rewrite sum_numArcs; by apply arcOffset_bound|].
  split; [|split].
  - intros n Hn. unfold start, accept.
    destruct (sum_graph_fields gs) as (-> & _).
    by rewrite (sum_nodes_lookup gs i g n Hi Hn).
  - intros a Ha.
    destruct (sum_graph_fields gs) as (_ & -> & _).
    rewrite (sum_arcs_lookup gs 0 i g a Hi Ha).
    unfold upNode, downNode, ilabel, olabel, weight.
    destruct (lookup_lt_is_Some_2 (arcs_ g) a Ha) as [[] ->]. done.
  - apply sum_graph_fields.
Qed.

Lemma sum_arc_inv gs k :
  k < numArcs (sum_graph gs) →
  ∃ i g a, gs !! i = Some g ∧ a < numArcs g ∧ k = arcOffset gs i + a.
Proof.
  unfold numArcs at 1. destruct (sum_graph_fields gs) as (_ & -> & _).
  apply sum_arcs_inv.
Qed.

Lemma sum_wf gs : (∀ g, g ∈ gs → wf g) → wf (sum_graph gs).
Proof.
  intros Hwf.
  destruct (sum_graph_fields gs) as (_ & _ & Hs & Hc).
  apply wf_of_lists; [|done|done].
  intros k Hk. destruct (sum_arc_inv gs k Hk) as (i & g & a & Hi & Ha & ->).
  destruct (sum_arc_fields gs i g a Hi Ha) as (-> & -> & _).
  assert (wf g) as Hg by (apply Hwf; by eapply list_elem_of_lookup_2).
  pose proof (wf_up g Hg a Ha). pose proof (wf_down g Hg a Ha).
  pose proof (nodeOffset_bound gs i g Hi). rewrite sum_numNodes. lia.
Qed.

Lemma sum_walk_lift gs i g u p v :
  gs !! i = Some g → walk g u p v →
  walk (sum_graph gs) (nodeOffset gs i + u) ((λ a, arcOffset gs i + a) <$> p)
    (nodeOffset gs i + v).
Proof.
  intros Hi. induction 1 as [|q w a Hw IH Ha Hu].
  - constructor.
  - rewrite fmap_app; simpl.
    destruct (sum_arc_fields gs i g a Hi Ha) as (Eu & Ed & _).
    rewrite <- Ed.
    apply (walk_snoc (sum_graph gs) _ _ (nodeOffset gs i + w)); [done| |].
    + pose proof (arcOffset_bound gs i g Hi). rewrite sum_numArcs. lia.
    + rewrite Eu. by rewrite Hu.
Qed.

Lemma walk_end_lt g u p v : wf g → walk g u p v → p ≠ [] → v < numNodes g.
Proof.
  intros Hwf Hw Hp. destruct Hw as [|q w a Hw Ha Hu]; [done|].
  by apply (wf_down g Hwf).
Qed.

Lemma sum_walk_inv gs U P V :
  (∀ g, g ∈ gs → wf g) →
  walk (sum_graph gs) U P V → P ≠ [] →
  ∃ i g u p v, gs !! i = Some g
    ∧ U = nodeOffset gs i + u ∧ V = nodeOffset gs i + v
    ∧ P = (λ a, arcOffset gs i + a) <$> p
    ∧ walk g u p v ∧ u < numNodes g ∧ v < numNodes g.
Proof.
  intros Hwf. induction 1 as [|Q X k Hw IH Hk Hu]; intros HP; [done|].
  destruct (sum_arc_inv gs k Hk) as (i & g & a & Hi & Ha & ->).
  destruct (sum_arc_fields gs i g a Hi Ha) as (Eu & Ed & _).
  assert (wf g) as Hg by (apply Hwf; by eapply list_elem_of_lookup_2).
  destruct (decide (Q = [])) as [->|HQ].
  - apply walk_nil_inv in Hw as ->.
    exists i, g, (upNode g a), [a], (downNode g a).
    split; [done|]. split; [by rewrite <- Hu, Eu|]. split; [done|].
    split; [done|].
    split; [apply (walk_snoc g _ [] (upNode g a)); [constructor|done|done]|].
    split; [by apply (wf_up g Hg)|by apply (wf_down g Hg)].
  - destruct (IH HQ) as (j & g' & u & q & v & Hj & -> & -> & -> & Hq & Hu' & _).
    assert (q ≠ []) as Hqne by (intros ->; done).
    assert (wf g') as Hg' by (apply Hwf; by eapply list_elem_of_lookup_2).
    pose proof (walk_end_lt g' u q v Hg' Hq Hqne) as Hv.
    pose proof (wf_up g Hg a Ha) as Hup.
    rewrite Eu in Hu.
    destruct (nodeOffset_inj gs i j g g' _ _ Hi Hj Hup Hv Hu) as [-> Hx].
    assert (g' = g) as -> by congruence.
    exists j, g, u, (q ++ [a]), (downNode g a).
    split; [done|]. split; [done|]. split; [done|].
    split; [by rewrite fmap_app|].
    split; [by apply (walk_snoc g u q v)|].
    split; [done|by apply (wf_down g Hg)].
Qed.

(** X5. [sum] is the disjoint union: it is well formed when its inputs are,
    every walk of an input is a walk of the sum, shifted by the offsets of
    that input, and every walk of the sum with at least one arc is such a
    shifted walk of one input: no arc joins two inputs. *)
Theorem sum_walks gs :
  (∀ g, g ∈ gs → wf g) →
  let s := sum_graph gs in
  wf s
  ∧ (∀ i g u p v, gs !! i = Some g → walk g u p v →
       walk s (nodeOffset gs i + u) ((λ a, arcOffset gs i + a) <$> p)
         (nodeOffset gs i + v))
  ∧ (∀ U P V, walk s U P V → P ≠ [] →
       ∃ i g u p v, gs !! i = Some g
         ∧ U = nodeOffset gs i + u ∧ V = nodeOffset gs i + v
         ∧ P = (λ a, arcOffset gs i + a) <$> p
         ∧ walk g u p v ∧ u < numNodes g ∧ v < numNodes g).
Proof.
  intros Hwf s. split; [by apply sum_wf|]. split.
  - intros i g u p v. apply sum_walk_lift.
  - intros U P V. by apply sum_walk_inv.
Qed.

End SumTheorems.

Section SumBackward.
Context {W : Type} `{FloatOps W}.
Implicit Types g : Graph W.
Implicit Types gs : list (Graph W).
Implicit Types σ : store W.

Lemma addGrad_spec σ h st (other : list W) :
  σ !! h = Some st → length other = numArcs (st_graph st) →
  addGrad h other σ = Ok (if st_calcGrad st then <[h := with_grad st other]> σ else σ).
Proof.
  intros Hh Hl. unfold addGrad, with_grad. rewrite Hh.
  destruct (st_calcGrad st); [|done].
  by rewrite decide_True by done.
Qed.

Lemma addGrad_lookup σ σ' h st (other : list W) :
  σ !! h = Some st → length other = numArcs (st_graph st) →
  addGrad h other σ = Ok σ' →
  σ' !! h = Some (with_grad st other) ∧ ∀ h', h' ≠ h → σ' !! h' = σ !! h'.
Proof.
  intros Hh Hl. rewrite (addGrad_spec σ h st other Hh Hl).
  intros [= <-]. unfold with_grad. destruct (st_calcGrad st) eqn:E; cbn iota.
  - split; [apply (lookup_insert_eq (M:=gmap nat))|].
    intros h' Hne. by apply (lookup_insert_ne (M:=gmap nat)).
  - split; [|done]. rewrite Hh. done.
Qed.

Lemma deref_all_Forall2 σ hs : ∀ gs,
  deref_all σ hs = Ok gs ↔ Forall2 (λ h g, deref σ h = Ok g) hs gs.
Proof.
  induction hs as [|h hs IH]; intros gs; simpl.
  - split; [intros [= <-]; constructor|]. by inversion 1.
  - split.
    + destruct (deref σ h) as [g|e] eqn:E; simpl; [|done].
      destruct (deref_all σ hs) as [gs'|e] eqn:E'; simpl; [|done].
      intros [= <-]. constructor; [done|]. by apply IH.
    + inversion 1 as [|? g ? gs' Hh Hrest]; subst. rewrite Hh; simpl.
      apply IH in Hrest. rewrite Hrest. done.
Qed.

Lemma deref_Some σ h g :
  deref σ h = Ok g ↔ ∃ st, σ !! h = Some st ∧ st_graph st = g.
Proof.
  unfold deref. destruct (σ !! h) as [st|]; split.
  - intros [= <-]. by exists st.
  - intros (st' & [= <-] & <-). done.
  - done.
  - by intros (? & ? & _).
Qed.

Lemma Forall2_impl_in {A B : Type} (P Q : A → B → Prop) (l : list A) (k : list B) :
  Forall2 P l k → (∀ x y, x ∈ l → P x y → Q x y) → Forall2 Q l k.
Proof.
  induction 1 as [|x y l k Hxy Hlk IH]; intros HPQ; constructor.
  - apply HPQ; [left|done].
  - apply IH. intros x' y' Hx'. apply HPQ. by right.
Qed.

Lemma sum_grad_fold (deltas : Graph W) hs : ∀ σ off gs,
  Forall2 (λ h g, deref σ h = Ok g) hs gs → NoDup hs →
  ∃ σ',
    fold_left (sum_grad_step deltas) hs (Ok (σ, off))
    = Ok (σ', off + sum_list (numArcs <$> gs))
    ∧ (∀ i h st, hs !! i = Some h → σ !! h = Some st →
         σ' !! h
         = Some (with_grad st ((λ a, weight deltas (a + (off + arcOffset gs i)))
                                 <$> seq 0 (numArcs (st_graph st)))))
    ∧ (∀ h, h ∉ hs → σ' !! h = σ !! h).
Proof.
  induction hs as [|h hs IH]; intros σ off gs HF Hnd.
  - inversion HF; subst. exists σ. simpl. rewrite Nat.add_0_r.
    split; [done|]. split; [|done]. intros i h st Hi. done.
  - inversion HF as [|? g ? gs' Hh Hrest]; subst.
    apply NoDup_cons in Hnd as [Hnotin Hnd].
    apply deref_Some in Hh as (st & Hst & <-).
    set (slice := (λ a, weight deltas (a + off)) <$> seq 0 (numArcs (st_graph st))).
    assert (length slice = numArcs (st_graph st)) as Hlen
      by (unfold slice; by rewrite length_fmap, length_seq).
    set (σ1 := if st_calcGrad st then <[h := with_grad st slice]> σ else σ).
    assert (Hσ1 : σ1 !! h = Some (with_grad st slice)
                  ∧ ∀ h', h' ≠ h → σ1 !! h' = σ !! h').
    { apply (addGrad_lookup σ σ1 h st slice Hst Hlen).
      by rewrite (addGrad_spec σ h st slice Hst Hlen). }
    destruct Hσ1 as [Hσ1h Hσ1o].
    assert (Hstep : sum_grad_step deltas (Ok (σ, off)) h
                    = Ok (σ1, off + numArcs (st_graph st))).
    { unfold sum_grad_step; simpl. rewrite Hst.
      destruct (st_calcGrad st) eqn:Ec.
      - fold slice. rewrite (addGrad_spec σ h st slice Hst Hlen); simpl.
        unfold σ1. by rewrite Ec.
      - simpl. unfold σ1. done. }
    destruct (IH σ1 (off + numArcs (st_graph st)) gs') as (σ' & Hfold & Hin & Hout).
    { eapply Forall2_impl_in; [exact Hrest|]. intros h' g' Hh' Hd.
      unfold deref in *. rewrite Hσ1o; [done|]. intros ->. done. }
    { done. }
    exists σ'. cbn [fold_left]. rewrite Hstep, Hfold. csimpl.
    split; [f_equal; f_equal; lia|]. split.
    + intros i h' st' Hi Hst'. destruct i as [|i]; simpl in Hi.
      * injection Hi as <-. assert (st' = st) as -> by congruence.
        rewrite Hout by done. rewrite Hσ1h. unfold arcOffset; simpl.
        by rewrite Nat.add_0_r.
      * assert (h' ≠ h) as Hne.
        { intros ->. apply Hnotin. by eapply list_elem_of_lookup_2. }
        rewrite (Hin i h' st' Hi) by (by rewrite Hσ1o).
        rewrite arcOffset_S. do 2 f_equal.
        apply list_fmap_ext. intros ? a _. f_equal. lia.
    + intros h' Hh'. apply not_elem_of_cons in Hh' as [Hne Hh'].
      rewrite Hout by done. by apply Hσ1o.
Qed.

Lemma weight_slice (deltas : Graph W) (off n : nat) :
  off + n ≤ numArcs deltas →
  (λ a, weight deltas (a + off)) <$> seq 0 n = take n (drop off (weights deltas)).
Proof.
  intros Hle. apply list_eq; intros i.
  rewrite list_lookup_fmap. unfold weights, weight.
  destruct (decide (i < n)) as [Hi|Hi].
  - rewrite lookup_seq_lt by done; simpl.
    rewrite lookup_take_lt by done. rewrite lookup_drop, list_lookup_fmap.
    rewrite (Nat.add_comm i off).
    destruct (lookup_lt_is_Some_2 (arcs_ deltas) (off + i)) as [x ->]; [|done].
    unfold numArcs in Hle; lia.
  - rewrite lookup_seq_ge by lia. by rewrite lookup_take_ge by lia.
Qed.

(** X6. The backward closure of [sum] never fails, and it hands every
    input its own slice of [deltas]: the input at position [i] receives the
    weights of the arcs [arcOffset i .. arcOffset i + numArcs - 1] of
    [deltas], accumulated into its gradient when it computes one; inputs
    that do not compute a gradient, and graphs that are no input, are left
    as they are. *)
Theorem sum_backward (σ : store W) (hs : list handle) gs (deltas : Graph W) :
  deref_all σ hs = Ok gs → NoDup hs →
  numArcs (sum_graph gs) ≤ numArcs deltas →
  ∃ σ',
    sum_gradFunc hs deltas σ = Ok σ'
    ∧ (∀ i h st, hs !! i = Some h → σ !! h = Some st →
         σ' !! h
         = Some (with_grad st (take (numArcs (st_graph st))
                                 (drop (arcOffset gs i) (weights deltas)))))
    ∧ (∀ h, h ∉ hs → σ' !! h = σ !! h).
Proof.
  intros Hd Hnd Hle. apply deref_all_Forall2 in Hd.
  destruct (sum_grad_fold deltas hs σ 0 gs Hd Hnd) as (σ' & Hfold & Hin & Hout).
  exists σ'. unfold sum_gradFunc. rewrite Hfold; simpl.
  split; [done|]. split; [|done].
  intros i h st Hi Hst. rewrite (Hin i h st Hi Hst). simpl.
  rewrite weight_slice; [done|].
  destruct (Forall2_lookup_l _ _ _ i h Hd Hi) as (g & Hg & Hdg).
  apply deref_Some in Hdg as (st' & Hst' & <-).
  assert (st' = st) as -> by congruence.
  pose proof (arcOffset_bound gs i _ Hg). rewrite sum_numArcs in Hle. lia.
Qed.

End SumBackward.

Section ItemTheorems.
Context {W : Type} `{FloatOps W}.
Implicit Types σ : store W.

(** For an item graph [a] of scalar [wa], [negate(a)] is the item graph
    of [-wa] with input [a], and its backward closure, called with an item
    graph of scalar [d], accumulates [[-d]] into [a]. *)
Lemma negate_item_backward σ (a : handle) (ga : Graph W) (wa : W) :
  deref σ a = Ok ga → item ga = Ok wa →
  ∃ t, negate σ a = Ok t
       ∧ t_graph t = itemGraph (fneg wa)
       ∧ item (t_graph t) = Ok (fneg wa)
       ∧ t_inputs t = [a]
       ∧ ∀ (deltas : Graph W) (d : W) σ',
           item deltas = Ok d →
           t_gradFunc t (t_inputs t) deltas σ' = addGrad a [fneg d] σ'.
Proof.
  intros Ha Hwa. eexists. split.
  { unfold negate, negate_graph. rewrite Ha; simpl. rewrite Hwa; simpl. reflexivity. }
  simpl. repeat split.
  intros deltas d σ' Hd. apply item_inv in Hd as ->. reflexivity.
Qed.

(** For item graphs [a] and [b] of scalars [wa] and [wb], [add(a, b)] is
    the item graph of [wa + wb] with inputs [a] and [b], and its backward
    closure, called with an item graph of scalar [d], accumulates [[d]] into
    [a] and then [[d]] into [b]. *)
Lemma add_item_backward σ (a b : handle) (ga gb : Graph W) (wa wb : W) :
  deref σ a = Ok ga → deref σ b = Ok gb →
  item ga = Ok wa → item gb = Ok wb →
  ∃ t, add σ a b = Ok t
       ∧ t_graph t = itemGraph (fadd wa wb)
       ∧ item (t_graph t) = Ok (fadd wa wb)
       ∧ t_inputs t = [a; b]
       ∧ ∀ (deltas : Graph W) (d : W) σ',
           item deltas = Ok d →
           t_gradFunc t (t_inputs t) deltas σ'
           = do σ1 <- addGrad a [d] σ'; addGrad b [d] σ1.
Proof.
  intros Ha Hb Hwa Hwb. eexists. split.
  { unfold add. rewrite Ha, Hb; simpl. rewrite Hwa, Hwb; simpl. reflexivity. }
  simpl. repeat split.
  intros deltas d σ' Hd. apply item_inv in Hd as ->. reflexivity.
Qed.

(** X7. When both inputs of [add] are the same graph, its backward closure
    adds the incoming scalar to the one gradient twice: [[d + d]] on a graph
    without gradient, [[(g + d) + d]] on a graph whose gradient was
    [[g]]. *)
Theorem add_same_input σ (a : handle) (st : State W) (w d : W) :
  σ !! a = Some st → item (st_graph st) = Ok w → st_calcGrad st = true →
  ∃ t σ', add σ a a = Ok t
    ∧ t_graph t = itemGraph (fadd w w)
    ∧ t_gradFunc t (t_inputs t) (itemGraph d) σ = Ok σ'
    ∧ grad σ' a = Some (accumulate (Some (accumulate (st_grad st) [d])) [d])
    ∧ ∀ h, h ≠ a → σ' !! h = σ !! h.
Proof.
  intros Ha Hw Hc.
  assert (numArcs (st_graph st) = 1) as Hn.
  { apply item_inv in Hw. by rewrite Hw. }
  destruct (add_item_backward σ a a (st_graph st) (st_graph st) w w)
    as (t & Ht & Hg & _ & Hin & Hb); try done.
  { unfold deref. by rewrite Ha. }
  { unfold deref. by rewrite Ha. }
  assert (length [d] = numArcs (st_graph st)) as Hl by (by rewrite Hn).
  pose proof (addGrad_spec σ a st [d] Ha Hl) as E1.
  set (σ1 := if st_calcGrad st then <[a := with_grad st [d]]> σ else σ) in E1.
  destruct (addGrad_lookup σ σ1 a st [d] Ha Hl E1) as [H1 H1o].
  assert (length [d] = numArcs (st_graph (with_grad st [d]))) as Hl'.
  { unfold with_grad. by rewrite Hc. }
  pose proof (addGrad_spec σ1 a _ [d] H1 Hl') as E2.
  set (σ2 := if st_calcGrad (with_grad st [d])
             then <[a := with_grad (with_grad st [d]) [d]]> σ1 else σ1) in E2.
  destruct (addGrad_lookup σ1 σ2 a _ [d] H1 Hl' E2) as [H2 H2o].
  exists t, σ2. split; [done|]. split; [done|].
  rewrite (Hb (itemGraph d) d σ eq_refl). rewrite E1. simpl. rewrite E2.
  split; [done|]. split.
  - unfold grad. rewrite H2. unfold with_grad. rewrite Hc. simpl. done.
  - intros h Hne. rewrite H2o, H1o by done. done.
Qed.

End ItemTheorems.

(** ** The item algebra in IEEE single precision *)

Lemma SFopp_involutive x : SpecFloat.SFopp (SpecFloat.SFopp x) = x.
Proof. destruct x; simpl; by rewrite ?negb_involutive. Qed.

Lemma b32_sub_add_opp x y : b32_sub x y = b32_add x (SpecFloat.SFopp y).
Proof.
  unfold b32_sub, b32_add.
  destruct x as [sx|sx| |sx mx ex], y as [sy|sy| |sy my ey]; simpl;
    try reflexivity; by destruct sx, sy.
Qed.

Section ItemBinary32.
Variables libm_exp libm_log1p : spec_float → spec_float.

Let ops := binary32_ops libm_exp libm_log1p.

(** X8. On [float] weights, negating an item graph twice gives the graph
    back, whatever its scalar (NaN, infinities and signed zeros included),
    and [subtract(a, b)] builds the graph that [add(a, negate(b))] builds. *)
Theorem negate_subtract_binary32 (σ : store spec_float) (a b nb : handle)
    (ga gb gnb : Graph spec_float) (wa : spec_float) :
  deref σ a = Ok ga → deref σ b = Ok gb → deref σ nb = Ok gnb →
  @item _ ops ga = Ok wa → @negate_graph _ ops gb = Ok gnb →
  @negate_graph _ ops gnb = Ok gb
  ∧ ∃ t1 t2, @subtract _ ops σ a b = Ok t1 ∧ @add _ ops σ a nb = Ok t2
             ∧ t_graph t1 = t_graph t2.
Proof.
  intros Ha Hb Hnb Hwa Hn. unfold negate_graph in Hn.
  destruct (@item _ ops gb) as [wb|e] eqn:Ewb; simpl in Hn; [|done].
  injection Hn as <-. split.
  - unfold negate_graph. rewrite (@item_itemGraph _ ops). unfold rbind.
    apply item_inv in Ewb as ->. do 2 f_equal. apply SFopp_involutive.
  - unfold subtract, add. rewrite Ha, Hb, Hnb. simpl. rewrite Hwa, Ewb. simpl.
    do 2 eexists. split; [reflexivity|]. split; [reflexivity|]. simpl.
    f_equal. apply b32_sub_add_opp.
Qed.

End ItemBinary32.

Section ForwardSettle.
Context {W : Type} `{FloatOps W}.
Variables (g : Graph W) (popped : list nat) (deg : list Z).
Hypothesis Hwf : wf g.
Hypothesis Hk : KInv (numArcs g) (upNode g) (downNode g) (numNodes g) (start_ g)
                  popped deg [].

Lemma popped_settles i : ∀ n, popped !! i = Some n → settles g n.
Proof.
  induction i as [i IH] using lt_wf_ind. intros n Hi.
  destruct (in_ g n) as [|b l] eqn:E.
  - apply settles_start; [|done].
    assert (n ∈ popped ++ []) as Hin
      by (rewrite app_nil_r; by apply list_elem_of_lookup_2 in Hi).
    apply (k_mem _ _ _ _ _ _ _ _ Hk) in Hin as (_ & _ & Hs). by apply Hs.
  - apply settles_in; [by rewrite E|].
    intros a Ha. apply elem_of_coadj in Ha as [Ha Hu].
    destruct (k_topo _ _ _ _ _ _ _ _ Hk i n a Hi Ha Hu) as (j & Hj & Hjl).
    by apply (IH j Hj).
Qed.

Lemma settles_popped n : settles g n → n ∈ popped.
Proof.
  induction 1 as [n Hs Hi|n Hi Hall IH].
  - assert (HnN : n < numNodes g) by (by apply (wf_start_elem g n Hwf) in Hs as [? _]).
    rewrite <- (app_nil_r popped). apply (k_mem _ _ _ _ _ _ _ _ Hk).
    split; [done|]. split; [|done].
    rewrite (k_deg _ _ _ _ _ _ _ _ Hk n HnN). unfold pending.
    change (coadj (numArcs g) (downNode g) n) with (in_ g n). by rewrite Hi.
  - assert (HnN : n < numNodes g).
    { destruct (in_ g n) as [|a l] eqn:E; [done|].
      assert (a ∈ in_ g n) as Ha by (rewrite E; left).
      apply elem_of_coadj in Ha as [Ha <-]. by apply (wf_down g Hwf). }
    rewrite <- (app_nil_r popped). apply (k_mem _ _ _ _ _ _ _ _ Hk).
    split; [done|]. split.
    + rewrite (k_deg _ _ _ _ _ _ _ _ Hk n HnN). unfold pending.
      rewrite filter_none; [done|]. intros a Ha Hn. apply Hn. by apply IH.
    + intros Hc. by destruct Hi.
Qed.

(** The degree left at a node counts its incoming arcs from nodes that do
    not settle. *)
Lemma degree_positive v :
  v < numNodes g →
  (0 < getZ deg v)%Z ↔ ∃ e, e ∈ in_ g v ∧ ¬ settles g (upNode g e).
Proof.
  intros Hv. rewrite (k_deg _ _ _ _ _ _ _ _ Hk v Hv). unfold pending.
  change (coadj (numArcs g) (downNode g) v) with (in_ g v).
  split.
  - intros Hpos.
    destruct (filter (λ a, upNode g a ∉ popped) (in_ g v)) as [|e l] eqn:E;
      [simpl in Hpos; lia|].
    assert (e ∈ filter (λ a, upNode g a ∉ popped) (in_ g v)) as He
      by (rewrite E; left).
    apply list_elem_of_filter in He as [Hn He].
    exists e. split; [done|]. intros Hs. apply Hn. by apply settles_popped.
  - intros (e & He & Hs).
    assert (e ∈ filter (λ a, upNode g a ∉ popped) (in_ g v)) as Hin.
    { apply list_elem_of_filter. split; [|done]. intros Hp.
      apply list_elem_of_lookup in Hp as [i Hi]. apply Hs. by apply (popped_settles i). }
    destruct (filter (λ a, upNode g a ∉ popped) (in_ g v)); [by inversion Hin|].
    simpl. lia.
Qed.

Lemma degree_zero v :
  v < numNodes g → (getZ deg v ≤ 0)%Z →
  ∀ e, e ∈ in_ g v → settles g (upNode g e).
Proof.
  intros Hv Hz e He. rewrite (k_deg _ _ _ _ _ _ _ _ Hk v Hv) in Hz. unfold pending in Hz.
  change (coadj (numArcs g) (downNode g) v) with (in_ g v) in Hz.
  destruct (decide (upNode g e ∈ popped)) as [Hp|Hp].
  - apply list_elem_of_lookup in Hp as [i Hi]. by apply (popped_settles i).
  - assert (e ∈ filter (λ a, upNode g a ∉ popped) (in_ g v)) as Hin
      by (by apply list_elem_of_filter).
    destruct (filter (λ a, upNode g a ∉ popped) (in_ g v)); [by inversion Hin|].
    simpl in Hz. lia.
Qed.

End ForwardSettle.

Section ForwardTotal.
Context {W : Type} `{FloatOps W}.
Implicit Types g : Graph W.

(** X9. On a well-formed graph [forward] always comes to an end.  It throws
    when some accept node has an incoming arc from a node that does not
    settle (a start node without incoming arcs settles, and so does a node
    whose incoming arcs all come from nodes that settle); when there is no
    such arc it returns the item graph of the [logadd] of the scores of the
    accept nodes, taken in the order of the accept list. *)
Theorem forward_total g (σ : store W) (h : handle) :
  deref σ h = Ok g → wf g →
  (forward σ h = Some (Err CycleDetected)
   ∧ ∃ a e, a ∈ accept_ g ∧ e ∈ in_ g a ∧ ¬ settles g (upNode g e))
  ∨ (∃ scores,
       let output :=
         fold_left (λ score a, logadd score (getW scores a)) (accept_ g) neginf in
       length scores = numNodes g
       ∧ forward σ h
         = Some (Ok (mkTaped (itemGraph output) [h] (forward_gradFunc scores output)))
       ∧ ∀ a e, a ∈ accept_ g → e ∈ in_ g a → settles g (upNode g e)).
Proof.
  intros Hd Hwf.
  destruct (forward_final g Hwf) as (st & popped & Hloop & Hinv & Hq).
  pose proof (fi_kahn g popped st Hinv) as Hk. rewrite Hq in Hk.
  destruct (decide (Exists (λ a, (0 < getZ (f_degrees st) a)%Z) (accept_ g)))
    as [Hex|Hnex].
  - left. apply Exists_exists in Hex as (a & Ha & Hpa). split.
    + apply (forward_of_error σ h g _ Hd).
      unfold forward_scores. rewrite Hloop. simpl.
      by rewrite (forward_accumulate_cycle st (accept_ g) a Ha Hpa).
    + apply (degree_positive g popped (f_degrees st) Hwf Hk) in Hpa
        as (e & He & Hs); [|by apply wf_accept_lt].
      by exists a, e.
  - right. exists (f_scores st). simpl.
    assert (Hall : ∀ a, a ∈ accept_ g → (getZ (f_degrees st) a ≤ 0)%Z).
    { intros a Ha. destruct (decide (0 < getZ (f_degrees st) a)%Z) as [Hp|Hp]; [|lia].
      exfalso. apply Hnex. apply Exists_exists. by exists a. }
    split; [apply (fi_len g popped st Hinv)|]. split.
    + apply (forward_of_scores σ h g _ _ Hd).
      unfold forward_scores. rewrite Hloop. simpl.
      by rewrite (forward_accumulate_ok st (accept_ g) Hall).
    + intros a e Ha He.
      apply (degree_zero g popped (f_degrees st) Hk a); [by apply wf_accept_lt| |done].
      by apply Hall.
Qed.

End ForwardTotal.

(** ** forwardGrad: what it reads of deltas, and forward followed by its
    backward closure *)

Section GradEdges.
Context {W : Type} `{FloatOps W}.
Implicit Types g : Graph W.

Lemma forwardGrad_init_err g output (deltas : Graph W) scores e :
  item deltas = Err e → accept_ g ≠ [] →
  forwardGrad_init g output deltas scores = Err e.
Proof.
  intros He Hne. unfold forwardGrad_init.
  destruct (accept_ g) as [|a l]; [done|]. simpl. rewrite He. simpl.
  clear. induction l as [|x l IH]; [done|]. simpl. exact IH.
Qed.

Lemma forwardGrad_loop_empty g scores fuel (st : grad_state W) :
  g_computed st = [] → forwardGrad_loop fuel g scores st = Some st.
Proof. intros Hq. destruct fuel; simpl; by rewrite Hq. Qed.

(** X10. [forwardGrad] reads [deltas.item()] inside its loop over the accept
    nodes.  On a graph without accept node, [deltas] is never looked at and
    the gradient installed is all zeros, whatever [deltas] is; on a graph
    with an accept node, a [deltas] that is no item graph makes the call
    fail before anything is written. *)
Theorem forwardGrad_reads_deltas g (σ : store W) (h : handle) (s : State W)
    (output : W) (deltas : Graph W) (scores : list W) :
  σ !! h = Some s → st_graph s = g →
  (accept_ g = [] →
   forwardGrad h output deltas scores σ
   = Some (addGrad h (replicate (numArcs g) fzero) σ))
  ∧ (∀ e, accept_ g ≠ [] → item deltas = Err e →
          forwardGrad h output deltas scores σ = Some (Err e)).
Proof.
  intros Hh Hg. split.
  - intros Ha. unfold forwardGrad, deref. rewrite Hh, Hg.
    unfold forwardGrad_walk, forwardGrad_init. rewrite Ha. simpl.
    by rewrite forwardGrad_loop_empty.
  - intros e Hne He. unfold forwardGrad, deref. rewrite Hh, Hg.
    unfold forwardGrad_walk. by rewrite (forwardGrad_init_err g output deltas scores e).
Qed.

(** X11. [forward] followed by its backward closure.  When [forward]
    succeeds on a well-formed graph, the closure it stores, called with an
    item graph as [deltas], never fails: it installs in the input a gradient
    with one entry per arc (accumulated into the gradient the input had),
    or leaves the store as it is when the input computes no gradient. *)
Theorem forward_backward g (σ : store W) (h : handle) (s : State W)
    (t : Taped W) (deltas : Graph W) (d : W) :
  σ !! h = Some s → st_graph s = g → wf g →
  forward σ h = Some (Ok t) → item deltas = Ok d →
  t_inputs t = [h]
  ∧ ∃ arcGrads,
      length arcGrads = numArcs g
      ∧ t_gradFunc t (t_inputs t) deltas σ
        = Ok (if st_calcGrad s
              then <[h := mkState g true
                            (Some (match st_grad s with
                                   | None => arcGrads
                                   | Some old => zip_with fadd old arcGrads
                                   end))]> σ
              else σ).
Proof.
  intros Hh Hg Hwf Hf Hd.
  unfold forward, deref in Hf. rewrite Hh, Hg in Hf.
  destruct (forward_scores g) as [[[scores output]|e]|] eqn:E; simpl in Hf; try done.
  injection Hf as <-. simpl. split; [done|].
  destruct (forwardGrad_init_spec g output deltas d scores Hd)
    as (st0 & Hinit & Hdg & Hc & Ha & Hl & Hs).
  pose proof (ginv_init g d output scores st0 Hwf Hdg Hc Ha Hl Hs) as Hinv0.
  destruct (forwardGrad_loop_terminates g scores (forwardGrad_fuel g) st0
              (forwardGrad_init_potential g st0 Hdg Hc)) as [st Hst].
  destruct (forwardGrad_loop_inv g d output scores _ st0 [] st Hwf Hinv0 Hst)
    as (popped & Hinv & Hq).
  exists (g_arcGrads st). split; [apply (gi_len_arcs _ _ _ _ _ _ Hinv)|].
  unfold forward_gradFunc, forwardGrad, deref. simpl. rewrite Hh, Hg.
  unfold forwardGrad_walk. rewrite Hinit, Hst. simpl.
  unfold addGrad. rewrite Hh.
  destruct (st_calcGrad s); [|done].
  rewrite Hg. rewrite decide_True by apply (gi_len_arcs _ _ _ _ _ _ Hinv). done.
Qed.

End GradEdges.

(** ** closure: well-formedness and the walks of the closed graph *)

Lemma fold_left_inv {A B : Type} (P : A → Prop) (f : A → B → A) (l : list B) (a : A) :
  P a → (∀ a b, b ∈ l → P a → P (f a b)) → P (fold_left f l a).
Proof.
  revert a. induction l as [|b l IH]; intros a Ha Hf; simpl; [done|].
  apply IH.
  - apply Hf; [left|done].
  - intros a' b' Hb'. apply Hf. by right.
Qed.

Section ClosureWalks.
Context {W : Type} `{FloatOps W}.
Implicit Types g : Graph W.

Lemma closure_ordered g : ordered (closure_graph g).
Proof.
  unfold closure_graph.
  apply fold_left_inv; [|intros c s _ Hc; apply fold_left_inv; [done|done]].
  apply ordered_fold_addArc. apply ordered_fold_addNode.
  apply ordered_addNode, ordered_empty.
Qed.

Lemma closure_numNodes g : numNodes (closure_graph g) = S (numNodes g).
Proof.
  unfold numNodes at 1. rewrite closure_nodes. simpl.
  by rewrite length_fmap, length_seq.
Qed.

Lemma closure_arc_lookup g a :
  a < numArcs g → arcs_ (closure_graph g) !! a = Some (closure_arc g a).
Proof.
  intros Ha. rewrite closure_arcs.
  rewrite lookup_app_l by (by rewrite length_fmap, length_seq).
  by rewrite list_lookup_fmap, lookup_seq_lt.
Qed.

Lemma closure_arc_fields g a :
  a < numArcs g →
  upNode (closure_graph g) a = upNode g a + 1
  ∧ downNode (closure_graph g) a = downNode g a + 1
  ∧ ilabel (closure_graph g) a = ilabel g a
  ∧ olabel (closure_graph g) a = olabel g a
  ∧ weight (closure_graph g) a = weight g a
  ∧ a < numArcs (closure_graph g).
Proof.
  intros Ha. unfold upNode at 1, downNode at 1, ilabel at 1, olabel at 1, weight at 1.
  rewrite (closure_arc_lookup g a Ha). simpl. repeat split; try done.
  unfold numArcs at 1. rewrite closure_arcs, length_app, length_fmap, length_seq. lia.
Qed.

(** The epsilon arcs have an index in the closed graph. *)
Lemma closure_epsilon_index g (arc : Arc W) :
  arc ∈ closure_epsilons g →
  ∃ e, e < numArcs (closure_graph g)
       ∧ upNode (closure_graph g) e = arc_up arc
       ∧ downNode (closure_graph g) e = arc_down arc
       ∧ ilabel (closure_graph g) e = arc_ilabel arc
       ∧ olabel (closure_graph g) e = arc_olabel arc
       ∧ weight (closure_graph g) e = arc_weight arc.
Proof.
  intros Hin. apply list_elem_of_lookup in Hin as [i Hi].
  exists (numArcs g + i).
  assert (arcs_ (closure_graph g) !! (numArcs g + i) = Some arc) as Hl.
  { rewrite closure_arcs. rewrite lookup_app_r by (rewrite length_fmap, length_seq; lia).
    rewrite length_fmap, length_seq. by replace (numArcs g + i - numArcs g) with i by lia. }
  split; [by apply lookup_lt_Some in Hl|].
  unfold upNode, downNode, ilabel, olabel, weight. by rewrite Hl.
Qed.

Lemma closure_wf g : wf g → wf (closure_graph g).
Proof.
  intros Hwf. destruct (closure_ordered g) as [Hs Hc].
  apply wf_of_lists; [|done|done].
  intros k Hk. rewrite closure_numNodes.
  assert (∃ arc, arcs_ (closure_graph g) !! k = Some arc) as [arc Harc]
    by (by apply lookup_lt_is_Some_2).
  unfold upNode, downNode. rewrite Harc. simpl.
  rewrite closure_arcs in Harc.
  apply lookup_app_Some in Harc as [Harc|[_ Harc]].
  - rewrite list_lookup_fmap in Harc.
    destruct (seq 0 (numArcs g) !! k) as [a|] eqn:E; [|done].
    apply lookup_seq in E as [-> Hlt]. injection Harc as <-. simpl.
    pose proof (wf_up g Hwf k Hlt). pose proof (wf_down g Hwf k Hlt). lia.
  - apply list_elem_of_lookup_2 in Harc. unfold closure_epsilons in Harc.
    apply list_elem_of_bind in Harc as (s & Harc & Hs').
    apply (wf_start_elem g s Hwf) in Hs' as [Hs' _].
    apply elem_of_cons in Harc as [->|Harc]; [simpl; lia|].
    apply list_elem_of_fmap in Harc as (t & -> & Ht). simpl.
    pose proof (wf_accept_lt g t Hwf Ht). lia.
Qed.

Lemma closure_walk_lift g u p v :
  walk g u p v → walk (closure_graph g) (u + 1) p (v + 1).
Proof.
  induction 1 as [|q w a Hw IH Ha Hu].
  - constructor.
  - destruct (closure_arc_fields g a Ha) as (Eu & Ed & _ & _ & _ & Hlt).
    rewrite <- Ed. apply (walk_snoc _ _ q (w + 1)); [done|done|]. by rewrite Eu, Hu.
Qed.

Lemma closure_labels g p :
  (∀ a, a ∈ p → a < numArcs g) →
  ilabels (closure_graph g) p = ilabels g p
  ∧ olabels (closure_graph g) p = olabels g p.
Proof.
  intros Hp. unfold ilabels, olabels.
  split; apply list_fmap_ext; intros i a Ha;
    apply list_elem_of_lookup_2 in Ha; apply Hp in Ha;
    by destruct (closure_arc_fields g a Ha) as (_ & _ & Ei & Eo & _).
Qed.

Lemma walk_arcs_lt g u p v a : walk g u p v → a ∈ p → a < numArcs g.
Proof.
  induction 1 as [|q w b Hw IH Hb Hu]; [by inversion 1|].
  rewrite elem_of_app, list_elem_of_singleton. intros [Ha| ->]; [by apply IH|done].
Qed.

Lemma elide_app (l k : list Z) : elide (l ++ k) = elide l ++ elide k.
Proof. unfold elide. apply filter_app. Qed.

(** X13. The closure of a well-formed graph is well formed, and it accepts
    every sequence of accepting paths of the graph: for accepting paths
    [p1 ... pk] there is a walk of the closed graph from its start node 0 to
    an accept node that runs through [p1 ... pk], joined by epsilon arcs, so
    that its labels without the epsilons are those of [p1 ... pk] in a
    row. *)
Theorem closure_star g (ps : list (nat * list nat * nat)) :
  wf g →
  (∀ x, x ∈ ps → x.1.1 ∈ start_ g ∧ walk g x.1.1 x.1.2 x.2 ∧ x.2 ∈ accept_ g) →
  let c := closure_graph g in
  wf c
  ∧ ∃ P V, walk c 0 P V ∧ accept c V = true
      ∧ elide (ilabels c P) = ps ≫= (λ x, elide (ilabels g x.1.2))
      ∧ elide (olabels c P) = ps ≫= (λ x, elide (olabels g x.1.2)).
Proof.
  intros Hwf Hps c. split; [by apply closure_wf|].
  assert (Hstar : ∃ P V, walk c 0 P V
      ∧ (V = 0 ∨ ∃ t, t ∈ accept_ g ∧ V = t + 1)
      ∧ elide (ilabels c P) = ps ≫= (λ x, elide (ilabels g x.1.2))
      ∧ elide (olabels c P) = ps ≫= (λ x, elide (olabels g x.1.2))).
  { induction ps as [|[[s p] t] ps IH] using rev_ind.
    - exists [], 0. split; [constructor|]. split; [by left|]. done.
    - destruct IH as (P & V & HP & HV & Hi & Ho).
      { intros x Hx. apply Hps. apply elem_of_app. by left. }
      destruct (Hps (s, p, t)) as (Hs & Hp & Ht).
      { apply elem_of_app. right. left. }
      simpl in Hs, Hp, Ht.
      assert (∃ e, e < numArcs c ∧ upNode c e = V ∧ downNode c e = s + 1
                   ∧ ilabel c e = epsilon ∧ olabel c e = epsilon)
        as (e & He & Eu & Ed & Ei & Eo).
      { destruct HV as [->|(t' & Ht' & ->)].
        - destruct (closure_epsilon_index g (mkArc 0 (s + 1) epsilon epsilon fzero))
            as (e & He & Eu & Ed & Ei & Eo & _).
          { unfold closure_epsilons. apply list_elem_of_bind. exists s.
            split; [left|done]. }
          by exists e.
        - destruct (closure_epsilon_index g
                      (mkArc (t' + 1) (s + 1) epsilon epsilon fzero))
            as (e & He & Eu & Ed & Ei & Eo & _).
          { unfold closure_epsilons. apply list_elem_of_bind. exists s.
            split; [|done]. right. apply list_elem_of_fmap. by exists t'. }
          by exists e. }
      exists ((P ++ [e]) ++ p), (t + 1).
      split.
      { apply (walk_app c 0 (P ++ [e]) (s + 1)).
        - rewrite <- Ed. by apply (walk_snoc c 0 P V).
        - by apply closure_walk_lift. }
      split; [right; by exists t|].
      destruct (closure_labels g p) as [Lp Op].
      { intros a Ha. by apply (walk_arcs_lt g s p t). }
      assert (Eeps : elide [epsilon] = []) by done.
      subst c. split.
      + unfold ilabels in *. rewrite !fmap_app, !elide_app, Hi, Lp. simpl.
        rewrite Ei, Eeps, bind_app. simpl. by rewrite !app_nil_r.
      + unfold olabels in *. rewrite !fmap_app, !elide_app, Ho, Op. simpl.
        rewrite Eo, Eeps, bind_app. simpl. by rewrite !app_nil_r. }
  destruct Hstar as (P & V & HP & HV & Hi & Ho).
  exists P, V. split; [done|]. split; [|done].
  destruct HV as [->|(t & Ht & ->)].
  - unfold c, accept. by rewrite closure_nodes.
  - unfold c, accept at 1. rewrite closure_nodes. rewrite Nat.add_1_r. simpl.
    rewrite list_lookup_fmap, lookup_seq_lt by (by apply wf_accept_lt). simpl.
    by apply (wf_accept g Hwf).
Qed.

End ClosureWalks.

(** ** findReachable *)

Lemma getb_insert (l : list bool) (i j : nat) (b : bool) :
  getb (<[i := b]> l) j = if decide (i = j ∧ i < length l) then b else getb l j.
Proof.
  unfold getb. case_decide as Hd.
  - destruct Hd as [-> Hl]. by rewrite list_lookup_insert_eq.
  - destruct (decide (i = j)) as [->|Hne].
    + rewrite list_insert_ge; [done|lia].
    + by rewrite list_lookup_insert_ne.
Qed.

Lemma length_filter_insert {A : Type} (P : A → Prop) `{∀ x, Decision (P x)}
    (l : list A) (i : nat) (x y : A) :
  l !! i = Some x → P x → ¬ P y →
  length (filter P (<[i := y]> l)) + 1 = length (filter P l).
Proof.
  intros Hi Hx Hy.
  assert (i < length l) as Hlt by (eapply lookup_lt_Some; eassumption).
  rewrite (insert_take_drop l i y Hlt).
  rewrite <- (take_drop_middle l i x Hi) at 3.
  rewrite !filter_app, !filter_cons, !length_app.
  destruct (decide (P x)); [|done]. destruct (decide (P y)); [done|]. simpl. lia.
Qed.

Lemma unmarked_le (l : list bool) : unmarked l ≤ length l.
Proof. unfold unmarked. apply length_filter. Qed.

Lemma elide_cons_eq (a b : Z) (l k : list Z) :
  a = b → elide l = elide k → elide (a :: l) = elide (b :: k).
Proof. intros -> Hl. unfold elide in *. rewrite !filter_cons, Hl. done. Qed.

Lemma elide_cons_eps (l : list Z) : elide (epsilon :: l) = elide l.
Proof. done. Qed.

Lemma elem_of_in {W : Type} `{FloatOps W} (g : Graph W) (n a : nat) :
  a ∈ in_ g n ↔ a < numArcs g ∧ downNode g a = n.
Proof. apply (elem_of_coadj (numArcs g) (downNode g)). Qed.

Lemma elem_of_out {W : Type} `{FloatOps W} (g : Graph W) (n a : nat) :
  a ∈ out g n ↔ a < numArcs g ∧ upNode g a = n.
Proof. apply (elem_of_adj (numArcs g) (upNode g)). Qed.

Section Reachable.
Context {W : Type} `{FloatOps W}.
Variables first second : Graph W.
Hypothesis Hwf1 : wf first.
Hypothesis Hwf2 : wf second.

Lemma toIndex_lt x y :
  x < numNodes first → y < numNodes second →
  toIndex x y first < numNodes first * numNodes second.
Proof. unfold toIndex. nia. Qed.

Lemma toIndex_inj x y x' y' :
  x < numNodes first → x' < numNodes first →
  toIndex x y first = toIndex x' y' first → x = x' ∧ y = y'.
Proof.
  unfold toIndex. intros Hx Hx' Heq.
  assert (y = y') as -> by nia. split; [lia|done].
Qed.

(** Marking a state that can reach an accept state keeps the invariant and
    the bound. *)
Lemma reach_mark_inv m0 st un1 un2 :
  RInv first second m0 st →
  un1 < numNodes first → un2 < numNodes second → coreach first second un1 un2 →
  RInv first second m0 (reach_mark first un1 un2 st)
  ∧ length (reach_mark first un1 un2 st).2 + unmarked (reach_mark first un1 un2 st).1
    = length st.2 + unmarked st.1.
Proof.
  intros [Hlen Hq Hs Hm] H1 H2 Hco. destruct st as [reachable queue]. simpl in *.
  pose proof (toIndex_lt un1 un2 H1 H2) as Hidx.
  unfold reach_mark.
  split.
  - split; simpl.
    + by rewrite length_insert.
    + intros x Hx. destruct (getb reachable (toIndex un1 un2 first)); [by apply Hq|].
      apply elem_of_app in Hx as [Hx|Hx]; [by apply Hq|].
      apply list_elem_of_singleton in Hx as ->. done.
    + intros x y Hx Hy. rewrite getb_insert. case_decide as Hd; [|by apply Hs].
      destruct Hd as [Heq _]. intros _.
      by destruct (toIndex_inj un1 un2 x y H1 Hx Heq) as [<- <-].
    + intros i Hi. rewrite getb_insert. case_decide; [done|by apply Hm].
  - simpl. unfold getb.
    destruct (lookup_lt_is_Some_2 reachable (toIndex un1 un2 first)) as [b Hb]; [lia|].
    rewrite Hb. simpl. destruct b.
    + by rewrite list_insert_id.
    + rewrite length_app. simpl. unfold unmarked.
      pose proof (length_filter_insert (λ b, b = false) reachable _ false true Hb
                    eq_refl ltac:(done)). lia.
Qed.

Lemma coreach_pair c1 c2 i j :
  i ∈ in_ first c1 → j ∈ in_ second c2 → olabel first i = ilabel second j →
  coreach first second c1 c2 →
  coreach first second (upNode first i) (upNode second j).
Proof.
  intros Hi Hj Hl (p & q & f & s & Hp & Hq & Hf & Hs & He).
  apply elem_of_in in Hi as [Hi <-]. apply elem_of_in in Hj as [Hj <-].
  exists (i :: p), (j :: q), f, s.
  split; [by apply walk_cons|]. split; [by apply walk_cons|].
  split; [done|]. split; [done|].
  unfold olabels, ilabels in *. simpl. by apply elide_cons_eq.
Qed.

Lemma coreach_left c1 c2 i :
  i ∈ in_ first c1 → olabel first i = epsilon →
  coreach first second c1 c2 → coreach first second (upNode first i) c2.
Proof.
  intros Hi Hl (p & q & f & s & Hp & Hq & Hf & Hs & He).
  apply elem_of_in in Hi as [Hi <-].
  exists (i :: p), q, f, s.
  split; [by apply walk_cons|]. split; [done|].
  split; [done|]. split; [done|].
  unfold olabels, ilabels in *. simpl. by rewrite Hl, elide_cons_eps.
Qed.

Lemma coreach_right c1 c2 j :
  j ∈ in_ second c2 → ilabel second j = epsilon →
  coreach first second c1 c2 → coreach first second c1 (upNode second j).
Proof.
  intros Hj Hl (p & q & f & s & Hp & Hq & Hf & Hs & He).
  apply elem_of_in in Hj as [Hj <-].
  exists p, (j :: q), f, s.
  split; [done|]. split; [by apply walk_cons|].
  split; [done|]. split; [done|].
  unfold olabels, ilabels in *. simpl. by rewrite Hl, elide_cons_eps.
Qed.

(** One iteration of the loop keeps the invariant and the bound. *)
Lemma findReachable_step_inv m0 K curr st :
  curr.1 < numNodes first → curr.2 < numNodes second →
  coreach first second curr.1 curr.2 →
  RInv first second m0 st ∧ length st.2 + unmarked st.1 = K →
  RInv first second m0 (findReachable_step first second curr st)
  ∧ length (findReachable_step first second curr st).2
    + unmarked (findReachable_step first second curr st).1 = K.
Proof.
  intros H1 H2 Hco Hst. unfold findReachable_step.
  set (Good := λ st : list bool * list (nat * nat),
         RInv first second m0 st ∧ length st.2 + unmarked st.1 = K).
  assert (Hpair : Good (fold_left (λ acc i,
        fold_left (λ '(st, em) j,
            if decide (olabel first i ≠ ilabel second j) then (st, em)
            else (reach_mark first (upNode first i) (upNode second j) st,
                  em || (olabel first i =? epsilon)%Z))
          (in_ second curr.2) acc)
      (in_ first curr.1) (st, false)).1).
  { apply (fold_left_inv (λ acc : (list bool * list (nat * nat)) * bool, Good acc.1));
      [done|].
    intros acc i Hi Hacc.
    apply (fold_left_inv (λ acc : (list bool * list (nat * nat)) * bool, Good acc.1));
      [done|].
    intros [st' em] j Hj [Hinv HK]. simpl in *.
    destruct (decide (olabel first i ≠ ilabel second j)) as [Hne|Heq]; [done|].
    simpl. apply dec_stable in Heq.
    destruct (reach_mark_inv m0 st' (upNode first i) (upNode second j) Hinv)
      as [Hinv' HK'].
    - apply elem_of_in in Hi as [Hi _]. by apply (wf_up first Hwf1).
    - apply elem_of_in in Hj as [Hj _]. by apply (wf_up second Hwf2).
    - by apply (coreach_pair curr.1 curr.2).
    - split; [done|]. lia. }
  destruct (fold_left _ (in_ first curr.1) (st, false)) as [st1 em] eqn:E.
  simpl in Hpair. destruct em; simpl; [done|].
  assert (Hleft : Good (fold_left (λ st i,
          if decide (olabel first i ≠ epsilon) then st
          else reach_mark first (upNode first i) curr.2 st)
        (in_ first curr.1) st1)).
  { apply (fold_left_inv Good); [done|].
    intros st' i Hi [Hinv HK].
    destruct (decide (olabel first i ≠ epsilon)) as [Hne|Heq]; [done|].
    apply dec_stable in Heq.
    destruct (reach_mark_inv m0 st' (upNode first i) curr.2 Hinv) as [Hinv' HK'].
    - apply elem_of_in in Hi as [Hi _]. by apply (wf_up first Hwf1).
    - done.
    - by apply (coreach_left curr.1 curr.2).
    - split; [done|]. lia. }
  apply (fold_left_inv Good); [done|].
  intros st' j Hj [Hinv HK].
  destruct (decide (ilabel second j ≠ epsilon)) as [Hne|Heq]; [done|].
  apply dec_stable in Heq.
  destruct (reach_mark_inv m0 st' curr.1 (upNode second j) Hinv) as [Hinv' HK'].
  - done.
  - apply elem_of_in in Hj as [Hj _]. by apply (wf_up second Hwf2).
  - by apply (coreach_right curr.1 curr.2).
  - split; [done|]. lia.
Qed.

Lemma findReachable_loop_inv m0 fuel : ∀ st,
  RInv first second m0 st → length st.2 + unmarked st.1 < fuel →
  ∃ r, findReachable_loop fuel first second st = Some r
       ∧ RInv first second m0 (r, []).
Proof.
  induction fuel as [|fuel IH]; intros [reachable queue] Hinv Hlt; [simpl in Hlt; lia|].
  destruct queue as [|curr rest].
  - exists reachable. done.
  - simpl. destruct (r_queue _ _ _ _ Hinv curr) as (H1 & H2 & Hco); [left|].
    assert (Hrest : RInv first second m0 (reachable, rest)).
    { destruct Hinv as [Hl Hq Hs Hm]. split; try done.
      intros x Hx. apply Hq. by right. }
    destruct (findReachable_step_inv m0 (length rest + unmarked reachable) curr
                (reachable, rest) H1 H2 Hco) as [Hinv' HK]; [done|].
    apply IH; [done|]. simpl in Hlt. lia.
Qed.

Lemma coreach_accept f s :
  f ∈ accept_ first → s ∈ accept_ second → coreach first second f s.
Proof.
  intros Hf Hs. exists [], [], f, s. repeat split; try done; constructor.
Qed.

Lemma findReachable_init_inv :
  let st := (findReachable_init first second) in
  length st.1 = numNodes first * numNodes second
  ∧ (∀ x, x ∈ st.2 →
       x.1 < numNodes first ∧ x.2 < numNodes second ∧ coreach first second x.1 x.2)
  ∧ (∀ x y, x < numNodes first → y < numNodes second →
       getb st.1 (toIndex x y first) = true → coreach first second x y).
Proof.
  unfold findReachable_init.
  apply (fold_left_inv (λ st : list bool * list (nat * nat),
    length st.1 = numNodes first * numNodes second
    ∧ (∀ x, x ∈ st.2 →
         x.1 < numNodes first ∧ x.2 < numNodes second ∧ coreach first second x.1 x.2)
    ∧ (∀ x y, x < numNodes first → y < numNodes second →
         getb st.1 (toIndex x y first) = true → coreach first second x y))).
  { simpl. rewrite length_replicate. split; [done|]. split; [by inversion 1|].
    intros x y Hx Hy. unfold getb.
    rewrite lookup_replicate_2 by (by apply toIndex_lt). done. }
  intros st f Hf Hst.
  apply fold_left_inv; [done|].
  intros [reachable queue] s Hs (Hl & Hq & Hsound). unfold findReachable_seed. simpl in *.
  pose proof (wf_accept_lt first f Hwf1 Hf) as Hf'.
  pose proof (wf_accept_lt second s Hwf2 Hs) as Hs'.
  split; [by rewrite length_insert|]. split.
  - intros x Hx. apply elem_of_app in Hx as [Hx|Hx]; [by apply Hq|].
    apply list_elem_of_singleton in Hx as ->. simpl.
    split; [done|]. split; [done|]. by apply coreach_accept.
  - intros x y Hx Hy. rewrite getb_insert. case_decide as Hd; [|by apply Hsound].
    destruct Hd as [Heq _]. intros _.
    destruct (toIndex_inj f s x y Hf' Hx Heq) as [<- <-]. by apply coreach_accept.
Qed.

Lemma findReachable_init_length :
  length (findReachable_init first second).2
  = length (accept_ first) * length (accept_ second).
Proof.
  unfold findReachable_init.
  assert (Hinner : ∀ f l st,
    length (fold_left (findReachable_seed first f) l st).2 = length st.2 + length l).
  { intros f l. induction l as [|s l IH]; intros [r q]; simpl; [lia|].
    rewrite IH. simpl. rewrite length_app. simpl. lia. }
  assert (Houter : ∀ l st,
    length (fold_left (λ st f, fold_left (findReachable_seed first f)
                                 (accept_ second) st) l st).2
    = length st.2 + length l * length (accept_ second)).
  { induction l as [|f l IH]; intros st; simpl; [lia|].
    rewrite IH, Hinner. lia. }
  rewrite Houter. simpl. lia.
Qed.

Lemma findReachable_init_marks f s :
  f ∈ accept_ first → s ∈ accept_ second →
  getb (findReachable_init first second).1 (toIndex f s first) = true.
Proof.
  intros Hf Hs. unfold findReachable_init.
  pose proof (wf_accept_lt first f Hwf1 Hf) as Hf'.
  pose proof (wf_accept_lt second s Hwf2 Hs) as Hs'.
  set (inner := findReachable_seed first).
  set (Q := λ st : list bool * list (nat * nat),
         length st.1 = numNodes first * numNodes second).
  set (M := λ st : list bool * list (nat * nat),
         getb st.1 (toIndex f s first) = true).
  assert (Hstep : ∀ f' s' st, Q st → Q (inner f' st s')
                               ∧ (M st → M (inner f' st s'))
                               ∧ (f' = f → s' = s → M (inner f' st s'))).
  { intros f' s' [r q] HQ. unfold Q, M, inner, findReachable_seed in *. simpl in *.
    split; [by rewrite length_insert|]. split.
    - intros HM. rewrite getb_insert. by case_decide.
    - intros -> ->. rewrite getb_insert, decide_True; [done|].
      split; [done|]. rewrite HQ. by apply toIndex_lt. }
  assert (Hinner : ∀ f' l st, Q st →
            Q (fold_left (inner f') l st)
            ∧ (M st → M (fold_left (inner f') l st))
            ∧ (f' = f → s ∈ l → M (fold_left (inner f') l st))).
  { intros f' l. induction l as [|s' l IH]; intros st HQ.
    - split; [done|]. split; [done|]. intros _ Hin. by inversion Hin.
    - simpl. destruct (Hstep f' s' st HQ) as (HQ' & HM' & Hset).
      destruct (IH (inner f' st s') HQ') as (IQ & IM & Iset).
      split; [done|]. split; [by intros ?; apply IM, HM'|].
      intros Hf'' Hin. apply elem_of_cons in Hin as [->|Hin].
      + apply IM. by apply Hset.
      + by apply Iset. }
  assert (Houter : ∀ l st, Q st →
            Q (fold_left (λ st f', fold_left (inner f') (accept_ second) st) l st)
            ∧ (M st → M (fold_left (λ st f', fold_left (inner f') (accept_ second) st)
                           l st))
            ∧ (f ∈ l → M (fold_left (λ st f', fold_left (inner f') (accept_ second) st)
                            l st))).
  { induction l as [|f' l IH]; intros st HQ.
    - split; [done|]. split; [done|]. intros Hin. by inversion Hin.
    - simpl. destruct (Hinner f' (accept_ second) st HQ) as (HQ' & HM' & Hset).
      destruct (IH _ HQ') as (IQ & IM & Iset).
      split; [done|]. split; [by intros ?; apply IM, HM'|].
      intros Hin. apply elem_of_cons in Hin as [->|Hin].
      + apply IM. by apply Hset.
      + by apply Iset. }
  apply Houter; [|done]. unfold Q. simpl. by rewrite length_replicate.
Qed.

(** [findReachable] comes to an end; it marks every pair of accept nodes,
    and every state it marks can reach an accept state. *)
Lemma findReachable_spec :
  ∃ r, findReachable first second = Some r
       ∧ length r = numNodes first * numNodes second
       ∧ (∀ f s, f ∈ accept_ first → s ∈ accept_ second →
            getb r (toIndex f s first) = true)
       ∧ (∀ x y, x < numNodes first → y < numNodes second →
            getb r (toIndex x y first) = true → coreach first second x y).
Proof.
  destruct findReachable_init_inv as (Hl & Hq & Hs).
  assert (Hinv : RInv first second (findReachable_init first second).1 (findReachable_init first second))
    by (by split).
  destruct (findReachable_loop_inv (findReachable_init first second).1
              (length (accept_ first) * length (accept_ second)
               + numNodes first * numNodes second + 1)
              (findReachable_init first second) Hinv) as (r & Hr & [Hl' _ Hs' Hm']).
  { rewrite findReachable_init_length. pose proof (unmarked_le (findReachable_init first second).1).
    rewrite Hl in *. lia. }
  exists r. split; [exact Hr|]. split; [done|]. split; [|done].
  intros f s Hf Hs''. apply Hm'. by apply findReachable_init_marks.
Qed.

End Reachable.

(** X14. On well-formed graphs [findReachable] comes to an end.  Its result
    has one entry per pair of nodes; it marks every pair of accept nodes, and
    every state [(x, y)] it marks can reach an accept state: there are paths
    from [x] and from [y] to accept nodes of the two graphs whose output and
    input labels agree once the epsilons are left out. *)
Theorem findReachable_sound {W : Type} `{FloatOps W} (first second : Graph W) :
  wf first → wf second →
  ∃ r, findReachable first second = Some r
       ∧ length r = numNodes first * numNodes second
       ∧ (∀ f s, f ∈ accept_ first → s ∈ accept_ second →
            getb r (toIndex f s first) = true)
       ∧ (∀ x y, x < numNodes first → y < numNodes second →
            getb r (toIndex x y first) = true → coreach first second x y).
Proof. apply findReachable_spec. Qed.

(** ** compose: the invariant of the construction *)

Lemma unbuilt_le (l : list (option nat)) : unbuilt l ≤ length l.
Proof. unfold unbuilt. apply length_filter. Qed.

Lemma lookup_snoc_eq {A : Type} (l : list A) (x y : A) (k : nat) :
  (l ++ [x]) !! k = Some y ↔ l !! k = Some y ∨ (k = length l ∧ x = y).
Proof.
  rewrite lookup_snoc_Some. split.
  - intros [[_ ?]|[? ?]]; [by left|by right].
  - intros [Hl|[? ?]]; [left|by right]. split; [|done]. by apply lookup_lt_Some in Hl.
Qed.

Section ComposeInv.
Context {W : Type} `{FloatOps W}.
Variables first second : Graph W.
Hypothesis Hwf1 : wf first.
Hypothesis Hwf2 : wf second.
Variable reachable : list bool.

Lemma provenance_mono states states' (arc : Arc W) info :
  states `prefix_of` states' →
  provenance first second states arc info → provenance first second states' arc info.
Proof.
  intros [ext ->] Hp.
  assert (Hlk : ∀ k x, states !! k = Some x → (states ++ ext) !! k = Some x).
  { intros k x Hk. by apply lookup_app_l_Some. }
  destruct Hp as [(i & j & Hi & ? & ? & ? & Hu & Hd & ?)
                 |[(i & y & Hi & ? & ? & Hu & Hd & ?)|(x & j & Hi & ? & ? & Hu & Hd & ?)]].
  - left. exists i, j. repeat split; try tauto; by apply Hlk.
  - right. left. exists i, y. repeat split; try tauto; by apply Hlk.
  - right. right. exists x, j. repeat split; try tauto; by apply Hlk.
Qed.

Lemma cinv_numNodes states st :
  CInv first second reachable states st → numNodes (c_ngraph st) = length states.
Proof. intros Hc. unfold numNodes. by rewrite (c_nodes _ _ _ _ _ Hc), length_fmap. Qed.

(** A state without node has the entry [-1]. *)
Lemma cinv_unbuilt states st x y :
  CInv first second reachable states st →
  x < numNodes first → y < numNodes second →
  (x, y) ∉ states →
  c_newNodes st !! toIndex x y first = Some None.
Proof.
  intros Hc Hx Hy Hnot.
  destruct (lookup_lt_is_Some_2 (c_newNodes st) (toIndex x y first)) as [o Ho].
  { rewrite (c_len _ _ _ _ _ Hc). by apply toIndex_lt. }
  destruct o as [k|]; [|done]. exfalso. apply Hnot.
  apply (c_map _ _ _ _ _ Hc x y k Hx Hy) in Ho. by eapply list_elem_of_lookup_2.
Qed.

(** Building the node of a state that has none. *)
Lemma cinv_new_node states st x s a :
  CInv first second reachable states st →
  x.1 < numNodes first → x.2 < numNodes second →
  getb reachable (toIndex x.1 x.2 first) = true →
  x ∉ states →
  s = start first x.1 && start second x.2 →
  a = accept first x.1 && accept second x.2 →
  let st' := mkCompose (addNode s a (c_ngraph st))
               (<[toIndex x.1 x.2 first := Some (numNodes (c_ngraph st))]> (c_newNodes st))
               (c_toExplore st ++ [x]) (c_gradInfo st) in
  CInv first second reachable (states ++ [x]) st'
  ∧ compose_measure st' = compose_measure st
  ∧ c_newNodes st' !! toIndex x.1 x.2 first = Some (Some (length states)).
Proof.
  intros Hc Hx Hy Hr Hnot -> -> st'.
  destruct x as [x y]. simpl in *.
  pose proof (cinv_numNodes states st Hc) as HN.
  pose proof (cinv_unbuilt states st x y Hc Hx Hy Hnot) as Hnone.
  pose proof (toIndex_lt first second x y Hx Hy) as Hidx.
  assert (Hidx' : toIndex x y first < length (c_newNodes st))
    by (by rewrite (c_len _ _ _ _ _ Hc)).
  split; [|split].
  - destruct Hc as [Hlen Hnodes Hord Hmap Hrange Hqueue Hinfo Harcs].
    split; unfold st'; simpl.
    + by rewrite length_insert.
    + by rewrite Hnodes, fmap_app.
    + by apply ordered_addNode.
    + intros x' y' k Hx' Hy'. rewrite lookup_snoc_eq.
      destruct (decide (toIndex x y first = toIndex x' y' first)) as [Heq|Hne].
      * destruct (toIndex_inj first x y x' y' Hx Hx' Heq) as [<- <-].
        rewrite list_lookup_insert_eq by done. rewrite HN. split.
        -- intros [= <-]. by right.
        -- intros [Hk|[-> _]]; [|done]. exfalso. apply Hnot.
           by eapply list_elem_of_lookup_2.
      * rewrite list_lookup_insert_ne by done. rewrite (Hmap x' y' k Hx' Hy').
        split; [by left|]. intros [?|[_ [= -> ->]]]; done.
    + intros k x' Hk. apply lookup_snoc_eq in Hk as [Hk|[_ <-]]; [by apply (Hrange k)|done].
    + intros x' Hx''. apply elem_of_app in Hx'' as [Hq|Hq].
      * destruct (Hqueue x' Hq) as [k Hk]. exists k. by apply lookup_app_l_Some.
      * apply list_elem_of_singleton in Hq as ->. exists (length states).
        apply lookup_snoc_eq. by right.
    + done.
    + intros k arc info Ha Hi.
      apply (provenance_mono states); [by apply prefix_app_r|]. by apply (Harcs k).
  - unfold compose_measure, st'. simpl. rewrite length_app. simpl.
    unfold unbuilt.
    pose proof (length_filter_insert (λ o : option nat, o = None) (c_newNodes st)
                  (toIndex x y first) None (Some (numNodes (c_ngraph st)))
                  Hnone eq_refl ltac:(done)). lia.
  - unfold st'. simpl. rewrite list_lookup_insert_eq by done. by rewrite HN.
Qed.

(** Adding an arc between two nodes. *)
Lemma cinv_new_arc states st cn d il ol w info :
  CInv first second reachable states st →
  provenance first second states (mkArc cn d il ol w) info →
  let st' := mkCompose (addArc cn d il ol w (c_ngraph st)) (c_newNodes st)
               (c_toExplore st) (c_gradInfo st ++ [info]) in
  CInv first second reachable states st' ∧ compose_measure st' = compose_measure st.
Proof.
  intros [Hlen Hnodes Hord Hmap Hrange Hqueue Hinfo Harcs] Hp st'.
  split; [|done]. split; unfold st'; simpl; try done.
  - rewrite length_app, Hinfo. unfold numArcs. simpl. by rewrite length_app.
  - intros k arc info' Ha Hi.
    apply lookup_snoc_eq in Ha as [Ha|[-> <-]].
    + apply (Harcs k); [done|].
      apply lookup_snoc_eq in Hi as [Hi|[-> _]]; [done|].
      apply lookup_lt_Some in Ha. unfold numArcs in Hinfo. lia.
    + apply lookup_snoc_eq in Hi as [Hi|[_ <-]]; [|done].
      apply lookup_lt_Some in Hi. unfold numArcs in Hinfo. lia.
Qed.

End ComposeInv.

Section ComposeLoop.
Context {W : Type} `{FloatOps W}.
Variables first second : Graph W.
Hypothesis Hwf1 : wf first.
Hypothesis Hwf2 : wf second.
Variable reachable : list bool.

(** What the three inner loops share keeps the invariant: the states may
    grow by one, the bound stays. *)
Lemma compose_arc_inv states st cn dn1 dn2 il ol w info :
  CInv first second reachable states st →
  dn1 < numNodes first → dn2 < numNodes second →
  (∀ states' d, states `prefix_of` states' → states' !! d = Some (dn1, dn2) →
     provenance first second states' (mkArc cn d il ol w) info) →
  let st' := compose_arc first second reachable (Some cn) dn1 dn2 il ol w info st in
  ∃ states', states `prefix_of` states'
    ∧ CInv first second reachable states' st'
    ∧ compose_measure st' = compose_measure st.
Proof.
  intros Hc H1 H2 Hprov. unfold compose_arc.
  destruct (getb reachable (toIndex dn1 dn2 first)) eqn:Hr; simpl.
  2: { exists states. done. }
  pose proof (toIndex_lt first second dn1 dn2 H1 H2) as Hidx.
  destruct (lookup_lt_is_Some_2 (c_newNodes st) (toIndex dn1 dn2 first)) as [o Ho].
  { by rewrite (c_len _ _ _ _ _ Hc). }
  rewrite Ho. simpl. destruct o as [d|]; simpl.
  - rewrite Ho. simpl.
    exists states. split; [done|].
    apply (cinv_new_arc first second reachable states st cn d il ol w info Hc).
    apply Hprov; [done|]. by apply (c_map _ _ _ _ _ Hc dn1 dn2 d H1 H2).
  - assert (Hnot : (dn1, dn2) ∉ states).
    { intros Hin. apply list_elem_of_lookup in Hin as [k Hk].
      apply (c_map _ _ _ _ _ Hc dn1 dn2 k H1 H2) in Hk. congruence. }
    destruct (cinv_new_node first second reachable states st (dn1, dn2)
                (start first dn1 && start second dn2)
                (accept first dn1 && accept second dn2) Hc H1 H2 Hr Hnot eq_refl eq_refl)
      as (Hc1 & Hm1 & Hl1).
    simpl in Hc1, Hm1, Hl1. rewrite Hl1. simpl.
    exists (states ++ [(dn1, dn2)]). split; [by apply prefix_app_r|].
    assert (Hp : provenance first second (states ++ [(dn1, dn2)])
                   (mkArc cn (length states) il ol w) info).
    { apply Hprov; [by apply prefix_app_r|]. apply lookup_snoc_eq. by right. }
    destruct (cinv_new_arc first second reachable _ _ cn (length states) il ol w info
                Hc1 Hp) as [Hc2 Hm2].
    simpl in Hc2, Hm2. split; [exact Hc2|]. by rewrite Hm2.
Qed.

(** One iteration of the loop. *)
Lemma compose_step_inv states st curr cn :
  CInv first second reachable states st →
  states !! cn = Some curr →
  ∃ states', states `prefix_of` states'
    ∧ CInv first second reachable states' (compose_step first second reachable curr st)
    ∧ compose_measure (compose_step first second reachable curr st)
      = compose_measure st.
Proof.
  intros Hc Hcn. destruct curr as [c1 c2].
  destruct (c_range _ _ _ _ _ Hc cn _ Hcn) as (Hc1 & Hc2 & _). simpl in Hc1, Hc2.
  unfold compose_step. simpl.
  assert (c_newNodes st !! toIndex c1 c2 first = Some (Some cn)) as ->
    by (by apply (c_map _ _ _ _ _ Hc c1 c2 cn Hc1 Hc2)).
  simpl.
  set (K := compose_measure st).
  set (Good := λ st' : compose_state W,
         ∃ states', states `prefix_of` states'
           ∧ CInv first second reachable states' st' ∧ compose_measure st' = K).
  assert (Hgood : Good st) by (exists states; done).
  assert (Hup : ∀ states', states `prefix_of` states' → states' !! cn = Some (c1, c2)).
  { intros states' [ext ->]. by apply lookup_app_l_Some. }
  change (Good (fold_left (λ st j,
      if decide (ilabel second j ≠ epsilon) then st
      else compose_arc first second reachable (Some cn) c1 (downNode second j)
             epsilon (olabel second j) (weight second j) ((-1)%Z, Z.of_nat j) st)
    (out second c2)
    (fold_left (λ st i,
        if decide (olabel first i ≠ epsilon) then st
        else compose_arc first second reachable (Some cn) (downNode first i) c2
               (ilabel first i) epsilon (weight first i) (Z.of_nat i, (-1)%Z) st)
      (out first c1)
      (fold_left (λ st i,
          fold_left (λ st j,
              if decide (olabel first i ≠ ilabel second j) then st
              else compose_arc first second reachable (Some cn)
                     (downNode first i) (downNode second j)
                     (ilabel first i) (olabel second j)
                     (fadd (weight first i) (weight second j))
                     (Z.of_nat i, Z.of_nat j) st)
            (out second c2) st)
        (out first c1) st)))).
  apply (fold_left_inv Good).
  { apply (fold_left_inv Good).
    { apply (fold_left_inv Good); [done|].
      intros st1 i Hi Hst1. apply (fold_left_inv Good); [done|].
      intros st2 j Hj (states2 & Hpre & Hc' & HK).
      destruct (decide (olabel first i ≠ ilabel second j)) as [Hne|Heq];
        [by exists states2|].
      apply dec_stable in Heq.
      apply elem_of_out in Hi as [Hi Hui]. apply elem_of_out in Hj as [Hj Huj].
      destruct (compose_arc_inv states2 st2 cn (downNode first i) (downNode second j)
                  (ilabel first i) (olabel second j)
                  (fadd (weight first i) (weight second j))
                  (Z.of_nat i, Z.of_nat j) Hc')
        as (states3 & Hpre3 & Hc3 & Hm3).
      - by apply (wf_down first Hwf1).
      - by apply (wf_down second Hwf2).
      - intros states' d Hpre' Hd. left. exists i, j. simpl.
        rewrite Hui, Huj. repeat split; try done.
        apply Hup. by transitivity states2.
      - exists states3. split; [by transitivity states2|]. split; [done|]. lia. }
    intros st1 i Hi (states2 & Hpre & Hc' & HK).
    destruct (decide (olabel first i ≠ epsilon)) as [Hne|Heq]; [by exists states2|].
    apply dec_stable in Heq. apply elem_of_out in Hi as [Hi Hui].
    destruct (compose_arc_inv states2 st1 cn (downNode first i) c2
                (ilabel first i) epsilon (weight first i) (Z.of_nat i, (-1)%Z) Hc')
      as (states3 & Hpre3 & Hc3 & Hm3).
    - by apply (wf_down first Hwf1).
    - done.
    - intros states' d Hpre' Hd. right. left. exists i, c2. simpl.
      rewrite Hui. repeat split; try done.
      apply Hup. by transitivity states2.
    - exists states3. split; [by transitivity states2|]. split; [done|]. lia. }
  intros st1 j Hj (states2 & Hpre & Hc' & HK).
  destruct (decide (ilabel second j ≠ epsilon)) as [Hne|Heq]; [by exists states2|].
  apply dec_stable in Heq. apply elem_of_out in Hj as [Hj Huj].
  destruct (compose_arc_inv states2 st1 cn c1 (downNode second j)
              epsilon (olabel second j) (weight second j) ((-1)%Z, Z.of_nat j) Hc')
    as (states3 & Hpre3 & Hc3 & Hm3).
  - done.
  - by apply (wf_down second Hwf2).
  - intros states' d Hpre' Hd. right. right. exists c1, j. simpl.
    rewrite Huj. repeat split; try done.
    apply Hup. by transitivity states2.
  - exists states3. split; [by transitivity states2|]. split; [done|]. lia.
Qed.

Lemma compose_loop_inv fuel : ∀ st states,
  CInv first second reachable states st → compose_measure st < fuel →
  ∃ st' states', compose_loop fuel first second reachable st = Some st'
    ∧ CInv first second reachable states' st' ∧ c_toExplore st' = [].
Proof.
  induction fuel as [|fuel IH]; intros st states Hc Hlt; [lia|].
  destruct st as [ngraph newNodes queue gradInfo].
  destruct queue as [|curr rest].
  - exists (mkCompose ngraph newNodes [] gradInfo), states. done.
  - simpl.
    destruct (c_queue _ _ _ _ _ Hc curr) as [cn Hcn]; [left|].
    assert (Hc0 : CInv first second reachable states
                    (mkCompose ngraph newNodes rest gradInfo)).
    { destruct Hc as [Hlen Hnodes Hord Hmap Hrange Hqueue Hinfo Harcs].
      split; try done. intros x Hx. apply Hqueue. by right. }
    destruct (compose_step_inv states _ curr cn Hc0 Hcn) as (states' & _ & Hc' & Hm').
    apply (IH _ states' Hc').
    rewrite Hm'. unfold compose_measure in *. simpl in *. lia.
Qed.

End ComposeLoop.

Lemma fold_left_pairs {A : Type} (F : A → nat * nat → A) (l1 l2 : list nat) (a : A) :
  fold_left (λ a x, fold_left (λ a y, F a (x, y)) l2 a) l1 a
  = fold_left F (x ← l1; (λ y, (x, y)) <$> l2) a.
Proof.
  revert a. induction l1 as [|x l1 IH]; intros a; [done|].
  csimpl. rewrite fold_left_app, <- IH. f_equal.
  clear. revert a. induction l2 as [|y l2 IH]; intros a; [done|]. csimpl. apply IH.
Qed.

Lemma NoDup_pairs (l1 l2 : list nat) :
  NoDup l1 → NoDup l2 → NoDup (x ← l1; (λ y, (x, y)) <$> l2).
Proof.
  intros H1 H2. apply NoDup_bind; [|intros x _|done].
  - intros x1 x2 [a b] _ _ Ha Hb.
    apply list_elem_of_fmap in Ha as (? & [= -> ->] & _).
    by apply list_elem_of_fmap in Hb as (? & [= -> _] & _).
  - apply NoDup_fmap; [|done]. by intros ? ? [= ->].
Qed.

Section ComposeSpec.
Context {W : Type} `{FloatOps W}.
Variables first second : Graph W.
Hypothesis Hwf1 : wf first.
Hypothesis Hwf2 : wf second.
Variable reachable : list bool.

Lemma cinv_empty :
  CInv first second reachable []
    (mkCompose emptyGraph (replicate (numNodes first * numNodes second) None) [] []).
Proof.
  split; simpl.
  - apply length_replicate.
  - done.
  - apply ordered_empty.
  - intros x y k Hx Hy.
    rewrite lookup_replicate_2 by (by apply toIndex_lt). done.
  - intros k x Hk. done.
  - intros x Hx. by inversion Hx.
  - done.
  - intros k arc info Ha. done.
Qed.

Lemma compose_seed_inv ps : ∀ st states,
  NoDup ps →
  (∀ x, x ∈ ps → (x ∉ states) ∧ x.1 ∈ start_ first ∧ x.2 ∈ start_ second) →
  CInv first second reachable states st →
  ∃ states',
    CInv first second reachable states'
      (fold_left (compose_seed first second reachable) ps st)
    ∧ compose_measure (fold_left (compose_seed first second reachable) ps st)
      = compose_measure st.
Proof.
  induction ps as [|x ps IH]; intros st states Hnd Hps Hc.
  - exists states. done.
  - apply NoDup_cons in Hnd as [Hx Hnd]. simpl.
    destruct (Hps x) as (Hnot & Hs1 & Hs2); [left|].
    apply (wf_start_elem first _ Hwf1) in Hs1 as [H1 Hf1].
    apply (wf_start_elem second _ Hwf2) in Hs2 as [H2 Hf2].
    destruct (getb reachable (toIndex x.1 x.2 first)) eqn:Hr.
    + assert (compose_seed first second reachable st x
              = mkCompose
                  (addNode true (accept first x.1 && accept second x.2) (c_ngraph st))
                  (<[toIndex x.1 x.2 first := Some (numNodes (c_ngraph st))]>
                     (c_newNodes st))
                  (c_toExplore st ++ [x]) (c_gradInfo st)) as ->
        by (unfold compose_seed; by rewrite Hr).
      destruct (cinv_new_node first second reachable states st x true
                  (accept first x.1 && accept second x.2) Hc H1 H2 Hr Hnot)
        as (Hc' & Hm' & _); [by rewrite Hf1, Hf2|done|].
      simpl in Hc', Hm'.
      assert (Hps' : ∀ x', x' ∈ ps →
                (x' ∉ states ++ [x]) ∧ x'.1 ∈ start_ first ∧ x'.2 ∈ start_ second).
      { intros x' Hx'. destruct (Hps x') as (Hnot' & ? & ?); [by right|].
        split; [|done]. rewrite elem_of_app, list_elem_of_singleton.
        intros [?|Heq]; [done|]. by subst x'. }
      destruct (IH _ (states ++ [x]) Hnd Hps' Hc') as (states' & Hc'' & Hm'').
      exists states'. split; [done|]. by rewrite Hm''.
    + assert (compose_seed first second reachable st x = st) as ->
        by (unfold compose_seed; by rewrite Hr).
      apply (IH st states Hnd); [|done].
      intros x' Hx'. apply Hps. by right.
Qed.

(** The composed graph and what the construction knows about it. *)
Lemma compose_spec :
  findReachable first second = Some reachable →
  ∃ st states,
    compose first second = Some (c_ngraph st, c_gradInfo st)
    ∧ CInv first second reachable states st ∧ c_toExplore st = [].
Proof.
  intros Hr. unfold compose. rewrite Hr. simpl.
  set (init := fold_left _ (start_ first) _).
  assert (Hinit : init
    = fold_left (compose_seed first second reachable)
        (x ← start_ first; (λ y, (x, y)) <$> start_ second)
        (mkCompose emptyGraph (replicate (numNodes first * numNodes second) None) [] [])).
  { unfold init. by rewrite <- fold_left_pairs. }
  assert (Hps : ∀ x, x ∈ (x ← start_ first; (λ y, (x, y)) <$> start_ second) →
            (x ∉ []) ∧ x.1 ∈ start_ first ∧ x.2 ∈ start_ second).
  { intros [x y] Hx. apply list_elem_of_bind in Hx as (x' & Hx & Hx').
    apply list_elem_of_fmap in Hx as (y' & [= -> ->] & Hy').
    split; [by inversion 1|done]. }
  destruct (compose_seed_inv (x ← start_ first; (λ y, (x, y)) <$> start_ second)
              _ [] (NoDup_pairs _ _ (wf_start_nodup first Hwf1)
                      (wf_start_nodup second Hwf2)) Hps cinv_empty)
    as (states0 & Hc0 & Hm0).
  rewrite <- Hinit in Hc0, Hm0.
  destruct (compose_loop_inv first second Hwf1 Hwf2 reachable
              (length (start_ first) * length (start_ second)
               + numNodes first * numNodes second + 1) init states0 Hc0)
    as (st & states & Hloop & Hc & Hq).
  { rewrite Hm0. unfold compose_measure. simpl.
    pose proof (unbuilt_le (replicate (numNodes first * numNodes second) (@None nat))).
    rewrite length_replicate in *. lia. }
  exists st, states. rewrite Hloop. simpl. done.
Qed.

End ComposeSpec.

(** ** compose: the composed graph *)

Section ComposeTheorems.
Context {W : Type} `{FloatOps W}.
Variables first second : Graph W.
Hypothesis Hwf1 : wf first.
Hypothesis Hwf2 : wf second.

Lemma compose_result :
  ∃ reachable st states,
    findReachable first second = Some reachable
    ∧ (∀ x y, x < numNodes first → y < numNodes second →
         getb reachable (toIndex x y first) = true → coreach first second x y)
    ∧ compose first second = Some (c_ngraph st, c_gradInfo st)
    ∧ CInv first second reachable states st.
Proof.
  destruct (findReachable_spec first second Hwf1 Hwf2) as (r & Hr & _ & _ & Hs).
  destruct (compose_spec first second Hwf1 Hwf2 r Hr) as (st & states & Hc & Hinv & _).
  by exists r, st, states.
Qed.

Lemma cinv_states_nodup reachable states st :
  CInv first second reachable states st → NoDup states.
Proof.
  intros Hc. apply NoDup_alt. intros k1 k2 [x y] H1 H2.
  destruct (c_range _ _ _ _ _ Hc k1 _ H1) as (Hx & Hy & _). simpl in Hx, Hy.
  apply (c_map _ _ _ _ _ Hc x y k1 Hx Hy) in H1.
  apply (c_map _ _ _ _ _ Hc x y k2 Hx Hy) in H2. congruence.
Qed.

Lemma cinv_flags reachable states st k x y :
  CInv first second reachable states st → states !! k = Some (x, y) →
  start (c_ngraph st) k = start first x && start second y
  ∧ accept (c_ngraph st) k = accept first x && accept second y.
Proof.
  intros Hc Hk. unfold start at 1, accept at 1.
  rewrite (c_nodes _ _ _ _ _ Hc), list_lookup_fmap, Hk. done.
Qed.

Lemma cinv_arc reachable states st a :
  CInv first second reachable states st → a < numArcs (c_ngraph st) →
  ∃ arc info, arcs_ (c_ngraph st) !! a = Some arc ∧ c_gradInfo st !! a = Some info
              ∧ provenance first second states arc info.
Proof.
  intros Hc Ha.
  destruct (lookup_lt_is_Some_2 (arcs_ (c_ngraph st)) a Ha) as [arc Harc].
  destruct (lookup_lt_is_Some_2 (c_gradInfo st) a) as [info Hinfo].
  { by rewrite (c_info _ _ _ _ _ Hc). }
  exists arc, info. split; [done|]. split; [done|].
  by apply (c_arcs _ _ _ _ _ Hc a).
Qed.

Lemma provenance_ends states (arc : Arc W) info :
  provenance first second states arc info →
  arc_up arc < length states ∧ arc_down arc < length states.
Proof.
  intros [(i & j & _ & _ & _ & _ & Hu & Hd & _)
         |[(i & y & _ & _ & _ & Hu & Hd & _)|(x & j & _ & _ & _ & Hu & Hd & _)]];
    apply lookup_lt_Some in Hu; apply lookup_lt_Some in Hd; done.
Qed.

Lemma cinv_wf reachable states st :
  CInv first second reachable states st → wf (c_ngraph st).
Proof.
  intros Hc. destruct (c_ordered _ _ _ _ _ Hc) as [Hs Ha].
  apply wf_of_lists; [|done|done].
  intros a Hlt. destruct (cinv_arc reachable states st a Hc Hlt)
    as (arc & info & Harc & _ & Hp).
  apply provenance_ends in Hp. unfold upNode, downNode. rewrite Harc. simpl.
  by rewrite (cinv_numNodes first second reachable states st Hc).
Qed.

End ComposeTheorems.

(** X15. On well-formed graphs [compose] comes to an end and returns a
    well-formed graph with one entry of [gradInfo] per arc.  Every node of
    the result stands for a state [(x, y)] of its own, a pair of a node of
    the first and a node of the second graph; it is a start node when both
    are, an accept node when both are, and its state can reach an accept
    state. *)
Theorem compose_nodes {W : Type} `{FloatOps W} (first second : Graph W) :
  wf first → wf second →
  ∃ c gradInfo states,
    compose first second = Some (c, gradInfo)
    ∧ wf c
    ∧ length gradInfo = numArcs c
    ∧ length states = numNodes c
    ∧ NoDup states
    ∧ ∀ k x y, states !! k = Some (x, y) →
        x < numNodes first ∧ y < numNodes second
        ∧ start c k = start first x && start second y
        ∧ accept c k = accept first x && accept second y
        ∧ coreach first second x y.
Proof.
  intros Hwf1 Hwf2.
  destruct (compose_result first second Hwf1 Hwf2)
    as (r & st & states & Hr & Hs & Hc & Hinv).
  exists (c_ngraph st), (c_gradInfo st), states.
  split; [done|]. split; [by apply (cinv_wf first second r states)|].
  split; [apply (c_info _ _ _ _ _ Hinv)|].
  split; [symmetry; by apply (cinv_numNodes first second r)|].
  split; [by apply (cinv_states_nodup first second r states st)|].
  intros k x y Hk.
  destruct (c_range _ _ _ _ _ Hinv k _ Hk) as (Hx & Hy & Hm). simpl in *.
  destruct (cinv_flags first second r states st k x y Hinv Hk) as [Hst Hac].
  split; [done|]. split; [done|]. split; [done|]. split; [done|]. by apply Hs.
Qed.

(** X16. Where the arcs of a composed graph come from.  With [states] the
    state of every composed node, the arc [k] of the result and the entry [k]
    of [gradInfo] are of one of three kinds: [(i, j)], a pair of arcs whose
    output and input labels are equal, joined into an arc with the input
    label of [i], the output label of [j] and the sum of the weights;
    [(i, -1)], an arc of the first graph with an epsilon output, taken
    alone; [(-1, j)], an arc of the second graph with an epsilon input, taken
    alone.  In each case the arc runs between the nodes that stand for the
    states at the ends of the arcs it comes from. *)
Theorem compose_provenance {W : Type} `{FloatOps W} (first second : Graph W) :
  wf first → wf second →
  ∃ c gradInfo states,
    compose first second = Some (c, gradInfo)
    ∧ length states = numNodes c
    ∧ ∀ k, k < numArcs c →
        ∃ arc info, arcs_ c !! k = Some arc ∧ gradInfo !! k = Some info
                    ∧ provenance first second states arc info.
Proof.
  intros Hwf1 Hwf2.
  destruct (compose_result first second Hwf1 Hwf2)
    as (r & st & states & Hr & Hs & Hc & Hinv).
  exists (c_ngraph st), (c_gradInfo st), states.
  split; [done|]. split; [symmetry; by apply (cinv_numNodes first second r)|].
  intros k Hk. by apply (cinv_arc first second r states).
Qed.

(** ** compose: every path of the result is a pair of matching paths *)

Lemma elide_snoc_eps (l : list Z) : elide (l ++ [epsilon]) = elide l.
Proof. rewrite elide_app. unfold elide at 2. simpl. by rewrite app_nil_r. Qed.

Lemma compose_proj1_snoc (gi : list (Z * Z)) (P : list nat) (a : nat) :
  compose_proj1 gi (P ++ [a])
  = compose_proj1 gi P
    ++ match gi !! a with
       | Some (zi, _) => if (0 <=? zi)%Z then [Z.to_nat zi] else []
       | None => []
       end.
Proof. unfold compose_proj1. rewrite bind_app. csimpl. by rewrite app_nil_r. Qed.

Lemma compose_proj2_snoc (gi : list (Z * Z)) (P : list nat) (a : nat) :
  compose_proj2 gi (P ++ [a])
  = compose_proj2 gi P
    ++ match gi !! a with
       | Some (_, zj) => if (0 <=? zj)%Z then [Z.to_nat zj] else []
       | None => []
       end.
Proof. unfold compose_proj2. rewrite bind_app. csimpl. by rewrite app_nil_r. Qed.

Section ComposePaths.
Context {W : Type} `{FloatOps W}.
Variables first second : Graph W.
Hypothesis Hwf1 : wf first.
Hypothesis Hwf2 : wf second.
Variables (reachable : list bool) (states : list (nat * nat)) (st : compose_state W).
Hypothesis Hinv : CInv first second reachable states st.

Lemma compose_walk_project u P v xu yu :
  walk (c_ngraph st) u P v → states !! u = Some (xu, yu) →
  ∃ xv yv, states !! v = Some (xv, yv)
    ∧ walk first xu (compose_proj1 (c_gradInfo st) P) xv
    ∧ walk second yu (compose_proj2 (c_gradInfo st) P) yv
    ∧ elide (olabels first (compose_proj1 (c_gradInfo st) P))
      = elide (ilabels second (compose_proj2 (c_gradInfo st) P))
    ∧ elide (ilabels (c_ngraph st) P)
      = elide (ilabels first (compose_proj1 (c_gradInfo st) P))
    ∧ elide (olabels (c_ngraph st) P)
      = elide (olabels second (compose_proj2 (c_gradInfo st) P)).
Proof.
  intros Hw Hu. induction Hw as [|Q w a Hw IH Ha Hup].
  - exists xu, yu. split; [done|]. split; [constructor|]. split; [constructor|]. done.
  - destruct IH as (xw & yw & Hsw & Hp & Hq & Hmid & Hin & Hout).
    destruct (cinv_arc first second reachable states st a Hinv Ha)
      as (arc & info & Harc & Hinfo & Hprov).
    assert (Eup : upNode (c_ngraph st) a = arc_up arc)
      by (unfold upNode; by rewrite Harc).
    assert (Edn : downNode (c_ngraph st) a = arc_down arc)
      by (unfold downNode; by rewrite Harc).
    assert (Eil : ilabel (c_ngraph st) a = arc_ilabel arc)
      by (unfold ilabel; by rewrite Harc).
    assert (Eol : olabel (c_ngraph st) a = arc_olabel arc)
      by (unfold olabel; by rewrite Harc).
    rewrite compose_proj1_snoc, compose_proj2_snoc, Hinfo.
    unfold ilabels, olabels in *. rewrite !fmap_app. simpl.
    rewrite Edn, Eil, Eol. rewrite Eup in Hup. subst w.
    destruct Hprov as [(i & j & -> & Hi & Hj & Hl & Hsu & Hsd & Hai & Hao & _)
                      |[(i & y & -> & Hi & Hl & Hsu & Hsd & Hai & Hao & _)
                       |(x & j & -> & Hj & Hl & Hsu & Hsd & Hai & Hao & _)]].
    + rewrite Hsu in Hsw. injection Hsw as <- <-.
      exists (downNode first i), (downNode second j).
      assert ((0 <=? Z.of_nat i)%Z = true) as -> by (apply Z.leb_le; lia).
      assert ((0 <=? Z.of_nat j)%Z = true) as -> by (apply Z.leb_le; lia).
      rewrite ?Nat2Z.id, ?fmap_app. simpl.
      split; [done|].
      split; [by apply (walk_snoc first xu _ (upNode first i))|].
      split; [by apply (walk_snoc second yu _ (upNode second j))|].
      rewrite !elide_app, Hmid, Hin, Hout, Hai, Hao, Hl. done.
    + rewrite Hsu in Hsw. injection Hsw as <- <-.
      exists (downNode first i), y.
      assert ((0 <=? Z.of_nat i)%Z = true) as -> by (apply Z.leb_le; lia).
      simpl. rewrite ?Nat2Z.id, ?fmap_app, ?app_nil_r. simpl.
      split; [done|].
      split; [by apply (walk_snoc first xu _ (upNode first i))|].
      split; [done|].
      rewrite Hl, Hao, Hai, !elide_snoc_eps, !elide_app, Hin. by rewrite Hmid, Hout.
    + rewrite Hsu in Hsw. injection Hsw as <- <-.
      exists x, (downNode second j).
      assert ((0 <=? Z.of_nat j)%Z = true) as -> by (apply Z.leb_le; lia).
      simpl. rewrite ?Nat2Z.id, ?fmap_app, ?app_nil_r. simpl.
      split; [done|]. split; [done|].
      split; [by apply (walk_snoc second yu _ (upNode second j))|].
      rewrite Hl, Hao, Hai, !elide_snoc_eps, !elide_app, Hout. by rewrite Hmid, Hin.
Qed.

End ComposePaths.

(** X17. Every path of a composed graph is a pair of matching paths.  With
    [states] the state of every composed node: a path [P] from the node of
    [(xu, yu)] to a node [v] ends in the node of some [(xv, yv)], the arcs
    that [gradInfo] records along [P] form a path of the first graph from
    [xu] to [xv] and a path of the second graph from [yu] to [yv], the
    output labels of the first path are the input labels of the second once
    the epsilons are left out, and the input and output labels of [P] are
    the input labels of the first path and the output labels of the second,
    epsilons left out.  A composed node is a start (accept) node exactly when
    both nodes of its state are. *)
Theorem compose_paths {W : Type} `{FloatOps W} (first second : Graph W) :
  wf first → wf second →
  ∃ c gradInfo states,
    compose first second = Some (c, gradInfo)
    ∧ length states = numNodes c
    ∧ (∀ k x y, states !! k = Some (x, y) →
         start c k = start first x && start second y
         ∧ accept c k = accept first x && accept second y)
    ∧ ∀ u P v xu yu,
        walk c u P v → states !! u = Some (xu, yu) →
        ∃ xv yv, states !! v = Some (xv, yv)
          ∧ walk first xu (compose_proj1 gradInfo P) xv
          ∧ walk second yu (compose_proj2 gradInfo P) yv
          ∧ elide (olabels first (compose_proj1 gradInfo P))
            = elide (ilabels second (compose_proj2 gradInfo P))
          ∧ elide (ilabels c P) = elide (ilabels first (compose_proj1 gradInfo P))
          ∧ elide (olabels c P) = elide (olabels second (compose_proj2 gradInfo P)).
Proof.
  intros Hwf1 Hwf2.
  destruct (compose_result first second Hwf1 Hwf2)
    as (r & st & states & Hr & Hs & Hc & Hinv).
  exists (c_ngraph st), (c_gradInfo st), states.
  split; [done|]. split; [symmetry; by apply (cinv_numNodes first second r)|].
  split; [intros k x y Hk; by apply (cinv_flags first second r states)|].
  intros u P v xu yu. by apply (compose_walk_project first second r states).
Qed.

(** ** compose: empty results and the backward closure *)

Section ComposeEdges.
Context {W : Type} `{FloatOps W}.
Implicit Types first second : Graph W.

Lemma compose_loop_nil fuel first second reachable (st : compose_state W) :
  c_toExplore st = [] → compose_loop fuel first second reachable st = Some st.
Proof. intros Hq. destruct fuel; simpl; by rewrite Hq. Qed.

Lemma fold_left_id {A B : Type} (f : A → B → A) (l : list B) (a : A) :
  (∀ b, b ∈ l → f a b = a) → fold_left f l a = a.
Proof.
  induction l as [|b l IH]; intros Hf; [done|]. simpl.
  rewrite Hf by left. apply IH. intros b' Hb'. apply Hf. by right.
Qed.

Lemma ordered_no_nodes (g : Graph W) :
  ordered g → nodes_ g = [] → numArcs g = 0 → g = emptyGraph.
Proof.
  intros [Hs Ha] Hn Hm. destruct g as [ns ars ss acs].
  unfold numNodes, numArcs in *. simpl in *. subst ns. simpl in *. rewrite Hs, Ha.
  destruct ars; [done|simpl in Hm; lia].
Qed.

End ComposeEdges.

(** X18. When one of the two graphs has no start node, or no accept node,
    their composition is the empty graph, with an empty [gradInfo]. *)
Theorem compose_empty {W : Type} `{FloatOps W} (first second : Graph W) :
  wf first → wf second →
  start_ first = [] ∨ start_ second = [] ∨ accept_ first = [] ∨ accept_ second = [] →
  compose first second = Some (emptyGraph, []).
Proof.
  intros Hwf1 Hwf2 Hcase.
  destruct (findReachable_spec first second Hwf1 Hwf2) as (r & Hr & _ & _ & Hs).
  destruct Hcase as [Hc|[Hc|Hc]].
  - unfold compose. rewrite Hr. simpl. rewrite Hc. simpl.
    by rewrite compose_loop_nil.
  - unfold compose. rewrite Hr. simpl. rewrite Hc. simpl.
    rewrite fold_left_id by done. by rewrite compose_loop_nil.
  - destruct (compose_spec first second Hwf1 Hwf2 r Hr) as (st & states & Hcomp & Hinv & _).
    assert (states = []) as ->.
    { destruct states as [|[x y] states]; [done|]. exfalso.
      destruct (c_range _ _ _ _ _ Hinv 0 (x, y) eq_refl) as (Hx & Hy & Hm).
      destruct (Hs x y Hx Hy Hm) as (p & q & f & s & _ & _ & Hf & Hs' & _).
      destruct Hc as [Hc|Hc]; rewrite Hc in *; [by inversion Hf|by inversion Hs']. }
    rewrite Hcomp. f_equal.
    assert (numArcs (c_ngraph st) = 0) as Hm.
    { destruct (numArcs (c_ngraph st)) as [|n] eqn:E; [done|]. exfalso.
      destruct (cinv_arc first second r [] st 0 Hinv) as (arc & info & _ & _ & Hp);
        [lia|].
      apply provenance_ends in Hp. simpl in Hp. lia. }
    f_equal.
    + apply ordered_no_nodes; [apply (c_ordered _ _ _ _ _ Hinv)| |done].
      by rewrite (c_nodes _ _ _ _ _ Hinv).
    + pose proof (c_info _ _ _ _ _ Hinv) as Hi. rewrite Hm in Hi.
      by destruct (c_gradInfo st).
Qed.

Section ComposeBackward.
Context {W : Type} `{FloatOps W}.





End ComposeBackward.


(** ** remove: the walk along the removed label *)

Lemma gset_push (x : nat) (L : list nat) (R : gset nat) :
  list_to_set L ∪ ({[x]} ∪ R) =@{gset nat} list_to_set (x :: L) ∪ R.
Proof.
  apply set_eq. intros v.
  rewrite !elem_of_union, !elem_of_list_to_set, elem_of_cons, elem_of_singleton.
  split.
  - intros [?|[?|?]]; [left; by right|left; by left|by right].
  - intros [[?|?]|?]; [right; by left|by left|right; by right].
Qed.

Lemma gset_no_push (R : gset nat) : list_to_set [] ∪ R =@{gset nat} R.
Proof.
  apply set_eq. intros v. rewrite elem_of_union, elem_of_list_to_set.
  split; [intros [Hv|?]; [by inversion Hv|done]|by right].
Qed.

Lemma gset_not_in_push (x v : nat) (R : gset nat) :
  v ∉ {[x]} ∪ R → v ≠ x ∧ v ∉ R.
Proof.
  rewrite elem_of_union, elem_of_singleton. intros Hv.
  split; intros ?; apply Hv; [by left|by right].
Qed.

Section RemoveWalk.
Context {W : Type} `{FloatOps W}.
Variables (other : Graph W) (il ol : Z) (nodes : list (option nat)) (n curr : nat).
Implicit Types g : Graph W.

Lemma add_arcs_nil g : add_arcs [] g = g.
Proof. destruct g. unfold add_arcs. simpl. by rewrite app_nil_r. Qed.

Lemma add_arcs_app l1 l2 g : add_arcs l2 (add_arcs l1 g) = add_arcs (l1 ++ l2) g.
Proof. unfold add_arcs. simpl. by rewrite app_assoc. Qed.

Lemma addArc_add_arcs u d i o w g : addArc u d i o w g = add_arcs [mkArc u d i o w] g.
Proof. done. Qed.

Lemma makeAccept_add_arcs c l g :
  makeAccept c (add_arcs l g) = add_arcs l (makeAccept c g).
Proof.
  unfold makeAccept.
  assert (accept (add_arcs l g) c = accept g c) as -> by done.
  by destruct (accept g c).
Qed.

Lemma accept_makeAccept c g k :
  c < numNodes g →
  accept (makeAccept c g) k = accept g k || bool_decide (k = c).
Proof.
  intros Hc. unfold makeAccept. destruct (accept g c) eqn:E.
  - case_bool_decide as Hk; [subst; by rewrite E|by rewrite orb_false_r].
  - unfold accept in *. simpl. case_bool_decide as Hk.
    + subst k. rewrite list_lookup_alter, decide_True by done.
      destruct (lookup_lt_is_Some_2 (nodes_ g) c Hc) as [nd ->]. simpl.
      by rewrite orb_true_r.
    + rewrite list_lookup_alter_ne by done. by rewrite orb_false_r.
Qed.

Lemma start_makeAccept c g k : start (makeAccept c g) k = start g k.
Proof.
  unfold makeAccept. destruct (accept g c); [done|].
  unfold start. simpl. destruct (decide (k = c)) as [->|Hk].
  - rewrite list_lookup_alter, decide_True by done. by destruct (nodes_ g !! c).
  - by rewrite list_lookup_alter_ne.
Qed.

Lemma numNodes_makeAccept c g : numNodes (makeAccept c g) = numNodes g.
Proof.
  unfold makeAccept. destruct (accept g c); [done|].
  unfold numNodes. simpl. by rewrite length_alter.
Qed.

Lemma arcs_makeAccept c g : arcs_ (makeAccept c g) = arcs_ g.
Proof. unfold makeAccept. by destruct (accept g c). Qed.

Lemma makeAccept_idem c g :
  c < numNodes g → makeAccept c (makeAccept c g) = makeAccept c g.
Proof.
  intros Hc. unfold makeAccept at 1.
  rewrite accept_makeAccept by done. rewrite bool_decide_eq_true_2 by done.
  by rewrite orb_true_r.
Qed.

(** The loop over the arcs that leave a node, in closed form. *)
Lemma remove_arc_fold l : ∀ g queue (reachable : gset nat),
  fold_left (remove_arc other il ol nodes n) l (g, queue, reachable)
  = (add_arcs (l ≫= remove_new_arc other il ol nodes n) g,
     queue ++ remove_pushed other il ol l reachable,
     list_to_set (remove_pushed other il ol l reachable) ∪ reachable).
Proof.
  induction l as [|a l IH]; intros g queue reachable.
  - simpl. rewrite add_arcs_nil, app_nil_r. f_equal. symmetry. apply gset_no_push.
  - cbn [fold_left remove_pushed]. rewrite bind_cons.
    unfold remove_arc at 2. unfold remove_new_arc at 1.
    destruct (label_match other il ol a) eqn:Hm; cbn [andb app].
    + destruct (decide (downNode other a ∈ reachable)) as [Hin|Hnot].
      * rewrite bool_decide_eq_true_2 by done. cbn [negb]. apply IH.
      * rewrite bool_decide_eq_false_2 by done. cbn [negb]. rewrite IH.
        rewrite <- app_assoc. cbn [app]. f_equal. apply gset_push.
    + destruct (nodes !! downNode other a) as [[d|]|] eqn:Hd.
      * rewrite addArc_add_arcs, IH, add_arcs_app. done.
      * apply IH.
      * apply IH.
Qed.

Lemma remove_pushed_spec l : ∀ (reachable : gset nat),
  NoDup (remove_pushed other il ol l reachable)
  ∧ (∀ v, v ∈ remove_pushed other il ol l reachable →
       (v ∉ reachable)
       ∧ ∃ a, a ∈ l ∧ label_match other il ol a = true ∧ downNode other a = v)
  ∧ (∀ a, a ∈ l → label_match other il ol a = true →
       downNode other a ∈ reachable
       ∨ downNode other a ∈ remove_pushed other il ol l reachable).
Proof.
  induction l as [|a l IH]; intros reachable.
  - simpl. split; [constructor|]. split; intros ? Hin; by inversion Hin.
  - simpl. destruct (label_match other il ol a) eqn:Hm; simpl.
    + destruct (decide (downNode other a ∈ reachable)) as [Hin|Hnot].
      * rewrite bool_decide_eq_true_2 by done. simpl.
        destruct (IH reachable) as (Hnd & Hfrom & Hall).
        split; [done|]. split.
        -- intros v Hv. destruct (Hfrom v Hv) as (? & b & ? & ? & ?).
           split; [done|]. exists b. split; [by right|done].
        -- intros b Hb Hmb. apply elem_of_cons in Hb as [->|Hb]; [by left|].
           by apply Hall.
      * rewrite bool_decide_eq_false_2 by done. simpl.
        destruct (IH ({[downNode other a]} ∪ reachable)) as (Hnd & Hfrom & Hall).
        split; [|split].
        -- apply NoDup_cons. split; [|done]. intros Hv.
           destruct (Hfrom _ Hv) as [Hv' _].
           by apply gset_not_in_push in Hv' as [? _].
        -- intros v Hv. apply elem_of_cons in Hv as [->|Hv].
           ++ split; [done|]. exists a. split; [left|done].
           ++ destruct (Hfrom v Hv) as (Hv' & b & ? & ? & ?).
              apply gset_not_in_push in Hv' as [_ Hv'].
              split; [done|]. exists b. split; [by right|done].
        -- intros b Hb Hmb. apply elem_of_cons in Hb as [->|Hb].
           ++ right. left.
           ++ destruct (Hall b Hb Hmb) as [Hr|Hp].
              ** apply elem_of_union in Hr as [Hr|Hr]; [|by left].
                 apply elem_of_singleton in Hr. right. rewrite Hr. left.
              ** right. by right.
    + destruct (IH reachable) as (Hnd & Hfrom & Hall).
      split; [done|]. split.
      * intros v Hv. destruct (Hfrom v Hv) as (? & b & ? & ? & ?).
        split; [done|]. exists b. split; [by right|done].
      * intros b Hb Hmb. apply elem_of_cons in Hb as [->|Hb]; [congruence|].
        by apply Hall.
Qed.

End RemoveWalk.

Section RemoveLoop.
Context {W : Type} `{FloatOps W}.
Variables (other : Graph W) (il ol : Z) (nodes : list (option nat)) (n curr : nat).
Variable g0 : Graph W.
Hypothesis Hcurr : curr < numNodes g0.

Lemma remove_walked_snoc popped next :
  add_arcs (out other next ≫= remove_new_arc other il ol nodes n)
    (if accept other next
     then makeAccept curr (remove_walked other il ol nodes n curr g0 popped)
     else remove_walked other il ol nodes n curr g0 popped)
  = remove_walked other il ol nodes n curr g0 (popped ++ [next]).
Proof.
  unfold remove_walked. rewrite bind_app, existsb_app. simpl.
  rewrite app_nil_r, orb_false_r.
  destruct (accept other next); simpl.
  - rewrite makeAccept_add_arcs, add_arcs_app, orb_true_r.
    destruct (existsb (accept other) popped); [by rewrite makeAccept_idem|done].
  - by rewrite add_arcs_app, orb_false_r.
Qed.

Lemma winv_step popped next rest (reachable : gset nat) :
  WInv other il ol n popped (next :: rest) reachable →
  let pushed := remove_pushed other il ol (out other next) reachable in
  WInv other il ol n (popped ++ [next]) (rest ++ pushed)
    (list_to_set pushed ∪ reachable).
Proof.
  intros [Hroot Hnd Hreach Hsound Hclosed] pushed.
  destruct (remove_pushed_spec other il ol (out other next) reachable)
    as (Pnd & Pfrom & Pall). fold pushed in Pnd, Pfrom, Pall.
  assert (Hmem : ∀ v, v ∈ (popped ++ [next]) ++ rest ++ pushed
                      ↔ v ∈ popped ++ next :: rest ∨ v ∈ pushed).
  { intros v. rewrite <- (app_assoc popped [next]). simpl.
    replace (popped ++ next :: rest ++ pushed)
      with ((popped ++ next :: rest) ++ pushed) by (by rewrite <- app_assoc).
    apply elem_of_app. }
  split.
  - apply Hmem. by left.
  - rewrite <- app_assoc. simpl.
    replace (popped ++ next :: rest ++ pushed)
      with ((popped ++ next :: rest) ++ pushed) by (by rewrite <- app_assoc).
    apply NoDup_app. split; [done|]. split; [|done].
    intros v Hv Hp. destruct (Pfrom v Hp) as [Hnot _]. apply Hnot. by apply Hreach.
  - intros v. rewrite Hmem, elem_of_union, elem_of_list_to_set, Hreach.
    split; intros [?|?]; [by right|by left|by right|by left].
  - intros v Hv. apply Hmem in Hv as [Hv|Hv]; [by apply Hsound|].
    destruct (Pfrom v Hv) as (_ & a & Ha & Hm & <-).
    apply elem_of_out in Ha as [Ha Hu].
    apply (lreach_step other il ol n next a); [|done|done|done].
    apply Hsound. apply elem_of_app. right. left.
  - intros u a Hu Ha Hup Hm. rewrite elem_of_union, elem_of_list_to_set.
    apply elem_of_app in Hu as [Hu|Hu].
    + right. by apply (Hclosed u a).
    + apply list_elem_of_singleton in Hu as ->.
      destruct (Pall a) as [Hr|Hp]; [by apply elem_of_out|done|by right|by left].
Qed.

(** The nodes in the queue or behind it are the start of the walk or the
    end of an arc: there are at most [numArcs + 1] of them. *)
Lemma winv_bound popped queue (reachable : gset nat) :
  WInv other il ol n popped queue reachable →
  length popped + length queue ≤ numArcs other + 1.
Proof.
  intros Hinv. rewrite <- length_app.
  assert (Hsub : popped ++ queue ⊆ n :: (downNode other <$> seq 0 (numArcs other))).
  { intros v Hv. apply (w_sound _ _ _ _ _ _ _ Hinv) in Hv.
    destruct Hv as [|u a Hu Ha Hup Hm]; [left|right].
    apply list_elem_of_fmap. exists a. split; [done|]. apply elem_of_seq. lia. }
  apply NoDup_submseteq in Hsub; [|apply (w_nodup _ _ _ _ _ _ _ Hinv)].
  apply submseteq_length in Hsub. simpl in Hsub.
  rewrite length_fmap, length_seq in Hsub. lia.
Qed.

Lemma remove_walk_inv fuel : ∀ popped queue (reachable : gset nat),
  WInv other il ol n popped queue reachable →
  numArcs other + 2 ≤ fuel + length popped →
  ∃ popped' reachable',
    remove_walk fuel other il ol nodes n curr
      (remove_walked other il ol nodes n curr g0 popped, queue, reachable)
    = Some (remove_walked other il ol nodes n curr g0 popped', [], reachable')
    ∧ WInv other il ol n popped' [] reachable'.
Proof.
  induction fuel as [|fuel IH]; intros popped queue reachable Hinv Hfuel.
  - pose proof (winv_bound popped queue reachable Hinv).
    destruct queue as [|next rest]; [|simpl in *; lia].
    exists popped, reachable. done.
  - destruct queue as [|next rest].
    + exists popped, reachable. done.
    + cbn [remove_walk]. rewrite remove_arc_fold, remove_walked_snoc.
      pose proof (winv_bound popped (next :: rest) reachable Hinv) as Hb.
      apply IH; [by apply winv_step|].
      rewrite length_app. simpl in *. lia.
Qed.

(** When the walk ends it has left exactly the nodes that the removed
    label leads to. *)
Lemma winv_final popped (reachable : gset nat) v :
  WInv other il ol n popped [] reachable → v ∈ popped ↔ lreach other il ol n v.
Proof.
  intros [Hroot Hnd Hreach Hsound Hclosed]. rewrite app_nil_r in *. split.
  - apply Hsound.
  - induction 1 as [|u a Hu IH Ha Hup Hm]; [done|].
    apply Hreach. by apply (Hclosed u a).
Qed.

Lemma winv_init : WInv other il ol n [] [n] {[n]}.
Proof.
  split; simpl.
  - left.
  - apply NoDup_singleton.
  - intros v. by rewrite elem_of_singleton, list_elem_of_singleton.
  - intros v Hv. apply list_elem_of_singleton in Hv as ->. constructor.
  - intros u a Hu. by inversion Hu.
Qed.

(** The walk from [n] comes to an end within its fuel. *)
Lemma remove_walk_spec :
  ∃ popped reachable,
    remove_walk (numArcs other + 2) other il ol nodes n curr (g0, [n], {[n]})
    = Some (remove_walked other il ol nodes n curr g0 popped, [], reachable)
    ∧ NoDup popped
    ∧ ∀ v, v ∈ popped ↔ lreach other il ol n v.
Proof.
  destruct (remove_walk_inv (numArcs other + 2) [] [n] {[n]} winv_init)
    as (popped & reachable & Hw & Hinv); [simpl; lia|].
  exists popped, reachable. split.
  - rewrite <- Hw. f_equal. unfold remove_walked. simpl. by rewrite add_arcs_nil.
  - split.
    + pose proof (w_nodup _ _ _ _ _ _ _ Hinv) as Hnd. by rewrite app_nil_r in Hnd.
    + intros v. by apply (winv_final popped reachable).
Qed.

End RemoveLoop.

(** ** remove: the nodes it keeps *)

Section RemoveNodes.
Context {W : Type} `{FloatOps W}.
Variables (other : Graph W) (il ol : Z).

Lemma rank_S m :
  rank other il ol (S m)
  = rank other il ol m + (if kept other il ol m then 1 else 0).
Proof.
  unfold rank. rewrite seq_S, filter_app, length_app. simpl.
  rewrite filter_cons, filter_nil.
  destruct (kept other il ol m); simpl; [|done].
  done.
Qed.

Lemma rank_mono m k : m ≤ k → rank other il ol m ≤ rank other il ol k.
Proof.
  induction 1 as [|k Hle IH]; [done|]. rewrite rank_S. lia.
Qed.

Lemma rank_lt m k :
  m < k → kept other il ol m = true → rank other il ol m < rank other il ol k.
Proof.
  intros Hlt Hk. pose proof (rank_mono (S m) k Hlt) as Hm.
  rewrite rank_S, Hk in Hm. lia.
Qed.

Lemma rank_inj m k :
  kept other il ol m = true → kept other il ol k = true →
  rank other il ol m = rank other il ol k → m = k.
Proof.
  intros Hm Hk Heq. destruct (Nat.lt_trichotomy m k) as [Hlt|[->|Hgt]]; [|done|].
  - pose proof (rank_lt m k Hlt Hm). lia.
  - pose proof (rank_lt k m Hgt Hk). lia.
Qed.

(** The first loop of [remove] after the nodes [0 .. k-1]. *)
Lemma remove_nodes_prefix k :
  k ≤ numNodes other →
  let r := fold_left (remove_nodes_step other il ol)
    (seq 0 k) (replicate (numNodes other) None, emptyGraph) in
  r.1 = ((λ m, if kept other il ol m then Some (rank other il ol m) else None)
           <$> seq 0 k) ++ replicate (numNodes other - k) None
  ∧ nodes_ r.2 = (λ m, mkNode (start other m) false)
                   <$> filter (λ m, kept other il ol m = true) (seq 0 k)
  ∧ arcs_ r.2 = []
  ∧ ordered r.2.
Proof.
  induction k as [|k IH]; intros Hk.
  - simpl. rewrite Nat.sub_0_r. split; [done|]. split; [done|]. split; [done|].
    apply ordered_empty.
  - destruct IH as (Hn & Hg & Ha & Ho); [lia|].
    rewrite seq_S, fold_left_app. simpl.
    destruct (fold_left _ (seq 0 k) _) as [nodes graph]. simpl in *.
    unfold remove_nodes_step.
    change (start other k || negb (forallb (label_match other il ol) (in_ other k)))
      with (kept other il ol k).
    rewrite fmap_app, filter_app, fmap_app. simpl.
    rewrite filter_cons, filter_nil.
    assert (numNodes graph = rank other il ol k) as HN.
    { unfold numNodes, rank. by rewrite Hg, length_fmap. }
    destruct (kept other il ol k) eqn:Ek; simpl.
    + split; [|split; [|split]].
      * rewrite Hn, HN.
        replace (numNodes other - k) with (S (numNodes other - S k)) by lia.
        simpl. rewrite insert_app_r_alt by (by rewrite length_fmap, length_seq).
        rewrite length_fmap, length_seq, Nat.sub_diag. simpl.
        by rewrite <- app_assoc.
      * by rewrite Hg.
      * done.
      * by apply ordered_addNode.
    + rewrite !app_nil_r. split; [|done].
      rewrite Hn. replace (numNodes other - k) with (S (numNodes other - S k)) by lia.
      simpl. by rewrite <- app_assoc.
Qed.

Lemma remove_nodes_spec :
  (remove_nodes other il ol).1
  = (λ m, if kept other il ol m then Some (rank other il ol m) else None)
      <$> seq 0 (numNodes other)
  ∧ nodes_ (remove_nodes other il ol).2
    = (λ m, mkNode (start other m) false)
        <$> filter (λ m, kept other il ol m = true) (seq 0 (numNodes other))
  ∧ arcs_ (remove_nodes other il ol).2 = []
  ∧ ordered (remove_nodes other il ol).2.
Proof.
  destruct (remove_nodes_prefix (numNodes other) (le_n _)) as (Hn & Hg & Ha & Ho).
  change (remove_nodes other il ol)
    with (fold_left (remove_nodes_step other il ol) (seq 0 (numNodes other))
            (replicate (numNodes other) None, emptyGraph)).
  rewrite Hn, Nat.sub_diag. simpl. by rewrite app_nil_r.
Qed.

Lemma remove_nodes_lookup m c :
  (remove_nodes other il ol).1 !! m = Some (Some c)
  ↔ m < numNodes other ∧ kept other il ol m = true ∧ c = rank other il ol m.
Proof.
  destruct remove_nodes_spec as (-> & _). rewrite list_lookup_fmap. split.
  - destruct (seq 0 (numNodes other) !! m) as [m'|] eqn:E; [|done].
    apply lookup_seq in E as [-> Hm]. simpl.
    destruct (kept other il ol m); [|done]. intros [= <-]. done.
  - intros (Hm & Hk & ->). rewrite lookup_seq_lt by done. simpl. by rewrite Hk.
Qed.

Lemma remove_nodes_numNodes :
  numNodes (remove_nodes other il ol).2 = rank other il ol (numNodes other).
Proof.
  unfold numNodes at 1. destruct remove_nodes_spec as (_ & -> & _).
  by rewrite length_fmap.
Qed.

Lemma remove_nodes_flags m :
  m < numNodes other → kept other il ol m = true →
  start (remove_nodes other il ol).2 (rank other il ol m) = start other m
  ∧ accept (remove_nodes other il ol).2 (rank other il ol m) = false.
Proof.
  intros Hm Hk. unfold start at 1, accept.
  destruct remove_nodes_spec as (_ & -> & _).
  assert (filter (λ m, kept other il ol m = true) (seq 0 (numNodes other))
            !! rank other il ol m = Some m) as Hl.
  { replace (numNodes other) with (m + (numNodes other - m)) by lia.
    rewrite seq_app, filter_app. rewrite lookup_app_r by done.
    unfold rank. rewrite Nat.sub_diag.
    destruct (numNodes other - m) as [|r] eqn:E; [lia|]. simpl.
    rewrite filter_cons. by rewrite decide_True by done. }
  rewrite list_lookup_fmap, Hl. done.
Qed.

Lemma remove_nodes_no_accept k : accept (remove_nodes other il ol).2 k = false.
Proof.
  unfold accept. destruct remove_nodes_spec as (_ & -> & _).
  rewrite list_lookup_fmap.
  by destruct (filter _ _ !! k).
Qed.

End RemoveNodes.

(** ** remove: the result *)

Section RemoveResult.
Context {W : Type} `{FloatOps W}.
Variables (other : Graph W) (il ol : Z).
Implicit Types g : Graph W.

Let nodes := (remove_nodes other il ol).1.

Lemma remove_unfold :
  remove other il ol
  = fold_left (remove_outer_step other il ol nodes) (seq 0 (numNodes other))
      (Some (remove_nodes other il ol).2).
Proof. unfold remove, nodes. by destruct (remove_nodes other il ol). Qed.

Lemma remove_walked_fields n curr g0 popped :
  curr < numNodes g0 →
  let g := remove_walked other il ol nodes n curr g0 popped in
  numNodes g = numNodes g0
  ∧ (∀ k, start g k = start g0 k)
  ∧ (∀ k, accept g k
          = accept g0 k || (existsb (accept other) popped && bool_decide (k = curr)))
  ∧ arcs_ g = arcs_ g0 ++ (popped ≫= (λ u, out other u ≫= remove_new_arc other il ol nodes n)).
Proof.
  intros Hc g. unfold g, remove_walked.
  destruct (existsb (accept other) popped); simpl.
  - split; [apply numNodes_makeAccept|]. split; [apply start_makeAccept|].
    split; [intros k; by apply accept_makeAccept|].
    unfold add_arcs. simpl. by rewrite arcs_makeAccept.
  - split; [done|]. split; [done|]. split; [|done].
    intros k. by rewrite orb_false_r.
Qed.

Lemma existsb_accept_lreach n popped :
  (∀ v, v ∈ popped ↔ lreach other il ol n v) →
  existsb (accept other) popped = true
  ↔ ∃ v, lreach other il ol n v ∧ accept other v = true.
Proof.
  intros Hp. rewrite existsb_exists. split.
  - intros (v & Hv & Ha). exists v. split; [|done].
    apply Hp. by apply list_elem_of_In.
  - intros (v & Hv & Ha). exists v. split; [|done].
    apply list_elem_of_In. by apply Hp.
Qed.

(** One iteration of the second loop. *)
Lemma remove_outer_step_spec g m :
  numNodes g = rank other il ol (numNodes other) →
  ∃ g', remove_outer_step other il ol nodes (Some g) m = Some g'
    ∧ numNodes g' = numNodes g
    ∧ (∀ k, start g' k = start g k)
    ∧ (∀ k, accept g' k = true
            ↔ accept g k = true
              ∨ (m < numNodes other ∧ kept other il ol m = true
                 ∧ k = rank other il ol m
                 ∧ ∃ v, lreach other il ol m v ∧ accept other v = true))
    ∧ (∀ arc, arc ∈ arcs_ g'
              ↔ arc ∈ arcs_ g
                ∨ (m < numNodes other ∧ kept other il ol m = true
                   ∧ ∃ u a, lreach other il ol m u ∧ a ∈ out other u
                            ∧ arc ∈ remove_new_arc other il ol nodes m a)).
Proof.
  intros HN. unfold remove_outer_step. simpl.
  destruct (nodes !! m) as [[curr|]|] eqn:E.
  - apply remove_nodes_lookup in E as (Hm & Hk & ->).
    assert (Hc : rank other il ol m < numNodes g)
      by (rewrite HN; by apply rank_lt).
    destruct (remove_walk_spec other il ol nodes m (rank other il ol m) g Hc)
      as (popped & reachable & Hw & Hnd & Hp).
    rewrite Hw. simpl. eexists. split; [done|].
    destruct (remove_walked_fields m (rank other il ol m) g popped Hc)
      as (Hn & Hs & Ha & Har).
    split; [done|]. split; [done|]. split.
    + intros k. rewrite Ha, orb_true_iff, andb_true_iff, bool_decide_eq_true.
      rewrite (existsb_accept_lreach m popped Hp). split.
      * intros [?|[? ?]]; [by left|right; done].
      * intros [?|(_ & _ & ? & ?)]; [by left|right; done].
    + intros arc. rewrite Har, elem_of_app. split.
      * intros [?|Hin]; [by left|right].
        split; [done|]. split; [done|].
        apply list_elem_of_bind in Hin as (u & Hin & Hu).
        apply list_elem_of_bind in Hin as (a & Hin & Ha').
        exists u, a. split; [by apply Hp|done].
      * intros [?|(_ & _ & u & a & Hu & Ha' & Hin)]; [by left|right].
        apply list_elem_of_bind. exists u. split; [|by apply Hp].
        apply list_elem_of_bind. by exists a.
  - exists g. split; [done|]. split; [done|]. split; [done|]. split.
    + intros k. split; [by left|]. intros [?|(Hm & Hk & _)]; [done|].
      assert (nodes !! m = Some (Some (rank other il ol m))) as E'
        by (by apply remove_nodes_lookup).
      fold nodes in E'. congruence.
    + intros arc. split; [by left|]. intros [?|(Hm & Hk & _)]; [done|].
      assert (nodes !! m = Some (Some (rank other il ol m))) as E'
        by (by apply remove_nodes_lookup).
      congruence.
  - exists g. split; [done|]. split; [done|]. split; [done|]. split.
    + intros k. split; [by left|]. intros [?|(Hm & Hk & _)]; [done|].
      assert (nodes !! m = Some (Some (rank other il ol m))) as E'
        by (by apply remove_nodes_lookup).
      congruence.
    + intros arc. split; [by left|]. intros [?|(Hm & Hk & _)]; [done|].
      assert (nodes !! m = Some (Some (rank other il ol m))) as E'
        by (by apply remove_nodes_lookup).
      congruence.
Qed.

Lemma remove_outer_fold l : ∀ g,
  numNodes g = rank other il ol (numNodes other) →
  ∃ g', fold_left (remove_outer_step other il ol nodes) l (Some g) = Some g'
    ∧ numNodes g' = numNodes g
    ∧ (∀ k, start g' k = start g k)
    ∧ (∀ k, accept g' k = true
            ↔ accept g k = true
              ∨ ∃ m, m ∈ l ∧ m < numNodes other ∧ kept other il ol m = true
                     ∧ k = rank other il ol m
                     ∧ ∃ v, lreach other il ol m v ∧ accept other v = true)
    ∧ (∀ arc, arc ∈ arcs_ g'
              ↔ arc ∈ arcs_ g
                ∨ ∃ m u a, m ∈ l ∧ m < numNodes other ∧ kept other il ol m = true
                           ∧ lreach other il ol m u ∧ a ∈ out other u
                           ∧ arc ∈ remove_new_arc other il ol nodes m a).
Proof.
  induction l as [|m l IH]; intros g HN.
  - exists g. split; [done|]. split; [done|]. split; [done|]. split.
    + intros k. split; [by left|]. intros [?|(m & Hm & _)]; [done|by inversion Hm].
    + intros arc. split; [by left|].
      intros [?|(m & u & a & Hm & _)]; [done|by inversion Hm].
  - destruct (remove_outer_step_spec g m HN) as (g1 & Hstep & Hn1 & Hs1 & Ha1 & Hr1).
    destruct (IH g1) as (g' & Hfold & Hn' & Hs' & Ha' & Hr'); [by rewrite Hn1|].
    exists g'. cbn [fold_left]. rewrite Hstep. split; [done|].
    split; [by rewrite Hn'|]. split; [intros k; by rewrite Hs'|]. split.
    + intros k. rewrite Ha', Ha1. split.
      * intros [[?|(? & ? & ? & ?)]|(m' & ? & ?)]; [by left| |].
        -- right. exists m. split; [left|done].
        -- right. exists m'. split; [by right|done].
      * intros [?|(m' & Hm' & ? & ? & ? & ?)]; [left; by left|].
        apply elem_of_cons in Hm' as [->|Hm']; [left; right; done|].
        right. by exists m'.
    + intros arc. rewrite Hr', Hr1. split.
      * intros [[?|(? & ? & u & a & ?)]|(m' & u & a & ? & ?)]; [by left| |].
        -- right. exists m, u, a. split; [left|done].
        -- right. exists m', u, a. split; [by right|done].
      * intros [?|(m' & u & a & Hm' & ? & ? & ?)]; [left; by left|].
        apply elem_of_cons in Hm' as [->|Hm']; [left; right|right].
        -- split; [done|]. split; [done|]. by exists u, a.
        -- by exists m', u, a.
Qed.

(** What an arc without the removed labels turns into. *)
Lemma remove_new_arc_elem m a (arc : Arc W) :
  a < numArcs other →
  arc ∈ remove_new_arc other il ol nodes m a
  ↔ label_match other il ol a = false ∧ downNode other a < numNodes other
    ∧ arc = mkArc m (rank other il ol (downNode other a))
              (ilabel other a) (olabel other a) fzero.
Proof.
  intros Ha. unfold remove_new_arc.
  destruct (label_match other il ol a) eqn:Em.
  { split; [by inversion 1|by intros [? _]]. }
  assert (Hkept : downNode other a < numNodes other →
                  kept other il ol (downNode other a) = true).
  { intros _. unfold kept. apply orb_true_iff. right. apply negb_true_iff.
    apply not_true_is_false. intros Hall. rewrite forallb_forall in Hall.
    specialize (Hall a). rewrite Em in Hall. discriminate Hall.
    apply list_elem_of_In. by apply elem_of_in. }
  destruct (nodes !! downNode other a) as [[d|]|] eqn:E.
  - apply remove_nodes_lookup in E as (Hd & _ & ->).
    rewrite list_elem_of_singleton. split; [by intros ->|by intros (_ & _ & ->)].
  - split; [by inversion 1|]. intros (_ & Hd & _).
    assert (nodes !! downNode other a
            = Some (Some (rank other il ol (downNode other a)))) as E'
      by (apply remove_nodes_lookup; auto).
    congruence.
  - split; [by inversion 1|]. intros (_ & Hd & _).
    assert (nodes !! downNode other a
            = Some (Some (rank other il ol (downNode other a)))) as E'
      by (apply remove_nodes_lookup; auto).
    congruence.
Qed.

Lemma remove_spec :
  ∃ g, remove other il ol = Some g
    ∧ numNodes g = rank other il ol (numNodes other)
    ∧ (∀ n, n < numNodes other → kept other il ol n = true →
         start g (rank other il ol n) = start other n
         ∧ (accept g (rank other il ol n) = true
            ↔ ∃ v, lreach other il ol n v ∧ accept other v = true))
    ∧ (∀ arc, arc ∈ arcs_ g
         ↔ ∃ n u a, n < numNodes other ∧ kept other il ol n = true
             ∧ lreach other il ol n u
             ∧ a < numArcs other ∧ upNode other a = u
             ∧ label_match other il ol a = false
             ∧ downNode other a < numNodes other
             ∧ arc = mkArc n (rank other il ol (downNode other a))
                       (ilabel other a) (olabel other a) fzero).
Proof.
  destruct (remove_outer_fold (seq 0 (numNodes other)) (remove_nodes other il ol).2
              (remove_nodes_numNodes other il ol))
    as (g & Hfold & Hn & Hs & Ha & Hr).
  exists g. split; [by rewrite remove_unfold|].
  split; [by rewrite Hn, remove_nodes_numNodes|]. split.
  - intros n Hlt Hk.
    destruct (remove_nodes_flags other il ol n Hlt Hk) as [Hs0 Ha0].
    split; [by rewrite Hs|]. rewrite Ha. split.
    + intros [Hacc|(m & _ & Hm & Hkm & Heq & Hv)].
      * by rewrite remove_nodes_no_accept in Hacc.
      * by rewrite <- (rank_inj other il ol m n Hkm Hk (eq_sym Heq)).
    + intros Hv. right. exists n. repeat split; try done. apply elem_of_seq. lia.
  - intros arc. rewrite Hr. destruct (remove_nodes_spec other il ol) as (_ & _ & -> & _).
    split.
    + intros [Hin|(m & u & a & _ & Hm & Hk & Hu & Ha' & Hin)]; [by inversion Hin|].
      apply elem_of_out in Ha' as [Ha' Hup].
      apply (remove_new_arc_elem m a arc Ha') in Hin as (Hmatch & Hd & ->).
      by exists m, u, a.
    + intros (m & u & a & Hm & Hk & Hu & Ha' & Hup & Hmatch & Hd & ->). right.
      exists m, u, a. split; [apply elem_of_seq; lia|]. split; [done|].
      split; [done|]. split; [done|]. split; [by apply elem_of_out|].
      by apply remove_new_arc_elem.
Qed.

End RemoveResult.

Lemma kept_of_unmatched {W : Type} `{FloatOps W} (other : Graph W) (il ol : Z) (a : nat) :
  a < numArcs other → label_match other il ol a = false →
  kept other il ol (downNode other a) = true.
Proof.
  intros Ha Em. unfold kept. apply orb_true_iff. right. apply negb_true_iff.
  apply not_true_is_false. intros Hall. rewrite forallb_forall in Hall.
  specialize (Hall a). rewrite Em in Hall. discriminate Hall.
  apply list_elem_of_In. by apply elem_of_in.
Qed.

(** ** forward does not look at the labels *)

Section ForwardExt.
Context {W : Type} `{FloatOps W}.
Variables g1 g2 : Graph W.
Hypothesis Hnodes : numNodes g1 = numNodes g2.
Hypothesis Harcs : numArcs g1 = numArcs g2.
Hypothesis Hstart : start_ g1 = start_ g2.
Hypothesis Haccept : accept_ g1 = accept_ g2.
Hypothesis Hup : ∀ a, upNode g1 a = upNode g2 a.
Hypothesis Hdown : ∀ a, downNode g1 a = downNode g2 a.
Hypothesis Hweight : ∀ a, weight g1 a = weight g2 a.

Lemma out_ext n : out g1 n = out g2 n.
Proof.
  unfold out. rewrite Harcs. apply list_filter_iff. intros a. by rewrite Hup.
Qed.

Lemma in_ext n : in_ g1 n = in_ g2 n.
Proof.
  unfold in_. rewrite Harcs. apply list_filter_iff. intros a. by rewrite Hdown.
Qed.

Lemma forward_arc_ext score st a : forward_arc g1 score st a = forward_arc g2 score st a.
Proof. unfold forward_arc. by rewrite Hdown, Hweight. Qed.

Lemma forward_step_ext n st : forward_step g1 n st = forward_step g2 n st.
Proof.
  unfold forward_step. rewrite out_ext.
  apply fold_left_ext_in. intros a acc _. apply forward_arc_ext.
Qed.

Lemma forward_loop_ext fuel : ∀ st, forward_loop fuel g1 st = forward_loop fuel g2 st.
Proof.
  induction fuel as [|fuel IH]; intros st; simpl; [done|].
  destruct (f_computed st); [done|]. by rewrite forward_step_ext, IH.
Qed.

Lemma forward_init_ext : forward_init g1 = forward_init g2.
Proof.
  unfold forward_init, numIn. rewrite Hstart, Hnodes.
  assert ((λ n, Z.of_nat (length (in_ g1 n))) <$> seq 0 (numNodes g2)
          = (λ n, Z.of_nat (length (in_ g2 n))) <$> seq 0 (numNodes g2)) as ->.
  { apply list_fmap_ext. intros i n _. by rewrite in_ext. }
  apply fold_left_ext_in. intros n acc _. by rewrite in_ext.
Qed.

Lemma forward_scores_ext : forward_scores g1 = forward_scores g2.
Proof.
  unfold forward_scores, forward_fuel.
  by rewrite forward_init_ext, forward_loop_ext, Hstart, Harcs, Haccept.
Qed.

End ForwardExt.

(** X22. [forward] does not look at the labels: on a graph whose start and
    accept lists are in index order, the scores of the nodes and the output
    of [forward] are the same for the graph, for its clone and for its two
    projections. *)
Theorem forward_ignores_labels {W : Type} `{FloatOps W} (g : Graph W) (p : Projection) :
  ordered g → forward_scores (clone_graph g p) = forward_scores g.
Proof.
  intros [Hs Ha]. apply forward_scores_ext.
  - by rewrite clone_graph_eq.
  - by destruct (clone_arc_fields g p 0) as (_ & _ & _ & _ & _ & ->).
  - rewrite clone_graph_eq. simpl. by rewrite <- Hs.
  - rewrite clone_graph_eq. simpl. by rewrite <- Ha.
  - intros a. by destruct (clone_arc_fields g p a) as (-> & _).
  - intros a. by destruct (clone_arc_fields g p a) as (_ & -> & _).
  - intros a. by destruct (clone_arc_fields g p a) as (_ & _ & -> & _).
Qed.

(** ** findReachable: when it finds every state that reaches an accept state *)

(** A loop whose steps keep [I] and move along the preorder [R] leaves,
    for every element [b], what its own step established, when later steps
    cannot undo it. *)
Lemma fold_left_establish {A B : Type} (R : A → A → Prop) (Q : B → A → Prop)
    (I : A → Prop) (f : A → B → A) (l : list B) (a : A) :
  (∀ a, R a a) → (∀ a b c, R a b → R b c → R a c) →
  I a →
  (∀ a b, b ∈ l → I a → I (f a b) ∧ R a (f a b) ∧ Q b (f a b)) →
  (∀ a a' b, Q b a → R a a' → Q b a') →
  I (fold_left f l a) ∧ R a (fold_left f l a) ∧ ∀ b, b ∈ l → Q b (fold_left f l a).
Proof.
  intros Hrefl Htrans HI Hstep Hstable. revert a HI.
  induction l as [|b l IH]; intros a HI; simpl.
  - split; [done|]. split; [done|]. intros b Hb. by inversion Hb.
  - destruct (Hstep a b) as (HI' & HR' & HQ'); [left|done|].
    destruct IH with (a := f a b) as (HI'' & HR'' & HQ''); [|done|].
    { intros a' b' Hb'. apply Hstep. by right. }
    split; [done|]. split; [by apply (Htrans _ (f a b))|].
    intros b' Hb'. apply elem_of_cons in Hb' as [->|Hb'].
    + by apply (Hstable (f a b)).
    + by apply HQ''.
Qed.

Lemma walk_cons_inv {W : Type} `{FloatOps W} (g : Graph W) u a p v :
  walk g u (a :: p) v →
  a < numArcs g ∧ upNode g a = u ∧ walk g (downNode g a) p v.
Proof.
  revert v. induction p as [|b p IH] using rev_ind; intros v Hw.
  - inversion Hw as [|q w c Hq Hc Hu Heq].
    destruct q as [|? q]; [|by destruct q].
    simpl in Heq. injection Heq as ->. apply walk_nil_inv in Hq.
    split; [done|]. split; [congruence|]. constructor.
  - inversion Hw as [|q w c Hq Hc Hu Heq].
    rewrite app_comm_cons in Heq. apply app_inj_tail in Heq as [-> ->].
    destruct (IH _ Hq) as (Ha & Hua & Hp).
    split; [done|]. split; [done|]. by apply (walk_snoc g _ p w b).
Qed.

Section ReachComplete.
Context {W : Type} `{FloatOps W}.
Variables first second : Graph W.
Hypothesis Hwf1 : wf first.
Hypothesis Hwf2 : wf second.

Local Abbreviation N := (numNodes first * numNodes second).

Lemma reach_grows_refl a : reach_grows first second a a.
Proof. split; [done|]. split; [done|]. intros x y _ _ Hm. by left. Qed.

Lemma reach_grows_trans a b c :
  reach_grows first second a b → reach_grows first second b c →
  reach_grows first second a c.
Proof.
  intros (M1 & Q1 & N1) (M2 & Q2 & N2). split; [|split].
  - intros i Hi. by apply M2, M1.
  - intros z Hz. by apply Q2, Q1.
  - intros x y Hx Hy Hm. destruct (N2 x y Hx Hy Hm) as [Hb|Hq]; [|by right].
    destruct (N1 x y Hx Hy Hb) as [Ha|Hq]; [by left|]. right. by apply Q2.
Qed.

Lemma reach_mark_grows st un1 un2 :
  length st.1 = N → un1 < numNodes first → un2 < numNodes second →
  length (reach_mark first un1 un2 st).1 = N
  ∧ reach_grows first second st (reach_mark first un1 un2 st)
  ∧ getb (reach_mark first un1 un2 st).1 (toIndex un1 un2 first) = true.
Proof.
  destruct st as [reachable queue]. simpl. intros Hlen H1 H2.
  pose proof (toIndex_lt first second un1 un2 H1 H2) as Hidx.
  unfold reach_mark. simpl. split; [by rewrite length_insert|]. split; [split; [|split]|].
  - intros i Hi. simpl. rewrite getb_insert. by case_decide.
  - intros z Hz. simpl. destruct (getb reachable _); [done|].
    apply elem_of_app. by left.
  - intros x y Hx Hy. simpl. rewrite getb_insert. case_decide as Hd; [|by left].
    destruct Hd as [Heq _]. intros _.
    destruct (toIndex_inj first un1 un2 x y H1 Hx Heq) as [<- <-].
    destruct (getb reachable (toIndex un1 un2 first)) eqn:E; [by left|].
    right. apply elem_of_app. right. by left.
  - simpl. rewrite getb_insert, decide_True; [done|]. split; [done|]. by rewrite Hlen.
Qed.

Hypothesis Hne : ∀ i j, i < numArcs first → j < numArcs second →
  ¬ (olabel first i = epsilon ∧ ilabel second j = epsilon).

(** One iteration of the loop marks every state one step before
    [curr]. *)
Lemma findReachable_step_closed curr st :
  curr.1 < numNodes first → curr.2 < numNodes second → length st.1 = N →
  reach_grows first second st (findReachable_step first second curr st)
  ∧ ∀ x' y', reach_pred first second curr.1 curr.2 x' y' →
      getb (findReachable_step first second curr st).1 (toIndex x' y' first) = true.
Proof.
  intros H1 H2 Hlen. unfold findReachable_step.
  set (R := reach_grows first second).
  set (I := λ st : list bool * list (nat * nat), length st.1 = N).
  assert (Hstable : ∀ idx (a a' : list bool * list (nat * nat)),
            getb a.1 idx = true → R a a' → getb a'.1 idx = true).
  { intros idx a a' Ha (M & _ & _). by apply M. }
  assert (Hpair :
    let acc := fold_left (λ acc i,
        fold_left (λ '(st, em) j,
            if decide (olabel first i ≠ ilabel second j) then (st, em)
            else (reach_mark first (upNode first i) (upNode second j) st,
                  em || (olabel first i =? epsilon)%Z))
          (in_ second curr.2) acc)
      (in_ first curr.1) (st, false) in
    (I acc.1 ∧ acc.2 = false) ∧ R st acc.1
    ∧ ∀ i, i ∈ in_ first curr.1 → ∀ j, j ∈ in_ second curr.2 →
        olabel first i = ilabel second j →
        getb acc.1.1 (toIndex (upNode first i) (upNode second j) first) = true).
  { apply (fold_left_establish
             (λ a a' : (list bool * list (nat * nat)) * bool, R a.1 a'.1)
             (λ i (acc : (list bool * list (nat * nat)) * bool),
                ∀ j, j ∈ in_ second curr.2 → olabel first i = ilabel second j →
                  getb acc.1.1 (toIndex (upNode first i) (upNode second j) first) = true)
             (λ acc : (list bool * list (nat * nat)) * bool, I acc.1 ∧ acc.2 = false)).
    - intros a. apply reach_grows_refl.
    - intros a b c. apply reach_grows_trans.
    - done.
    - intros acc i Hi HI.
      apply (fold_left_establish
               (λ a a' : (list bool * list (nat * nat)) * bool, R a.1 a'.1)
               (λ j (acc : (list bool * list (nat * nat)) * bool),
                  olabel first i = ilabel second j →
                  getb acc.1.1 (toIndex (upNode first i) (upNode second j) first) = true)
               (λ acc : (list bool * list (nat * nat)) * bool, I acc.1 ∧ acc.2 = false)).
      + intros a. apply reach_grows_refl.
      + intros a b c. apply reach_grows_trans.
      + done.
      + intros [st' em] j Hj [HI' Hem]. simpl in HI', Hem. subst em.
        apply elem_of_in in Hi as [Hi _]. apply elem_of_in in Hj as [Hj _].
        destruct (decide (olabel first i ≠ ilabel second j)) as [Hd|Hd]; simpl.
        * split; [done|]. split; [apply reach_grows_refl|]. done.
        * apply dec_stable in Hd.
          destruct (reach_mark_grows st' (upNode first i) (upNode second j) HI')
            as (HL & HG & HM).
          { by apply (wf_up first Hwf1). }
          { by apply (wf_up second Hwf2). }
          split; [split; [done|]|by split].
          apply Z.eqb_neq. intros He. apply (Hne i j Hi Hj). split; [done|].
          by rewrite <- Hd.
      + intros a a' j HQ HR Heq. apply (Hstable _ a.1 a'.1); [by apply HQ|done].
    - intros a a' i HQ HR j Hj Heq. apply (Hstable _ a.1 a'.1); [by apply HQ|done]. }
  destruct (fold_left _ (in_ first curr.1) (st, false)) as [st1 em] eqn:E.
  simpl in Hpair. destruct Hpair as ((HI1 & ->) & HR1 & HQ1). simpl.
  assert (Hleft :
    let st2 := fold_left (λ st i,
          if decide (olabel first i ≠ epsilon) then st
          else reach_mark first (upNode first i) curr.2 st)
        (in_ first curr.1) st1 in
    I st2 ∧ R st1 st2
    ∧ ∀ i, i ∈ in_ first curr.1 → olabel first i = epsilon →
        getb st2.1 (toIndex (upNode first i) curr.2 first) = true).
  { apply (fold_left_establish R
             (λ i (st : list bool * list (nat * nat)),
                olabel first i = epsilon →
                getb st.1 (toIndex (upNode first i) curr.2 first) = true) I).
    - apply reach_grows_refl.
    - apply reach_grows_trans.
    - done.
    - intros st' i Hi HI'. apply elem_of_in in Hi as [Hi _].
      destruct (decide (olabel first i ≠ epsilon)) as [Hd|Hd].
      + split; [done|]. split; [apply reach_grows_refl|]. done.
      + destruct (reach_mark_grows st' (upNode first i) curr.2 HI')
          as (HL & HG & HM); [by apply (wf_up first Hwf1)|done|].
        split; [done|]. by split.
    - intros a a' i HQ HR Heq. apply (Hstable _ a a'); [by apply HQ|done]. }
  set (st2 := fold_left _ (in_ first curr.1) st1) in *.
  simpl in Hleft. destruct Hleft as (HI2 & HR2 & HQ2).
  assert (Hright :
    let st3 := fold_left (λ st j,
          if decide (ilabel second j ≠ epsilon) then st
          else reach_mark first curr.1 (upNode second j) st)
        (in_ second curr.2) st2 in
    I st3 ∧ R st2 st3
    ∧ ∀ j, j ∈ in_ second curr.2 → ilabel second j = epsilon →
        getb st3.1 (toIndex curr.1 (upNode second j) first) = true).
  { apply (fold_left_establish R
             (λ j (st : list bool * list (nat * nat)),
                ilabel second j = epsilon →
                getb st.1 (toIndex curr.1 (upNode second j) first) = true) I).
    - apply reach_grows_refl.
    - apply reach_grows_trans.
    - done.
    - intros st' j Hj HI'. apply elem_of_in in Hj as [Hj _].
      destruct (decide (ilabel second j ≠ epsilon)) as [Hd|Hd].
      + split; [done|]. split; [apply reach_grows_refl|]. done.
      + destruct (reach_mark_grows st' curr.1 (upNode second j) HI')
          as (HL & HG & HM); [done|by apply (wf_up second Hwf2)|].
        split; [done|]. by split.
    - intros a a' j HQ HR Heq. apply (Hstable _ a a'); [by apply HQ|done]. }
  set (st3 := fold_left _ (in_ second curr.2) st2) in *.
  simpl in Hright. destruct Hright as (HI3 & HR3 & HQ3).
  split.
  - apply (reach_grows_trans _ st1); [done|]. by apply (reach_grows_trans _ st2).
  - intros x' y' [(i & j & Hi & Hj & Heq & -> & ->)
                 |[(i & Hi & Heq & -> & ->)|(j & Hj & Heq & -> & ->)]].
    + apply (Hstable _ st2 st3); [|done]. apply (Hstable _ st1 st2); [|done].
      by apply HQ1.
    + apply (Hstable _ st2 st3); [|done]. by apply HQ2.
    + by apply HQ3.
Qed.

End ReachComplete.

Section ReachLoop.
Context {W : Type} `{FloatOps W}.
Variables first second : Graph W.
Hypothesis Hwf1 : wf first.
Hypothesis Hwf2 : wf second.
Hypothesis Hne : ∀ i j, i < numArcs first → j < numArcs second →
  ¬ (olabel first i = epsilon ∧ ilabel second j = epsilon).

Lemma findReachable_loop_closed m0 fuel : ∀ st,
  RInv first second m0 st → reach_closed first second st →
  length st.2 + unmarked st.1 < fuel →
  ∃ r, findReachable_loop fuel first second st = Some r
       ∧ RInv first second m0 (r, [])
       ∧ reach_closed first second (r, []).
Proof.
  induction fuel as [|fuel IH]; intros [reachable queue] Hinv Hcl Hlt; [simpl in Hlt; lia|].
  destruct queue as [|curr rest].
  - exists reachable. done.
  - simpl. destruct (r_queue _ _ _ _ Hinv curr) as (H1 & H2 & Hco); [left|].
    assert (Hrest : RInv first second m0 (reachable, rest)).
    { destruct Hinv as [Hl Hq Hs Hm]. split; try done.
      intros x Hx. apply Hq. by right. }
    destruct (findReachable_step_inv first second Hwf1 Hwf2 m0
                (length rest + unmarked reachable) curr
                (reachable, rest) H1 H2 Hco) as [Hinv' HK]; [done|].
    destruct (findReachable_step_closed first second Hwf1 Hwf2 Hne curr
                (reachable, rest) H1 H2 (r_len _ _ _ _ Hrest))
      as ((Hmono & Hsub & Hnew) & Hpred).
    apply IH; [done| |simpl in Hlt; lia].
    intros x y x' y' Hx Hy Hm Hnq Hp.
    destruct (Hnew x y Hx Hy Hm) as [Hold|Hin]; [|done]. simpl in Hold.
    destruct (decide ((x, y) = curr)) as [<-|Hneq].
    + by apply Hpred.
    + apply Hmono. simpl. apply (Hcl x y x' y' Hx Hy Hold); [|done].
      simpl. intros Hin. apply elem_of_cons in Hin as [?|Hin]; [done|].
      apply Hnq, Hsub. done.
Qed.

Lemma findReachable_init_closed :
  reach_closed first second (findReachable_init first second).
Proof.
  assert (Hall : ∀ x y, x < numNodes first → y < numNodes second →
            getb (findReachable_init first second).1 (toIndex x y first) = true →
            (x, y) ∈ (findReachable_init first second).2).
  { unfold findReachable_init.
    apply (fold_left_inv (λ st : list bool * list (nat * nat),
      ∀ x y, x < numNodes first → y < numNodes second →
        getb st.1 (toIndex x y first) = true → (x, y) ∈ st.2)).
    { simpl. intros x y Hx Hy. unfold getb.
      rewrite lookup_replicate_2 by (by apply toIndex_lt). done. }
    intros st f Hf Hst. apply fold_left_inv; [done|].
    intros [reachable queue] s Hs Hq x y Hx Hy. unfold findReachable_seed. simpl in *.
    pose proof (wf_accept_lt first f Hwf1 Hf) as Hf'.
    rewrite getb_insert. case_decide as Hd.
    - destruct Hd as [Heq _]. intros _.
      destruct (toIndex_inj first f s x y Hf' Hx Heq) as [<- <-].
      apply elem_of_app. right. by left.
    - intros Hm. apply elem_of_app. left. by apply Hq. }
  intros x y x' y' Hx Hy Hm Hnq. destruct Hnq. by apply Hall.
Qed.

(** When every marked state has its predecessors marked and the pairs of
    accept nodes are marked, every state that reaches an accept state is
    marked. *)
Lemma reach_closed_complete (r : list bool) :
  (∀ f s, f ∈ accept_ first → s ∈ accept_ second →
     getb r (toIndex f s first) = true) →
  reach_closed first second (r, []) →
  ∀ p q x y f s,
    x < numNodes first → y < numNodes second →
    walk first x p f → walk second y q s →
    f ∈ accept_ first → s ∈ accept_ second →
    elide (olabels first p) = elide (ilabels second q) →
    getb r (toIndex x y first) = true.
Proof.
  intros Hacc Hcl.
  assert (Hstep : ∀ x y x' y', x < numNodes first → y < numNodes second →
            getb r (toIndex x y first) = true → reach_pred first second x y x' y' →
            getb r (toIndex x' y' first) = true).
  { intros x y x' y' Hx Hy Hm Hp. apply (Hcl x y x' y' Hx Hy Hm); [|done].
    simpl. by inversion 1. }
  induction p as [|a p IHp]; intros q.
  - induction q as [|b q IHq]; intros x y f s Hx Hy Hp Hq Hf Hs He.
    + apply walk_nil_inv in Hp as <-. apply walk_nil_inv in Hq as <-. by apply Hacc.
    + apply walk_cons_inv in Hq as (Hb & Hub & Hq).
      unfold olabels, ilabels in He. simpl in He.
      destruct (decide (ilabel second b = epsilon)) as [Heps|Hneps].
      * rewrite Heps, elide_cons_eps in He. subst y.
        apply (Hstep x (downNode second b)); [done|by apply (wf_down second Hwf2)| |].
        -- apply (IHq x (downNode second b) f s); try done.
           by apply (wf_down second Hwf2).
        -- right. right. exists b. split; [by apply elem_of_in|]. done.
      * unfold elide in He. rewrite filter_cons, decide_True in He by done.
        simpl in He. done.
  - intros x y f s Hx Hy Hp Hq Hf Hs He.
    apply walk_cons_inv in Hp as (Ha & Hua & Hp).
    unfold olabels, ilabels in He. simpl in He.
    destruct (decide (olabel first a = epsilon)) as [Heps|Hneps].
    + rewrite Heps, elide_cons_eps in He. subst x.
      apply (Hstep (downNode first a) y); [by apply (wf_down first Hwf1)|done| |].
      * apply (IHp q (downNode first a) y f s); try done.
        by apply (wf_down first Hwf1).
      * right. left. exists a. split; [by apply elem_of_in|]. done.
    + revert y Hy Hq He. induction q as [|b q IHq]; intros y Hy Hq He.
      * unfold elide in He. rewrite filter_cons, decide_True in He by done.
        simpl in He. done.
      * apply walk_cons_inv in Hq as (Hb & Hub & Hq). simpl in He.
        destruct (decide (ilabel second b = epsilon)) as [Heps|Hnepsb].
        -- rewrite Heps, elide_cons_eps in He. subst y.
           apply (Hstep x (downNode second b)); [done|by apply (wf_down second Hwf2)| |].
           ++ apply IHq; [by apply (wf_down second Hwf2)|done|done].
           ++ right. right. exists b. split; [by apply elem_of_in|]. done.
        -- unfold elide in He. rewrite !filter_cons in He.
           rewrite decide_True in He by done.
           rewrite (decide_True (P := ilabel second b ≠ epsilon)) in He by done.
           injection He as Hl He. subst x y.
           apply (Hstep (downNode first a) (downNode second b));
             [by apply (wf_down first Hwf1)|by apply (wf_down second Hwf2)| |].
           ++ apply (IHp q (downNode first a) (downNode second b) f s); try done.
              ** by apply (wf_down first Hwf1).
              ** by apply (wf_down second Hwf2).
           ++ left. exists a, b. split; [by apply elem_of_in|].
              split; [by apply elem_of_in|]. done.
Qed.

(** [findReachable] marks exactly the states that reach an accept state,
    when no arc of the first graph with an epsilon output meets an arc of
    the second graph with an epsilon input. *)
Lemma findReachable_exact :
  ∃ r, findReachable first second = Some r
       ∧ length r = numNodes first * numNodes second
       ∧ ∀ x y, x < numNodes first → y < numNodes second →
           (getb r (toIndex x y first) = true ↔ coreach first second x y).
Proof.
  destruct (findReachable_init_inv first second Hwf1 Hwf2) as (Hl & Hq & Hs).
  assert (Hinv : RInv first second (findReachable_init first second).1
                   (findReachable_init first second)) by (by split).
  destruct (findReachable_loop_closed (findReachable_init first second).1
              (length (accept_ first) * length (accept_ second)
               + numNodes first * numNodes second + 1)
              (findReachable_init first second) Hinv findReachable_init_closed)
    as (r & Hr & [Hl' _ Hs' Hm'] & Hcl).
  { rewrite (findReachable_init_length first second).
    pose proof (unmarked_le (findReachable_init first second).1).
    rewrite Hl in *. lia. }
  exists r. split; [exact Hr|]. split; [done|].
  intros x y Hx Hy. split; [by apply Hs'|].
  intros (p & q & f & s & Hp & Hq' & Hf & Hs'' & He).
  apply (reach_closed_complete r) with (p := p) (q := q) (f := f) (s := s); try done.
  intros f' s' Hf' Hs'''. apply Hm'.
  by apply (findReachable_init_marks first second Hwf1 Hwf2).
Qed.

End ReachLoop.

(** X24. When no arc of the first graph with an epsilon output label can
    meet an arc of the second graph with an epsilon input label (one of the
    two graphs has none), [findReachable] marks exactly the states that can
    reach an accept state: the pairs [(x, y)] with paths from [x] and from
    [y] to accept nodes whose output and input labels agree once the
    epsilons are left out. *)
Theorem findReachable_complete {W : Type} `{FloatOps W} (first second : Graph W) :
  wf first → wf second →
  (∀ i j, i < numArcs first → j < numArcs second →
     ¬ (olabel first i = epsilon ∧ ilabel second j = epsilon)) →
  ∃ r, findReachable first second = Some r
       ∧ length r = numNodes first * numNodes second
       ∧ ∀ x y, x < numNodes first → y < numNodes second →
           (getb r (toIndex x y first) = true ↔ coreach first second x y).
Proof. intros Hwf1 Hwf2 Hne. by apply findReachable_exact. Qed.

(** ** compose: every pair of matching paths is a path of the result *)

Section ComposeGrows.
Context {W : Type} `{FloatOps W}.
Variables first second : Graph W.
Hypothesis Hwf1 : wf first.
Hypothesis Hwf2 : wf second.
Variable reachable : list bool.

Lemma compose_grows_refl a : compose_grows first second a a.
Proof. repeat split; try done. intros x y d _ _ Hd. by left. Qed.

Lemma compose_grows_trans a b c :
  compose_grows first second a b → compose_grows first second b c →
  compose_grows first second a c.
Proof.
  intros (M1 & A1 & G1 & Q1 & N1) (M2 & A2 & G2 & Q2 & N2).
  split; [|split; [|split; [|split]]].
  - intros idx d Hd. by apply M2, M1.
  - by transitivity (arcs_ (c_ngraph b)).
  - by transitivity (c_gradInfo b).
  - intros z Hz. by apply Q2, Q1.
  - intros x y d Hx Hy Hd. destruct (N2 x y d Hx Hy Hd) as [Hb|Hq]; [|by right].
    destruct (N1 x y d Hx Hy Hb) as [Ha|Hq]; [by left|]. right. by apply Q2.
Qed.

Lemma compose_linked_grows a a' k x' y' info :
  compose_linked first a k x' y' info → compose_grows first second a a' →
  compose_linked first a' k x' y' info.
Proof.
  intros (d & e & arc & Hd & He & Hu & Hdn & Hi) (M & A & G & _ & _).
  exists d, e, arc. split; [by apply M|]. split; [by eapply prefix_lookup_Some|].
  split; [done|]. split; [done|]. by eapply prefix_lookup_Some.
Qed.

(** What the three inner loops share only adds to the state, and it links
    the current node to the destination when that is marked reachable. *)
Lemma compose_arc_grows states st cn dn1 dn2 il ol w info :
  CInv first second reachable states st →
  dn1 < numNodes first → dn2 < numNodes second →
  let st' := compose_arc first second reachable (Some cn) dn1 dn2 il ol w info st in
  compose_grows first second st st'
  ∧ (getb reachable (toIndex dn1 dn2 first) = true →
     compose_linked first st' cn dn1 dn2 info).
Proof.
  intros Hc H1 H2. unfold compose_arc.
  destruct (getb reachable (toIndex dn1 dn2 first)) eqn:Hr; simpl.
  2: { split; [apply compose_grows_refl|done]. }
  pose proof (toIndex_lt first second dn1 dn2 H1 H2) as Hidx.
  pose proof (c_len _ _ _ _ _ Hc) as Hlen.
  pose proof (c_info _ _ _ _ _ Hc) as Hinfo.
  destruct (lookup_lt_is_Some_2 (c_newNodes st) (toIndex dn1 dn2 first)) as [o Ho].
  { by rewrite Hlen. }
  rewrite Ho. simpl. destruct o as [d|]; simpl.
  - rewrite Ho. simpl. split.
    + split; [done|]. split; [by apply prefix_app_r|]. split; [by apply prefix_app_r|].
      split; [done|]. intros x y d' _ _ Hd'. by left.
    + intros _. exists d, (numArcs (c_ngraph st)), (mkArc cn d il ol w). simpl.
      split; [done|]. split; [unfold numArcs; by rewrite lookup_app_r, Nat.sub_diag|].
      split; [done|]. split; [done|].
      rewrite <- Hinfo. by rewrite lookup_app_r, Nat.sub_diag.
  - rewrite list_lookup_insert_eq by (by rewrite Hlen). simpl. split.
    + split; [|split; [|split; [|split]]]; simpl.
      * intros idx d Hd. rewrite list_lookup_insert_ne; [done|]. congruence.
      * by apply prefix_app_r.
      * by apply prefix_app_r.
      * intros z Hz. apply elem_of_app. by left.
      * intros x y d Hx Hy.
        destruct (decide (toIndex dn1 dn2 first = toIndex x y first)) as [Heq|Hneq].
        -- destruct (toIndex_inj first dn1 dn2 x y H1 Hx Heq) as [<- <-].
           intros _. right. apply elem_of_app. right. by left.
        -- rewrite list_lookup_insert_ne by done. intros Hd. by left.
    + intros _. exists (numNodes (c_ngraph st)), (numArcs (c_ngraph st)),
        (mkArc cn (numNodes (c_ngraph st)) il ol w). simpl.
      split; [by rewrite list_lookup_insert_eq by (by rewrite Hlen)|].
      split; [unfold numArcs; by rewrite lookup_app_r, Nat.sub_diag|].
      split; [done|]. split; [done|].
      rewrite <- Hinfo. by rewrite lookup_app_r, Nat.sub_diag.
Qed.

End ComposeGrows.

Section ComposeClosedLoop.
Context {W : Type} `{FloatOps W}.
Variables first second : Graph W.
Hypothesis Hwf1 : wf first.
Hypothesis Hwf2 : wf second.
Variable reachable : list bool.

(** One iteration of the loop links [curr] to every marked state one step
    after it. *)
Lemma compose_step_closed states st curr cn :
  CInv first second reachable states st →
  states !! cn = Some curr →
  let st' := compose_step first second reachable curr st in
  (∃ states', states `prefix_of` states'
     ∧ CInv first second reachable states' st'
     ∧ compose_measure st' = compose_measure st)
  ∧ compose_grows first second st st'
  ∧ ∀ x' y' info, compose_succ first second curr.1 curr.2 x' y' info →
      getb reachable (toIndex x' y' first) = true →
      compose_linked first st' cn x' y' info.
Proof.
  intros Hc Hcn. destruct curr as [c1 c2].
  destruct (c_range _ _ _ _ _ Hc cn _ Hcn) as (Hc1 & Hc2 & _). simpl in Hc1, Hc2.
  unfold compose_step. simpl.
  assert (c_newNodes st !! toIndex c1 c2 first = Some (Some cn)) as ->
    by (by apply (c_map _ _ _ _ _ Hc c1 c2 cn Hc1 Hc2)).
  simpl.
  set (K := compose_measure st).
  set (Good := λ st' : compose_state W,
         ∃ states', states `prefix_of` states'
           ∧ CInv first second reachable states' st' ∧ compose_measure st' = K).
  set (R := compose_grows first second).
  assert (Hgood : Good st) by (exists states; done).
  assert (Hup : ∀ states', states `prefix_of` states' → states' !! cn = Some (c1, c2)).
  { intros states' [ext ->]. by apply lookup_app_l_Some. }
  assert (Hst : ∀ a a' x' y' info,
            (getb reachable (toIndex x' y' first) = true →
             compose_linked first a cn x' y' info) → R a a' →
            getb reachable (toIndex x' y' first) = true →
            compose_linked first a' cn x' y' info).
  { intros a a' x' y' info HQ HR Hr.
    apply (compose_linked_grows first second a); [by apply HQ|done]. }
  assert (Hpair :
    let st1 := fold_left (λ st i,
          fold_left (λ st j,
              if decide (olabel first i ≠ ilabel second j) then st
              else compose_arc first second reachable (Some cn)
                     (downNode first i) (downNode second j)
                     (ilabel first i) (olabel second j)
                     (fadd (weight first i) (weight second j))
                     (Z.of_nat i, Z.of_nat j) st)
            (out second c2) st)
        (out first c1) st in
    Good st1 ∧ R st st1
    ∧ ∀ i, i ∈ out first c1 → ∀ j, j ∈ out second c2 →
        olabel first i = ilabel second j →
        getb reachable (toIndex (downNode first i) (downNode second j) first) = true →
        compose_linked first st1 cn (downNode first i) (downNode second j)
          (Z.of_nat i, Z.of_nat j)).
  { apply (fold_left_establish R
             (λ i (a : compose_state W), ∀ j, j ∈ out second c2 →
                olabel first i = ilabel second j →
                getb reachable (toIndex (downNode first i) (downNode second j) first)
                = true →
                compose_linked first a cn (downNode first i) (downNode second j)
                  (Z.of_nat i, Z.of_nat j)) Good).
    - apply compose_grows_refl.
    - apply compose_grows_trans.
    - done.
    - intros st1 i Hi Hst1.
      apply (fold_left_establish R
               (λ j (a : compose_state W),
                  olabel first i = ilabel second j →
                  getb reachable (toIndex (downNode first i) (downNode second j) first)
                  = true →
                  compose_linked first a cn (downNode first i) (downNode second j)
                    (Z.of_nat i, Z.of_nat j)) Good).
      + apply compose_grows_refl.
      + apply compose_grows_trans.
      + done.
      + intros st2 j Hj (states2 & Hpre & Hc' & HK).
        destruct (decide (olabel first i ≠ ilabel second j)) as [Hne|Heq].
        { split; [by exists states2|]. split; [apply compose_grows_refl|done]. }
        apply dec_stable in Heq.
        apply elem_of_out in Hi as [Hi Hui]. apply elem_of_out in Hj as [Hj Huj].
        pose proof (wf_down first Hwf1 i Hi) as Hd1.
        pose proof (wf_down second Hwf2 j Hj) as Hd2.
        destruct (compose_arc_inv first second reachable
                    states2 st2 cn (downNode first i) (downNode second j)
                    (ilabel first i) (olabel second j)
                    (fadd (weight first i) (weight second j))
                    (Z.of_nat i, Z.of_nat j) Hc' Hd1 Hd2)
          as (states3 & Hpre3 & Hc3 & Hm3).
        { intros states' d Hpre' Hd. left. exists i, j. simpl.
          rewrite Hui, Huj. repeat split; try done.
          apply Hup. by transitivity states2. }
        destruct (compose_arc_grows first second reachable states2 st2 cn
                    (downNode first i) (downNode second j)
                    (ilabel first i) (olabel second j)
                    (fadd (weight first i) (weight second j))
                    (Z.of_nat i, Z.of_nat j) Hc' Hd1 Hd2) as [HG HL].
        split; [|split; [exact HG|intros _; exact HL]].
        exists states3. split; [by transitivity states2|]. split; [done|]. lia.
      + intros a a' j HQ HR Heq. apply (Hst a a'); [by apply HQ|done].
    - intros a a' i HQ HR j Hj Heq. apply (Hst a a'); [|done]. by apply HQ. }
  set (st1 := fold_left _ (out first c1) st) in *.
  simpl in Hpair. destruct Hpair as (HI1 & HR1 & HQ1).
  assert (Hleft :
    let st2 := fold_left (λ st i,
          if decide (olabel first i ≠ epsilon) then st
          else compose_arc first second reachable (Some cn) (downNode first i) c2
                 (ilabel first i) epsilon (weight first i) (Z.of_nat i, (-1)%Z) st)
        (out first c1) st1 in
    Good st2 ∧ R st1 st2
    ∧ ∀ i, i ∈ out first c1 → olabel first i = epsilon →
        getb reachable (toIndex (downNode first i) c2 first) = true →
        compose_linked first st2 cn (downNode first i) c2 (Z.of_nat i, (-1)%Z)).
  { apply (fold_left_establish R
             (λ i (a : compose_state W), olabel first i = epsilon →
                getb reachable (toIndex (downNode first i) c2 first) = true →
                compose_linked first a cn (downNode first i) c2 (Z.of_nat i, (-1)%Z))
             Good).
    - apply compose_grows_refl.
    - apply compose_grows_trans.
    - done.
    - intros st2 i Hi (states2 & Hpre & Hc' & HK).
      destruct (decide (olabel first i ≠ epsilon)) as [Hne|Heq].
      { split; [by exists states2|]. split; [apply compose_grows_refl|done]. }
      apply dec_stable in Heq. apply elem_of_out in Hi as [Hi Hui].
      pose proof (wf_down first Hwf1 i Hi) as Hd1.
      destruct (compose_arc_inv first second reachable
                  states2 st2 cn (downNode first i) c2
                  (ilabel first i) epsilon (weight first i) (Z.of_nat i, (-1)%Z)
                  Hc' Hd1 Hc2)
        as (states3 & Hpre3 & Hc3 & Hm3).
      { intros states' d Hpre' Hd. right. left. exists i, c2. simpl.
        rewrite Hui. repeat split; try done.
        apply Hup. by transitivity states2. }
      destruct (compose_arc_grows first second reachable states2 st2 cn
                  (downNode first i) c2
                  (ilabel first i) epsilon (weight first i) (Z.of_nat i, (-1)%Z)
                  Hc' Hd1 Hc2) as [HG HL].
      split; [|split; [exact HG|intros _; exact HL]].
      exists states3. split; [by transitivity states2|]. split; [done|]. lia.
    - intros a a' i HQ HR Heq. apply (Hst a a'); [by apply HQ|done]. }
  set (st2 := fold_left _ (out first c1) st1) in *.
  simpl in Hleft. destruct Hleft as (HI2 & HR2 & HQ2).
  assert (Hright :
    let st3 := fold_left (λ st j,
          if decide (ilabel second j ≠ epsilon) then st
          else compose_arc first second reachable (Some cn) c1 (downNode second j)
                 epsilon (olabel second j) (weight second j) ((-1)%Z, Z.of_nat j) st)
        (out second c2) st2 in
    Good st3 ∧ R st2 st3
    ∧ ∀ j, j ∈ out second c2 → ilabel second j = epsilon →
        getb reachable (toIndex c1 (downNode second j) first) = true →
        compose_linked first st3 cn c1 (downNode second j) ((-1)%Z, Z.of_nat j)).
  { apply (fold_left_establish R
             (λ j (a : compose_state W), ilabel second j = epsilon →
                getb reachable (toIndex c1 (downNode second j) first) = true →
                compose_linked first a cn c1 (downNode second j) ((-1)%Z, Z.of_nat j))
             Good).
    - apply compose_grows_refl.
    - apply compose_grows_trans.
    - done.
    - intros st3 j Hj (states2 & Hpre & Hc' & HK).
      destruct (decide (ilabel second j ≠ epsilon)) as [Hne|Heq].
      { split; [by exists states2|]. split; [apply compose_grows_refl|done]. }
      apply dec_stable in Heq. apply elem_of_out in Hj as [Hj Huj].
      pose proof (wf_down second Hwf2 j Hj) as Hd2.
      destruct (compose_arc_inv first second reachable
                  states2 st3 cn c1 (downNode second j)
                  epsilon (olabel second j) (weight second j) ((-1)%Z, Z.of_nat j)
                  Hc' Hc1 Hd2)
        as (states3 & Hpre3 & Hc3 & Hm3).
      { intros states' d Hpre' Hd. right. right. exists c1, j. simpl.
        rewrite Huj. repeat split; try done.
        apply Hup. by transitivity states2. }
      destruct (compose_arc_grows first second reachable states2 st3 cn
                  c1 (downNode second j)
                  epsilon (olabel second j) (weight second j) ((-1)%Z, Z.of_nat j)
                  Hc' Hc1 Hd2) as [HG HL].
      split; [|split; [exact HG|intros _; exact HL]].
      exists states3. split; [by transitivity states2|]. split; [done|]. lia.
    - intros a a' j HQ HR Heq. apply (Hst a a'); [by apply HQ|done]. }
  set (st3 := fold_left _ (out second c2) st2) in *.
  simpl in Hright. destruct Hright as (HI3 & HR3 & HQ3).
  split; [exact HI3|]. split.
  - apply (compose_grows_trans first second _ st1); [done|].
    by apply (compose_grows_trans first second _ st2).
  - intros x' y' info [(i & j & Hi & Hj & Heq & -> & -> & ->)
                      |[(i & Hi & Heq & -> & -> & ->)|(j & Hj & Heq & -> & -> & ->)]] Hr.
    + apply (compose_linked_grows first second st2); [|done].
      apply (compose_linked_grows first second st1); [|done]. by apply HQ1.
    + apply (compose_linked_grows first second st2); [|done]. by apply HQ2.
    + by apply HQ3.
Qed.

Lemma compose_loop_closed fuel : ∀ st states,
  CInv first second reachable states st →
  compose_closed first second reachable st →
  compose_measure st < fuel →
  ∃ st' states', compose_loop fuel first second reachable st = Some st'
    ∧ CInv first second reachable states' st' ∧ c_toExplore st' = []
    ∧ compose_closed first second reachable st'
    ∧ (∀ idx d, c_newNodes st !! idx = Some (Some d) →
         c_newNodes st' !! idx = Some (Some d)).
Proof.
  induction fuel as [|fuel IH]; intros st states Hc Hcl Hlt; [lia|].
  destruct st as [ngraph newNodes queue gradInfo].
  destruct queue as [|curr rest].
  - exists (mkCompose ngraph newNodes [] gradInfo), states. done.
  - simpl.
    destruct (c_queue _ _ _ _ _ Hc curr) as [cn Hcn]; [left|].
    assert (Hc0 : CInv first second reachable states
                    (mkCompose ngraph newNodes rest gradInfo)).
    { destruct Hc as [Hlen Hnodes Hord Hmap Hrange Hqueue Hinfo Harcs].
      split; try done. intros x Hx. apply Hqueue. by right. }
    destruct (compose_step_closed states _ curr cn Hc0 Hcn)
      as ((states' & _ & Hc' & Hm') & HG & HL).
    set (st1 := compose_step first second reachable curr
                  (mkCompose ngraph newNodes rest gradInfo)) in *.
    destruct (IH st1 states' Hc') as (st' & states'' & Hloop & Hc'' & Hq & Hcl' & Hmono).
    + intros x y k x' y' info Hx Hy Hk Hnq Hs Hr.
      destruct HG as (M & A & G & Q & N).
      destruct (N x y k Hx Hy Hk) as [Hold|Hin]; [|done]. simpl in Hold.
      destruct (decide ((x, y) = curr)) as [<-|Hneq].
      * assert (k = cn) as ->.
        { apply (c_map _ _ _ _ _ Hc0 x y cn Hx Hy) in Hcn. simpl in Hcn. congruence. }
        by apply HL.
      * apply (compose_linked_grows first second
                 (mkCompose ngraph newNodes rest gradInfo));
          [|by repeat split].
        destruct (Hcl x y k x' y' info Hx Hy Hold) as (d & e & arc & Hd); try done.
        -- simpl. intros Hin. apply elem_of_cons in Hin as [?|Hin]; [done|].
           apply Hnq, Q. done.
        -- by exists d, e, arc.
    + rewrite Hm'. unfold compose_measure in *. simpl in *. lia.
    + exists st', states''. split; [done|]. split; [done|]. split; [done|].
      split; [done|]. intros idx d Hd. apply Hmono.
      destruct HG as (M & _). by apply M.
Qed.

End ComposeClosedLoop.

Section ComposeCompleteSpec.
Context {W : Type} `{FloatOps W}.
Variables first second : Graph W.
Hypothesis Hwf1 : wf first.
Hypothesis Hwf2 : wf second.
Variable reachable : list bool.

(** The loops over the start nodes give a node to every marked pair of
    start nodes, and every state with a node is in the queue. *)
Lemma compose_seed_closed ps st :
  (∀ x, x ∈ ps → x.1 < numNodes first) →
  length (c_newNodes st) = numNodes first * numNodes second →
  (∀ x y d, x < numNodes first → y < numNodes second →
     c_newNodes st !! toIndex x y first = Some (Some d) → (x, y) ∈ c_toExplore st) →
  let st' := fold_left (compose_seed first second reachable) ps st in
  (∀ x y d, x < numNodes first → y < numNodes second →
     c_newNodes st' !! toIndex x y first = Some (Some d) → (x, y) ∈ c_toExplore st')
  ∧ ∀ x, x ∈ ps → x.2 < numNodes second →
      getb reachable (toIndex x.1 x.2 first) = true →
      ∃ d, c_newNodes st' !! toIndex x.1 x.2 first = Some (Some d).
Proof.
  intros Hps Hlen Hq.
  set (I := λ a : compose_state W,
         length (c_newNodes a) = numNodes first * numNodes second
         ∧ ∀ x y d, x < numNodes first → y < numNodes second →
             c_newNodes a !! toIndex x y first = Some (Some d) → (x, y) ∈ c_toExplore a).
  set (R := λ a a' : compose_state W,
         ∀ idx, (∃ d, c_newNodes a !! idx = Some (Some d)) →
                ∃ d, c_newNodes a' !! idx = Some (Some d)).
  set (Q := λ (x : nat * nat) (a : compose_state W),
         x.2 < numNodes second → getb reachable (toIndex x.1 x.2 first) = true →
         ∃ d, c_newNodes a !! toIndex x.1 x.2 first = Some (Some d)).
  destruct (fold_left_establish R Q I (compose_seed first second reachable) ps st)
    as ((_ & Hq') & _ & HQ).
  - by intros a idx.
  - intros a b c Hab Hbc idx Hd. by apply Hbc, Hab.
  - by split.
  - intros a [x y] Hx [HL HB]. specialize (Hps _ Hx). simpl in Hps.
    unfold compose_seed. simpl.
    destruct (getb reachable (toIndex x y first)) eqn:Hr.
    + split; [split|split]; simpl.
      * by rewrite length_insert.
      * intros x' y' d Hx' Hy'.
        destruct (decide (toIndex x y first = toIndex x' y' first)) as [Heq|Hneq].
        -- destruct (toIndex_inj first x y x' y' Hps Hx' Heq) as [<- <-].
           intros _. apply elem_of_app. right. by left.
        -- rewrite list_lookup_insert_ne by done. intros Hd.
           apply elem_of_app. left. by apply (HB x' y' d).
      * intros idx [d Hd]. simpl.
        destruct (decide (toIndex x y first = idx)) as [<-|Hneq].
        -- apply lookup_lt_Some in Hd. rewrite list_lookup_insert_eq by done.
           by eexists.
        -- rewrite list_lookup_insert_ne by done. by exists d.
      * intros Hy _. simpl in *.
        rewrite list_lookup_insert_eq; [by eexists|].
        rewrite HL. by apply toIndex_lt.
    + split; [done|]. split; [by intros idx|].
      intros _ Hr'. simpl in Hr'. congruence.
  - intros a a' x HQ' HR Hy Hr. apply HR. by apply HQ'.
  - split; [exact Hq'|exact HQ].
Qed.

(** Along a pair of matching paths to accept nodes, when every state that
    reaches an accept state is marked. *)
Lemma compose_lift states st :
  CInv first second reachable states st → c_toExplore st = [] →
  compose_closed first second reachable st →
  (∀ x y, x < numNodes first → y < numNodes second →
     coreach first second x y → getb reachable (toIndex x y first) = true) →
  ∀ p q x y k f s,
    states !! k = Some (x, y) →
    walk first x p f → walk second y q s →
    f ∈ accept_ first → s ∈ accept_ second →
    elide (olabels first p) = elide (ilabels second q) →
    ∃ P v, walk (c_ngraph st) k P v ∧ states !! v = Some (f, s)
           ∧ compose_proj1 (c_gradInfo st) P = p
           ∧ compose_proj2 (c_gradInfo st) P = q.
Proof.
  intros Hc Hempty Hcl Hall.
  (* one step along a marked successor *)
  assert (Hstep : ∀ x y k x' y' info,
            states !! k = Some (x, y) →
            compose_succ first second x y x' y' info →
            x' < numNodes first → y' < numNodes second →
            coreach first second x' y' →
            ∃ d a, states !! d = Some (x', y')
                   ∧ a < numArcs (c_ngraph st)
                   ∧ upNode (c_ngraph st) a = k ∧ downNode (c_ngraph st) a = d
                   ∧ c_gradInfo st !! a = Some info).
  { intros x y k x' y' info Hk Hs Hx' Hy' Hco.
    destruct (c_range _ _ _ _ _ Hc k _ Hk) as (Hx & Hy & _). simpl in Hx, Hy.
    destruct (Hcl x y k x' y' info Hx Hy) as (d & a & arc & Hd & Ha & Hu & Hdn & Hi).
    - by apply (c_map _ _ _ _ _ Hc x y k Hx Hy).
    - rewrite Hempty. by inversion 1.
    - done.
    - by apply Hall.
    - exists d, a. split; [by apply (c_map _ _ _ _ _ Hc x' y' d Hx' Hy')|].
      split; [by apply lookup_lt_Some in Ha|].
      unfold upNode, downNode. rewrite Ha. simpl. done. }
  assert (Hcons : ∀ k d a P v,
            a < numArcs (c_ngraph st) →
            upNode (c_ngraph st) a = k → downNode (c_ngraph st) a = d →
            walk (c_ngraph st) d P v → walk (c_ngraph st) k (a :: P) v).
  { intros k d a P v Ha <- <- Hw. by apply walk_cons. }
  assert (Hco : ∀ p q x y f s,
            walk first x p f → walk second y q s →
            f ∈ accept_ first → s ∈ accept_ second →
            elide (olabels first p) = elide (ilabels second q) →
            coreach first second x y).
  { intros p q x y f s Hp Hq Hf Hs He. by exists p, q, f, s. }
  induction p as [|a p IHp]; intros q.
  - induction q as [|b q IHq]; intros x y k f s Hk Hp Hq Hf Hs He.
    + apply walk_nil_inv in Hp as <-. apply walk_nil_inv in Hq as <-.
      exists [], k. split; [constructor|]. done.
    + pose proof Hp as Hp'. apply walk_nil_inv in Hp' as <-.
      apply walk_cons_inv in Hq as (Hb & Hub & Hq).
      unfold olabels, ilabels in He. simpl in He.
      destruct (decide (ilabel second b = epsilon)) as [Heps|Hneps].
      2: { unfold elide in He. rewrite filter_cons, decide_True in He by done.
           simpl in He. done. }
      rewrite Heps, elide_cons_eps in He. subst y.
      destruct (c_range _ _ _ _ _ Hc k _ Hk) as (Hx & _ & _). simpl in Hx.
      destruct (Hstep x (upNode second b) k x (downNode second b)
                  ((-1)%Z, Z.of_nat b) Hk) as (d & e & Hd & He' & Hue & Hde & Hie).
      * right. right. exists b. split; [by apply elem_of_out|]. done.
      * done.
      * by apply (wf_down second Hwf2).
      * by apply (Hco [] q x (downNode second b) x s).
      * destruct (IHq x (downNode second b) d x s Hd Hp Hq Hf Hs He)
          as (P & v & Hw & Hv & E1 & E2).
        exists (e :: P), v. split; [by apply (Hcons k d)|]. split; [done|].
        unfold compose_proj1, compose_proj2 in *. rewrite !bind_cons, Hie, E1, E2.
        simpl. assert ((0 <=? Z.of_nat b)%Z = true) as -> by (apply Z.leb_le; lia).
        by rewrite Nat2Z.id.
  - intros x y k f s Hk Hp Hq Hf Hs He.
    apply walk_cons_inv in Hp as (Ha & Hua & Hp).
    unfold olabels, ilabels in He. simpl in He.
    destruct (c_range _ _ _ _ _ Hc k _ Hk) as (Hx & Hy & _). simpl in Hx, Hy.
    destruct (decide (olabel first a = epsilon)) as [Heps|Hneps].
    + rewrite Heps, elide_cons_eps in He. subst x.
      destruct (Hstep (upNode first a) y k (downNode first a) y
                  (Z.of_nat a, (-1)%Z) Hk) as (d & e & Hd & He' & Hue & Hde & Hie).
      * right. left. exists a. split; [by apply elem_of_out|]. done.
      * by apply (wf_down first Hwf1).
      * done.
      * by apply (Hco p q (downNode first a) y f s).
      * destruct (IHp q (downNode first a) y d f s Hd Hp Hq Hf Hs He)
          as (P & v & Hw & Hv & E1 & E2).
        exists (e :: P), v. split; [by apply (Hcons k d)|]. split; [done|].
        unfold compose_proj1, compose_proj2 in *. rewrite !bind_cons, Hie, E1, E2.
        simpl. assert ((0 <=? Z.of_nat a)%Z = true) as -> by (apply Z.leb_le; lia).
        by rewrite Nat2Z.id.
    + revert y k Hk Hy Hq He. induction q as [|b q IHq]; intros y k Hk Hy Hq He.
      * unfold elide in He. rewrite filter_cons, decide_True in He by done.
        simpl in He. done.
      * apply walk_cons_inv in Hq as (Hb & Hub & Hq). simpl in He.
        destruct (decide (ilabel second b = epsilon)) as [Heps|Hnepsb].
        -- rewrite Heps, elide_cons_eps in He. subst y.
           destruct (Hstep x (upNode second b) k x (downNode second b)
                       ((-1)%Z, Z.of_nat b) Hk) as (d & e & Hd & He' & Hue & Hde & Hie).
           ++ right. right. exists b. split; [by apply elem_of_out|]. done.
           ++ done.
           ++ by apply (wf_down second Hwf2).
           ++ apply (Hco (a :: p) q x (downNode second b) f s); try done.
              rewrite <- Hua. by apply walk_cons.
           ++ destruct (IHq (downNode second b) d Hd) as (P & v & Hw & Hv & E1 & E2);
                [by apply (wf_down second Hwf2)|done|done|].
              exists (e :: P), v. split; [by apply (Hcons k d)|]. split; [done|].
              unfold compose_proj1, compose_proj2 in *. rewrite !bind_cons, Hie, E1, E2.
              simpl. assert ((0 <=? Z.of_nat b)%Z = true) as -> by (apply Z.leb_le; lia).
              by rewrite Nat2Z.id.
        -- unfold elide in He. rewrite !filter_cons in He.
           rewrite decide_True in He by done.
           rewrite (decide_True (P := ilabel second b ≠ epsilon)) in He by done.
           injection He as Hl He. subst x y.
           destruct (Hstep (upNode first a) (upNode second b) k
                       (downNode first a) (downNode second b)
                       (Z.of_nat a, Z.of_nat b) Hk)
             as (d & e & Hd & He' & Hue & Hde & Hie).
           ++ left. exists a, b. split; [by apply elem_of_out|].
              split; [by apply elem_of_out|]. done.
           ++ by apply (wf_down first Hwf1).
           ++ by apply (wf_down second Hwf2).
           ++ by apply (Hco p q (downNode first a) (downNode second b) f s).
           ++ destruct (IHp q (downNode first a) (downNode second b) d f s
                          Hd Hp Hq Hf Hs He) as (P & v & Hw & Hv & E1 & E2).
              exists (e :: P), v. split; [by apply (Hcons k d)|]. split; [done|].
              unfold compose_proj1, compose_proj2 in *. rewrite !bind_cons, Hie, E1, E2.
              simpl.
              assert ((0 <=? Z.of_nat a)%Z = true) as -> by (apply Z.leb_le; lia).
              assert ((0 <=? Z.of_nat b)%Z = true) as -> by (apply Z.leb_le; lia).
              by rewrite !Nat2Z.id.
Qed.

(** The composed graph, when [reachable] holds every state that reaches
    an accept state. *)
Lemma compose_complete_spec :
  findReachable first second = Some reachable →
  (∀ x y, x < numNodes first → y < numNodes second →
     coreach first second x y → getb reachable (toIndex x y first) = true) →
  ∃ st states,
    compose first second = Some (c_ngraph st, c_gradInfo st)
    ∧ CInv first second reachable states st
    ∧ ∀ s1 s2 p q f1 f2,
        s1 ∈ start_ first → s2 ∈ start_ second →
        walk first s1 p f1 → walk second s2 q f2 →
        f1 ∈ accept_ first → f2 ∈ accept_ second →
        elide (olabels first p) = elide (ilabels second q) →
        ∃ u P v, states !! u = Some (s1, s2) ∧ states !! v = Some (f1, f2)
                 ∧ walk (c_ngraph st) u P v
                 ∧ compose_proj1 (c_gradInfo st) P = p
                 ∧ compose_proj2 (c_gradInfo st) P = q.
Proof.
  intros Hr Hall. unfold compose. rewrite Hr. simpl.
  set (init := fold_left _ (start_ first) _).
  set (ps := x ← start_ first; (λ y, (x, y)) <$> start_ second).
  set (st0 := mkCompose (@emptyGraph W)
                (replicate (numNodes first * numNodes second) None) [] []).
  assert (Hinit : init = fold_left (compose_seed first second reachable) ps st0).
  { unfold init, ps, st0. by rewrite <- fold_left_pairs. }
  assert (Hmem : ∀ x, x ∈ ps ↔ x.1 ∈ start_ first ∧ x.2 ∈ start_ second).
  { intros [x y]. unfold ps. rewrite list_elem_of_bind. split.
    - intros (x' & Hx & Hx'). apply list_elem_of_fmap in Hx as (y' & [= -> ->] & Hy').
      done.
    - intros [Hx Hy]. exists x. split; [|done]. apply list_elem_of_fmap. by exists y. }
  assert (Hps : ∀ x, x ∈ ps → (x ∉ []) ∧ x.1 ∈ start_ first ∧ x.2 ∈ start_ second).
  { intros x Hx. apply Hmem in Hx. split; [by inversion 1|done]. }
  destruct (compose_seed_inv first second Hwf1 Hwf2 reachable ps
              st0 [] (NoDup_pairs _ _ (wf_start_nodup first Hwf1)
                        (wf_start_nodup second Hwf2)) Hps
              (cinv_empty first second reachable))
    as (states0 & Hc0 & Hm0).
  destruct (compose_seed_closed ps st0) as [Hq0 Hb0].
  { intros x Hx. apply Hmem in Hx as [Hx _].
    by apply (wf_start_elem first _ Hwf1) in Hx as [Hx _]. }
  { simpl. apply length_replicate. }
  { intros x y d Hx Hy. simpl.
    rewrite lookup_replicate_2 by (by apply toIndex_lt). done. }
  rewrite <- Hinit in Hc0, Hm0, Hq0, Hb0.
  destruct (compose_loop_closed first second Hwf1 Hwf2 reachable
              (length (start_ first) * length (start_ second)
               + numNodes first * numNodes second + 1) init states0 Hc0)
    as (st & states & Hloop & Hc & Hq & Hcl & Hmono).
  { intros x y k x' y' info Hx Hy Hk Hnq. destruct Hnq. by apply (Hq0 x y k). }
  { rewrite Hm0. unfold compose_measure. simpl.
    pose proof (unbuilt_le (replicate (numNodes first * numNodes second) (@None nat))).
    rewrite length_replicate in *. lia. }
  exists st, states. rewrite Hloop. simpl. split; [done|]. split; [done|].
  intros s1 s2 p q f1 f2 Hs1 Hs2 Hp Hq' Hf1 Hf2 He.
  pose proof Hs1 as Hs1'. pose proof Hs2 as Hs2'.
  apply (wf_start_elem first _ Hwf1) in Hs1' as [H1 _].
  apply (wf_start_elem second _ Hwf2) in Hs2' as [H2 _].
  destruct (Hb0 (s1, s2)) as [u Hu].
  { apply Hmem. done. }
  { done. }
  { simpl. apply Hall; [done|done|]. by exists p, q, f1, f2. }
  simpl in Hu. apply Hmono in Hu.
  apply (c_map _ _ _ _ _ Hc s1 s2 u H1 H2) in Hu.
  destruct (compose_lift states st Hc Hq Hcl Hall p q s1 s2 u f1 f2 Hu Hp Hq' Hf1 Hf2 He)
    as (P & v & Hw & Hv & E1 & E2).
  by exists u, P, v.
Qed.

End ComposeCompleteSpec.

(** X25. [compose] is complete when no arc of the first graph with an
    epsilon output label can meet an arc of the second graph with an epsilon
    input label.  For every path of the first graph and every path of the
    second graph, from start nodes to accept nodes, such that the output
    labels of the one are the input labels of the other once the epsilons
    are left out, the composed graph has a path from a start node to an
    accept node that is made of exactly these two paths; its input labels
    are those of the first path and its output labels those of the second,
    epsilons left out. *)
Theorem compose_complete {W : Type} `{FloatOps W} (first second : Graph W) :
  wf first → wf second →
  (∀ i j, i < numArcs first → j < numArcs second →
     ¬ (olabel first i = epsilon ∧ ilabel second j = epsilon)) →
  ∃ c gradInfo,
    compose first second = Some (c, gradInfo)
    ∧ ∀ s1 s2 p q f1 f2,
        s1 ∈ start_ first → s2 ∈ start_ second →
        walk first s1 p f1 → walk second s2 q f2 →
        f1 ∈ accept_ first → f2 ∈ accept_ second →
        elide (olabels first p) = elide (ilabels second q) →
        ∃ u P v, walk c u P v
                 ∧ start c u = true ∧ accept c v = true
                 ∧ compose_proj1 gradInfo P = p
                 ∧ compose_proj2 gradInfo P = q
                 ∧ elide (ilabels c P) = elide (ilabels first p)
                 ∧ elide (olabels c P) = elide (olabels second q).
Proof.
  intros Hwf1 Hwf2 Hne.
  destruct (findReachable_exact first second Hwf1 Hwf2 Hne) as (r & Hr & _ & Hex).
  destruct (compose_complete_spec first second Hwf1 Hwf2 r Hr)
    as (st & states & Hc & Hinv & Hall).
  { intros x y Hx Hy Hco. by apply Hex. }
  exists (c_ngraph st), (c_gradInfo st). split; [done|].
  intros s1 s2 p q f1 f2 Hs1 Hs2 Hp Hq Hf1 Hf2 He.
  destruct (Hall s1 s2 p q f1 f2 Hs1 Hs2 Hp Hq Hf1 Hf2 He)
    as (u & P & v & Hu & Hv & Hw & E1 & E2).
  exists u, P, v. split; [done|].
  destruct (cinv_flags first second r states st u s1 s2 Hinv Hu) as [Hsu _].
  destruct (cinv_flags first second r states st v f1 f2 Hinv Hv) as [_ Hav].
  apply (wf_start_elem first _ Hwf1) in Hs1 as [_ Hs1].
  apply (wf_start_elem second _ Hwf2) in Hs2 as [_ Hs2].
  apply (wf_accept first Hwf1) in Hf1. apply (wf_accept second Hwf2) in Hf2.
  split; [by rewrite Hsu, Hs1, Hs2|]. split; [by rewrite Hav, Hf1, Hf2|].
  split; [done|]. split; [done|].
  destruct (compose_walk_project first second r states st Hinv u P v s1 s2 Hw Hu)
    as (xv & yv & _ & _ & _ & _ & Hil & Hol).
  rewrite Hil, Hol, E1, E2. done.
Qed.

(** ** closure: every accepted path is a sequence of accepting paths *)

Section ClosureOnly.
Context {W : Type} `{FloatOps W}.
Implicit Types g : Graph W.

(** The arcs of a closed graph are the shifted arcs of the input and the
    epsilon arcs into the old start nodes, from the new start node or from
    an old accept node. *)
Lemma closure_arc_cases g e :
  e < numArcs (closure_graph g) →
  (e < numArcs g)
  ∨ (ilabel (closure_graph g) e = epsilon ∧ olabel (closure_graph g) e = epsilon
     ∧ ∃ s, s ∈ start_ g ∧ downNode (closure_graph g) e = s + 1
        ∧ (upNode (closure_graph g) e = 0
           ∨ ∃ a, a ∈ accept_ g ∧ upNode (closure_graph g) e = a + 1)).
Proof.
  intros He.
  destruct (lookup_lt_is_Some_2 (arcs_ (closure_graph g)) e He) as [arc Harc].
  unfold ilabel, olabel, upNode, downNode. rewrite Harc. simpl.
  rewrite closure_arcs in Harc.
  apply lookup_app_Some in Harc as [Harc|[_ Harc]].
  - left. apply lookup_lt_Some in Harc. by rewrite length_fmap, length_seq in Harc.
  - right. apply list_elem_of_lookup_2 in Harc. unfold closure_epsilons in Harc.
    apply list_elem_of_bind in Harc as (s & Harc & Hs).
    apply elem_of_cons in Harc as [->|Harc]; simpl.
    + split; [done|]. split; [done|]. exists s. split; [done|]. split; [done|by left].
    + apply list_elem_of_fmap in Harc as (a & -> & Ha). simpl.
      split; [done|]. split; [done|]. exists s. split; [done|]. split; [done|].
      right. by exists a.
Qed.

Lemma closure_walk_only g P V :
  walk (closure_graph g) 0 P V →
  (V = 0 ∧ P = [])
  ∨ ∃ (ps : list (nat * list nat * nat)) s p w,
      V = w + 1
      ∧ (∀ x, x ∈ ps → x.1.1 ∈ start_ g ∧ walk g x.1.1 x.1.2 x.2 ∧ x.2 ∈ accept_ g)
      ∧ s ∈ start_ g ∧ walk g s p w
      ∧ elide (ilabels (closure_graph g) P)
        = (ps ≫= (λ x, elide (ilabels g x.1.2))) ++ elide (ilabels g p)
      ∧ elide (olabels (closure_graph g) P)
        = (ps ≫= (λ x, elide (olabels g x.1.2))) ++ elide (olabels g p).
Proof.
  set (c := closure_graph g).
  induction 1 as [|Q V e Hw IH He Hu]; [by left|]. right.
  assert (Eeps : ∀ l : list Z, elide (l ++ [epsilon]) = elide l).
  { intros l. by rewrite elide_app, app_nil_r. }
  destruct (closure_arc_cases g e He) as [Hlt|(Ei & Eo & s' & Hs' & Ed & Hup)].
  - destruct (closure_arc_fields g e Hlt) as (Eu & Ed & Ei & Eo & _).
    fold c in Eu, Ed, Ei, Eo.
    destruct IH as [[-> _]|(ps & s & p & w & -> & Hps & Hs & Hp & Li & Lo)].
    { rewrite Eu in Hu. lia. }
    exists ps, s, (p ++ [e]), (downNode g e).
    split; [done|]. split; [done|]. split; [done|].
    split; [apply (walk_snoc g s p w); [done|done|]; rewrite Eu in Hu; lia|].
    unfold ilabels, olabels in *. rewrite !fmap_app, !elide_app. simpl.
    rewrite Li, Lo, Ei, Eo. by rewrite !app_assoc.
  - fold c in Ei, Eo, Ed, Hup.
    unfold ilabels, olabels in *. rewrite !fmap_app. simpl. rewrite Ei, Eo, !Eeps.
    destruct IH as [[-> ->]|(ps & s & p & w & -> & Hps & Hs & Hp & Li & Lo)].
    + exists [], s', [], s'. split; [done|]. split; [by inversion 1|].
      split; [done|]. split; [constructor|]. done.
    + destruct Hup as [Hup|(a & Ha & Hup)]; [rewrite Hup in Hu; lia|].
      assert (a = w) as -> by (rewrite Hup in Hu; lia).
      exists (ps ++ [(s, p, w)]), s', [], s'. split; [done|]. split.
      { intros x Hx. apply elem_of_app in Hx as [Hx|Hx]; [by apply Hps|].
        apply list_elem_of_singleton in Hx as ->. done. }
      split; [done|]. split; [constructor|].
      rewrite Li, Lo, !bind_app. simpl. by rewrite !app_nil_r.
Qed.

End ClosureOnly.

(** X26. The closed graph accepts nothing but sequences of accepting paths:
    the labels of every path of [closure(g)] from its start node 0 to an
    accept node are, epsilons left out, the labels of a finite sequence of
    paths of [g] from start nodes to accept nodes, one after the other. *)
Theorem closure_only_star {W : Type} `{FloatOps W} (g : Graph W) (P : list nat) (V : nat) :
  wf g →
  walk (closure_graph g) 0 P V → accept (closure_graph g) V = true →
  ∃ ps : list (nat * list nat * nat),
    (∀ x, x ∈ ps → x.1.1 ∈ start_ g ∧ walk g x.1.1 x.1.2 x.2 ∧ x.2 ∈ accept_ g)
    ∧ elide (ilabels (closure_graph g) P) = ps ≫= (λ x, elide (ilabels g x.1.2))
    ∧ elide (olabels (closure_graph g) P) = ps ≫= (λ x, elide (olabels g x.1.2)).
Proof.
  intros Hwf Hw Hacc.
  destruct (closure_walk_only g P V Hw)
    as [[-> ->]|(ps & s & p & w & -> & Hps & Hs & Hp & Li & Lo)].
  - exists []. split; [by inversion 1|]. done.
  - exists (ps ++ [(s, p, w)]). split.
    + intros x Hx. apply elem_of_app in Hx as [Hx|Hx]; [by apply Hps|].
      apply list_elem_of_singleton in Hx as ->. simpl.
      split; [done|]. split; [done|].
      apply (wf_accept g Hwf).
      unfold accept in Hacc. rewrite closure_nodes in Hacc.
      rewrite Nat.add_1_r in Hacc. simpl in Hacc.
      rewrite list_lookup_fmap in Hacc.
      destruct (seq 0 (numNodes g) !! w) as [n|] eqn:E; [|done].
      apply lookup_seq in E as [-> _]. done.
    + rewrite Li, Lo, !bind_app. simpl. by rewrite !app_nil_r.
Qed.

(** ** remove: when addArc throws *)

Lemma forallb_false_elem {A : Type} (f : A → bool) (l : list A) :
  forallb f l = false → ∃ a, a ∈ l ∧ f a = false.
Proof.
  induction l as [|x l IH]; [done|]. simpl. intros Hf.
  apply andb_false_iff in Hf as [Hx|Hl].
  - exists x. split; [left|done].
  - destruct (IH Hl) as (a & Ha & Hfa). exists a. split; [by right|done].
Qed.

Section RemoveCheckedWalk.
Context {W : Type} `{FloatOps W}.
Variables (other : Graph W) (il ol : Z).
Hypothesis Hwf : wf other.

Local Abbreviation nodes := (remove_nodes other il ol).1.
Local Abbreviation N := (rank other il ol (numNodes other)).

Lemma remove_nodes_unmatched a :
  a < numArcs other → label_match other il ol a = false →
  nodes !! downNode other a = Some (Some (rank other il ol (downNode other a)))
  ∧ rank other il ol (downNode other a) < N.
Proof.
  intros Ha Em.
  pose proof (wf_down other Hwf a Ha) as Hd.
  pose proof (kept_of_unmatched other il ol a Ha Em) as Hk.
  split; [by apply remove_nodes_lookup|by apply rank_lt].
Qed.

Lemma remove_arc_checked_err n l e :
  fold_left (remove_arc_checked other il ol nodes n) l (Err e) = Err e.
Proof. induction l as [|a l IH]; [done|]. simpl. apply IH. Qed.

Lemma remove_arc_numNodes n st a :
  numNodes (remove_arc other il ol nodes n st a).1.1 = numNodes st.1.1.
Proof.
  destruct st as [[g q] R]. unfold remove_arc.
  destruct (label_match other il ol a).
  - by destruct (decide (downNode other a ∈ R)).
  - by destruct (nodes !! downNode other a) as [[d|]|].
Qed.

(** One arc: the checked body does what [remove_arc] does, unless the arc
    is to be added and [n] is no node of the new graph. *)
Lemma remove_arc_checked_ok n st a :
  a < numArcs other → numNodes st.1.1 = N →
  remove_arc_checked other il ol nodes n (Ok st) a
  = if label_match other il ol a || (n <? N)
    then Ok (remove_arc other il ol nodes n st a)
    else Err IndexOutOfRange.
Proof.
  intros Ha HN. destruct st as [[g q] R]. simpl in HN.
  unfold remove_arc_checked, remove_arc. simpl.
  destruct (label_match other il ol a) eqn:Em; simpl.
  - by destruct (decide (downNode other a ∈ R)).
  - destruct (remove_nodes_unmatched a Ha Em) as [-> Hlt].
    unfold addArc_checked. rewrite HN.
    destruct (Nat.ltb_spec n N) as [Hn|Hn].
    + by rewrite decide_True.
    + rewrite decide_False; [done|]. lia.
Qed.

Lemma remove_arc_checked_fold n l : ∀ st,
  (∀ a, a ∈ l → a < numArcs other) → numNodes st.1.1 = N →
  fold_left (remove_arc_checked other il ol nodes n) l (Ok st)
  = if (n <? N) || forallb (label_match other il ol) l
    then Ok (fold_left (remove_arc other il ol nodes n) l st)
    else Err IndexOutOfRange.
Proof.
  induction l as [|a l IH]; intros st Hl HN.
  - simpl. by rewrite orb_true_r.
  - cbn [fold_left forallb].
    rewrite (remove_arc_checked_ok n st a) by (done || apply Hl; left).
    destruct (label_match other il ol a) eqn:Em; simpl.
    + rewrite IH; [done| |by rewrite remove_arc_numNodes].
      intros b Hb. apply Hl. by right.
    + destruct (n <? N) eqn:En; simpl.
      * rewrite IH; [| |by rewrite remove_arc_numNodes].
        -- done.
        -- intros b Hb. apply Hl. by right.
      * apply remove_arc_checked_err.
Qed.

(** The arcs that a walk adds all leave [n]. *)
Lemma remove_new_arc_up n a (arc : Arc W) :
  arc ∈ remove_new_arc other il ol nodes n a → arc_up arc = n.
Proof.
  unfold remove_new_arc. destruct (label_match other il ol a); [by inversion 1|].
  destruct (nodes !! downNode other a) as [[d|]|]; [|by inversion 1..].
  intros Hin. by apply list_elem_of_singleton in Hin as ->.
Qed.

Lemma remove_walk_arcs n curr fuel : ∀ g q (R : gset nat) st',
  remove_walk fuel other il ol nodes n curr (g, q, R) = Some st' →
  numNodes st'.1.1 = numNodes g
  ∧ ∃ l, arcs_ st'.1.1 = arcs_ g ++ l ∧ ∀ arc, arc ∈ l → arc_up arc = n.
Proof.
  induction fuel as [|fuel IH]; intros g q R st' Hw.
  - destruct q; [|done]. injection Hw as <-. simpl.
    split; [done|]. exists []. split; [by rewrite app_nil_r|by inversion 1].
  - destruct q as [|next q].
    { simpl in Hw. injection Hw as <-. simpl.
      split; [done|]. exists []. split; [by rewrite app_nil_r|by inversion 1]. }
    cbn [remove_walk] in Hw. rewrite remove_arc_fold in Hw.
    apply IH in Hw as (Hn & l & Hl & Hup).
    set (g1 := if accept other next then makeAccept curr g else g) in *.
    assert (numNodes g1 = numNodes g ∧ arcs_ g1 = arcs_ g) as [Hn1 Ha1].
    { unfold g1. destruct (accept other next); [|done].
      split; [apply numNodes_makeAccept|apply arcs_makeAccept]. }
    split; [rewrite Hn; unfold add_arcs, numNodes; simpl; apply Hn1|].
    exists ((out other next ≫= remove_new_arc other il ol nodes n) ++ l).
    split.
    + rewrite Hl. unfold add_arcs. simpl. by rewrite Ha1, app_assoc.
    + intros arc Harc. apply elem_of_app in Harc as [Harc|Harc]; [|by apply Hup].
      apply list_elem_of_bind in Harc as (a & Harc & _).
      by apply (remove_new_arc_up n a).
Qed.

(** The walk from [n]: the checked loop ends as [remove_walk] does when
    [n] is a node of the new graph or the walk adds no arc, and throws
    otherwise. *)
Lemma remove_walk_checked_spec n curr fuel : ∀ g q (R : gset nat) st',
  numNodes g = N →
  remove_walk fuel other il ol nodes n curr (g, q, R) = Some st' →
  remove_walk_checked fuel other il ol nodes n curr (g, q, R)
  = Some (if (n <? N) || (numArcs st'.1.1 =? numArcs g)
          then Ok st' else Err IndexOutOfRange).
Proof.
  induction fuel as [|fuel IH]; intros g q R st' HN Hw.
  - destruct q; [|done]. injection Hw as <-. simpl.
    by rewrite Nat.eqb_refl, orb_true_r.
  - destruct q as [|next q].
    { simpl in Hw. injection Hw as <-. simpl.
      by rewrite Nat.eqb_refl, orb_true_r. }
    cbn [remove_walk] in Hw. cbn [remove_walk_checked].
    set (g1 := if accept other next then makeAccept curr g else g) in *.
    assert (numNodes g1 = numNodes g ∧ arcs_ g1 = arcs_ g) as [Hn1 Ha1].
    { unfold g1. destruct (accept other next); [|done].
      split; [apply numNodes_makeAccept|apply arcs_makeAccept]. }
    assert (Hout : ∀ a, a ∈ out other next → a < numArcs other).
    { intros a Ha. by apply elem_of_out in Ha as [Ha _]. }
    rewrite (remove_arc_checked_fold n (out other next) (g1, q, R) Hout)
      by (simpl; congruence).
    set (st1 := fold_left (remove_arc other il ol nodes n) (out other next) (g1, q, R))
      in *.
    assert (Hst1 : st1.1.1
                   = add_arcs (out other next ≫= remove_new_arc other il ol nodes n) g1).
    { unfold st1. by rewrite remove_arc_fold. }
    assert (HN1 : numNodes st1.1.1 = N).
    { rewrite Hst1. unfold add_arcs, numNodes. simpl. unfold numNodes in *. congruence. }
    destruct st1 as [[g2 q2] R2] eqn:E1. simpl in Hst1, HN1.
    destruct (n <? N) eqn:En; simpl.
    { by rewrite (IH g2 q2 R2 st' HN1 Hw). }
    destruct (forallb (label_match other il ol) (out other next)) eqn:Eall.
    + rewrite (IH g2 q2 R2 st' HN1 Hw). simpl.
      assert (out other next ≫= remove_new_arc other il ol nodes n = []) as Hnil.
      { clear -Eall. induction (out other next) as [|a l IHl]; [done|].
        simpl in Eall. apply andb_true_iff in Eall as [Ea El].
        rewrite bind_cons, (IHl El). unfold remove_new_arc. by rewrite Ea. }
      rewrite Hnil in Hst1. rewrite Hst1. unfold add_arcs, numArcs. simpl.
      by rewrite app_nil_r, Ha1.
    + destruct (remove_walk_arcs n curr fuel g2 q2 R2 st' Hw) as (_ & l & Hl & _).
      assert (numArcs g < numArcs st'.1.1) as Hlt.
      { unfold numArcs. rewrite Hl, Hst1. unfold add_arcs. simpl.
        rewrite Ha1, !length_app.
        assert (0 < length (out other next ≫= remove_new_arc other il ol nodes n)).
        { destruct (forallb_false_elem _ _ Eall) as (a & Ha & Hm).
          pose proof (Hout a Ha) as Halt.
          destruct (remove_nodes_unmatched a Halt Hm) as [Hlk _].
          assert (mkArc n (rank other il ol (downNode other a)) (ilabel other a)
                    (olabel other a) fzero
                  ∈ out other next ≫= remove_new_arc other il ol nodes n) as Hin.
          { apply list_elem_of_bind. exists a. split; [|done].
            unfold remove_new_arc. rewrite Hm, Hlk. left. }
          destruct (out other next ≫= remove_new_arc other il ol nodes n);
            [by inversion Hin|simpl; lia]. }
        lia. }
      destruct (Nat.eqb_spec (numArcs st'.1.1) (numArcs g)) as [Heq|_]; [lia|done].
Qed.

End RemoveCheckedWalk.

Section RemoveCheckedResult.
Context {W : Type} `{FloatOps W}.
Variables (other : Graph W) (il ol : Z).
Hypothesis Hwf : wf other.

Local Abbreviation nodes := (remove_nodes other il ol).1.
Local Abbreviation N := (rank other il ol (numNodes other)).
Local Abbreviation in_range := (λ arc : Arc W, arc_up arc < N).

(** One walk of the second loop. *)
Lemma remove_outer_step_checked_spec g g' m :
  numNodes g = N → Forall in_range (arcs_ g) →
  remove_outer_step other il ol nodes (Some g) m = Some g' →
  (remove_outer_step_checked other il ol nodes (Some (Ok g)) m = Some (Ok g')
   ∧ Forall in_range (arcs_ g'))
  ∨ (remove_outer_step_checked other il ol nodes (Some (Ok g)) m
     = Some (Err IndexOutOfRange)
     ∧ ¬ Forall in_range (arcs_ g')).
Proof.
  intros HN Hgood. unfold remove_outer_step, remove_outer_step_checked. simpl.
  destruct (nodes !! m) as [[curr|]|] eqn:E; [|intros [= <-]; by left..].
  destruct (remove_walk (numArcs other + 2) other il ol nodes m curr (g, [m], {[m]}))
    as [[[gw qw] Rw]|] eqn:Ew; simpl; [|done].
  intros [= <-].
  rewrite (remove_walk_checked_spec other il ol Hwf m curr _ g [m] {[m]} _ HN Ew).
  destruct (remove_walk_arcs other il ol m curr _ g [m] {[m]} _ Ew)
    as (_ & l & Hl & Hup).
  simpl in Hl. simpl.
  destruct (Nat.ltb_spec m N) as [Hm|Hm]; simpl.
  - left. split; [done|]. rewrite Hl. apply Forall_app. split; [done|].
    apply Forall_forall. intros arc Harc. by rewrite (Hup arc Harc).
  - destruct (Nat.eqb_spec (numArcs gw) (numArcs g)) as [Heq|Hneq]; simpl.
    + left. split; [done|].
      unfold numArcs in Heq. rewrite Hl, length_app in Heq.
      destruct l; [|simpl in Heq; lia]. by rewrite Hl, app_nil_r.
    + right. split; [done|]. rewrite Hl. intros Hall.
      apply Forall_app in Hall as [_ Hall].
      destruct l as [|arc l].
      { rewrite app_nil_r in Hl. unfold numArcs in Hneq. by rewrite Hl in Hneq. }
      apply Forall_cons in Hall as [Harc _].
      rewrite (Hup arc) in Harc by left. lia.
Qed.

Lemma remove_outer_fold_checked l : ∀ g g' r,
  numNodes g = N →
  fold_left (remove_outer_step other il ol nodes) l (Some g) = Some g' →
  (r = Ok g ∧ Forall in_range (arcs_ g))
  ∨ (r = Err IndexOutOfRange ∧ ¬ Forall in_range (arcs_ g)) →
  ∃ r', fold_left (remove_outer_step_checked other il ol nodes) l (Some r) = Some r'
    ∧ ((r' = Ok g' ∧ Forall in_range (arcs_ g'))
       ∨ (r' = Err IndexOutOfRange ∧ ¬ Forall in_range (arcs_ g'))).
Proof.
  induction l as [|m l IH]; intros g g' r HN Hfold Hr.
  - simpl in Hfold. injection Hfold as <-. by exists r.
  - cbn [fold_left] in *.
    destruct (remove_outer_step_spec other il ol g m HN)
      as (g1 & Hstep & HN1 & _ & _ & Harcs).
    rewrite Hstep in Hfold.
    assert (HN1' : numNodes g1 = N) by congruence.
    destruct Hr as [[-> Hgood]|[-> Hbad]].
    + destruct (remove_outer_step_checked_spec g g1 m HN Hgood Hstep)
        as [[-> Hg1]|[-> Hg1]].
      * apply (IH g1 g' _ HN1' Hfold). by left.
      * apply (IH g1 g' _ HN1' Hfold). by right.
    + assert (remove_outer_step_checked other il ol nodes
                (Some (Err IndexOutOfRange)) m = Some (Err IndexOutOfRange)) as ->
        by done.
      apply (IH g1 g' _ HN1' Hfold). right. split; [done|].
      intros Hall. apply Hbad. apply Forall_forall. intros arc Harc.
      rewrite Forall_forall in Hall. apply Hall. apply Harcs. by left.
Qed.

(** [remove_checked] returns what [remove] builds when every arc of that
    graph leaves one of its nodes, and throws otherwise. *)
Lemma remove_checked_spec :
  ∃ g, remove other il ol = Some g
    ∧ ((remove_checked other il ol = Some (Ok g) ∧ Forall in_range (arcs_ g))
       ∨ (remove_checked other il ol = Some (Err IndexOutOfRange)
          ∧ ¬ Forall in_range (arcs_ g))).
Proof.
  destruct (remove_spec other il ol) as (g & Hg & _).
  exists g. split; [done|].
  rewrite remove_unfold in Hg.
  assert (Hc : remove_checked other il ol
               = fold_left (remove_outer_step_checked other il ol nodes)
                   (seq 0 (numNodes other)) (Some (Ok (remove_nodes other il ol).2))).
  { unfold remove_checked. by destruct (remove_nodes other il ol). }
  destruct (remove_nodes_spec other il ol) as (_ & _ & Hno & _).
  destruct (remove_outer_fold_checked (seq 0 (numNodes other))
              (remove_nodes other il ol).2 g (Ok (remove_nodes other il ol).2)
              (remove_nodes_numNodes other il ol) Hg)
    as (r' & Hr' & Hcase).
  { left. split; [done|]. rewrite Hno. constructor. }
  rewrite Hc, Hr'. destruct Hcase as [[-> ?]|[-> ?]]; [by left|by right].
Qed.

End RemoveCheckedResult.

(** X20. [remove] comes to an end on every well-formed graph.  Its new
    graph has one node for every kept node of the input (a start node, or a
    node that some arc without the removed labels enters), [N] of them.  It
    throws IndexOutOfRange exactly when some kept node [n] with [N <= n]
    reaches, along the removed labels, a node with an outgoing arc that does
    not carry them: the code adds that arc from the index [n] itself, which
    is no node of the new graph.  Otherwise it returns the graph, in which
    the node of [n] is a start node when [n] is, and an accept node exactly
    when the arcs with the removed labels lead from [n], in zero or more
    steps, to an accept node of the input. *)
Theorem remove_keeps {W : Type} `{FloatOps W} (other : Graph W) (il ol : Z) :
  wf other →
  (remove_checked other il ol = Some (Err IndexOutOfRange)
   ∧ ∃ n u a, n < numNodes other ∧ kept other il ol n = true
       ∧ rank other il ol (numNodes other) ≤ n
       ∧ lreach other il ol n u ∧ a < numArcs other ∧ upNode other a = u
       ∧ label_match other il ol a = false)
  ∨ (∃ g, remove_checked other il ol = Some (Ok g)
       ∧ numNodes g = rank other il ol (numNodes other)
       ∧ (∀ n u a, n < numNodes other → kept other il ol n = true →
            lreach other il ol n u → a < numArcs other → upNode other a = u →
            label_match other il ol a = false → n < numNodes g)
       ∧ ∀ n, n < numNodes other → kept other il ol n = true →
           rank other il ol n < numNodes g
           ∧ start g (rank other il ol n) = start other n
           ∧ (accept g (rank other il ol n) = true
              ↔ ∃ v, lreach other il ol n v ∧ accept other v = true)).
Proof.
  intros Hwf.
  destruct (remove_checked_spec other il ol Hwf) as (g & Hg & Hcase).
  destruct (remove_spec other il ol) as (g0 & Hg0 & Hn & Hflags & Harcs).
  assert (g0 = g) as -> by congruence.
  destruct Hcase as [[Hc Hgood]|[Hc Hbad]].
  - right. exists g. split; [done|]. split; [done|]. split.
    + intros n u a Hlt Hk Hu Ha Hup Hm. rewrite Hn.
      rewrite Forall_forall in Hgood.
      apply (Hgood (mkArc n (rank other il ol (downNode other a))
                      (ilabel other a) (olabel other a) fzero)).
      apply Harcs. exists n, u, a. repeat split; try done.
      by apply (wf_down other Hwf).
    + intros n Hlt Hk. split; [rewrite Hn; by apply rank_lt|]. by apply Hflags.
  - left. split; [done|].
    apply not_Forall_Exists in Hbad; [|intros arc; apply _].
    apply Exists_exists in Hbad as (arc & Harc & Hup).
    apply Harcs in Harc as (n & u & a & Hlt & Hk & Hu & Ha & Hupa & Hm & _ & ->).
    simpl in Hup. exists n, u, a. repeat split; try done. lia.
Qed.


(** ** forward: the scores as a recurrence over the arcs *)

Section ForwardRecurrence.
Context {W : Type} `{FloatOps W}.
Implicit Types g : Graph W.



Section Order.
Variables (g : Graph W) (popped : list nat) (deg : list Z).
Hypothesis Hwf : wf g.
Hypothesis Hk : KInv (numArcs g) (upNode g) (downNode g) (numNodes g) (start_ g)
                  popped deg [].






End Order.

End ForwardRecurrence.


(** On [float] the value is not the log-sum-exp of the real numbers: the
    one path of [big_chain] has the score 6e38, and [forward] returns
    [+inf], whatever the C library computes for [exp] and [log1p]. *)
Example forward_binary32_overflow (libm_exp libm_log1p : spec_float → spec_float) :
  let ops := binary32_ops libm_exp libm_log1p in
  (∃ m e, weight big_chain 0 = S754_finite false m e)
  ∧ (∃ m e, weight big_chain 1 = S754_finite false m e)
  ∧ ∃ scores, @forward_scores _ ops big_chain
              = Some (Ok (scores, S754_infinity false)).
Proof.
  split; [do 2 eexists; vm_compute; reflexivity|].
  split; [do 2 eexists; vm_compute; reflexivity|].
  eexists. vm_compute. reflexivity.
Qed.

(** The defect of C4 does not depend on the arithmetic: on [float], whatever
    the C library computes for [exp] and [log1p], [forwardGrad] seeds
    [nodeGrads[1]] with [1.0 * exp(0.0 - 0.0)] and installs the gradient
    [0.0; 0.0] on [tail_graph32]. *)
Example forwardGrad_skips_accept_binary32
    (libm_exp libm_log1p : spec_float → spec_float) :
  let ops := binary32_ops libm_exp libm_log1p in
  ∃ scores st,
    @forward_scores _ ops tail_graph32 = Some (Ok (scores, b32_of_Z 0))
    ∧ @forwardGrad_walk _ ops tail_graph32 (b32_of_Z 0) (itemGraph (b32_of_Z 1)) scores
      = Some (Ok st)
    ∧ g_arcGrads st = [b32_of_Z 0; b32_of_Z 0]
    ∧ getW (g_nodeGrads st) 1
      = @fmul _ ops (b32_of_Z 1) (libm_exp (@fsub _ ops (b32_of_Z 0) (b32_of_Z 0))).
Proof.
  eexists _, _. split; [vm_compute; reflexivity|].
  split; [vm_compute; reflexivity|]. split; vm_compute; reflexivity.
Qed.

(** ** The properties above at concrete inputs *)

Lemma add_same_input_witness :
  ∃ t σ', add item_store 0 0 = Ok t
    ∧ t_graph t = itemGraph (Fin (2 + 2))
    ∧ t_gradFunc t (t_inputs t) (itemGraph (Fin 1)) item_store = Ok σ'
    ∧ grad σ' 0 = Some [Fin (1 + 1)].
Proof.
  destruct (add_same_input item_store 0 (mkState (itemGraph (Fin 2)) true None)
              (Fin 2) (Fin 1) eq_refl eq_refl eq_refl)
    as (t & σ' & Ht & Hg & Hb & Hgr & _).
  exists t, σ'. split; [exact Ht|]. split; [exact Hg|]. split; [exact Hb|].
  exact Hgr.
Defined.

Lemma negate_subtract_binary32_witness :
  let ops := binary32_ops coarse_exp coarse_log1p in
  @negate_graph _ ops (itemGraph (b32_of_Z (-3))) = Ok (itemGraph (b32_of_Z 3))
  ∧ ∃ t1 t2, @subtract _ ops item_store32n 0 1 = Ok t1
             ∧ @add _ ops item_store32n 0 2 = Ok t2
             ∧ t_graph t1 = t_graph t2.
Proof.
  exact (negate_subtract_binary32 coarse_exp coarse_log1p item_store32n 0 1 2
           (itemGraph (b32_of_Z 2)) (itemGraph (b32_of_Z 3))
           (itemGraph (b32_of_Z (-3))) (b32_of_Z 2)
           eq_refl eq_refl eq_refl eq_refl eq_refl).
Defined.

Lemma clone_copies_witness :
  wf single_arc
  ∧ arcs_ (clone_graph single_arc INPUT) = [mkArc 0 1 1 1 (Fin 1)]
  ∧ start_ (clone_graph single_arc INPUT) = [0]
  ∧ wf (clone_graph single_arc INPUT).
Proof.
  assert (Hwf : wf single_arc) by (apply wfb_wf; reflexivity).
  destruct (clone_copies single_arc INPUT Hwf) as (_ & Ha & Hs & _ & _ & Hw).
  split; [exact Hwf|]. split; [exact Ha|]. split; [exact Hs|]. exact Hw.
Defined.

Lemma sum_structure_witness :
  let s := sum_graph [single_arc; chain] in
  numNodes s = 5 ∧ numArcs s = 3
  ∧ start s 2 = true ∧ accept s 4 = true
  ∧ arcs_ s !! 2 = Some (mkArc 3 4 0 0 (Fin (ln 3))).
Proof.
  destruct (sum_structure [single_arc; chain] 1 chain eq_refl)
    as (Hn & Ha & _ & _ & Hflags & Harcs & _).
  split; [exact Hn|]. split; [exact Ha|].
  destruct (Hflags 0 ltac:(cbv; lia)) as [Hs _].
  destruct (Hflags 2 ltac:(cbv; lia)) as [_ Hc].
  split; [exact Hs|]. split; [exact Hc|].
  exact (Harcs 1 ltac:(cbv; lia)).
Defined.

Lemma sum_walks_witness :
  wf single_arc ∧ wf chain ∧ walk chain 0 [0; 1] 2
  ∧ wf (sum_graph [single_arc; chain])
  ∧ walk (sum_graph [single_arc; chain]) 2 [1; 2] 4.
Proof.
  assert (H1 : wf single_arc) by (apply wfb_wf; reflexivity).
  assert (H2 : wf chain) by (apply wfb_wf; reflexivity).
  assert (Hw : walk chain 0 [0; 1] 2) by (apply walkb_walk; reflexivity).
  assert (Hall : ∀ g, g ∈ [single_arc; chain] → wf g).
  { intros g Hg. apply elem_of_cons in Hg as [->|Hg]; [exact H1|].
    apply list_elem_of_singleton in Hg as ->. exact H2. }
  destruct (sum_walks [single_arc; chain] Hall) as (Hwf & Hlift & _).
  split; [exact H1|]. split; [exact H2|]. split; [exact Hw|]. split; [exact Hwf|].
  exact (Hlift 1 chain 0 [0; 1] 2 eq_refl Hw).
Defined.

Lemma sum_backward_witness :
  ∃ σ', sum_gradFunc [0; 1] (sum_graph [single_arc; chain]) (pair_store single_arc chain)
        = Ok σ'
    ∧ grad σ' 0 = Some [Fin 1]
    ∧ grad σ' 1 = Some [Fin (ln 2); Fin (ln 3)].
Proof.
  destruct (sum_backward (pair_store single_arc chain) [0; 1] [single_arc; chain]
              (sum_graph [single_arc; chain]) eq_refl)
    as (σ' & Hs & Hin & _).
  { apply NoDup_cons. split; [|apply NoDup_singleton].
    intros Hin. apply list_elem_of_singleton in Hin. discriminate Hin. }
  { cbv. lia. }
  exists σ'. split; [exact Hs|]. unfold grad. split.
  - rewrite (Hin 0 0 (mkState single_arc true None) eq_refl eq_refl). reflexivity.
  - rewrite (Hin 1 1 (mkState chain true None) eq_refl eq_refl). reflexivity.
Defined.

Lemma forward_total_witness :
  wf fork_graph
  ∧ forward (store_of fork_graph) 0 = Some (Err CycleDetected)
  ∧ ∃ a e, a ∈ accept_ fork_graph ∧ e ∈ in_ fork_graph a
           ∧ ¬ settles fork_graph (upNode fork_graph e).
Proof.
  assert (Hwf : wf fork_graph) by (apply wfb_wf; reflexivity).
  split; [exact Hwf|].
  destruct (forward_total fork_graph (store_of fork_graph) 0 eq_refl Hwf)
    as [[Herr Hex]|(scores & _ & Hok & _)].
  - split; [exact Herr|exact Hex].
  - discriminate Hok.
Defined.

Lemma forwardGrad_reads_deltas_witness :
  accept_ no_accept_graph = []
  ∧ forwardGrad 0 (Fin 0) emptyGraph [] (store_of no_accept_graph)
    = Some (addGrad 0 [Fin 0] (store_of no_accept_graph))
  ∧ forwardGrad 0 (Fin 0) emptyGraph [] (store_of single_arc)
    = Some (Err InvalidOperation).
Proof.
  split; [reflexivity|]. split.
  - exact (proj1 (forwardGrad_reads_deltas no_accept_graph (store_of no_accept_graph) 0
                    (mkState no_accept_graph true None) (Fin 0) emptyGraph []
                    eq_refl eq_refl) eq_refl).
  - apply (proj2 (forwardGrad_reads_deltas single_arc (store_of single_arc) 0
                    (mkState single_arc true None) (Fin 0) emptyGraph []
                    eq_refl eq_refl)); [discriminate|reflexivity].
Defined.

Lemma forward_backward_witness :
  wf single_arc
  ∧ ∃ t arcGrads,
      forward (store_of single_arc) 0 = Some (Ok t)
      ∧ length arcGrads = 1
      ∧ t_gradFunc t (t_inputs t) (itemGraph (Fin 1)) (store_of single_arc)
        = Ok (<[0 := mkState single_arc true (Some arcGrads)]> (store_of single_arc)).
Proof.
  assert (Hwf : wf single_arc) by (apply wfb_wf; reflexivity).
  split; [exact Hwf|].
  assert (Hex : ∃ t, forward (store_of single_arc) 0 = Some (Ok t))
    by (eexists; reflexivity).
  destruct Hex as [t Hok].
  destruct (forward_backward single_arc (store_of single_arc) 0
              (mkState single_arc true None) _ (itemGraph (Fin 1)) (Fin 1)
              eq_refl eq_refl Hwf Hok eq_refl)
    as (_ & arcGrads & Hlen & Hb).
  eexists. exists arcGrads. split; [exact Hok|]. split; [exact Hlen|]. exact Hb.
Defined.

Lemma closure_star_witness :
  wf single_arc
  ∧ wf (closure_graph single_arc)
  ∧ ∃ P V, walk (closure_graph single_arc) 0 P V
      ∧ accept (closure_graph single_arc) V = true
      ∧ elide (ilabels (closure_graph single_arc) P) = [1; 1]%Z.
Proof.
  assert (Hwf : wf single_arc) by (apply wfb_wf; reflexivity).
  assert (Hw : walk single_arc 0 [0] 1) by (apply walkb_walk; reflexivity).
  split; [exact Hwf|].
  destruct (closure_star single_arc [(0, [0], 1); (0, [0], 1)] Hwf)
    as (Hc & P & V & HP & HV & Hi & _).
  { intros x Hx. apply elem_of_cons in Hx as [->|Hx];
      [|apply list_elem_of_singleton in Hx as ->];
      (split; [left|split; [exact Hw|left]]). }
  split; [exact Hc|]. exists P, V. split; [exact HP|]. split; [exact HV|]. exact Hi.
Defined.

Lemma findReachable_sound_witness :
  wf lost_A ∧ wf lost_B
  ∧ ∃ r, findReachable lost_A lost_B = Some r
      ∧ length r = 6
      ∧ getb r (toIndex 2 1 lost_A) = true
      ∧ (getb r (toIndex 1 0 lost_A) = true → coreach lost_A lost_B 1 0).
Proof.
  assert (H1 : wf lost_A) by (apply wfb_wf; reflexivity).
  assert (H2 : wf lost_B) by (apply wfb_wf; reflexivity).
  split; [exact H1|]. split; [exact H2|].
  destruct (findReachable_sound lost_A lost_B H1 H2) as (r & Hr & Hl & Hm & Hs).
  exists r. split; [exact Hr|]. split; [exact Hl|].
  split; [apply Hm; left|]. apply Hs; cbv; lia.
Defined.

Lemma compose_nodes_witness :
  wf half_arc ∧ wf quarter_arc
  ∧ ∃ c gradInfo (states : list (nat * nat)),
      compose half_arc quarter_arc = Some (c, gradInfo)
      ∧ wf c ∧ length gradInfo = numArcs c ∧ length states = numNodes c
      ∧ NoDup states.
Proof.
  assert (H1 : wf half_arc) by (apply wfb_wf; reflexivity).
  assert (H2 : wf quarter_arc) by (apply wfb_wf; reflexivity).
  split; [exact H1|]. split; [exact H2|].
  destruct (compose_nodes half_arc quarter_arc H1 H2)
    as (c & gi & states & Hc & Hwf & Hl & Hn & Hnd & _).
  exists c, gi, states. split; [exact Hc|]. split; [exact Hwf|].
  split; [exact Hl|]. split; [exact Hn|]. exact Hnd.
Defined.

Lemma compose_provenance_witness :
  wf half_arc ∧ wf quarter_arc
  ∧ ∃ c gradInfo (states : list (nat * nat)),
      compose half_arc quarter_arc = Some (c, gradInfo)
      ∧ length states = numNodes c
      ∧ ∀ k, k < numArcs c →
          ∃ arc info, arcs_ c !! k = Some arc ∧ gradInfo !! k = Some info
                      ∧ provenance half_arc quarter_arc states arc info.
Proof.
  assert (H1 : wf half_arc) by (apply wfb_wf; reflexivity).
  assert (H2 : wf quarter_arc) by (apply wfb_wf; reflexivity).
  split; [exact H1|]. split; [exact H2|].
  exact (compose_provenance half_arc quarter_arc H1 H2).
Defined.

Lemma compose_paths_witness :
  wf lost_A ∧ wf eps_second
  ∧ ∃ c gradInfo (states : list (nat * nat)),
      compose lost_A eps_second = Some (c, gradInfo)
      ∧ length states = numNodes c
      ∧ ∀ u P v xu yu,
          walk c u P v → states !! u = Some (xu, yu) →
          ∃ xv yv, states !! v = Some (xv, yv)
            ∧ walk lost_A xu (compose_proj1 gradInfo P) xv
            ∧ walk eps_second yu (compose_proj2 gradInfo P) yv.
Proof.
  assert (H1 : wf lost_A) by (apply wfb_wf; reflexivity).
  assert (H2 : wf eps_second) by (apply wfb_wf; reflexivity).
  split; [exact H1|]. split; [exact H2|].
  destruct (compose_paths lost_A eps_second H1 H2)
    as (c & gi & states & Hc & Hn & _ & Hp).
  exists c, gi, states. split; [exact Hc|]. split; [exact Hn|].
  intros u P v xu yu Hw Hu.
  destruct (Hp u P v xu yu Hw Hu) as (xv & yv & Hv & Hp1 & Hp2 & _).
  exists xv, yv. split; [exact Hv|]. split; [exact Hp1|exact Hp2].
Defined.

Lemma compose_empty_witness :
  wf no_accept_graph ∧ wf single_arc ∧ accept_ no_accept_graph = []
  ∧ compose no_accept_graph single_arc = Some (emptyGraph, []).
Proof.
  assert (H1 : wf no_accept_graph) by (apply wfb_wf; reflexivity).
  assert (H2 : wf single_arc) by (apply wfb_wf; reflexivity).
  split; [exact H1|]. split; [exact H2|]. split; [reflexivity|].
  apply (compose_empty no_accept_graph single_arc H1 H2).
  right. right. left. reflexivity.
Defined.


Lemma forward_ignores_labels_witness :
  ordered single_arc
  ∧ forward_scores (clone_graph single_arc OUTPUT) = forward_scores single_arc.
Proof.
  assert (Ho : ordered single_arc) by (split; reflexivity).
  split; [exact Ho|]. exact (forward_ignores_labels single_arc OUTPUT Ho).
Defined.

Lemma findReachable_complete_witness :
  wf lost_A ∧ wf eps_second
  ∧ coreach lost_A eps_second 0 0
  ∧ ∃ r, findReachable lost_A eps_second = Some r
      ∧ getb r (toIndex 0 0 lost_A) = true.
Proof.
  assert (H1 : wf lost_A) by (apply wfb_wf; reflexivity).
  assert (H2 : wf eps_second) by (apply wfb_wf; reflexivity).
  assert (Hco : coreach lost_A eps_second 0 0).
  { exists [0; 1], [0], 2, 1.
    split; [apply walkb_walk; reflexivity|]. split; [apply walkb_walk; reflexivity|].
    split; [left|]. split; [left|]. reflexivity. }
  split; [exact H1|]. split; [exact H2|]. split; [exact Hco|].
  destruct (findReachable_complete lost_A eps_second H1 H2) as (r & Hr & _ & Hex).
  - intros i [|j] Hi Hj [_ Hj']; [discriminate Hj'|]. cbv in Hj. lia.
  - exists r. split; [exact Hr|]. apply Hex; [cbv; lia|cbv; lia|exact Hco].
Defined.

Lemma compose_complete_witness :
  wf lost_A ∧ wf eps_second
  ∧ ∃ c gradInfo,
      compose lost_A eps_second = Some (c, gradInfo)
      ∧ ∃ u P v, walk c u P v ∧ start c u = true ∧ accept c v = true
          ∧ compose_proj1 gradInfo P = [0; 1] ∧ compose_proj2 gradInfo P = [0].
Proof.
  assert (H1 : wf lost_A) by (apply wfb_wf; reflexivity).
  assert (H2 : wf eps_second) by (apply wfb_wf; reflexivity).
  split; [exact H1|]. split; [exact H2|].
  destruct (compose_complete lost_A eps_second H1 H2) as (c & gi & Hc & Hall).
  - intros i [|j] Hi Hj [_ Hj']; [discriminate Hj'|]. cbv in Hj. lia.
  - exists c, gi. split; [exact Hc|].
    destruct (Hall 0 0 [0; 1] [0] 2 1) as (u & P & v & Hw & Hs & Ha & E1 & E2 & _).
    + left.
    + left.
    + apply walkb_walk; reflexivity.
    + apply walkb_walk; reflexivity.
    + left.
    + left.
    + reflexivity.
    + exists u, P, v. split; [exact Hw|]. split; [exact Hs|]. split; [exact Ha|].
      split; [exact E1|exact E2].
Defined.

Lemma closure_only_star_witness :
  wf single_arc
  ∧ walk (closure_graph single_arc) 0 [1; 0] 2
  ∧ ∃ ps : list (nat * list nat * nat),
      (∀ x, x ∈ ps → x.1.1 ∈ start_ single_arc
                     ∧ walk single_arc x.1.1 x.1.2 x.2 ∧ x.2 ∈ accept_ single_arc)
      ∧ elide (ilabels (closure_graph single_arc) [1; 0])
        = ps ≫= (λ x, elide (ilabels single_arc x.1.2)).
Proof.
  assert (Hwf : wf single_arc) by (apply wfb_wf; reflexivity).
  assert (Hw : walk (closure_graph single_arc) 0 [1; 0] 2)
    by (apply walkb_walk; reflexivity).
  split; [exact Hwf|]. split; [exact Hw|].
  destruct (closure_only_star single_arc [1; 0] 2 Hwf Hw eq_refl) as (ps & Hps & Hi & _).
  exists ps. split; [exact Hps|exact Hi].
Defined.

Lemma remove_keeps_witness :
  wf late_source
  ∧ remove_checked late_source 0 0 = Some (Err IndexOutOfRange)
  ∧ ∃ n u a, kept late_source 0 0 n = true
      ∧ rank late_source 0 0 (numNodes late_source) ≤ n
      ∧ lreach late_source 0 0 n u ∧ upNode late_source a = u
      ∧ label_match late_source 0 0 a = false.
Proof.
  assert (Hwf : wf late_source) by (apply wfb_wf; reflexivity).
  split; [exact Hwf|].
  destruct (remove_keeps late_source 0 0 Hwf)
    as [[Herr (n & u & a & _ & Hk & Hn & Hu & _ & Hup & Hm)]|(g & Hok & _)].
  - split; [exact Herr|]. exists n, u, a.
    split; [exact Hk|]. split; [exact Hn|]. split; [exact Hu|].
    split; [exact Hup|exact Hm].
  - exfalso. vm_compute in Hok. discriminate Hok.
Defined.



End gtn.
